(** * xraycheck: a shallow embedding of the probe pipeline

    The development follows the layout of the Python sources:
    [lib/utils.py], [lib/port_pool.py], [lib/cache.py], [lib/checker.py],
    [lib/speedtest.py], [lib/parsing.py] and [vless_checker.py].

    Conventions.
    - A Python [str] is a list of Unicode code points, a [bytes] object a
      list of integers in [0, 256).
    - A Python [float] holding a duration or a timestamp is a rational.
    - A [dict] is a [gmap], a [set] a [gset].
    - Code that can raise returns [option] (pure code) or runs in the
      exception-and-state monad [Eff] (effectful code). *)

From Stdlib Require Import ZArith QArith Qround Qabs Lia Lqa List String Ascii Bool Permutation.
From stdpp Require Import base option list gmap sets sorting.

#[local] Open Scope Z_scope.

(** ** Python strings *)

Module Py.

Definition str := list Z.
Definition bytes := list Z.

Definition of_ascii (a : ascii) : Z := Z.of_N (N_of_ascii a).

(** [lit "abc"] is the Python literal ["abc"]. *)
Definition lit (s : string) : str := map of_ascii (list_ascii_of_string s).

(** [str.isspace] on one code point (the table of [_PyUnicode_IsWhitespace]). *)
Definition isspace (c : Z) : bool :=
  ((9 <=? c) && (c <=? 13)) || ((28 <=? c) && (c <=? 32)) || (c =? 133) || (c =? 160)
  || (c =? 5760) || ((8192 <=? c) && (c <=? 8202)) || (c =? 8232) || (c =? 8233)
  || (c =? 8239) || (c =? 8287) || (c =? 12288).

(** The line boundaries of [str.splitlines]; [\r\n] is handled by [splitlines]. *)
Definition is_linebreak (c : Z) : bool :=
  ((10 <=? c) && (c <=? 13)) || ((28 <=? c) && (c <=? 30)) || (c =? 133)
  || (c =? 8232) || (c =? 8233).

Fixpoint lstrip (s : str) : str :=
  match s with
  | c :: r => if isspace c then lstrip r else s
  | [] => []
  end.

(** [s.rstrip()]: [s] without its trailing whitespace. *)
Fixpoint rstrip (s : str) : str :=
  match s with
  | [] => []
  | c :: r =>
      match rstrip r with
      | [] => if isspace c then [] else [c]
      | r' => c :: r'
      end
  end.

(** [s.strip()] *)
Definition strip (s : str) : str := rstrip (lstrip s).

(** The first whitespace-delimited token of a string that starts with a
    non-space character. *)
Fixpoint take_token (s : str) : str :=
  match s with
  | c :: r => if isspace c then [] else c :: take_token r
  | [] => []
  end.

(** [s.split(maxsplit=1)[0]]: [None] stands for the [IndexError] Python
    raises when [s] holds no token. *)
Definition first_token (s : str) : option str :=
  match lstrip s with
  | [] => None
  | t => Some (take_token t)
  end.

(** [s.split()]: the maximal runs of non-space characters. [cur] is the
    current run, reversed. *)
Fixpoint split_ws_from (cur : str) (s : str) : list str :=
  match s with
  | [] => match cur with [] => [] | _ => [rev cur] end
  | c :: r =>
      if isspace c
      then match cur with [] => split_ws_from [] r | _ => rev cur :: split_ws_from [] r end
      else split_ws_from (c :: cur) r
  end.

Definition split_ws (s : str) : list str := split_ws_from [] s.

(** [s.splitlines()] *)
Fixpoint splitlines_from (cur : str) (s : str) : list str :=
  match s with
  | [] => match cur with [] => [] | _ => [rev cur] end
  | 13 :: 10 :: r => rev cur :: splitlines_from [] r
  | c :: r =>
      if is_linebreak c then rev cur :: splitlines_from [] r
      else splitlines_from (c :: cur) r
  end.

Definition splitlines (s : str) : list str := splitlines_from [] s.

(** [s.startswith(p)] *)
Fixpoint startswith (p s : str) : bool :=
  match p, s with
  | [], _ => true
  | a :: p', b :: s' => (a =? b) && startswith p' s'
  | _ :: _, [] => false
  end.

(** [s.endswith(p)] *)
Definition endswith (p s : str) : bool := startswith (rev p) (rev s).

(** [sub in s] *)
Fixpoint contains (sub s : str) : bool :=
  startswith sub s || match s with [] => false | _ :: r => contains sub r end.

(** [s.split(sep, 1)[0]] for a one-character separator. *)
Fixpoint before_char (sep : Z) (s : str) : str :=
  match s with
  | [] => []
  | c :: r => if c =? sep then [] else c :: before_char sep r
  end.

(** Truthiness of a string. *)
Definition nonempty (s : str) : bool := match s with [] => false | _ => true end.

(** Lexicographic comparison by code point, the order of [sorted] on strings. *)
Fixpoint str_leb (a b : str) : bool :=
  match a, b with
  | [], _ => true
  | _ :: _, [] => false
  | x :: a', y :: b' => (x <? y) || ((x =? y) && str_leb a' b')
  end.

Definition str_le (a b : str) : Prop := str_leb a b = true.

#[global] Instance str_le_dec : RelDecision str_le.
Proof. intros a b. unfold str_le. apply _. Defined.

(** [sorted(l)] on strings. *)
Definition sorted (l : list str) : list str := merge_sort str_le l.

End Py.

(** ** Rational comparisons used for Python floats *)

Definition Qltb (a b : Q) : bool := negb (Qle_bool b a).
Definition Qleb (a b : Q) : bool := Qle_bool a b.
Definition Qsum (l : list Q) : Q := fold_right Qplus 0%Q l.

(** [round(x)] of Python: round half to even. *)
Definition round_half_even (x : Q) : Z :=
  let f := Qfloor x in
  let d := (x - inject_Z f)%Q in
  if Qltb d (1 # 2) then f
  else if Qltb (1 # 2) d then f + 1
  else if Z.even f then f else f + 1.

(** [round(x, 2)] on the rational the float stands for. *)
Definition round2 (x : Q) : Q := (inject_Z (round_half_even (x * 100)) / 100)%Q.

(** ** lib/utils.py: responses and their validation *)

Module Utils.
Import Py.

(** What the code reads of a [requests.Response]. *)
Record Response := {
  status_code : Z;
  content : bytes;
}.

(** [bool(response)] is [response.ok] in the requests library: the status
    is not a client or server error ([400 <= status < 600]). *)
Definition response_truthy (r : Response) : bool :=
  negb ((400 <=? status_code r) && (status_code r <? 600)).

Definition len {A} (l : list A) : Z := Z.of_nat (length l).

(** [check_response_valid(response, min_size, url)]. The early [return False]
    statements of the source are the [false] branches below, in the same
    order. *)
Definition check_response_valid (response : Response) (min_size : Z) (url : str) : bool :=
  if negb (response_truthy response) then false
  else
    let branch_ok :=
      if contains (lit "generate_204") url then
        if negb ((status_code response =? 200) || (status_code response =? 204)) then false
        else if 64 <? len (content response) then false
        else true
      else if negb ((200 <=? status_code response) && (status_code response <? 400)) then false
      else true in
    if negb branch_ok then false
    else if 0 <? min_size then
      let content_length := len (content response) in
      if content_length <? min_size then false else true
    else true.

(** What [_is_connection_error] reads of an exception: [str(exc).lower()]
    and the type name of [exc.__cause__], when there is a cause. *)
Record RequestError := {
  message_lower : str;
  cause_type : option str;
}.

Definition _is_connection_error (exc : RequestError) : bool :=
  let s := message_lower exc in
  if contains (lit "connection aborted") s || contains (lit "connection reset") s then true
  else match cause_type exc with
       | Some c =>
           if bool_decide (c ∈ [lit "ConnectionResetError"; lit "ConnectionAbortedError";
                                lit "ConnectionRefusedError"])
           then true else false
       | None => false
       end.

Definition is_connection_error (exc : RequestError) : bool := _is_connection_error exc.

(** The geolocation record [_get_geolocation] builds: an IP and, for the
    ip-api format, a country code. *)
Record Geolocation := {
  geo_ip : str;
  geo_country : option str;
}.

(** [_check_geolocation_allowed]: [country.upper() in allowed_countries]; the
    record carries the country code as the service sent it, [upper] is
    passed in since it is a Unicode table. *)
Definition _check_geolocation_allowed (upper : str -> str)
    (geolocation : option Geolocation) (allowed_countries : list str) : bool :=
  match allowed_countries with
  | [] => true
  | _ =>
      match geolocation with
      | None => false
      | Some g =>
          let country := default [] (geo_country g) in
          bool_decide (upper country ∈ allowed_countries)
      end
  end.

End Utils.

(** ** lib/port_pool.py *)

Module PortPool.

(** [list(range(BASE_PORT, BASE_PORT + MAX_WORKERS))] *)
Definition initial_pool (base_port max_workers : Z) : list Z :=
  map (fun i => base_port + Z.of_nat i) (seq 0 (Z.to_nat max_workers)).

(** [take_port]: [list.pop()] removes and returns the last element. *)
Definition take_port (pool : list Z) : option Z * list Z :=
  match rev pool with
  | [] => (None, pool)
  | p :: r => (Some p, rev r)
  end.

(** [return_port]: [list.append]. *)
Definition return_port (port : Z) (pool : list Z) : list Z := pool ++ [port].

End PortPool.

(** ** Effects: exceptions, state and the environment of a probe *)

Module Effects.
Import Py Utils.

(** The exception classes the code distinguishes. [except Exception]
    catches every one of them. *)
Inductive exn :=
  | FileNotFoundError
  | ImportError
  | ValueError
  | RequestException
  | OtherException.

(** The result of running Python code: a value, an exception, or no result
    at all (a loop that never ends). *)
Inductive outcome (A : Type) :=
  | Ret (a : A)
  | Raise (e : exn)
  | Diverge.
Arguments Ret {A} a.
Arguments Raise {A} e.
Arguments Diverge {A}.

Definition Eff (St A : Type) : Type := St -> outcome A * St.

Definition ret {St A} (a : A) : Eff St A := fun s => (Ret a, s).
Definition raise {St A} (e : exn) : Eff St A := fun s => (Raise e, s).
Definition diverge {St A} : Eff St A := fun s => (Diverge, s).

Definition bind {St A B} (m : Eff St A) (k : A -> Eff St B) : Eff St B :=
  fun s =>
    match m s with
    | (Ret a, s') => k a s'
    | (Raise e, s') => (Raise e, s')
    | (Diverge, s') => (Diverge, s')
    end.

Definition get {St} : Eff St St := fun s => (Ret s, s).
Definition gets {St A} (f : St -> A) : Eff St A := fun s => (Ret (f s), s).
Definition modify {St} (f : St -> St) : Eff St unit := fun s => (Ret tt, f s).

(** [try: body / except Exception as e: handler e] *)
Definition try_except {St A} (body : Eff St A) (handler : exn -> Eff St A) : Eff St A :=
  fun s =>
    match body s with
    | (Raise e, s') => handler e s'
    | r => r
    end.

(** [try: body / except E as e: handler e], for the exception classes [E]
    that [catches] accepts. *)
Definition try_catch {St A} (catches : exn -> bool) (body : Eff St A)
    (handler : exn -> Eff St A) : Eff St A :=
  fun s =>
    match body s with
    | (Raise e, s') => if catches e then handler e s' else (Raise e, s')
    | r => r
    end.

(** [try: body / finally: fin]. The [finally] block of the source holds no
    [return]: its own exception, if any, replaces the outcome of [body]. A
    body that never ends never reaches it. *)
Definition try_finally {St A} (body : Eff St A) (fin : Eff St unit) : Eff St A :=
  fun s =>
    match body s with
    | (Diverge, s') => (Diverge, s')
    | (r, s') =>
        match fin s' with
        | (Ret _, s'') => (r, s'')
        | (Raise e, s'') => (Raise e, s'')
        | (Diverge, s'') => (Diverge, s'')
        end
    end.

(** How a loop body ends: fall through to the next iteration ([continue] or
    the end of the body), [break], or [return v] from the enclosing
    function. *)
Inductive ctl (R : Type) :=
  | Next
  | Break
  | Return (r : R).
Arguments Next {R}.
Arguments Break {R}.
Arguments Return {R} r.

(** [for x in l: body x]; the result is [Some v] when the body executed
    [return v]. *)
Fixpoint for_each {St A R} (l : list A) (body : A -> Eff St (ctl R)) : Eff St (option R) :=
  match l with
  | [] => ret None
  | x :: rest =>
      bind (body x) (fun c =>
        match c with
        | Next => for_each rest body
        | Break => ret None
        | Return v => ret (Some v)
        end)
  end.

(** [range(n)] *)
Definition range (n : Z) : list Z := map Z.of_nat (seq 0 (Z.to_nat n)).

End Effects.

(** [let* x := m in k] binds the result of [m]; [m >> k] discards it. *)
Notation "'let*' x ':=' m 'in' k" := (Effects.bind m (fun x => k))
  (at level 10, x name, m at level 100, k at level 200, only parsing).
Notation "'let*' ' p ':=' m 'in' k" := (Effects.bind m (fun x => match x with p => k end))
  (at level 10, p pattern, m at level 100, k at level 200, only parsing).
Notation "m >> k" := (Effects.bind m (fun _ => k))
  (at level 100, k at level 200, right associativity, only parsing).

(** ** The world a probe runs in

    [World] is the process state the checker and the speed test share: the
    port pool of [lib/port_pool.py], the registry [active_processes] of
    [lib/signals.py], the verdict cache passed to [check_key_e2e], and the
    clock. [Env] is everything outside the process: what the relay, the
    network and the file system answer. [trace] is ghost state: the
    externally visible actions, in order. *)

Module Runtime.
Import Py Utils Effects.

Inductive Protocol := vless | vmess | trojan | shadowsocks | hysteria | hysteria2.

(** The fields of a parsed key that the engines read. The credential and
    stream fields only feed the relay's JSON document. *)
Record ParsedProxy := {
  protocol : Protocol;
  address : str;
  port : Z;
}.

(** The relay's JSON document, reduced to the inbound port and the parsed
    key it is projected from. *)
Record XrayConfig := {
  socks_port : Z;
  outbound : ParsedProxy;
}.

(** A cache entry as [json.load] hands it over: either field may be
    missing ([entry.get]). *)
Record CacheEntry := {
  result : option bool;
  timestamp : option Q;
}.

Inductive Event :=
  | EvParse
  | EvTakePort (p : Z)
  | EvReturnPort (p : Z)
  | EvWriteConfig
  | EvSpawn (pid : Z)
  | EvKill (pid : Z)
  | EvUnlink
  | EvConnect
  | EvRequest (url : str).

Record World := {
  now : Q;
  port_pool : list Z;
  active_processes : list (Z * Z);
  cache : gmap str CacheEntry;
  polls_made : nat;
  requests_made : nat;
  geo_made : nat;
  connects_made : nat;
  trace : list Event;
}.

Inductive SpawnOutcome :=
  | Spawned (pid : Z)
  | SpawnFileNotFound
  | SpawnFailed.

(** What one call of [make_request] meets: a response, a
    [requests.RequestException] (returned as the third component), or any
    other exception, which [make_request] lets through. *)
Inductive RequestOutcome :=
  | Responded (r : Response) (elapsed : Q)
  | RequestFailed (e : RequestError) (elapsed : Q)
  | RequestCrashed.

(** A streamed download: the time until the status line and the status
    ([None] when [requests.get] raised a [requests.RequestException]), then
    the chunks, each with its size and the time it took to arrive, and
    whether the stream broke with a [requests.RequestException] after the
    last of them. *)
Record Download := {
  dl_connect_time : Q;
  dl_status : option Z;
  dl_chunks : list (Z * Q);
  dl_broken : bool;
}.

(** One [socket.create_connection] to the local SOCKS port: connected or
    refused, after some time. *)
Inductive ConnectOutcome :=
  | Connected (d : Q)
  | Refused (d : Q).

Record Env := {
  top_level_config_importable : bool;
  write_config_ok : bool;
  spawn_outcome : SpawnOutcome;
  poll_exited : nat -> bool;
  request_outcome : nat -> RequestOutcome;
  geolocation_outcome : nat -> option Geolocation;
  tcp_connect_outcome : option Q;
  socks_connect_outcome : nat -> ConnectOutcome;
  download_outcome : Download;
  upper : str -> str;
}.

Definition with_now (t : Q) (w : World) : World :=
  {| now := t; port_pool := port_pool w; active_processes := active_processes w;
     cache := cache w; polls_made := polls_made w; requests_made := requests_made w;
     geo_made := geo_made w; connects_made := connects_made w; trace := trace w |}.

Definition with_port_pool (p : list Z) (w : World) : World :=
  {| now := now w; port_pool := p; active_processes := active_processes w;
     cache := cache w; polls_made := polls_made w; requests_made := requests_made w;
     geo_made := geo_made w; connects_made := connects_made w; trace := trace w |}.

Definition with_active_processes (a : list (Z * Z)) (w : World) : World :=
  {| now := now w; port_pool := port_pool w; active_processes := a;
     cache := cache w; polls_made := polls_made w; requests_made := requests_made w;
     geo_made := geo_made w; connects_made := connects_made w; trace := trace w |}.

Definition with_cache (c : gmap str CacheEntry) (w : World) : World :=
  {| now := now w; port_pool := port_pool w; active_processes := active_processes w;
     cache := c; polls_made := polls_made w; requests_made := requests_made w;
     geo_made := geo_made w; connects_made := connects_made w; trace := trace w |}.

Definition with_polls_made (n : nat) (w : World) : World :=
  {| now := now w; port_pool := port_pool w; active_processes := active_processes w;
     cache := cache w; polls_made := n; requests_made := requests_made w;
     geo_made := geo_made w; connects_made := connects_made w; trace := trace w |}.

Definition with_requests_made (n : nat) (w : World) : World :=
  {| now := now w; port_pool := port_pool w; active_processes := active_processes w;
     cache := cache w; polls_made := polls_made w; requests_made := n;
     geo_made := geo_made w; connects_made := connects_made w; trace := trace w |}.

Definition with_geo_made (n : nat) (w : World) : World :=
  {| now := now w; port_pool := port_pool w; active_processes := active_processes w;
     cache := cache w; polls_made := polls_made w; requests_made := requests_made w;
     geo_made := n; connects_made := connects_made w; trace := trace w |}.

Definition with_connects_made (n : nat) (w : World) : World :=
  {| now := now w; port_pool := port_pool w; active_processes := active_processes w;
     cache := cache w; polls_made := polls_made w; requests_made := requests_made w;
     geo_made := geo_made w; connects_made := n; trace := trace w |}.

Definition with_trace (t : list Event) (w : World) : World :=
  {| now := now w; port_pool := port_pool w; active_processes := active_processes w;
     cache := cache w; polls_made := polls_made w; requests_made := requests_made w;
     geo_made := geo_made w; connects_made := connects_made w; trace := t |}.

Definition emit (e : Event) : Eff World unit :=
  modify (fun w => with_trace (trace w ++ [e]) w).

Definition advance (d : Q) : Eff World unit :=
  modify (fun w => with_now (now w + d)%Q w).

(** [time.time()] and [time.perf_counter()] *)
Definition time_time : Eff World Q := gets now.
Definition perf_counter : Eff World Q := gets now.

(** [time.sleep(d)]: a negative [d] is a [ValueError]. *)
Definition sleep (d : Q) : Eff World unit :=
  if Qltb d 0 then raise ValueError else advance d.

(** [take_port()] and [return_port(port)] on the pool of the process. *)
Definition take_port : Eff World (option Z) :=
  let* w := get in
  match PortPool.take_port (port_pool w) with
  | (Some p, rest) => modify (with_port_pool rest) >> emit (EvTakePort p) >> ret (Some p)
  | (None, _) => ret None
  end.

Definition return_port (p : Z) : Eff World unit :=
  modify (fun w => with_port_pool (PortPool.return_port p (port_pool w)) w) >>
  emit (EvReturnPort p).

(** [active_processes.append((proc, port))] *)
Definition active_append (pp : Z * Z) : Eff World unit :=
  modify (fun w => with_active_processes (active_processes w ++ [pp]) w).

(** [list.remove(x)]: drops the first occurrence. *)
Fixpoint list_remove_first (x : Z * Z) (l : list (Z * Z)) : option (list (Z * Z)) :=
  match l with
  | [] => None
  | y :: r =>
      if bool_decide (x = y) then Some r
      else match list_remove_first x r with
           | Some r' => Some (y :: r')
           | None => None
           end
  end.

(** [active_processes.remove((proc, port))]: a [ValueError] when the pair is
    not registered. *)
Definition active_remove (pp : Z * Z) : Eff World unit :=
  let* w := get in
  match list_remove_first pp (active_processes w) with
  | Some l => modify (with_active_processes l)
  | None => raise ValueError
  end.

(** [try: active_processes.remove(..) / except ValueError: pass] *)
Definition active_discard (pp : Z * Z) : Eff World unit :=
  try_except (active_remove pp) (fun _ => ret tt).

Section WithEnv.
Context (env : Env).

(** [import config] inside a module of the package [lib]: the name is
    resolved on [sys.path], not in the package. *)
Definition import_config : Eff World unit :=
  if top_level_config_importable env then ret tt else raise ImportError.

(** [build_xray_config(parsed, port)]: the four protocols the relay fronts,
    and [ValueError] for the others. *)
Definition build_xray_config (parsed : ParsedProxy) (p : Z) : Eff World XrayConfig :=
  match protocol parsed with
  | vless | vmess | trojan | shadowsocks => ret {| socks_port := p; outbound := parsed |}
  | hysteria | hysteria2 => raise ValueError
  end.

(** [tempfile.mkstemp(suffix=".json", prefix="xray_")]: the scratch file
    of this probe. Creating it is taken to succeed. *)
Definition mkstemp : Eff World unit := ret tt.

(** [os.fdopen(fd, "w")] followed by [json.dump(config, f)]. *)
Definition write_config (c : XrayConfig) : Eff World unit :=
  if write_config_ok env then emit EvWriteConfig else raise OtherException.

(** [run_xray(config_path, stderr_pipe)]: [subprocess.Popen]. *)
Definition run_xray : Eff World Z :=
  match spawn_outcome env with
  | Spawned pid => emit (EvSpawn pid) >> ret pid
  | SpawnFileNotFound => raise FileNotFoundError
  | SpawnFailed => raise OtherException
  end.

(** [proc.poll() is not None] *)
Definition proc_exited : Eff World bool :=
  let* w := get in
  modify (with_polls_made (S (polls_made w))) >>
  ret (poll_exited env (polls_made w)).

(** [kill_xray_process(proc)]: every exception is handled inside. *)
Definition kill_xray_process (pid : Z) : Eff World unit := emit (EvKill pid).

(** [os.unlink(config_path)] under [except FileNotFoundError: pass]. *)
Definition unlink_config : Eff World unit := emit EvUnlink.

(** The [timeout] argument of [make_request]: one number, or a
    [(connect, read)] pair. *)
Inductive Timeout :=
  | Overall (t : Q)
  | Split (connect_t read_t : Q).

Inductive Method := GET | POST.

(** [make_request(url, proxies, timeout, method, post_data)]: the triple
    [(response, elapsed, error)]. The time-out and the method bound what the
    environment may answer; the answer itself is the environment's. *)
Definition make_request (url : str) (timeout : Timeout) (method : Method)
  : Eff World (option Response * Q * option RequestError) :=
  let* w := get in
  modify (with_requests_made (S (requests_made w))) >>
  emit (EvRequest url) >>
  match request_outcome env (requests_made w) with
  | Responded r elapsed => advance elapsed >> ret (Some r, elapsed, None)
  | RequestFailed e elapsed => advance elapsed >> ret (None, elapsed, Some e)
  | RequestCrashed => raise OtherException
  end.

(** [socket.create_connection((address, port), timeout)] to the key's
    server, as [_check_hysteria_reachable] and [_hysteria_latency] time it:
    the latency on success. *)
Definition tcp_connect : Eff World (option Q) :=
  emit EvConnect >>
  match tcp_connect_outcome env with
  | Some d => advance d >> ret (Some d)
  | None => ret None
  end.

(** [_get_geolocation]: [None] covers every failure and the empty answer. *)
Definition fetch_geolocation : Eff World (option Geolocation) :=
  let* w := get in
  modify (with_geo_made (S (geo_made w))) >>
  ret (geolocation_outcome env (geo_made w)).

End WithEnv.

(** [truthy response]: [response] is not [None] and [bool(response)] holds. *)
Definition truthy (r : option Response) : option Response :=
  match r with
  | Some x => if response_truthy x then Some x else None
  | None => None
  end.

End Runtime.

(** ** lib/config.py: the settings the engines read *)

Module Cfg.
Import Py.

Record Config := {
  ENABLE_CACHE : bool;
  CACHE_TTL : Z;
  CONNECT_TIMEOUT : Z;
  CONNECT_TIMEOUT_SLOW : Z;
  USE_ADAPTIVE_TIMEOUT : bool;
  XRAY_STARTUP_WAIT : Q;
  XRAY_STARTUP_POLL_INTERVAL : Q;
  STRONG_STYLE_TEST : bool;
  STRONG_STYLE_TIMEOUT : Z;
  STRONG_MAX_RESPONSE_TIME : Z;
  STRONG_ATTEMPTS : Z;
  MAX_RESPONSE_TIME : Q;
  MIN_RESPONSE_SIZE : Z;
  MIN_AVG_RESPONSE_TIME : Q;
  TEST_URL : str;
  TEST_URLS : list str;
  TEST_URLS_HTTPS : list str;
  REQUIRE_HTTPS : bool;
  REQUESTS_PER_URL : Z;
  MIN_SUCCESSFUL_REQUESTS : Z;
  MIN_SUCCESSFUL_URLS : Z;
  REQUEST_DELAY : Q;
  MAX_RETRIES : Z;
  RETRY_DELAY_BASE : Q;
  RETRY_DELAY_MULTIPLIER : Q;
  STABILITY_CHECKS : Z;
  STABILITY_CHECK_DELAY : Q;
  STRICT_MODE : bool;
  STRICT_MODE_REQUIRE_ALL : bool;
  TEST_POST_REQUESTS : bool;
  CHECK_GEOLOCATION : bool;
  ALLOWED_COUNTRIES : list str;
  MAX_LATENCY_MS : Z;
  BASE_PORT : Z;
  MAX_WORKERS : Z;
  (** [_debug_first_key] of [lib/logger_config.py], set by [setup_logging]. *)
  debug_first_key : bool;
}.

Definition _CLIENT_TEST_HTTPS : str := lit "https://www.gstatic.com/generate_204".

End Cfg.

(** ** lib/cache.py and lib/checker.py *)

Module Checker.
Import Py Utils Effects Runtime Cfg.

Record Metrics := {
  response_times : list Q;
  geolocation : option Geolocation;
  successful_urls : Z;
  failed_urls : Z;
  total_requests : Z;
  successful_requests : Z;
  cached : bool;
  avg_response_time : option Q;
}.

Definition new_metrics (is_cached : bool) : Metrics :=
  {| response_times := []; geolocation := None; successful_urls := 0; failed_urls := 0;
     total_requests := 0; successful_requests := 0; cached := is_cached;
     avg_response_time := None |}.

Definition with_response_times (x : list Q) (m : Metrics) : Metrics :=
  {| response_times := x; geolocation := geolocation m; successful_urls := successful_urls m;
     failed_urls := failed_urls m; total_requests := total_requests m;
     successful_requests := successful_requests m; cached := cached m;
     avg_response_time := avg_response_time m |}.

Definition with_geolocation (x : option Geolocation) (m : Metrics) : Metrics :=
  {| response_times := response_times m; geolocation := x; successful_urls := successful_urls m;
     failed_urls := failed_urls m; total_requests := total_requests m;
     successful_requests := successful_requests m; cached := cached m;
     avg_response_time := avg_response_time m |}.

Definition with_successful_urls (x : Z) (m : Metrics) : Metrics :=
  {| response_times := response_times m; geolocation := geolocation m; successful_urls := x;
     failed_urls := failed_urls m; total_requests := total_requests m;
     successful_requests := successful_requests m; cached := cached m;
     avg_response_time := avg_response_time m |}.

Definition with_failed_urls (x : Z) (m : Metrics) : Metrics :=
  {| response_times := response_times m; geolocation := geolocation m;
     successful_urls := successful_urls m; failed_urls := x;
     total_requests := total_requests m; successful_requests := successful_requests m;
     cached := cached m; avg_response_time := avg_response_time m |}.

Definition with_total_requests (x : Z) (m : Metrics) : Metrics :=
  {| response_times := response_times m; geolocation := geolocation m;
     successful_urls := successful_urls m; failed_urls := failed_urls m;
     total_requests := x; successful_requests := successful_requests m;
     cached := cached m; avg_response_time := avg_response_time m |}.

Definition with_successful_requests (x : Z) (m : Metrics) : Metrics :=
  {| response_times := response_times m; geolocation := geolocation m;
     successful_urls := successful_urls m; failed_urls := failed_urls m;
     total_requests := total_requests m; successful_requests := x;
     cached := cached m; avg_response_time := avg_response_time m |}.

Definition with_avg_response_time (x : option Q) (m : Metrics) : Metrics :=
  {| response_times := response_times m; geolocation := geolocation m;
     successful_urls := successful_urls m; failed_urls := failed_urls m;
     total_requests := total_requests m; successful_requests := successful_requests m;
     cached := cached m; avg_response_time := x |}.

(** The local variables of [check_key_e2e] that its [try] body mutates and
    its handlers and its [finally] block read afterwards, next to the
    world. *)
Record Frame := {
  world : World;
  proc : option Z;
  metrics : Metrics;
  request_results : list bool;
  request_successful : bool;
  url_results : gmap str bool;
  successful_urls_count : Z;
  stability_results : list bool;
  all_url_results : gmap str (list bool);
}.

Definition new_frame (w : World) (m : Metrics) : Frame :=
  {| world := w; proc := None; metrics := m; request_results := [];
     request_successful := false; url_results := ∅; successful_urls_count := 0;
     stability_results := []; all_url_results := ∅ |}.

Definition with_world (x : World) (f : Frame) : Frame :=
  {| world := x; proc := proc f; metrics := metrics f; request_results := request_results f;
     request_successful := request_successful f; url_results := url_results f;
     successful_urls_count := successful_urls_count f;
     stability_results := stability_results f; all_url_results := all_url_results f |}.

Definition with_proc (x : option Z) (f : Frame) : Frame :=
  {| world := world f; proc := x; metrics := metrics f; request_results := request_results f;
     request_successful := request_successful f; url_results := url_results f;
     successful_urls_count := successful_urls_count f;
     stability_results := stability_results f; all_url_results := all_url_results f |}.

Definition with_metrics (x : Metrics) (f : Frame) : Frame :=
  {| world := world f; proc := proc f; metrics := x; request_results := request_results f;
     request_successful := request_successful f; url_results := url_results f;
     successful_urls_count := successful_urls_count f;
     stability_results := stability_results f; all_url_results := all_url_results f |}.

Definition with_request_results (x : list bool) (f : Frame) : Frame :=
  {| world := world f; proc := proc f; metrics := metrics f; request_results := x;
     request_successful := request_successful f; url_results := url_results f;
     successful_urls_count := successful_urls_count f;
     stability_results := stability_results f; all_url_results := all_url_results f |}.

Definition with_request_successful (x : bool) (f : Frame) : Frame :=
  {| world := world f; proc := proc f; metrics := metrics f;
     request_results := request_results f; request_successful := x;
     url_results := url_results f; successful_urls_count := successful_urls_count f;
     stability_results := stability_results f; all_url_results := all_url_results f |}.

Definition with_url_results (x : gmap str bool) (f : Frame) : Frame :=
  {| world := world f; proc := proc f; metrics := metrics f;
     request_results := request_results f; request_successful := request_successful f;
     url_results := x; successful_urls_count := successful_urls_count f;
     stability_results := stability_results f; all_url_results := all_url_results f |}.

Definition with_successful_urls_count (x : Z) (f : Frame) : Frame :=
  {| world := world f; proc := proc f; metrics := metrics f;
     request_results := request_results f; request_successful := request_successful f;
     url_results := url_results f; successful_urls_count := x;
     stability_results := stability_results f; all_url_results := all_url_results f |}.

Definition with_stability_results (x : list bool) (f : Frame) : Frame :=
  {| world := world f; proc := proc f; metrics := metrics f;
     request_results := request_results f; request_successful := request_successful f;
     url_results := url_results f; successful_urls_count := successful_urls_count f;
     stability_results := x; all_url_results := all_url_results f |}.

Definition with_all_url_results (x : gmap str (list bool)) (f : Frame) : Frame :=
  {| world := world f; proc := proc f; metrics := metrics f;
     request_results := request_results f; request_successful := request_successful f;
     url_results := url_results f; successful_urls_count := successful_urls_count f;
     stability_results := stability_results f; all_url_results := x |}.

(** A world action run from inside the function body. *)
Definition on_world {A} (m : Eff World A) : Eff Frame A :=
  fun f => let '(r, w) := m (world f) in (r, with_world w f).

Definition update_metrics (g : Metrics -> Metrics) : Eff Frame unit :=
  modify (fun f => with_metrics (g (metrics f)) f).

Section WithConfig.
Context (cfg : Config) (env : Env).
Context (get_key_hash : str -> str) (parse_proxy_url : str -> option ParsedProxy).

(** [check_cache(key_hash, cache)] of [lib/cache.py]. *)
Definition check_cache (key_hash : str) : Eff World (option bool) :=
  let* w := get in
  if negb (ENABLE_CACHE cfg) then ret None
  else match cache w !! key_hash with
       | None => ret None
       | Some entry =>
           let* t := time_time in
           if Qltb (t - default 0%Q (timestamp entry)) (inject_Z (CACHE_TTL cfg))
           then ret (result entry)
           else ret None
       end.

(** [cache[key_hash] = {"result": r, "timestamp": time.time()}] *)
Definition cache_store (key_hash : str) (r : bool) : Eff World unit :=
  let* t := time_time in
  modify (fun w =>
    with_cache (<[key_hash := {| result := Some r; timestamp := Some t |}]> (cache w)) w).

(** [_check_hysteria_reachable(address, port, timeout)]: [(True, elapsed)],
    or [(False, timeout)] on a socket error. *)
Definition _check_hysteria_reachable (timeout : Q) : Eff World (bool * Q) :=
  let* r := tcp_connect env in
  match r with
  | Some elapsed => ret (true, elapsed)
  | None => ret (false, timeout)
  end.

(** The start-up wait of lines 169-174:
    [while waited < XRAY_STARTUP_WAIT: poll, sleep, waited += interval].
    The recursion is on the number of iterations left; with a positive
    interval [startup_iterations] of them reach the bound, otherwise the
    loop can spin for ever, which is [diverge]. *)
Fixpoint startup_wait (fuel : nat) (waited : Q) : Eff World unit :=
  if negb (Qltb waited (XRAY_STARTUP_WAIT cfg)) then ret tt
  else match fuel with
       | O => diverge
       | S fuel' =>
           let* exited := proc_exited env in
           if exited then ret tt
           else
             sleep (XRAY_STARTUP_POLL_INTERVAL cfg) >>
             startup_wait fuel' (waited + XRAY_STARTUP_POLL_INTERVAL cfg)%Q
       end.

Definition startup_iterations : nat :=
  if Qltb 0 (XRAY_STARTUP_POLL_INTERVAL cfg)
  then Z.to_nat (Qceiling (XRAY_STARTUP_WAIT cfg / XRAY_STARTUP_POLL_INTERVAL cfg))
  else 1%nat.

Definition timeout_choice : Z :=
  if USE_ADAPTIVE_TIMEOUT cfg then CONNECT_TIMEOUT_SLOW cfg else CONNECT_TIMEOUT cfg.

Definition Verdict : Type := str * bool * Metrics.

(** [active_processes.remove((proc, port)); return (vless_line, alive, metrics)] *)
Definition leave (vless_line : str) (pid port : Z) (alive : bool) : Eff Frame Verdict :=
  on_world (active_remove (pid, port)) >>
  let* m := gets metrics in
  ret (vless_line, alive, m).

(** The same as the last statement of a loop body. *)
Definition leave_loop (vless_line : str) (pid port : Z) (alive : bool)
  : Eff Frame (ctl Verdict) :=
  let* v := leave vless_line pid port alive in ret (Return v).

(** Lines 193-197: the response-time limit and the split time-out of the
    strict probe. [int(STRONG_STYLE_TIMEOUT * 0.4)] truncates towards zero. *)
Definition strong_max_ok_time : Q :=
  if 0 <? STRONG_MAX_RESPONSE_TIME cfg
  then inject_Z (STRONG_MAX_RESPONSE_TIME cfg) else MAX_RESPONSE_TIME cfg.

Definition strong_timeout : Timeout :=
  let connect_t := Z.max 3 (Z.min 10 (Z.quot (STRONG_STYLE_TIMEOUT cfg * 4) 10)) in
  let read_t := Z.max 5 (STRONG_STYLE_TIMEOUT cfg - connect_t) in
  Split (inject_Z connect_t) (inject_Z read_t).

(** Lines 200-219: one attempt of the strict probe, the body of the loop. *)
Definition strong_attempt (vless_line : str) (pid port : Z) (attempt : Z)
  : Eff Frame (ctl Verdict) :=
  let test_url := _CLIENT_TEST_HTTPS in
  let max_ok_time := strong_max_ok_time in
  (if 0 <? attempt then on_world (sleep (1 # 2)) else ret tt) >>
  let* '(response, elapsed_time, error) :=
    on_world (make_request env test_url strong_timeout GET) in
  update_metrics (fun m => with_total_requests (total_requests m + 1) m) >>
  match truthy response, error with
  | Some r, None =>
      if check_response_valid r 0 test_url then
        if Qltb 0 max_ok_time && Qltb max_ok_time elapsed_time then
          leave_loop vless_line pid port false
        else
          update_metrics (fun m => with_response_times (response_times m ++ [elapsed_time]) m) >>
          ret Next
      else leave_loop vless_line pid port false
  | _, _ => leave_loop vless_line pid port false
  end.

(** Lines 191-224: the strict mobile-client probe. *)
Definition strong_style_probe (vless_line : str) (pid port : Z) : Eff Frame Verdict :=
  let attempts_needed := Z.max 1 (STRONG_ATTEMPTS cfg) in
  let* returned := for_each (range attempts_needed) (strong_attempt vless_line pid port) in
  match returned with
  | Some v => ret v
  | None =>
      update_metrics (fun m =>
        with_failed_urls 0 (with_successful_urls 1 (with_successful_requests attempts_needed m))) >>
      leave vless_line pid port true
  end.

(** Lines 266-302: one request with its retries. [continue] and the end of
    the body are [Next]; [break] is [Break]. *)
Definition request_with_retries (should_debug_flag : bool) (url : str) (timeout : Timeout)
  : Eff Frame unit :=
  let* _ := for_each (A := Z) (R := unit) (range (MAX_RETRIES cfg + 1)) (fun retry_attempt =>
    (if 0 <? retry_attempt then
       let delay := (RETRY_DELAY_BASE cfg
                     * Qpower (RETRY_DELAY_MULTIPLIER cfg) (retry_attempt - 1))%Q in
       on_world (sleep delay)
     else ret tt) >>
    let* '(response, elapsed_time, error) := on_world (make_request env url timeout GET) in
    update_metrics (fun m => with_total_requests (total_requests m + 1) m) >>
    let after_response : Eff Frame (ctl unit) :=
      match error with
      | Some e =>
          if is_connection_error e && (retry_attempt <? MAX_RETRIES cfg) then ret Next
          else ret Break
      | None => ret Next
      end in
    match truthy response, error with
    | Some r, None =>
        if check_response_valid r (MIN_RESPONSE_SIZE cfg) url then
          if Qltb 0 (MAX_RESPONSE_TIME cfg) && Qltb (MAX_RESPONSE_TIME cfg) elapsed_time
          then ret Next
          else
            update_metrics (fun m => with_response_times (response_times m ++ [elapsed_time]) m) >>
            modify (fun f => with_request_results (request_results f ++ [true]) f) >>
            update_metrics (fun m => with_successful_requests (successful_requests m + 1) m) >>
            modify (with_request_successful true) >>
            ret Break
        else after_response
    | _, _ => after_response
    end) in
  ret tt.

Definition count_true (l : list bool) : Z := len (filter (fun b => b = true) l).

(** [any(url_results.get(u, False) for u, t in all_urls if t == "https")] *)
Definition any_https_success (all_urls : list (str * bool)) (results : gmap str bool) : bool :=
  existsb (fun ut => default false (results !! ut.1)) (filter (fun ut => ut.2 = true) all_urls).

(** Lines 253-322: the sweep over the URLs of one stability round. A URL is
    paired with [true] when its type is ["https"]. *)
Definition probe_urls (should_debug_flag : bool) (all_urls : list (str * bool))
    (timeout : Timeout) : Eff Frame unit :=
  let* _ := for_each (R := unit) all_urls (fun '(url, url_type) =>
    modify (with_request_results []) >>
    let* _ := for_each (A := Z) (R := unit) (range (REQUESTS_PER_URL cfg)) (fun request_num =>
      (if 0 <? request_num then on_world (sleep (REQUEST_DELAY cfg)) else ret tt) >>
      modify (with_request_successful false) >>
      request_with_retries should_debug_flag url timeout >>
      modify (fun f => with_request_results (request_results f ++ [request_successful f]) f) >>
      ret Next) in
    let* f := get in
    let successful_requests := count_true (request_results f) in
    let url_successful := MIN_SUCCESSFUL_REQUESTS cfg <=? successful_requests in
    (if url_successful
     then modify (fun f => with_successful_urls_count (successful_urls_count f + 1) f)
     else ret tt) >>
    modify (fun f => with_url_results (<[url := url_successful]> (url_results f)) f) >>
    let* f := get in
    if negb (STRICT_MODE cfg) && (MIN_SUCCESSFUL_URLS cfg <=? successful_urls_count f) then
      if negb (REQUIRE_HTTPS cfg) then ret Break
      else if any_https_success all_urls (url_results f) then ret Break
      else ret Next
    else ret Next) in
  ret tt.

(** Lines 349-352: file the outcomes of this round under each URL. *)
Definition record_round (round : gmap str bool) (all : gmap str (list bool))
  : gmap str (list bool) :=
  map_fold (fun url success acc => <[url := default [] (acc !! url) ++ [success]]> acc)
           all round.

(** [sum(1 for url in https_urls if results.get(url, False))] *)
Definition https_successes (all_urls : list (str * bool)) (results : gmap str bool) : Z :=
  len (filter (fun ut => default false (results !! ut.1) = true)
              (filter (fun ut => ut.2 = true) all_urls)).

Definition https_urls (all_urls : list (str * bool)) : list (str * bool) :=
  filter (fun ut => ut.2 = true) all_urls.

(** Lines 245-381: one stability round. *)
Definition stability_round (vless_line : str) (pid port : Z) (should_debug_flag : bool)
    (all_urls : list (str * bool)) (timeout : Timeout) (stability_check : Z)
  : Eff Frame (ctl Verdict) :=
  (if 0 <? stability_check then on_world (sleep (STABILITY_CHECK_DELAY cfg)) else ret tt) >>
  modify (with_url_results ∅) >>
  modify (with_successful_urls_count 0) >>
  probe_urls should_debug_flag all_urls timeout >>
  (if TEST_POST_REQUESTS cfg then
     let post_url := match all_urls with (u, _) :: _ => u | [] => TEST_URL cfg end in
     let* '(post_response, post_elapsed, post_error) := on_world (make_request env post_url timeout POST) in
     update_metrics (fun m => with_total_requests (total_requests m + 1) m) >>
     match truthy post_response, post_error with
     | Some r, None =>
         if check_response_valid r (MIN_RESPONSE_SIZE cfg) post_url then
           update_metrics (fun m => with_successful_requests (successful_requests m + 1) m) >>
           update_metrics (fun m => with_response_times (response_times m ++ [post_elapsed]) m)
         else ret tt
     | _, _ => ret tt
     end
   else ret tt) >>
  let* geo_rejected :=
    (if CHECK_GEOLOCATION cfg then
       let* g := on_world (fetch_geolocation env) in
       match g with
       | Some geo =>
           update_metrics (with_geolocation (Some geo)) >>
           ret (negb (_check_geolocation_allowed (upper env) (Some geo) (ALLOWED_COUNTRIES cfg)))
       | None => ret false
       end
     else ret false) in
  if (geo_rejected : bool) then leave_loop vless_line pid port false
  else
    modify (fun f => with_all_url_results (record_round (url_results f) (all_url_results f)) f) >>
    let* f := get in
    let https_check_passed :=
      if REQUIRE_HTTPS cfg then
        match https_urls all_urls with
        | [] => true
        | _ => negb (https_successes all_urls (url_results f) =? 0)
        end
      else true in
    if STRICT_MODE cfg && STRICT_MODE_REQUIRE_ALL cfg then
      let all_urls_passed := successful_urls_count f =? len all_urls in
      modify (fun f => with_stability_results
                         (stability_results f ++ [all_urls_passed && https_check_passed]) f) >>
      if negb all_urls_passed then leave_loop vless_line pid port false
      else if negb https_check_passed then leave_loop vless_line pid port false
      else ret Next
    else
      modify (fun f => with_stability_results
                         (stability_results f
                          ++ [(MIN_SUCCESSFUL_URLS cfg <=? successful_urls_count f)
                              && https_check_passed]) f) >>
      ret Next.

(** Lines 404-418: the outcome of the last round for each configured URL. *)
Definition final_results (all_urls : list (str * bool)) (all : gmap str (list bool))
  : gmap str bool * Z :=
  fold_left (fun '(final, n) '(url_key, _) =>
               match all !! url_key with
               | Some rs =>
                   let v := default false (last rs) in
                   (<[url_key := v]> final, if v then n + 1 else n)
               | None => (final, n)
               end)
            all_urls (∅, 0).

(** Lines 226-470: the general probe. *)
Definition normal_probe (vless_line : str) (pid port : Z) (should_debug_flag : bool)
    (cache_given : bool) : Eff Frame Verdict :=
  let timeout := Overall (inject_Z timeout_choice) in
  let all_urls :=
    map (fun u => (u, false)) (TEST_URLS cfg) ++ map (fun u => (u, true)) (TEST_URLS_HTTPS cfg) in
  let all_urls :=
    match all_urls with
    | [] => if nonempty (TEST_URL cfg) then [(TEST_URL cfg, false)] else []
    | _ => all_urls
    end in
  match all_urls with
  | [] => leave vless_line pid port false
  | _ =>
      let* returned := for_each (range (STABILITY_CHECKS cfg))
                         (stability_round vless_line pid port should_debug_flag all_urls timeout) in
      match returned with
      | Some v => ret v
      | None =>
          let* f := get in
          if (1 <? STABILITY_CHECKS cfg) && negb (forallb id (stability_results f))
          then leave vless_line pid port false
          else
            let* slow :=
              match response_times (metrics f) with
              | [] => ret false
              | ts =>
                  let avg_time := (Qsum ts / inject_Z (len ts))%Q in
                  update_metrics (with_avg_response_time (Some avg_time)) >>
                  ret (Qltb 0 (MIN_AVG_RESPONSE_TIME cfg)
                       && Qltb (MIN_AVG_RESPONSE_TIME cfg) avg_time)
              end in
            if (slow : bool) then leave vless_line pid port false
            else
              let '(final_url_results, final_successful_count) :=
                final_results all_urls (all_url_results f) in
              update_metrics (fun m =>
                with_failed_urls (len all_urls - final_successful_count)
                  (with_successful_urls final_successful_count m)) >>
              let is_available := MIN_SUCCESSFUL_URLS cfg <=? final_successful_count in
              let* is_available :=
                (if REQUIRE_HTTPS cfg then
                   match https_urls all_urls with
                   | [] => ret false
                   | _ =>
                       if https_successes all_urls final_url_results =? 0 then
                         (if should_debug_flag then on_world (import_config env) else ret tt) >>
                         ret false
                       else ret is_available
                   end
                 else ret is_available) in
              let is_available :=
                if STRICT_MODE cfg && STRICT_MODE_REQUIRE_ALL cfg then
                  let a := final_successful_count =? len all_urls in
                  if REQUIRE_HTTPS cfg then
                    match https_urls all_urls with
                    | [] => false
                    | hs => a && (https_successes all_urls final_url_results =? len hs)
                    end
                  else a
                else is_available in
              (if cache_given && ENABLE_CACHE cfg
               then on_world (cache_store (get_key_hash vless_line) is_available)
               else ret tt) >>
              leave vless_line pid port is_available
      end
  end.

(** Lines 166-470: the body of the [try] statement. *)
Definition probe_body (vless_line : str) (port : Z) (should_debug_flag : bool)
    (cache_given : bool) : Eff Frame Verdict :=
  let* pid := on_world (run_xray env) in
  modify (with_proc (Some pid)) >>
  on_world (active_append (pid, port)) >>
  on_world (startup_wait startup_iterations 0) >>
  let* exited := on_world (proc_exited env) in
  if (exited : bool) then leave vless_line pid port false
  else if STRONG_STYLE_TEST cfg then strong_style_probe vless_line pid port
  else normal_probe vless_line pid port should_debug_flag cache_given.

(** Lines 472-497: the two [except] clauses. *)
Definition probe_handler (vless_line : str) (port : Z) (should_debug_flag : bool)
    (e : exn) : Eff Frame Verdict :=
  match e with
  | FileNotFoundError =>
      (if should_debug_flag then on_world (import_config env) else ret tt) >>
      let* f := get in
      (match proc f with
       | Some pid => on_world (active_discard (pid, port))
       | None => ret tt
       end) >>
      ret (vless_line, false, metrics f)
  | _ =>
      let* f := get in
      (match proc f with
       | Some pid => on_world (active_discard (pid, port))
       | None => ret tt
       end) >>
      ret (vless_line, false, metrics f)
  end.

(** Lines 498-516: the [finally] block. *)
Definition probe_finally (port : Z) : Eff Frame unit :=
  let* f := get in
  (match proc f with
   | Some pid =>
       on_world (active_discard (pid, port)) >>
       on_world (kill_xray_process pid)
   | None => ret tt
   end) >>
  on_world unlink_config >>
  on_world (return_port port).

(** Run a function body on fresh locals. *)
Definition in_frame {A} (m0 : Metrics) (body : Eff Frame A) : Eff World A :=
  fun w => let '(r, f) := body (new_frame w m0) in (r, world f).

(** [check_key_e2e(vless_line, debug, cache)]. [cache_given] says that the
    argument [cache] is a dictionary (not [None]); the dictionary itself is
    the [cache] of the world, since the caller shares one among all
    probes. *)
Definition check_key_e2e (vless_line : str) (debug : bool) (cache_given : bool)
  : Eff World Verdict :=
  let should_debug_flag := debug && debug_first_key cfg in
  let* cached_result :=
    (if cache_given && ENABLE_CACHE cfg
     then check_cache (get_key_hash vless_line)
     else ret None) in
  match cached_result with
  | Some r => ret (vless_line, r, new_metrics true)
  | None =>
      let metrics0 := new_metrics false in
      emit EvParse >>
      match parse_proxy_url vless_line with
      | None => ret (vless_line, false, metrics0)
      | Some parsed =>
          match protocol parsed with
          | hysteria | hysteria2 =>
              let timeout := timeout_choice in
              let* '(ok, latency) := _check_hysteria_reachable (inject_Z timeout) in
              let m1 := if ok then with_response_times [latency] metrics0 else metrics0 in
              (if cache_given && ENABLE_CACHE cfg
               then cache_store (get_key_hash vless_line) ok
               else ret tt) >>
              ret (vless_line, ok,
                   with_failed_urls (if ok then 0 else 1)
                     (with_successful_urls (if ok then 1 else 0) m1))
          | _ =>
              let* leased := take_port in
              match leased with
              | None => ret (vless_line, false, metrics0)
              | Some port =>
                  let* config := build_xray_config parsed port in
                  mkstemp >>
                  let* written := try_except (write_config env config >> ret true)
                                             (fun _ => ret false) in
                  if (written : bool) then
                    in_frame metrics0
                      (try_finally
                         (try_except (probe_body vless_line port should_debug_flag cache_given)
                                     (probe_handler vless_line port should_debug_flag))
                         (probe_finally port))
                  else
                    return_port port >>
                    ret (vless_line, false, metrics0)
              end
          end
      end
  end.

End WithConfig.

End Checker.

(** ** lib/speedtest.py *)

Module Speedtest.
Import Py Utils Effects Runtime Cfg.

(** The local variables of [speed_test_key] that its [finally] block
    reads. *)
Record Frame := {
  world : World;
  proc : option Z;
}.

Definition on_world {A} (m : Eff World A) : Eff Frame A :=
  fun f => let '(r, w) := m (world f) in (r, {| world := w; proc := proc f |}).

Definition set_proc (pid : Z) : Eff Frame unit :=
  modify (fun f => {| world := world f; proc := Some pid |}).

Definition in_frame {A} (body : Eff Frame A) : Eff World A :=
  fun w => let '(r, f) := body {| world := w; proc := None |} in (r, world f).

Section WithConfig.
Context (cfg : Config) (env : Env).
Context (parse_proxy_url : str -> option ParsedProxy).

(** [_wait_for_port(host, port, max_wait, poll_interval)]: connect to the
    SOCKS port until it answers or the deadline passes. Each refused
    connect is followed by a sleep of [poll_interval], so the loop runs at
    most [fuel] times when [fuel * poll_interval] covers [max_wait]. *)
Fixpoint wait_for_port_loop (fuel : nat) (deadline poll_interval : Q) : Eff World bool :=
  let* t := perf_counter in
  if negb (Qltb t deadline) then ret false
  else match fuel with
       | O => diverge
       | S fuel' =>
           let* w := get in
           modify (with_connects_made (S (connects_made w))) >>
           match socks_connect_outcome env (connects_made w) with
           | Connected d => advance d >> ret true
           | Refused d =>
               advance d >>
               sleep poll_interval >>
               wait_for_port_loop fuel' deadline poll_interval
           end
       end.

Definition _wait_for_port (max_wait poll_interval : Q) : Eff World bool :=
  let* t := perf_counter in
  let deadline := (t + max_wait)%Q in
  let fuel := if Qltb 0 poll_interval
              then S (Z.to_nat (Qceiling (max_wait / poll_interval)))
              else 1%nat in
  wait_for_port_loop fuel deadline poll_interval.

(** [_hysteria_latency(address, port, timeout)]: milliseconds, or [None]. *)
Definition _hysteria_latency : Eff World (option Q) :=
  let* r := tcp_connect env in
  match r with
  | Some elapsed => ret (Some (elapsed * 1000)%Q)
  | None => ret None
  end.

(** Lines 88-92: the loop over [r.iter_content]. *)
Fixpoint read_chunks (chunks : list (Z * Q)) (broken : bool) (start_time : Q)
    (timeout_sec : Z) (downloaded : Z) : Eff World Z :=
  match chunks with
  | [] => if broken then raise RequestException else ret downloaded
  | (size, dt) :: rest =>
      advance dt >>
      let downloaded := if 0 <? size then downloaded + size else downloaded in
      let* t := perf_counter in
      if Qltb (inject_Z timeout_sec) (t - start_time) then ret downloaded
      else read_chunks rest broken start_time timeout_sec downloaded
  end.

(** [_test_download_speed(proxies, url, timeout_sec)] *)
Definition _test_download_speed (url : str) (timeout_sec : Z) : Eff World (option Q) :=
  try_catch (fun e => match e with RequestException => true | _ => false end)
    (let* start_time := perf_counter in
     let d := download_outcome env in
     advance (dl_connect_time d) >>
     match dl_status d with
     | None => raise RequestException
     | Some status =>
         if negb (status =? 200) then ret None
         else
           let* downloaded := read_chunks (dl_chunks d) (dl_broken d) start_time timeout_sec 0 in
           let* t := perf_counter in
           let elapsed := (t - start_time)%Q in
           if Qltb elapsed (3 # 10) then ret None
           else
             let speed_mbps := (inject_Z (downloaded * 8) / (elapsed * 1000000))%Q in
             ret (Some (round2 speed_mbps))
     end)
    (fun _ => ret None).

Definition Qmax (a b : Q) : Q := if Qltb a b then b else a.
Definition Qmin (a b : Q) : Q := if Qltb b a then b else a.

(** Lines 183-194: the latency requests. *)
Fixpoint latency_requests (count : nat) (deadline : Q) (timeout : Timeout) (test_url : str)
    (response_times : list Q) : Eff World (list Q) :=
  match count with
  | O => ret response_times
  | S count' =>
      let* t := perf_counter in
      if negb (Qltb t deadline) then ret response_times
      else
        let* '(resp, elapsed, err) := make_request env test_url timeout GET in
        let response_times :=
          match truthy resp, err with
          | Some r, None =>
              if check_response_valid r 0 test_url
              then response_times ++ [(elapsed * 1000)%Q] else response_times
          | _, _ => response_times
          end in
        latency_requests count' deadline timeout test_url response_times
  end.

(** Lines 154-221: the body of the [try] statement. *)
Definition speed_test_body (proxy_line : str) (port : Z) (timeout : Q) (metric : str)
    (requests_count : Z) (test_url mode : str) (download_timeout : Z)
    (download_url_small download_url_medium : str) : Eff Frame (option (str * Q)) :=
  let* pid := on_world (run_xray env) in
  set_proc pid >>
  on_world (active_append (pid, port)) >>
  on_world (Checker.startup_wait cfg env (Checker.startup_iterations cfg) 0) >>
  let* exited := on_world (proc_exited env) in
  if (exited : bool) then ret None
  else
    let* ready := on_world (_wait_for_port (Qmin (5 # 2) timeout) (1 # 20)) in
    if negb ready then ret None
    else
      let* now0 := on_world perf_counter in
      let deadline := (now0 + timeout)%Q in
      let per_request_timeout :=
        Qmax 1 ((timeout - (1 # 5)) / inject_Z (Z.max 1 requests_count)) in
      let connect_t := Qmin 5 (Qmax 1 (per_request_timeout * (1 # 2))) in
      let read_t := Qmin 15 (Qmax 3 (per_request_timeout * (3 # 5))) in
      let* response_times :=
        on_world (latency_requests (Z.to_nat requests_count) deadline
                    (Split connect_t read_t) test_url []) in
      match response_times with
      | [] => ret None
      | _ =>
          let avg_latency_ms := (Qsum response_times / inject_Z (len response_times))%Q in
          if bool_decide (mode = lit "quick") && nonempty download_url_small then
            let* speed_mbps :=
              on_world (_test_download_speed download_url_small (Z.min 10 download_timeout)) in
            match speed_mbps with
            | Some v => ret (Some (proxy_line, v))
            | None => ret None
            end
          else if bool_decide (mode = lit "full") && nonempty download_url_medium then
            let* speed_mbps :=
              on_world (_test_download_speed download_url_medium download_timeout) in
            match speed_mbps with
            | Some v => ret (Some (proxy_line, v))
            | None => ret None
            end
          else if bool_decide (mode = lit "latency")
                  || negb (nonempty download_url_small || nonempty download_url_medium) then
            if bool_decide (metric = lit "throughput") then
              ret (Some (proxy_line,
                         if Qltb 0 avg_latency_ms then (100000 / avg_latency_ms)%Q else 0%Q))
            else ret (Some (proxy_line, avg_latency_ms))
          else ret (Some (proxy_line, avg_latency_ms))
      end.

(** Lines 227-238: the [finally] block. *)
Definition speed_test_finally (port : Z) : Eff Frame unit :=
  let* f := get in
  (match proc f with
   | Some pid =>
       on_world (active_discard (pid, port)) >>
       on_world (kill_xray_process pid)
   | None => ret tt
   end) >>
  on_world unlink_config >>
  on_world (return_port port).

(** [speed_test_key(proxy_line, timeout, metric, requests_count, test_url,
    mode, download_timeout, download_url_small, download_url_medium)] *)
Definition speed_test_key (proxy_line : str) (timeout : Q) (metric : str)
    (requests_count : Z) (test_url mode : str) (download_timeout : Z)
    (download_url_small download_url_medium : str) : Eff World (option (str * Q)) :=
  match parse_proxy_url proxy_line with
  | None => ret None
  | Some parsed =>
      match protocol parsed with
      | hysteria | hysteria2 =>
          let* ok_latency := _hysteria_latency in
          match ok_latency with
          | Some l => ret (Some (proxy_line, l))
          | None => ret None
          end
      | _ =>
          let* leased := take_port in
          match leased with
          | None => ret None
          | Some port =>
              let* config := build_xray_config parsed port in
              mkstemp >>
              let* written := try_except (write_config env config >> ret true)
                                         (fun _ => ret false) in
              if (written : bool) then
                in_frame
                  (try_finally
                     (try_except
                        (speed_test_body proxy_line port timeout metric requests_count
                           test_url mode download_timeout download_url_small
                           download_url_medium)
                        (fun _ => ret None))
                     (speed_test_finally port))
              else return_port port >> ret None
          end
      end
  end.

End WithConfig.

End Speedtest.

(** ** lib/parsing.py: keys, normal forms and the notworkers file *)

Module Parsing.
Import Py.

Definition _SUBSCRIPTION_PROTOCOLS : list str :=
  [lit "vless://"; lit "vmess://"; lit "trojan://"; lit "ss://"; lit "hysteria://";
   lit "hysteria2://"; lit "hy2://"].

(** [any(s.startswith(p) for p in _SUBSCRIPTION_PROTOCOLS)] *)
Definition has_protocol (s : str) : bool :=
  existsb (fun p => startswith p s) _SUBSCRIPTION_PROTOCOLS.

Definition hash : Z := 35.

(** [normalize_proxy_link(link)]: the key without its fragment. [None] is
    the [IndexError] of [split(maxsplit=1)[0]] on a blank [link]. *)
Definition normalize_proxy_link (link : str) : option str :=
  match first_token (strip link) with
  | None => None
  | Some link =>
      Some (if contains [hash] link then strip (before_char hash link) else link)
  end.

(** A text file as iteration over it yields it: its lines, each with its
    line terminator; [None] when [os.path.isfile] fails. *)
Definition File : Type := option (list str).

(** The body of the loop of [load_notworkers_with_lines] on one line:
    [Some (Some (norm, full_line))] when the line yields an entry,
    [Some None] when it is skipped, [None] when an exception escapes. *)
Definition notworker_entry (line : str) : option (option (str * str)) :=
  let full_line := strip line in
  if negb (nonempty full_line) || startswith (lit "#") full_line then Some None
  else
    match first_token full_line with
    | None => None
    | Some token =>
        let link := strip token in
        if nonempty link && has_protocol link then
          match normalize_proxy_link link with
          | Some norm => Some (Some (norm, full_line))
          | None => None
          end
        else Some None
    end.

(** One turn of the loop: [result.add(norm)] and
    [normalized_to_full[norm] = full_line]. *)
Definition notworkers_step (acc : option (gset str * gmap str str)) (line : str)
  : option (gset str * gmap str str) :=
  match acc with
  | None => None
  | Some (result, normalized_to_full) =>
      match notworker_entry line with
      | None => None
      | Some None => Some (result, normalized_to_full)
      | Some (Some (norm, full_line)) =>
          Some ({[norm]} ∪ result, <[norm := full_line]> normalized_to_full)
      end
  end.

(** [load_notworkers_with_lines(path)]: the set of normal forms and the
    map from a normal form to its full line. *)
Definition load_notworkers_with_lines (file : File) : option (gset str * gmap str str) :=
  match file with
  | None => Some (∅, ∅)
  | Some lines => foldl notworkers_step (Some (∅, ∅)) lines
  end.

(** [load_notworkers(path)] *)
Definition load_notworkers (file : File) : option (gset str) :=
  match load_notworkers_with_lines file with
  | Some (normalized_set, _) => Some normalized_set
  | None => None
  end.

Definition newline : Z := 10.

(** What [save_notworkers] writes for [norm]: nothing when the full line
    is empty. *)
Definition notworkers_line (normalized_to_full : gmap str str) (norm : str) : option str :=
  match normalized_to_full !! norm with
  | Some full_line => if nonempty full_line then Some (full_line ++ [newline]) else None
  | None => None
  end.

(** [save_notworkers(path, normalized_to_full)]: the file it leaves. *)
Definition save_notworkers (normalized_to_full : gmap str str) : File :=
  Some (omap (notworkers_line normalized_to_full)
             (sorted (map_to_list normalized_to_full).*1)).

(** The body of the loop of [parse_proxy_lines] on one line. *)
Definition proxy_line_entry (line : str) : option (option (str * str)) :=
  let line := strip line in
  if negb (nonempty line) then Some None
  else if has_protocol line then
    match first_token line with
    | None => None
    | Some token =>
        let link := strip token in
        if nonempty link then Some (Some (link, line)) else Some None
    end
  else Some None.

(** Collecting the entries of a loop over lines, in order. *)
Fixpoint collect_entries (entry : str -> option (option (str * str))) (lines : list str)
  : option (list (str * str)) :=
  match lines with
  | [] => Some []
  | line :: rest =>
      match entry line with
      | None => None
      | Some e =>
          match collect_entries entry rest with
          | None => None
          | Some result => Some (match e with Some x => x :: result | None => result end)
          end
      end
  end.

(** [parse_proxy_lines(text)]: the pairs (link, full line). *)
Definition parse_proxy_lines (text : str) : option (list (str * str)) :=
  collect_entries proxy_line_entry (splitlines text).

(** The body of the loop of [load_keys_from_file] on one line. *)
Definition key_file_entry (line : str) : option (option (str * str)) :=
  let line := strip line in
  if negb (nonempty line) || startswith (lit "#") line then Some None
  else if has_protocol line then
    match first_token line with
    | None => None
    | Some token =>
        let link := strip token in
        if nonempty link then Some (Some (link, line)) else Some None
    end
  else Some None.

(** [load_keys_from_file(path)] *)
Definition load_keys_from_file (file : File) : option (list (str * str)) :=
  match file with
  | None => Some []
  | Some lines => collect_entries key_file_entry lines
  end.

End Parsing.

(** ** vless_checker.py: the tally of a run and the notworkers update *)

Module Main.
Import Py Utils Runtime Cfg Checker Parsing.

(** What [main] accumulates while the probes complete. *)
Record Tally := {
  available : list (str * Q);
  available_keys : list str;
  all_metrics : gmap str Metrics;
}.

Definition empty_tally : Tally :=
  {| available := []; available_keys := []; all_metrics := ∅ |}.

(** The average latency that [format_key_with_metadata] computes, in
    milliseconds: 0 without response times. *)
Definition avg_latency_ms (metrics : Metrics) : Q :=
  match response_times metrics with
  | [] => 0%Q
  | ts => (Qsum ts / inject_Z (len ts) * 1000)%Q
  end.

Section WithConfig.
Context (cfg : Config).

(** The text that [format_key_with_metadata] renders for the output file
    (latency prefix or metadata comments, then the full line). *)
Context (render : str -> Metrics -> str).

Definition format_key_with_metadata (link : str) (metrics : Metrics) : str * Q :=
  (render link metrics, avg_latency_ms metrics).

(** Lines 267-273 (and 222-228 for the first key): one completed probe.
    [None] is a future whose [result()] raised: the tally is left alone. *)
Definition record_result (t : Tally) (r : option (str * bool * Metrics)) : Tally :=
  match r with
  | None => t
  | Some (link, ok, metrics) =>
      let t := {| available := available t; available_keys := available_keys t;
                  all_metrics := <[link := metrics]> (all_metrics t) |} in
      if (ok : bool) then
        let '(formatted, latency) := format_key_with_metadata link metrics in
        if Qleb latency (inject_Z (MAX_LATENCY_MS cfg)) then
          {| available := available t ++ [(formatted, latency)];
             available_keys := available_keys t ++ [link];
             all_metrics := all_metrics t |}
        else t
      else t
  end.

(** The probes of a run, in the order in which they complete. *)
Definition tally_results (results : list (option (str * bool * Metrics))) : Tally :=
  foldl record_result empty_tally results.

(** The order in which Python iterates over a set of strings. *)
Context (set_iter : gset str -> list str).

(** [[normalize_proxy_link(link) for link in links]]; an exception of one
    call is an exception of the whole. *)
Definition normalize_each (links : list str) : option (list str) :=
  mapM normalize_proxy_link links.

(** [{normalize_proxy_link(link) for link in links if normalize_proxy_link(link)}] *)
Definition normalized_set (links : gset str) : option (gset str) :=
  match normalize_each (set_iter links) with
  | Some norms => Some (list_to_set (List.filter nonempty norms))
  | None => None
  end.

(** One item of the comprehension
    [{normalize_proxy_link(link): _link_to_full.get(link, link) for link in failed_links}]. *)
Definition full_line_step (link_to_full : gmap str str) (acc : option (gmap str str))
    (link : str) : option (gmap str str) :=
  match acc, normalize_proxy_link link with
  | Some m, Some norm => Some (<[norm := default link (link_to_full !! link)]> m)
  | _, _ => None
  end.

Definition normalized_to_full_of (link_to_full : gmap str str) (failed_links : gset str)
  : option (gmap str str) :=
  foldl (full_line_step link_to_full) (Some ∅) (set_iter failed_links).

(** [{n: value(n) for n in keys}] *)
Definition dict_of_keys (value : str -> str) (keys : list str) : gmap str str :=
  foldl (fun m n => <[n := value n]> m) ∅ keys.

(** [existing_normalized_to_full.get(n) or failed_normalized_to_full.get(n, n)] *)
Definition merged_line (existing_normalized_to_full failed_normalized_to_full : gmap str str)
    (n : str) : str :=
  match existing_normalized_to_full !! n with
  | Some full => if nonempty full then full else default n (failed_normalized_to_full !! n)
  | None => default n (failed_normalized_to_full !! n)
  end.

(** Lines 402-415 of [save_results_and_exit]: the notworkers file after
    the run, [None] when an exception escapes. *)
Definition update_notworkers (all_metrics_keys passed_links : gset str)
    (link_to_full : gmap str str) (file : File) : option File :=
  let available_links := passed_links in
  let failed_links := all_metrics_keys ∖ available_links in
  match normalized_set available_links with
  | None => None
  | Some available_normalized =>
      if bool_decide (failed_links ≠ ∅) || bool_decide (available_normalized ≠ ∅) then
        match load_notworkers_with_lines file with
        | None => None
        | Some (existing_set, existing_normalized_to_full) =>
            match normalized_set failed_links with
            | None => None
            | Some failed_normalized =>
                match normalized_to_full_of link_to_full failed_links with
                | None => None
                | Some failed_normalized_to_full =>
                    let merged_set :=
                      (existing_set ∪ failed_normalized) ∖ available_normalized in
                    let merged_normalized_to_full :=
                      dict_of_keys (merged_line existing_normalized_to_full
                                      failed_normalized_to_full)
                                   (set_iter merged_set) in
                    Some (save_notworkers merged_normalized_to_full)
                end
            end
        end
      else Some file
  end.

(** The notworkers file after a run whose probes completed as [results]:
    [save_results_and_exit(..., all_metrics, ..., link_to_full,
    set(available_keys))]. *)
Definition notworkers_after (results : list (option (str * bool * Metrics)))
    (link_to_full : gmap str str) (file : File) : option File :=
  let t := tally_results results in
  update_notworkers (dom (all_metrics t)) (list_to_set (available_keys t)) link_to_full file.

End WithConfig.

End Main.

(** ** The library functions behind [decode_subscription_content] *)

(** [binascii.a2b_base64] in its default, non-strict mode, as
    [base64.b64decode(s)] calls it: characters outside the alphabet are
    skipped, a pad sequence that completes a quad ends the input. *)
Module Base64.
Import Py.

Definition BASE64_PAD : Z := 61.

(** [table_a2b_base64]: the value of a character of the standard
    alphabet. *)
Definition table_a2b_base64 (c : Z) : option Z :=
  if (65 <=? c) && (c <=? 90) then Some (c - 65)
  else if (97 <=? c) && (c <=? 122) then Some (c - 71)
  else if (48 <=? c) && (c <=? 57) then Some (c + 4)
  else if c =? 43 then Some 62
  else if c =? 47 then Some 63
  else None.

(** The loop of [binascii_a2b_base64_impl]; [None] is [binascii.Error]. *)
Fixpoint a2b_loop (ascii_data : bytes) (quad_pos leftchar pads : Z) (bin_data : bytes)
  : option bytes :=
  match ascii_data with
  | [] => if quad_pos =? 0 then Some bin_data else None
  | this_ch :: rest =>
      if this_ch =? BASE64_PAD then
        if (2 <=? quad_pos) && (4 <=? quad_pos + (pads + 1)) then Some bin_data
        else a2b_loop rest quad_pos leftchar (if 2 <=? quad_pos then pads + 1 else pads)
               bin_data
      else
        match table_a2b_base64 this_ch with
        | None => a2b_loop rest quad_pos leftchar pads bin_data
        | Some this_ch =>
            if quad_pos =? 0 then a2b_loop rest 1 this_ch 0 bin_data
            else if quad_pos =? 1 then
              a2b_loop rest 2 (Z.land this_ch 15) 0
                (bin_data ++ [Z.lor (Z.shiftl leftchar 2) (Z.shiftr this_ch 4)])
            else if quad_pos =? 2 then
              a2b_loop rest 3 (Z.land this_ch 3) 0
                (bin_data ++ [Z.lor (Z.shiftl leftchar 4) (Z.shiftr this_ch 2)])
            else
              a2b_loop rest 0 0 0 (bin_data ++ [Z.lor (Z.shiftl leftchar 6) this_ch])
        end
  end.

Definition a2b_base64 (data : bytes) : option bytes := a2b_loop data 0 0 0 [].

(** [_bytes_from_decode_data(s)] on a [str]: [s.encode("ascii")], a
    [ValueError] when [s] holds a character outside ASCII. *)
Definition _bytes_from_decode_data (s : str) : option bytes :=
  if forallb (fun c => c <? 128) s then Some s else None.

(** [base64.standard_b64decode(s)] *)
Definition standard_b64decode (s : str) : option bytes :=
  match _bytes_from_decode_data s with
  | Some data => a2b_base64 data
  | None => None
  end.

(** [_urlsafe_decode_translation]: [-] becomes [+] and [_] becomes [/]. *)
Definition urlsafe_translate (c : Z) : Z :=
  if c =? 45 then 43 else if c =? 95 then 47 else c.

(** [base64.urlsafe_b64decode(s)] *)
Definition urlsafe_b64decode (s : str) : option bytes :=
  match _bytes_from_decode_data s with
  | Some data => a2b_base64 (map urlsafe_translate data)
  | None => None
  end.

End Base64.

(** [bytes.decode("utf-8", errors="replace")]: every maximal ill-formed
    run of bytes becomes one U+FFFD. *)
Module Utf8.
Import Py.

Definition REPLACEMENT : Z := 65533.

Definition is_continuation (b : Z) : bool := (128 <=? b) && (b <=? 191).

(** The range of the second byte after the lead byte [b0] of a sequence of
    three or four bytes. *)
Definition second_ok (b0 b1 : Z) : bool :=
  if b0 =? 224 then (160 <=? b1) && (b1 <=? 191)
  else if b0 =? 237 then (128 <=? b1) && (b1 <=? 159)
  else if b0 =? 240 then (144 <=? b1) && (b1 <=? 191)
  else if b0 =? 244 then (128 <=? b1) && (b1 <=? 143)
  else is_continuation b1.

Definition payload (b : Z) : Z := Z.land b 63.

(** One decoding step: the character and the number of bytes it takes. *)
Definition decode_one (data : bytes) : Z * nat :=
  match data with
  | [] => (REPLACEMENT, 1%nat)
  | b0 :: rest =>
      if b0 <? 128 then (b0, 1%nat)
      else if (194 <=? b0) && (b0 <=? 223) then
        match rest with
        | b1 :: _ =>
            if is_continuation b1
            then (Z.lor (Z.shiftl (Z.land b0 31) 6) (payload b1), 2%nat)
            else (REPLACEMENT, 1%nat)
        | [] => (REPLACEMENT, 1%nat)
        end
      else if (224 <=? b0) && (b0 <=? 239) then
        match rest with
        | b1 :: rest1 =>
            if second_ok b0 b1 then
              match rest1 with
              | b2 :: _ =>
                  if is_continuation b2
                  then (Z.lor (Z.shiftl (Z.land b0 15) 12)
                          (Z.lor (Z.shiftl (payload b1) 6) (payload b2)), 3%nat)
                  else (REPLACEMENT, 2%nat)
              | [] => (REPLACEMENT, 2%nat)
              end
            else (REPLACEMENT, 1%nat)
        | [] => (REPLACEMENT, 1%nat)
        end
      else if (240 <=? b0) && (b0 <=? 244) then
        match rest with
        | b1 :: rest1 =>
            if second_ok b0 b1 then
              match rest1 with
              | b2 :: rest2 =>
                  if is_continuation b2 then
                    match rest2 with
                    | b3 :: _ =>
                        if is_continuation b3
                        then (Z.lor (Z.shiftl (Z.land b0 7) 18)
                                (Z.lor (Z.shiftl (payload b1) 12)
                                   (Z.lor (Z.shiftl (payload b2) 6) (payload b3))), 4%nat)
                        else (REPLACEMENT, 3%nat)
                    | [] => (REPLACEMENT, 3%nat)
                    end
                  else (REPLACEMENT, 2%nat)
              | [] => (REPLACEMENT, 2%nat)
              end
            else (REPLACEMENT, 1%nat)
        | [] => (REPLACEMENT, 1%nat)
        end
      else (REPLACEMENT, 1%nat)
  end.

(** Every step takes at least one byte, so [length data] steps suffice. *)
Fixpoint decode_from (fuel : nat) (data : bytes) : str :=
  match fuel with
  | O => []
  | S fuel' =>
      match data with
      | [] => []
      | _ => let '(c, n) := decode_one data in c :: decode_from fuel' (drop n data)
      end
  end.

Definition decode_replace (data : bytes) : str := decode_from (length data) data.

End Utf8.

(** ** lib/parsing.py: unwrapping a subscription *)

Module Subscription.
Import Py Utils Parsing.

(** [_content_has_protocol_lines(text)] *)
Definition _content_has_protocol_lines (text : str) : bool :=
  existsb (fun line => has_protocol (strip line)) (splitlines text).

(** [padded]: [raw] with [=] up to a multiple of four characters. *)
Definition pad_to_quad (raw : str) : str :=
  if len raw mod 4 =? 0 then raw
  else raw ++ replicate (Z.to_nat (4 - len raw mod 4)) Base64.BASE64_PAD.

(** The body of the [try] statement for one decoder: the text to return,
    or [None] to go on with the next decoder. *)
Definition try_decoder (encoding : str -> option bytes) (raw : str) : option str :=
  match encoding (pad_to_quad raw) with
  | None => None
  | Some decoded =>
      let decoded := strip (Utf8.decode_replace decoded) in
      if nonempty decoded && _content_has_protocol_lines decoded then Some decoded else None
  end.

(** [decode_subscription_content(text)] *)
Definition decode_subscription_content (text : str) : str :=
  if negb (nonempty text) || negb (nonempty (strip text)) then text
  else
    let text := strip text in
    if _content_has_protocol_lines text then text
    else
      let raw := concat (split_ws text) in
      match try_decoder Base64.standard_b64decode raw with
      | Some decoded => decoded
      | None =>
          match try_decoder Base64.urlsafe_b64decode raw with
          | Some decoded => decoded
          | None => text
          end
      end.

End Subscription.

(** ** lib/parsing.py: cascading sources *)

Module Cascade.
Import Py Utils Effects Parsing Subscription.

Definition _MAX_CASCADE_DEPTH : Z := 3.

(** What the traversal asks of the file system and of the network. A
    [Path] is held as its string. *)
Record Sources := {
  (** [Path.cwd()] *)
  cwd : str;
  (** [str((base_dir / path).resolve())] for a relative [path] and
      [str(Path(path).resolve())] for an absolute one, as a function of
      [base_dir] and [path] *)
  resolve : str -> str -> str;
  (** [path.parent] *)
  parent : str -> str;
  (** [urllib.parse.urljoin(base, url)] *)
  urljoin : str -> str -> str;
  (** [path.exists()] *)
  path_exists : str -> bool;
  (** [open(path, encoding="utf-8").read()]; [None] when it raises *)
  read_text : str -> option str;
  (** The text of the response that [fetch_list] receives; [None] when the
      URL is refused or the request raises *)
  http_text : str -> option str;
}.

(** [value.startswith(("http://", "https://"))] *)
Definition _is_url (value : str) : bool :=
  startswith (lit "http://") value || startswith (lit "https://") value.

(** [s.strip(chars)] *)
Definition among (chars : list Z) (c : Z) : bool := existsb (Z.eqb c) chars.

Fixpoint lstrip_chars (chars : list Z) (s : str) : str :=
  match s with
  | c :: r => if among chars c then lstrip_chars chars r else s
  | [] => []
  end.

Fixpoint rstrip_chars (chars : list Z) (s : str) : str :=
  match s with
  | [] => []
  | c :: r =>
      match rstrip_chars chars r with
      | [] => if among chars c then [] else [c]
      | r' => c :: r'
      end
  end.

Definition strip_chars (chars : list Z) (s : str) : str :=
  rstrip_chars chars (lstrip_chars chars s).

Definition backslash : Z := 92.

(** [_looks_like_path(token)] *)
Definition _looks_like_path (token : str) : bool :=
  if contains (lit "://") token then false
  else if startswith (lit "#") token || startswith (lit "//") token then false
  else if contains (lit "/") token || contains [backslash] token then true
  else existsb (fun suffix => endswith suffix token)
         [lit ".txt"; lit ".list"; lit ".urls"; lit ".lst"].

(** [_depth_exceeded(depth, source)] *)
Definition _depth_exceeded (depth : Z) : bool := _MAX_CASCADE_DEPTH <? depth.

Section WithSources.
Context (env : Sources).

(** [_normalize_source_identifier(source, base_dir)] *)
Definition _normalize_source_identifier (source base_dir : str) : str :=
  if _is_url source then strip source else resolve env base_dir source.

(** [_resolve_child_source(token, parent_source, base_dir)] *)
Definition _resolve_child_source (token parent_source base_dir : str) : str :=
  if _is_url token then token
  else if _is_url parent_source then urljoin env parent_source token
  else resolve env base_dir token.

(** [fetch_list(url)]: [None] is any exception. *)
Definition fetch_list (url : str) : option str :=
  match http_text env url with
  | Some text => Some (decode_subscription_content text)
  | None => None
  end.

(** The inner loop of [collect_sources], on one part of a line. *)
Definition child_step (source current_base_dir : str) (acc : gset str * list str)
    (part : str) : gset str * list str :=
  let '(seen_child, child_sources) := acc in
  let candidate := strip_chars [44; 59] (strip part) in
  if negb (nonempty candidate) then acc
  else if has_protocol candidate then acc
  else if _is_url candidate || _looks_like_path candidate then
    let resolved := _resolve_child_source candidate source current_base_dir in
    if bool_decide (resolved ∈ seen_child) then acc
    else ({[resolved]} ∪ seen_child, child_sources ++ [resolved])
  else acc.

(** The outer loop, on one line. *)
Definition child_line_step (source current_base_dir : str) (acc : gset str * list str)
    (line : str) : gset str * list str :=
  let line := strip line in
  if negb (nonempty line) || startswith (lit "#") line then acc
  else foldl (child_step source current_base_dir) acc (split_ws line).

Definition child_sources_of (source current_base_dir text : str) : list str :=
  (foldl (child_line_step source current_base_dir) (∅, []) (splitlines text)).2.

(** Lines 699-716: the text of the source and the directory that its
    relative paths start from. *)
Definition read_source (source base_dir : str) : exn + (str * str) :=
  if _is_url source then
    match fetch_list source with
    | Some text => inr (text, base_dir)
    | None => inl ValueError
    end
  else
    let path := resolve env base_dir source in
    if negb (path_exists env path) then inl FileNotFoundError
    else
      match read_text env path with
      | Some text => inr (decode_subscription_content text, parent env path)
      | None => inl OtherException
      end.

(** [collect_sources(source, base_dir, depth, visited)]: the exception or
    the pair [(child_sources, keys)], and the set [visited] as the call
    leaves it. The [IndexError] that [parse_proxy_lines] could raise is
    [OtherException]. *)
Definition collect_sources (source base_dir : str) (depth : Z) (visited : gset str)
  : (exn + (list str * list (str * str))) * gset str :=
  let normalized := _normalize_source_identifier source base_dir in
  if bool_decide (normalized ∈ visited) then (inr ([], []), visited)
  else if _depth_exceeded depth then (inr ([], []), visited)
  else
    let visited := {[normalized]} ∪ visited in
    match read_source source base_dir with
    | inl e => (inl e, visited)
    | inr (text, current_base_dir) =>
        match parse_proxy_lines text with
        | Some keys => (inr (child_sources_of source current_base_dir text, keys), visited)
        | None => (inl OtherException, visited)
        end
    end.

(** The variables of [_gather_keys]. *)
Record Walk := {
  queue : list (str * str * Z);
  visited : gset str;
  scheduled : gset str;
  seen_links : gset str;
  result : list (str * str);
}.

(** The loop over [keys]; [None] is the [IndexError] of
    [normalize_proxy_link]. *)
Definition add_key (acc : option (gset str * list (str * str))) (key : str * str)
  : option (gset str * list (str * str)) :=
  match acc with
  | None => None
  | Some (seen_links, result) =>
      let '(link, full) := key in
      match normalize_proxy_link link with
      | None => None
      | Some norm =>
          if nonempty norm && negb (bool_decide (norm ∈ seen_links))
          then Some ({[norm]} ∪ seen_links, result ++ [(link, full)])
          else Some (seen_links, result)
      end
  end.

(** [next_base] of a child. *)
Definition next_base_of (current_base child : str) : str :=
  if _is_url child then current_base else parent env (resolve env (cwd env) child).

(** The loop over [child_sources]. *)
Definition schedule_child (visited : gset str) (current_base : str) (depth : Z)
    (acc : gset str * list (str * str * Z)) (child : str) : gset str * list (str * str * Z) :=
  let '(scheduled, queue) := acc in
  let next_base := next_base_of current_base child in
  let normalized_child := _normalize_source_identifier child next_base in
  let next_depth := depth + 1 in
  if bool_decide (normalized_child ∈ visited) then acc
  else if bool_decide (normalized_child ∈ scheduled) then acc
  else if _depth_exceeded next_depth then acc
  else ({[normalized_child]} ∪ scheduled, queue ++ [(child, next_base, next_depth)]).

(** The [while queue] loop; [fuel] bounds the number of its turns. *)
Fixpoint gather_loop (fuel : nat) (stop_on_error : bool) (st : Walk)
  : outcome (list (str * str)) :=
  match queue st with
  | [] => Ret (result st)
  | (source, current_base, depth) :: rest =>
      match fuel with
      | O => Diverge
      | S fuel' =>
          let scheduled :=
            scheduled st ∖ {[_normalize_source_identifier source current_base]} in
          match collect_sources source current_base depth (visited st) with
          | (inl e, visited) =>
              if stop_on_error then Raise e
              else gather_loop fuel' stop_on_error
                     {| queue := rest; visited := visited; scheduled := scheduled;
                        seen_links := seen_links st; result := result st |}
          | (inr (child_sources, keys), visited) =>
              match foldl add_key (Some (seen_links st, result st)) keys with
              | None => Raise OtherException
              | Some (seen_links, result) =>
                  let '(scheduled, queue) :=
                    foldl (schedule_child visited current_base depth) (scheduled, rest)
                      child_sources in
                  gather_loop fuel' stop_on_error
                    {| queue := queue; visited := visited; scheduled := scheduled;
                       seen_links := seen_links; result := result |}
              end
          end
      end
  end.

(** [_gather_keys(initial_source, base_dir, stop_on_error)] *)
Definition _gather_keys (fuel : nat) (initial_source base_dir : str) (stop_on_error : bool)
  : outcome (list (str * str)) :=
  gather_loop fuel stop_on_error
    {| queue := [(initial_source, base_dir, 0)];
       visited := ∅;
       scheduled := {[_normalize_source_identifier initial_source base_dir]};
       seen_links := ∅;
       result := [] |}.

(** [Path(source).resolve().parent if not _is_url(source) else Path.cwd()] *)
Definition start_dir (source : str) : str :=
  if negb (_is_url source) then parent env (resolve env (cwd env) source) else cwd env.

(** [load_merged_keys(links_file)] *)
Definition load_merged_keys (fuel : nat) (links_file : str)
  : outcome (str * list (str * str)) :=
  match _gather_keys fuel links_file (start_dir links_file) false with
  | Ret keys =>
      match keys with
      | [] => Raise ValueError
      | _ => Ret (lit "merged", keys)
      end
  | Raise e => Raise e
  | Diverge => Diverge
  end.

(** [load_keys_with_cascade(source)] *)
Definition load_keys_with_cascade (fuel : nat) (source : str) : outcome (list (str * str)) :=
  _gather_keys fuel source (start_dir source) true.

End WithSources.

End Cascade.

(** ** vless_checker.py and lib/config.py: before the probes start *)

Module Startup.
Import Py Utils Parsing.

(** The comprehension
    [[(link, full) for link, full in keys
      if normalize_proxy_link(link) not in notworkers_set]];
    [None] is the [IndexError] of [normalize_proxy_link]. *)
Fixpoint keep_unlisted (notworkers_set : gset str) (keys : list (str * str))
  : option (list (str * str)) :=
  match keys with
  | [] => Some []
  | (link, full) :: rest =>
      match normalize_proxy_link link with
      | None => None
      | Some norm =>
          match keep_unlisted notworkers_set rest with
          | None => None
          | Some kept =>
              Some (if bool_decide (norm ∈ notworkers_set) then kept
                    else (link, full) :: kept)
          end
      end
  end.

(** Lines 113-119 of [main]: the keys that are left to probe.
    [mode_notworkers] is [MODE == "notworkers"]. *)
Definition skip_notworkers (mode_notworkers : bool) (file : File) (keys : list (str * str))
  : option (list (str * str)) :=
  if mode_notworkers then Some keys
  else
    match load_notworkers file with
    | None => None
    | Some notworkers_set =>
        if bool_decide (notworkers_set ≠ ∅) then keep_unlisted notworkers_set keys
        else Some keys
    end.

(** [s.split(sep)] for a one-character separator: the parts between the
    separators, at least one. [cur] is the current part, reversed. *)
Fixpoint split_char_from (sep : Z) (cur : str) (s : str) : list str :=
  match s with
  | [] => [rev cur]
  | c :: r =>
      if c =? sep then rev cur :: split_char_from sep [] r
      else split_char_from sep (c :: cur) r
  end.

Definition split_char (sep : Z) (s : str) : list str := split_char_from sep [] s.

Definition comma : Z := 44.
Definition semicolon : Z := 59.

(** [[u.strip() for u in url_str.split(sep) if u.strip()]] *)
Definition stripped_parts (sep : Z) (url_str : str) : list str :=
  map strip (List.filter (fun u => nonempty (strip u)) (split_char sep url_str)).

(** [_parse_url_list(url_str)] of [lib/config.py] *)
Definition _parse_url_list (url_str : str) : list str :=
  if negb (nonempty url_str) then []
  else
    let urls :=
      if contains [comma] url_str then stripped_parts comma url_str
      else if contains [semicolon] url_str then stripped_parts semicolon url_str
      else [] in
    match urls with
    | [] => if nonempty (strip url_str) then [strip url_str] else []
    | _ => urls
    end.

End Startup.

(** ** lib/metrics.py: the figures of the statistics table *)

Module Performance.
Import Py Utils Runtime Checker.

(** An element of [results], as [calculate_performance_metrics] reads it:
    a [dict], with the truth value of [result.get('available', False)],
    the list [result.get('response_times')] ([[]] when the key is missing
    or its value is falsy) and the name of the type of [result['error']]
    when [result.get('error')] is truthy; a [str]; or anything else. *)
Inductive Result :=
| ResultDict (is_available : bool) (times : list Q) (error_type : option str)
| ResultStr (s : str)
| ResultOther.

Record Figures := {
  total_keys : Z;
  checked_keys : Z;
  available_keys : Z;
  failed_keys : Z;
  avg_response_time : Q;
  min_response_time : Q;
  max_response_time : Q;
  median_response_time : Q;
  total_time : Q;
  keys_per_second : Q;
  error_distribution : gmap str Z;
}.

(** What the loop over [results] updates: [metrics['available_keys']],
    [metrics['failed_keys']], [response_times] and
    [metrics['error_distribution']]. *)
Record Counts := {
  n_available : Z;
  n_failed : Z;
  all_times : list Q;
  errors : gmap str Z;
}.

(** The body of the loop. *)
Definition count_result (c : Counts) (result : Result) : Counts :=
  match result with
  | ResultDict is_available times error_type =>
      {| n_available := if is_available then n_available c + 1 else n_available c;
         n_failed := if is_available then n_failed c else n_failed c + 1;
         all_times := match times with [] => all_times c | _ => all_times c ++ times end;
         errors := match error_type with
                   | Some t => <[t := default 0 (errors c !! t) + 1]> (errors c)
                   | None => errors c
                   end |}
  | ResultStr _ =>
      {| n_available := n_available c + 1; n_failed := n_failed c;
         all_times := all_times c; errors := errors c |}
  | ResultOther => c
  end.

(** [statistics.mean(data)] on a list that is not empty. *)
Definition mean (data : list Q) : Q := (Qsum data / inject_Z (len data))%Q.

(** [min(data)] and [max(data)]: the first of the least, and of the
    greatest, elements; [None] is the [ValueError] on an empty list. *)
Definition py_min (data : list Q) : option Q :=
  match data with
  | [] => None
  | x :: rest => Some (foldl (fun m y => if Qltb y m then y else m) x rest)
  end.

Definition py_max (data : list Q) : option Q :=
  match data with
  | [] => None
  | x :: rest => Some (foldl (fun m y => if Qltb m y then y else m) x rest)
  end.

#[export] Instance Qle_decision : RelDecision Qle :=
  fun x y => match Qlt_le_dec y x with
             | left H => right (Qlt_not_le _ _ H)
             | right H => left H
             end.

(** [statistics.median(data)]: the middle element of [sorted(data)], the
    mean of the two middle ones when their number is even; [None] is the
    [StatisticsError] on an empty list. *)
Definition median (data : list Q) : option Q :=
  let data := merge_sort Qle data in
  let n := length data in
  if (n =? 0)%nat then None
  else if (n mod 2 =? 1)%nat then Some (nth (n / 2) data 0%Q)
  else let i := (n / 2)%nat in Some ((nth (i - 1) data 0 + nth i data 0) / 2)%Q.

(** [calculate_performance_metrics(results, all_metrics, elapsed_time)];
    the function does not read [all_metrics]. *)
Definition calculate_performance_metrics (results : list Result) (elapsed_time : Q)
  : Figures :=
  let c := foldl count_result
             {| n_available := 0; n_failed := 0; all_times := []; errors := ∅ |} results in
  let failed := if n_failed c =? 0 then len results - n_available c else n_failed c in
  let summary :=
    match all_times c with
    | [] => None
    | ts =>
        match py_min ts, py_max ts, median ts with
        | Some lo, Some hi, Some mid => Some (mean ts, lo, hi, mid)
        | _, _, _ => None
        end
    end in
  {| total_keys := len results;
     checked_keys := len results;
     available_keys := n_available c;
     failed_keys := failed;
     avg_response_time := match summary with Some (a, _, _, _) => a | None => 0 end;
     min_response_time := match summary with Some (_, lo, _, _) => lo | None => 0 end;
     max_response_time := match summary with Some (_, _, hi, _) => hi | None => 0 end;
     median_response_time := match summary with Some (_, _, _, mid) => mid | None => 0 end;
     total_time := elapsed_time;
     keys_per_second := if Qltb 0 elapsed_time then (inject_Z (len results) / elapsed_time)%Q
                        else 0;
     error_distribution := errors c |}.

(** Lines 389-398 of [save_results_and_exit]: the [results_for_metrics]
    it hands over, one [dict] for each item of [all_metrics], with
    ['error': None]. *)
Definition results_for_metrics (all_metrics_items : list (str * Metrics))
    (available_links : gset str) : list Result :=
  map (fun '(link, metrics) =>
         ResultDict (bool_decide (link ∈ available_links)) (response_times metrics) None)
      all_metrics_items.

End Performance.

(** * Properties *)

#[local] Open Scope Z_scope.

(** ** lib/utils.py *)

Module UtilsSpec.
Import Py Utils.

(** The validation rule as the specification words it: the size floor is
    only part of the rule for the other URLs. *)
Definition response_valid_rule_stated (r : Response) (min_size : Z) (url : str) : Prop :=
  if contains (lit "generate_204") url
  then (status_code r = 200 \/ status_code r = 204) /\ len (content r) <= 64
  else (200 <= status_code r < 400) /\ (0 < min_size -> min_size <= len (content r)).

(** The rule of the code: the size floor applies to every URL. *)
Definition response_valid_rule (r : Response) (min_size : Z) (url : str) : Prop :=
  (if contains (lit "generate_204") url
   then (status_code r = 200 \/ status_code r = 204) /\ len (content r) <= 64
   else 200 <= status_code r < 400)
  /\ (0 < min_size -> min_size <= len (content r)).

Definition empty_204 : Response := {| status_code := 204; content := [] |}.
Definition google_204 : str := lit "http://www.google.com/generate_204".

End UtilsSpec.

Section UtilsProperties.
Import Py Utils UtilsSpec.

(** C1, as stated, fails: an empty 204 answer to a [generate_204] URL meets
    the stated rule, yet with [min_size = 1] the code rejects it. *)
Lemma check_response_valid_stated_rule_fails :
  ~ (check_response_valid empty_204 1 google_204 = true
     <-> response_valid_rule_stated empty_204 1 google_204).
Proof.
  intros [_ H].
  assert (Hc : check_response_valid empty_204 1 google_204 = false) by (vm_compute; reflexivity).
  rewrite Hc in H.
  discriminate H.
  unfold response_valid_rule_stated.
  replace (contains (lit "generate_204") google_204) with true by (vm_compute; reflexivity).
  split; [right; reflexivity | unfold len; simpl; lia].
Qed.

(** C1 (amended): [check_response_valid] accepts a response exactly when the
    status fits the URL's rule ([200] or [204] and at most 64 bytes for a
    [generate_204] URL, [200 <= status < 400] otherwise) and, when
    [min_size > 0], the body holds at least [min_size] bytes, for either
    kind of URL. *)
Theorem check_response_valid_rule (r : Response) (min_size : Z) (url : str) :
  check_response_valid r min_size url = true <-> response_valid_rule r min_size url.
Proof.
  unfold check_response_valid, response_valid_rule, response_truthy.
  destruct (contains (lit "generate_204") url);
    repeat match goal with
           | |- context [?a <=? ?b] => destruct (Z.leb_spec a b)
           | |- context [?a <? ?b] => destruct (Z.ltb_spec a b)
           | |- context [?a =? ?b] => destruct (Z.eqb_spec a b)
           end; cbn; split; intros; try discriminate; try lia; intuition lia.
Qed.

(** The boundary case of the specification: a 200 answer with a 65-byte
    body to a [generate_204] URL is rejected, whatever [min_size] is. *)
Lemma generate_204_with_65_bytes_rejected (min_size : Z) :
  check_response_valid {| status_code := 200; content := repeat 0 65 |} min_size google_204
  = false.
Proof.
  unfold check_response_valid.
  replace (contains (lit "generate_204") google_204) with true by (vm_compute; reflexivity).
  cbn. reflexivity.
Qed.

End UtilsProperties.

(** ** Reasoning about runs

    A judgment relates the state a computation starts in, the way it ends
    and the state it ends in. A judgment that holds of a silent step and
    composes along a normal return holds of a whole function body as soon
    as it holds of the primitive actions the body calls: [sat_bind],
    [sat_for_each] and the other rules below carry it through the control
    flow. *)

Module EffLogic.
Import Effects.

Inductive ending :=
  | Returns
  | Raises (e : exn)
  | Diverges.

Definition ending_of {A} (o : outcome A) : ending :=
  match o with
  | Ret _ => Returns
  | Raise e => Raises e
  | Diverge => Diverges
  end.

Definition Judgment (St : Type) : Type := St -> ending -> St -> Prop.

Class Compositional {St} (J : Judgment St) : Prop := {
  comp_refl : forall s, J s Returns s;
  comp_trans : forall s s1 s2 k, J s Returns s1 -> J s1 k s2 -> J s k s2;
}.

Definition sat {St A} (J : Judgment St) (m : Eff St A) : Prop :=
  forall s, J s (ending_of (m s).1) (m s).2.

Section Rules.
Context {St : Type} (J : Judgment St) `{!Compositional J}.

Lemma sat_ret {A} (a : A) : sat J (ret a).
Proof. intros s. apply comp_refl. Qed.

Lemma sat_get : sat J get.
Proof. intros s. apply comp_refl. Qed.

Lemma sat_gets {A} (f : St -> A) : sat J (gets f).
Proof. intros s. apply comp_refl. Qed.

Lemma sat_bind {A B} (m : Eff St A) (k : A -> Eff St B) :
  sat J m -> (forall a, sat J (k a)) -> sat J (bind m k).
Proof.
  intros Hm Hk s. unfold bind.
  specialize (Hm s). destruct (m s) as [[a | e | ] s1]; simpl in *; auto.
  eapply comp_trans; [exact Hm | apply Hk].
Qed.

Lemma sat_for_each {A R} (l : list A) (body : A -> Eff St (ctl R)) :
  (forall x, sat J (body x)) -> sat J (for_each l body).
Proof.
  intros Hb. induction l as [| x l IH]; simpl.
  - apply sat_ret.
  - apply sat_bind; [apply Hb |].
    intros [| | v]; [exact IH | apply sat_ret | apply sat_ret].
Qed.

End Rules.

(** A judgment on worlds, read on the frames of [check_key_e2e]. *)
Definition on_frames (J : Judgment Runtime.World) : Judgment Checker.Frame :=
  fun f k f' => J (Checker.world f) k (Checker.world f').

#[global] Instance on_frames_compositional (J : Judgment Runtime.World) :
  Compositional J -> Compositional (on_frames J).
Proof.
  intros HJ. split; unfold on_frames.
  - intros s. apply comp_refl.
  - intros s s1 s2 k. apply comp_trans.
Qed.

Lemma sat_on_world (J : Judgment Runtime.World) {A} (m : Eff Runtime.World A) :
  sat J m -> sat (on_frames J) (Checker.on_world m).
Proof.
  intros Hm f. unfold Checker.on_world, on_frames.
  specialize (Hm (Checker.world f)).
  destruct (m (Checker.world f)) as [r w]. exact Hm.
Qed.

(** Assignments to local variables leave the world alone. *)
Lemma sat_modify_local (J : Judgment Runtime.World) `{!Compositional J}
    (g : Checker.Frame -> Checker.Frame) :
  (forall f, Checker.world (g f) = Checker.world f) ->
  sat (on_frames J) (modify g).
Proof.
  intros Hg f. unfold on_frames, modify. simpl. rewrite Hg. apply comp_refl.
Qed.

Lemma sat_update_metrics (J : Judgment Runtime.World) `{!Compositional J}
    (g : Checker.Metrics -> Checker.Metrics) :
  sat (on_frames J) (Checker.update_metrics g).
Proof. apply sat_modify_local; first [exact _ | reflexivity]. Qed.

End EffLogic.

(** ** The body of [check_key_e2e], once for every judgment *)

Module CheckerBody.
Import Py Utils Effects Runtime Cfg Checker EffLogic.

Section Traversal.
Context (cfg : Config) (env : Env).
Context (get_key_hash : str -> str).
Context (J : Judgment World) `{!Compositional J}.

(** What the judgment has to grant: the primitive actions of the probes,
    and those of the relay's start-up. *)
Record ProbePrimitives : Prop := {
  prim_sleep : forall d, sat J (sleep d);
  prim_request : forall url t m, sat J (make_request env url t m);
  prim_remove : forall pp, sat J (active_remove pp);
  prim_geo : sat J (fetch_geolocation env);
  prim_import : sat J (import_config env);
  prim_store : forall h r, sat J (cache_store h r);
}.

Record StartupPrimitives : Prop := {
  prim_append : forall pp, sat J (active_append pp);
  prim_run : sat J (run_xray env);
  prim_poll : sat J (proc_exited env);
  prim_wait : sat J (startup_wait cfg env (startup_iterations cfg) 0);
}.

Context (prims : ProbePrimitives).

Ltac sat_step :=
  match goal with
  | |- sat _ (bind _ _) => apply sat_bind; [exact _ | | intros]
  | |- sat _ (ret _) => apply sat_ret; exact _
  | |- sat _ get => apply sat_get; exact _
  | |- sat _ (gets _) => apply sat_gets; exact _
  | |- sat _ (for_each _ _) => apply sat_for_each; [exact _ | intros]
  | |- sat _ (update_metrics _) => apply sat_update_metrics; exact _
  | |- sat _ (modify _) => apply sat_modify_local; first [exact _ | reflexivity]
  | |- sat _ (on_world (sleep _)) => apply sat_on_world, prims
  | |- sat _ (on_world (make_request _ _ _ _)) => apply sat_on_world, prims
  | |- sat _ (on_world (active_remove _)) => apply sat_on_world, prims
  | |- sat _ (on_world (fetch_geolocation _)) => apply sat_on_world, prims
  | |- sat _ (on_world (import_config _)) => apply sat_on_world, prims
  | |- sat _ (on_world (cache_store _ _)) => apply sat_on_world, prims
  | |- sat _ (if ?b then _ else _) => destruct b
  | |- sat _ (match ?x with _ => _ end) => destruct x
  | |- sat _ (let _ := _ in _) => cbv zeta
  end.

Let JF := on_frames J.

Instance JF_compositional : Compositional JF.
Proof. apply on_frames_compositional; assumption. Qed.

Lemma sat_leave (k : str) (pid port : Z) (alive : bool) :
  sat JF (leave k pid port alive).
Proof. unfold leave, JF. repeat sat_step. Qed.

Lemma sat_leave_loop (k : str) (pid port : Z) (alive : bool) :
  sat JF (leave_loop k pid port alive).
Proof.
  unfold leave_loop. apply sat_bind; [exact _ | apply sat_leave | intros; apply sat_ret; exact _].
Qed.

Lemma sat_strong_style_probe (k : str) (pid port : Z) :
  sat JF (strong_style_probe cfg env k pid port).
Proof.
  unfold strong_style_probe, strong_attempt, JF.
  repeat first [apply sat_leave | apply sat_leave_loop | sat_step].
Qed.

Lemma sat_request_with_retries (dbg : bool) (url : str) (t : Timeout) :
  sat JF (request_with_retries cfg env dbg url t).
Proof.
  unfold request_with_retries, JF.
  repeat first [apply sat_leave | apply sat_leave_loop | sat_step].
Qed.

Lemma sat_probe_urls (dbg : bool) (all_urls : list (str * bool)) (t : Timeout) :
  sat JF (probe_urls cfg env dbg all_urls t).
Proof.
  unfold probe_urls, JF.
  repeat first [apply sat_request_with_retries | sat_step].
Qed.

Lemma sat_stability_round (k : str) (pid port : Z) (dbg : bool)
    (all_urls : list (str * bool)) (t : Timeout) (round : Z) :
  sat JF (stability_round cfg env k pid port dbg all_urls t round).
Proof.
  unfold stability_round, JF.
  repeat first [apply sat_leave | apply sat_leave_loop | apply sat_probe_urls | sat_step].
Qed.

Lemma sat_normal_probe (k : str) (pid port : Z) (dbg cache_given : bool) :
  sat JF (normal_probe cfg env get_key_hash k pid port dbg cache_given).
Proof.
  unfold normal_probe, JF.
  repeat first [apply sat_leave | apply sat_stability_round | sat_step].
Qed.

(** The body of the [try] statement satisfies every compositional judgment
    that its primitive actions satisfy. *)
Lemma sat_probe_body (k : str) (port : Z) (dbg cache_given : bool) :
  StartupPrimitives ->
  sat JF (probe_body cfg env get_key_hash k port dbg cache_given).
Proof.
  intros start. unfold probe_body, JF.
  repeat first [apply sat_leave | apply sat_strong_style_probe | apply sat_normal_probe
               | apply sat_on_world, start | sat_step].
Qed.

End Traversal.

End CheckerBody.

(** ** Rational comparisons *)

Lemma Qltb_lt (a b : Q) : Qltb a b = true <-> (a < b)%Q.
Proof.
  unfold Qltb. rewrite negb_true_iff. split.
  - intros H. apply Qnot_le_lt. intros Hle. apply Qle_bool_iff in Hle. congruence.
  - intros H. destruct (Qle_bool b a) eqn:E; [| reflexivity].
    apply Qle_bool_iff in E. exfalso. apply (Qlt_not_le _ _ H E).
Qed.

Lemma Qltb_ge (a b : Q) : Qltb a b = false <-> (b <= a)%Q.
Proof.
  unfold Qltb. rewrite negb_false_iff. apply Qle_bool_iff.
Qed.

(** ** Judgments on the runs of a probe *)

Module Judgments.
Import Py Utils Effects Runtime Cfg Checker EffLogic.

(** The events of the port pool. *)
Definition is_port_event (e : Event) : bool :=
  match e with
  | EvTakePort _ | EvReturnPort _ => true
  | _ => false
  end.

Definition port_events (t : list Event) : list Event := List.filter is_port_event t.

(** The run leaves the port pool alone. *)
Definition J_ports : Judgment World :=
  fun w _ w' => port_pool w' = port_pool w /\ port_events (trace w') = port_events (trace w).

(** The run ends. *)
Definition J_ends : Judgment World := fun _ k _ => k <> Diverges.

(** The run issues HTTP requests in order, and returns only if none of
    them broke with an exception of its own. *)
Definition J_requests (env : Env) : Judgment World :=
  fun w k w' =>
    (requests_made w <= requests_made w')%nat
    /\ (k = Returns ->
        forall i, (requests_made w <= i < requests_made w')%nat ->
                  request_outcome env i <> RequestCrashed).

(** The run does not poll the relay. *)
Definition J_polls : Judgment World := fun w _ w' => polls_made w' = polls_made w.

#[global] Instance J_ports_compositional : Compositional J_ports.
Proof.
  split; unfold J_ports.
  - intros s. split; reflexivity.
  - intros s s1 s2 k [H1 H2] [H3 H4]. split; congruence.
Qed.

#[global] Instance J_ends_compositional : Compositional J_ends.
Proof. split; unfold J_ends; [discriminate | auto]. Qed.

#[global] Instance J_requests_compositional (env : Env) : Compositional (J_requests env).
Proof.
  split; unfold J_requests.
  - intros s. split; [lia | intros _ i Hi; lia].
  - intros s s1 s2 k [H1 H2] [H3 H4]. split; [lia |].
    intros Hk i Hi. destruct (decide (i < requests_made s1)%nat).
    + apply H2; [reflexivity | lia].
    + apply H4; [exact Hk | lia].
Qed.

#[global] Instance J_polls_compositional : Compositional J_polls.
Proof.
  split; unfold J_polls; [reflexivity | intros; congruence].
Qed.

Section Primitives.
Context (cfg : Config) (env : Env).

Lemma port_events_app (t : list Event) (e : Event) :
  is_port_event e = false -> port_events (t ++ [e]) = port_events t.
Proof.
  intros H. unfold port_events. rewrite List.filter_app. simpl. rewrite H.
  apply app_nil_r.
Qed.

Lemma sleep_ports (d : Q) : sat J_ports (sleep d).
Proof. unfold sleep, J_ports. intros w. destruct (Qltb d 0); cbn; auto. Qed.

Lemma make_request_ports url t m : sat J_ports (make_request env url t m).
Proof.
  unfold make_request, J_ports. intros w. cbn.
  destruct (request_outcome env (requests_made w)); cbn;
    (split; [reflexivity | apply port_events_app; reflexivity]).
Qed.

Lemma active_remove_ports pp : sat J_ports (active_remove pp).
Proof.
  unfold active_remove, J_ports. intros w. cbn.
  destruct (list_remove_first pp (active_processes w)); cbn; auto.
Qed.

Lemma active_append_ports pp : sat J_ports (active_append pp).
Proof. unfold active_append, J_ports. intros w. cbn. auto. Qed.

Lemma fetch_geolocation_ports : sat J_ports (fetch_geolocation env).
Proof. unfold fetch_geolocation, J_ports. intros w. cbn. auto. Qed.

Lemma import_config_ports : sat J_ports (import_config env).
Proof.
  unfold import_config, J_ports. intros w.
  destruct (top_level_config_importable env); cbn; auto.
Qed.

Lemma cache_store_ports h r : sat J_ports (cache_store h r).
Proof. unfold cache_store, J_ports. intros w. cbn. auto. Qed.

Lemma run_xray_ports : sat J_ports (run_xray env).
Proof.
  unfold run_xray, J_ports. intros w.
  destruct (spawn_outcome env); cbn; auto.
  split; [reflexivity | apply port_events_app; reflexivity].
Qed.

Lemma proc_exited_ports : sat J_ports (proc_exited env).
Proof. unfold proc_exited, J_ports. intros w. cbn. auto. Qed.

Lemma startup_wait_ports (fuel : nat) (waited : Q) :
  sat J_ports (startup_wait cfg env fuel waited).
Proof.
  revert waited. induction fuel as [| fuel IH]; intros waited; simpl.
  - destruct (negb _); [apply sat_ret; exact _ |].
    intros w. cbn. split; reflexivity.
  - destruct (negb _); [apply sat_ret; exact _ |].
    apply sat_bind; [exact _ | apply proc_exited_ports |].
    intros [|]; [apply sat_ret; exact _ |].
    apply sat_bind; [exact _ | apply sleep_ports | intros _; apply IH].
Qed.

Lemma probe_primitives_ports : CheckerBody.ProbePrimitives env J_ports.
Proof.
  split; auto using sleep_ports, make_request_ports, active_remove_ports,
    fetch_geolocation_ports, import_config_ports, cache_store_ports.
Qed.

Lemma startup_primitives_ports : CheckerBody.StartupPrimitives cfg env J_ports.
Proof.
  split; auto using active_append_ports, run_xray_ports, proc_exited_ports,
    startup_wait_ports.
Qed.

(** *** Every primitive ends, the start-up wait when the poll interval is
    positive *)

Lemma sleep_ends (d : Q) : sat J_ends (sleep d).
Proof. unfold sleep, J_ends. intros w. destruct (Qltb d 0); cbn; discriminate. Qed.

Lemma make_request_ends url t m : sat J_ends (make_request env url t m).
Proof.
  unfold make_request, J_ends. intros w. cbn.
  destruct (request_outcome env (requests_made w)); cbn; discriminate.
Qed.

Lemma active_remove_ends pp : sat J_ends (active_remove pp).
Proof.
  unfold active_remove, J_ends. intros w. cbn.
  destruct (list_remove_first pp (active_processes w)); cbn; discriminate.
Qed.

Lemma active_append_ends pp : sat J_ends (active_append pp).
Proof. unfold active_append, J_ends. intros w. cbn. discriminate. Qed.

Lemma fetch_geolocation_ends : sat J_ends (fetch_geolocation env).
Proof. unfold fetch_geolocation, J_ends. intros w. cbn. discriminate. Qed.

Lemma import_config_ends : sat J_ends (import_config env).
Proof.
  unfold import_config, J_ends. intros w.
  destruct (top_level_config_importable env); cbn; discriminate.
Qed.

Lemma cache_store_ends h r : sat J_ends (cache_store h r).
Proof. unfold cache_store, J_ends. intros w. cbn. discriminate. Qed.

Lemma run_xray_ends : sat J_ends (run_xray env).
Proof.
  unfold run_xray, J_ends. intros w.
  destruct (spawn_outcome env); cbn; discriminate.
Qed.

Lemma proc_exited_ends : sat J_ends (proc_exited env).
Proof. unfold proc_exited, J_ends. intros w. cbn. discriminate. Qed.

(** With a positive interval, [fuel] iterations suffice as soon as they
    cover the remaining wait. *)
Lemma startup_wait_ends_from (fuel : nat) (waited : Q) :
  (0 < XRAY_STARTUP_POLL_INTERVAL cfg)%Q ->
  (XRAY_STARTUP_WAIT cfg
   <= waited + inject_Z (Z.of_nat fuel) * XRAY_STARTUP_POLL_INTERVAL cfg)%Q ->
  sat J_ends (startup_wait cfg env fuel waited).
Proof.
  intros Hpos. revert waited. induction fuel as [| fuel IH]; intros waited Hcover; simpl.
  - destruct (Qltb waited (XRAY_STARTUP_WAIT cfg)) eqn:E; simpl.
    + apply Qltb_lt in E. exfalso.
      change (inject_Z (Z.of_nat 0)) with 0%Q in Hcover. lra.
    + apply sat_ret; exact _.
  - destruct (Qltb waited (XRAY_STARTUP_WAIT cfg)) eqn:E; simpl; [| apply sat_ret; exact _].
    apply sat_bind; [exact _ | apply proc_exited_ends |].
    intros [|]; [apply sat_ret; exact _ |].
    apply sat_bind; [exact _ | apply sleep_ends | intros _; apply IH].
    rewrite Nat2Z.inj_succ in Hcover. unfold Z.succ in Hcover.
    rewrite inject_Z_plus in Hcover. change (inject_Z 1) with 1%Q in Hcover. lra.
Qed.

Lemma startup_wait_ends :
  (0 < XRAY_STARTUP_POLL_INTERVAL cfg)%Q ->
  sat J_ends (startup_wait cfg env (startup_iterations cfg) 0).
Proof.
  intros Hpos. apply startup_wait_ends_from; [exact Hpos |].
  unfold startup_iterations.
  replace (Qltb 0 (XRAY_STARTUP_POLL_INTERVAL cfg)) with true
    by (symmetry; apply Qltb_lt; exact Hpos).
  set (i := XRAY_STARTUP_POLL_INTERVAL cfg) in *.
  set (w := XRAY_STARTUP_WAIT cfg).
  assert (Hc : (w / i <= inject_Z (Qceiling (w / i)))%Q) by apply Qle_ceiling.
  assert (Hn : (inject_Z (Qceiling (w / i))
                <= inject_Z (Z.of_nat (Z.to_nat (Qceiling (w / i)))))%Q).
  { rewrite <- Zle_Qle. lia. }
  assert (Hw : (w == (w / i) * i)%Q) by (field; lra).
  rewrite Qplus_0_l. rewrite Hw at 1.
  apply Qmult_le_compat_r; lra.
Qed.

Lemma probe_primitives_ends : CheckerBody.ProbePrimitives env J_ends.
Proof.
  split; auto using sleep_ends, make_request_ends, active_remove_ends,
    fetch_geolocation_ends, import_config_ends, cache_store_ends.
Qed.

Lemma startup_primitives_ends :
  (0 < XRAY_STARTUP_POLL_INTERVAL cfg)%Q ->
  CheckerBody.StartupPrimitives cfg env J_ends.
Proof.
  split; auto using active_append_ends, run_xray_ends, proc_exited_ends,
    startup_wait_ends.
Qed.

(** *** Requests: the counter only grows, and a broken request raises *)

Lemma quiet_requests {A} (m : Eff World A) :
  (forall w, requests_made (m w).2 = requests_made w) -> sat (J_requests env) m.
Proof.
  intros H w. unfold J_requests. rewrite H. split; [lia | intros _ i Hi; lia].
Qed.

Lemma sleep_requests (d : Q) : sat (J_requests env) (sleep d).
Proof. apply quiet_requests. intros w. unfold sleep. destruct (Qltb d 0); reflexivity. Qed.

Lemma make_request_requests url t m : sat (J_requests env) (make_request env url t m).
Proof.
  unfold make_request, J_requests. intros w. cbn.
  destruct (request_outcome env (requests_made w)) eqn:E; cbn;
    (split; [lia | intros Hk i Hi; try discriminate Hk;
                   assert (i = requests_made w) by lia; subst i; congruence]).
Qed.

Lemma active_remove_requests pp : sat (J_requests env) (active_remove pp).
Proof.
  apply quiet_requests. intros w. unfold active_remove. cbn.
  destruct (list_remove_first pp (active_processes w)); reflexivity.
Qed.

Lemma active_append_requests pp : sat (J_requests env) (active_append pp).
Proof. apply quiet_requests. reflexivity. Qed.

Lemma fetch_geolocation_requests : sat (J_requests env) (fetch_geolocation env).
Proof. apply quiet_requests. reflexivity. Qed.

Lemma import_config_requests : sat (J_requests env) (import_config env).
Proof.
  apply quiet_requests. intros w. unfold import_config.
  destruct (top_level_config_importable env); reflexivity.
Qed.

Lemma cache_store_requests h r : sat (J_requests env) (cache_store h r).
Proof. apply quiet_requests. reflexivity. Qed.

Lemma run_xray_requests : sat (J_requests env) (run_xray env).
Proof.
  apply quiet_requests. intros w. unfold run_xray.
  destruct (spawn_outcome env); reflexivity.
Qed.

Lemma proc_exited_requests : sat (J_requests env) (proc_exited env).
Proof. apply quiet_requests. reflexivity. Qed.

Lemma startup_wait_requests (fuel : nat) (waited : Q) :
  sat (J_requests env) (startup_wait cfg env fuel waited).
Proof.
  revert waited. induction fuel as [| fuel IH]; intros waited; simpl.
  - destruct (negb _); [apply sat_ret; exact _ | apply quiet_requests; reflexivity].
  - destruct (negb _); [apply sat_ret; exact _ |].
    apply sat_bind; [exact _ | apply proc_exited_requests |].
    intros [|]; [apply sat_ret; exact _ |].
    apply sat_bind; [exact _ | apply sleep_requests | intros _; apply IH].
Qed.

Lemma probe_primitives_requests : CheckerBody.ProbePrimitives env (J_requests env).
Proof.
  split; auto using sleep_requests, make_request_requests, active_remove_requests,
    fetch_geolocation_requests, import_config_requests, cache_store_requests.
Qed.

Lemma startup_primitives_requests : CheckerBody.StartupPrimitives cfg env (J_requests env).
Proof.
  split; auto using active_append_requests, run_xray_requests, proc_exited_requests,
    startup_wait_requests.
Qed.

(** *** The probes themselves never poll the relay *)

Lemma probe_primitives_polls : CheckerBody.ProbePrimitives env J_polls.
Proof.
  split; unfold J_polls; intros; intros w.
  - unfold sleep. destruct (Qltb d 0); reflexivity.
  - unfold make_request. cbn.
    destruct (request_outcome env (requests_made w)); reflexivity.
  - unfold active_remove. cbn.
    destruct (list_remove_first pp (active_processes w)); reflexivity.
  - reflexivity.
  - unfold import_config. destruct (top_level_config_importable env); reflexivity.
  - reflexivity.
Qed.

End Primitives.

End Judgments.

(** ** lib/port_pool.py and the port discipline of [check_key_e2e] *)

Module PortPoolFacts.

Lemma initial_pool_elem (base_port max_workers p : Z) :
  In p (PortPool.initial_pool base_port max_workers)
  <-> base_port <= p < base_port + max_workers.
Proof.
  unfold PortPool.initial_pool. rewrite in_map_iff. split.
  - intros [i [Hp Hi]]. apply in_seq in Hi. lia.
  - intros H. exists (Z.to_nat (p - base_port)). split; [lia |].
    apply in_seq. lia.
Qed.

Lemma initial_pool_length (base_port max_workers : Z) :
  length (PortPool.initial_pool base_port max_workers) = Z.to_nat max_workers.
Proof. unfold PortPool.initial_pool. rewrite length_map. apply length_seq. Qed.

Lemma initial_pool_nodup (base_port max_workers : Z) :
  List.NoDup (PortPool.initial_pool base_port max_workers).
Proof.
  unfold PortPool.initial_pool. apply Finite.Injective_map_NoDup.
  - intros i j H. lia.
  - apply seq_NoDup.
Qed.

Lemma take_port_some (pool rest : list Z) (p : Z) :
  PortPool.take_port pool = (Some p, rest) -> pool = rest ++ [p].
Proof.
  unfold PortPool.take_port. destruct (rev pool) as [| q r] eqn:E; [discriminate |].
  intros H. injection H as -> <-.
  rewrite <- (rev_involutive pool), E. reflexivity.
Qed.

Lemma take_port_snoc (rest : list Z) (p : Z) :
  PortPool.take_port (rest ++ [p]) = (Some p, rest).
Proof.
  unfold PortPool.take_port. rewrite rev_app_distr. simpl. rewrite rev_involutive.
  reflexivity.
Qed.

Lemma take_port_none (pool rest : list Z) :
  PortPool.take_port pool = (None, rest) -> pool = [] /\ rest = [].
Proof.
  unfold PortPool.take_port. destruct (rev pool) as [| q r] eqn:E; [| discriminate].
  intros H. injection H as <-.
  assert (pool = []) by (rewrite <- (rev_involutive pool), E; reflexivity).
  auto.
Qed.

End PortPoolFacts.

(** ** lib/checker.py *)

Module CheckerFacts.
Import Py Utils Effects Runtime Cfg Checker EffLogic Judgments.

Section WithConfig.
Context (cfg : Config) (env : Env).
Context (get_key_hash : str -> str) (parse_proxy_url : str -> option ParsedProxy).

#[local] Abbreviation check_key_e2e := (check_key_e2e cfg env get_key_hash parse_proxy_url).
#[local] Abbreviation probe_body := (probe_body cfg env get_key_hash).
#[local] Abbreviation probe_handler := (probe_handler env).

(** What the cache answers for a key, as a function of the world. *)
Definition cached_verdict (cache_given : bool) (key : str) (w : World) : option bool :=
  if cache_given && ENABLE_CACHE cfg then
    match cache w !! get_key_hash key with
    | Some entry =>
        if Qltb (now w - default 0%Q (timestamp entry)) (inject_Z (CACHE_TTL cfg))
        then result entry else None
    | None => None
    end
  else None.

Lemma cache_lookup_run (cache_given : bool) (key : str) (w : World) :
  (if cache_given && ENABLE_CACHE cfg
   then check_cache cfg (get_key_hash key) else ret None) w
  = (Ret (cached_verdict cache_given key w), w).
Proof.
  unfold cached_verdict, check_cache.
  destruct cache_given; simpl; [| reflexivity].
  destruct (ENABLE_CACHE cfg); simpl; [| reflexivity].
  unfold bind, get. simpl.
  destruct (cache w !! get_key_hash key) as [entry |]; simpl; [| reflexivity].
  unfold time_time, gets. simpl.
  destruct (Qltb _ _); reflexivity.
Qed.

(** The protocols the relay fronts. *)
Definition relay_fronted (p : ParsedProxy) : Prop :=
  protocol p <> hysteria /\ protocol p <> hysteria2.

(** *** The [finally] block *)

Lemma active_discard_run (pp : Z * Z) (w : World) :
  exists l, active_discard pp w = (Ret tt, with_active_processes l w).
Proof.
  unfold active_discard, try_except, active_remove, bind, get. simpl.
  destruct (list_remove_first pp (active_processes w)) as [l |]; simpl.
  - exists l. reflexivity.
  - exists (active_processes w). destruct w; reflexivity.
Qed.

(** The [finally] block always completes; it gives the port back, once,
    and issues no request and no poll. *)
Lemma probe_finally_run (port : Z) (f : Frame) :
  exists f',
    probe_finally port f = (Ret tt, f')
    /\ port_pool (world f') = port_pool (world f) ++ [port]
    /\ port_events (trace (world f'))
       = port_events (trace (world f)) ++ [EvReturnPort port]
    /\ requests_made (world f') = requests_made (world f)
    /\ polls_made (world f') = polls_made (world f)
    /\ cache (world f') = cache (world f).
Proof.
  unfold probe_finally, bind, get. simpl.
  destruct (proc f) as [pid |]; simpl.
  - unfold on_world at 1.
    destruct (active_discard_run (pid, port) (world f)) as [l ->]. simpl.
    eexists. split; [reflexivity |]. simpl.
    unfold port_events. rewrite !List.filter_app. simpl.
    rewrite !app_nil_r. repeat apply conj; (reflexivity || congruence).
  - eexists. split; [reflexivity |]. simpl.
    unfold port_events. rewrite !List.filter_app. simpl.
    rewrite !app_nil_r. repeat apply conj; (reflexivity || congruence).
Qed.

(** *** The handlers *)

(** The [except] clauses return a dead verdict, unless the debugging code
    of the [FileNotFoundError] clause fails to import [config]. *)
Definition handler_safe (debug : bool) (e : exn) : Prop :=
  e <> FileNotFoundError
  \/ debug && debug_first_key cfg = false
  \/ top_level_config_importable env = true.

Lemma probe_handler_run (key : str) (port : Z) (dbg : bool) (e : exn) (f : Frame) :
  (e <> FileNotFoundError \/ dbg = false \/ top_level_config_importable env = true) ->
  exists f',
    probe_handler key port dbg e f = (Ret (key, false, metrics f), f')
    /\ proc f' = proc f
    /\ port_pool (world f') = port_pool (world f)
    /\ port_events (trace (world f')) = port_events (trace (world f))
    /\ requests_made (world f') = requests_made (world f)
    /\ polls_made (world f') = polls_made (world f)
    /\ cache (world f') = cache (world f).
Proof.
  intros Hsafe.
  assert (Hgen : exists f',
    (let* f0 := get in
     (match proc f0 with
      | Some pid => on_world (active_discard (pid, port))
      | None => ret tt
      end) >> ret (key, false, metrics f0)) f = (Ret (key, false, metrics f), f')
    /\ proc f' = proc f
    /\ port_pool (world f') = port_pool (world f)
    /\ port_events (trace (world f')) = port_events (trace (world f))
    /\ requests_made (world f') = requests_made (world f)
    /\ polls_made (world f') = polls_made (world f)
    /\ cache (world f') = cache (world f)).
  { unfold bind, get. simpl. destruct (proc f) as [pid |] eqn:Hp; simpl.
    - unfold on_world.
      destruct (active_discard_run (pid, port) (world f)) as [l ->]. simpl.
      eexists. split; [reflexivity |]. simpl. repeat apply conj; (reflexivity || congruence).
    - exists f. repeat apply conj; (reflexivity || congruence). }
  destruct e; try exact Hgen.
  unfold Checker.probe_handler.
  destruct dbg; [| exact Hgen].
  destruct Hsafe as [H | [H | H]]; [congruence | discriminate |].
  unfold bind at 1. unfold on_world, import_config. rewrite H. simpl.
  destruct f; exact Hgen.
Qed.

(** Whatever the exception, the handlers end, and they touch neither the
    pool nor the counters. *)
Lemma probe_handler_world (key : str) (port : Z) (dbg : bool) (e : exn) (f : Frame)
    (o : outcome Verdict) (f' : Frame) :
  probe_handler key port dbg e f = (o, f') ->
  o <> Diverge
  /\ port_pool (world f') = port_pool (world f)
  /\ port_events (trace (world f')) = port_events (trace (world f))
  /\ requests_made (world f') = requests_made (world f)
  /\ polls_made (world f') = polls_made (world f).
Proof.
  intros Eh.
  destruct (top_level_config_importable env) eqn:Ei.
  - destruct (probe_handler_run key port dbg e f) as [g [E [_ [H1 [H2 [H3 [H4 _]]]]]]];
      [auto |].
    rewrite E in Eh. injection Eh as <- <-. repeat apply conj; (discriminate || assumption).
  - assert (He : e = FileNotFoundError \/ e <> FileNotFoundError)
      by (destruct e; auto; right; discriminate).
    destruct He as [-> | Hne].
    + destruct dbg.
      * unfold Checker.probe_handler, bind, on_world, import_config in Eh.
        rewrite Ei in Eh. simpl in Eh. injection Eh as <- <-.
        destruct f; repeat apply conj; (discriminate || reflexivity).
      * destruct (probe_handler_run key port false FileNotFoundError f)
          as [g [E [_ [H1 [H2 [H3 [H4 _]]]]]]]; [auto |].
        rewrite E in Eh. injection Eh as <- <-.
        repeat apply conj; (discriminate || assumption).
    + destruct (probe_handler_run key port dbg e f) as [g [E [_ [H1 [H2 [H3 [H4 _]]]]]]];
        [auto |].
      rewrite E in Eh. injection Eh as <- <-. repeat apply conj; (discriminate || assumption).
Qed.

(** *** What the body returns *)

(** [m] returns only values that satisfy [P]. *)
Definition returns_only {St A} (P : A -> Prop) (m : Eff St A) : Prop :=
  forall s a s', m s = (Ret a, s') -> P a.

Definition when_return {R} (P : R -> Prop) (c : ctl R) : Prop :=
  match c with Return v => P v | _ => True end.

Definition when_some {R} (P : R -> Prop) (o : option R) : Prop :=
  match o with Some v => P v | None => True end.

Lemma returns_only_ret {St A} (P : A -> Prop) (a : A) :
  P a -> returns_only (St := St) P (ret a).
Proof. intros H s a' s' E. injection E as <- _. exact H. Qed.

Lemma returns_only_bind {St A B} (Q : A -> Prop) (P : B -> Prop)
    (m : Eff St A) (k : A -> Eff St B) :
  returns_only Q m -> (forall a, Q a -> returns_only P (k a)) ->
  returns_only P (bind m k).
Proof.
  intros Hm Hk s b s'. unfold bind.
  destruct (m s) as [[a | e |] s1] eqn:E; try discriminate.
  intros Hr. eapply Hk; [eapply Hm; exact E | exact Hr].
Qed.

Lemma returns_only_any {St A} (m : Eff St A) : returns_only (fun _ => True) m.
Proof. intros s a s' _. exact I. Qed.

Lemma returns_only_for_each {St A R} (P : R -> Prop) (l : list A)
    (body : A -> Eff St (ctl R)) :
  (forall x, returns_only (when_return P) (body x)) ->
  returns_only (when_some P) (for_each l body).
Proof.
  intros Hb. induction l as [| x l IH]; simpl.
  - apply returns_only_ret. exact I.
  - eapply returns_only_bind; [apply Hb |].
    intros [| | v] Hv; [exact IH | apply returns_only_ret; exact I
                       | apply returns_only_ret; exact Hv].
Qed.

Definition for_key (key : str) (v : Verdict) : Prop := v.1.1 = key.

Lemma leave_for_key (key : str) (pid port : Z) (alive : bool) :
  returns_only (for_key key) (leave key pid port alive).
Proof.
  unfold leave.
  eapply returns_only_bind; [apply returns_only_any | intros _ _].
  eapply returns_only_bind; [apply returns_only_any | intros m _].
  apply returns_only_ret. reflexivity.
Qed.

Lemma leave_loop_for_key (key : str) (pid port : Z) (alive : bool) :
  returns_only (when_return (for_key key)) (leave_loop key pid port alive).
Proof.
  unfold leave_loop.
  eapply returns_only_bind; [apply leave_for_key | intros v Hv].
  apply returns_only_ret. exact Hv.
Qed.

Ltac key_step key :=
  match goal with
  | |- returns_only _ (leave _ _ _ _) => apply leave_for_key
  | |- returns_only _ (leave_loop _ _ _ _) => apply leave_loop_for_key
  | |- returns_only _ (ret Next) => apply returns_only_ret; exact I
  | |- returns_only _ (ret Break) => apply returns_only_ret; exact I
  | |- returns_only _ (ret (Return _)) => apply returns_only_ret; assumption
  | |- returns_only (for_key _) (ret ?v) => apply returns_only_ret; assumption
  | |- returns_only _ (bind (for_each _ _) _) =>
      eapply (returns_only_bind (when_some (for_key key)));
      [apply returns_only_for_each; intros | intros ? ?]
  | |- returns_only _ (bind _ _) =>
      eapply returns_only_bind; [apply returns_only_any | intros ? _]
  | |- returns_only _ (if ?b then _ else _) => destruct b
  | |- returns_only _ (match ?x with _ => _ end) => destruct x
  | |- returns_only _ (let _ := _ in _) => cbv zeta
  end.

Lemma strong_style_probe_for_key (key : str) (pid port : Z) :
  returns_only (for_key key) (strong_style_probe cfg env key pid port).
Proof. unfold strong_style_probe, strong_attempt. repeat key_step key. Qed.

Lemma stability_round_for_key (key : str) (pid port : Z) (dbg : bool)
    (all_urls : list (str * bool)) (t : Timeout) (round : Z) :
  returns_only (when_return (for_key key))
    (stability_round cfg env key pid port dbg all_urls t round).
Proof. unfold stability_round. repeat key_step key. Qed.

Lemma normal_probe_for_key (key : str) (pid port : Z) (dbg cache_given : bool) :
  returns_only (for_key key) (normal_probe cfg env get_key_hash key pid port dbg cache_given).
Proof.
  unfold normal_probe. cbv zeta.
  destruct (match _ ++ _ with [] => _ | _ => _ end); [apply leave_for_key |].
  eapply (returns_only_bind (when_some (for_key key)));
    [apply returns_only_for_each; intros; apply stability_round_for_key |].
  intros [v |] Hv; [apply returns_only_ret; exact Hv |].
  repeat key_step key.
Qed.

Lemma probe_body_for_key (key : str) (port : Z) (dbg cache_given : bool) :
  returns_only (for_key key) (probe_body key port dbg cache_given).
Proof.
  unfold Checker.probe_body.
  repeat first [apply strong_style_probe_for_key | apply normal_probe_for_key | key_step key].
Qed.

(** *** The guarded probe: [try] / [except] / [finally] *)

Definition guarded_probe (key : str) (port : Z) (dbg cache_given : bool) : Eff World Verdict :=
  in_frame (new_metrics false)
    (try_finally
       (try_except (probe_body key port dbg cache_given) (probe_handler key port dbg))
       (probe_finally port)).

(** A [FileNotFoundError] can only come from spawning the relay. *)
Definition J_spawn : Judgment World :=
  fun _ k _ => k = Raises FileNotFoundError -> spawn_outcome env = SpawnFileNotFound.

#[local] Instance J_spawn_compositional : Compositional J_spawn.
Proof. split; unfold J_spawn; [discriminate | auto]. Qed.

Lemma probe_primitives_spawn : CheckerBody.ProbePrimitives env J_spawn.
Proof.
  split; unfold J_spawn; intros; intros w.
  - unfold sleep. destruct (Qltb d 0); cbn; discriminate.
  - unfold make_request. cbn.
    destruct (request_outcome env (requests_made w)); cbn; discriminate.
  - unfold active_remove. cbn.
    destruct (list_remove_first pp (active_processes w)); cbn; discriminate.
  - cbn. discriminate.
  - unfold import_config. destruct (top_level_config_importable env); cbn; discriminate.
  - cbn. discriminate.
Qed.

Lemma startup_wait_spawn (fuel : nat) (waited : Q) :
  sat J_spawn (startup_wait cfg env fuel waited).
Proof.
  revert waited. induction fuel as [| fuel IH]; intros waited; simpl.
  - destruct (negb _); [apply sat_ret; exact _ | intros w; cbn; discriminate].
  - destruct (negb _); [apply sat_ret; exact _ |].
    apply sat_bind; [exact _ | intros w; cbn; discriminate |].
    intros [|]; [apply sat_ret; exact _ |].
    apply sat_bind; [exact _ | apply probe_primitives_spawn | intros _; apply IH].
Qed.

Lemma startup_primitives_spawn : CheckerBody.StartupPrimitives cfg env J_spawn.
Proof.
  split; unfold J_spawn; intros; try (intros w; cbn; discriminate).
  - intros w. unfold run_xray. destruct (spawn_outcome env); cbn; congruence.
  - apply startup_wait_spawn.
Qed.

(** How the guarded probe runs, by the way its body ends. *)
Lemma guarded_probe_anatomy (key : str) (port : Z) (dbg cache_given : bool) (w : World) :
  match probe_body key port dbg cache_given (new_frame w (new_metrics false)) with
  | (Ret v, f1) =>
      exists f2, probe_finally port f1 = (Ret tt, f2)
                 /\ guarded_probe key port dbg cache_given w = (Ret v, world f2)
  | (Raise e, f1) =>
      exists o f2 f3,
        probe_handler key port dbg e f1 = (o, f2)
        /\ probe_finally port f2 = (Ret tt, f3)
        /\ (o <> Diverge -> guarded_probe key port dbg cache_given w = (o, world f3))
  | (Diverge, f1) => guarded_probe key port dbg cache_given w = (Diverge, world f1)
  end.
Proof.
  unfold guarded_probe, in_frame, try_finally, try_except.
  destruct (probe_body key port dbg cache_given (new_frame w (new_metrics false)))
    as [[v | e |] f1]; simpl.
  - destruct (probe_finally_run port f1) as [f2 [E _]]. exists f2. rewrite E. auto.
  - destruct (probe_handler key port dbg e f1) as [o f2] eqn:Eh.
    destruct (probe_finally_run port f2) as [f3 [E _]]. exists o, f2, f3.
    split; [reflexivity |]. split; [exact E |].
    intros Ho. destruct o; [rewrite E; reflexivity | rewrite E; reflexivity | congruence].
  - reflexivity.
Qed.

(** With a positive poll interval the body ends. *)
Lemma probe_body_ends (key : str) (port : Z) (dbg cache_given : bool) (f : Frame) :
  (0 < XRAY_STARTUP_POLL_INTERVAL cfg)%Q ->
  (probe_body key port dbg cache_given f).1 <> Diverge.
Proof.
  intros Hpos.
  pose proof (CheckerBody.sat_probe_body cfg env get_key_hash J_ends
                (probe_primitives_ends env) key port dbg cache_given
                (startup_primitives_ends cfg env Hpos) f) as H.
  unfold on_frames, J_ends in H.
  destruct (probe_body key port dbg cache_given f) as [[v | e |] f1]; simpl in *;
    congruence.
Qed.

(** The body, the handlers and the [finally] block leave the pool to
    [return_port]. *)
Lemma guarded_probe_ports (key : str) (port : Z) (dbg cache_given : bool) (w : World) :
  (0 < XRAY_STARTUP_POLL_INTERVAL cfg)%Q ->
  let w' := (guarded_probe key port dbg cache_given w).2 in
  port_pool w' = port_pool w ++ [port]
  /\ port_events (trace w') = port_events (trace w) ++ [EvReturnPort port].
Proof.
  intros Hpos.
  pose proof (guarded_probe_anatomy key port dbg cache_given w) as Ha.
  pose proof (probe_body_ends key port dbg cache_given
                (new_frame w (new_metrics false)) Hpos) as Hends.
  pose proof (CheckerBody.sat_probe_body cfg env get_key_hash J_ports
                (probe_primitives_ports env) key port dbg cache_given
                (startup_primitives_ports cfg env)
                (new_frame w (new_metrics false))) as Hp.
  unfold on_frames, J_ports in Hp.
  destruct (probe_body key port dbg cache_given (new_frame w (new_metrics false)))
    as [[v | e |] f1]; simpl in *; [| | congruence].
  - destruct Ha as [f2 [Ef Hg]]. rewrite Hg. simpl.
    destruct (probe_finally_run port f1) as [f2' [Ef' [H1 [H2 _]]]].
    rewrite Ef in Ef'. injection Ef' as <-.
    destruct Hp as [Hp1 Hp2]. rewrite H1, H2, Hp1, Hp2. auto.
  - destruct Ha as [o [f2 [f3 [Eh [Ef Hg]]]]].
    destruct (probe_finally_run port f2) as [f3' [Ef' [H1 [H2 _]]]].
    rewrite Ef in Ef'. injection Ef' as <-.
    destruct Hp as [Hp1 Hp2].
    destruct (probe_handler_world key port dbg e f1 o f2 Eh) as [Ho [Hh1 [Hh2 _]]].
    rewrite (Hg Ho). simpl. rewrite H1, H2, Hh1, Hh2, Hp1, Hp2. auto.
Qed.

(** *** The whole function *)

(** The function after a cache miss, from the port lease on. *)
Lemma check_key_e2e_unfold (key : str) (debug cache_given : bool) (w : World) :
  check_key_e2e key debug cache_given w
  = match cached_verdict cache_given key w with
    | Some r => (Ret (key, r, new_metrics true), w)
    | None =>
        let w1 := with_trace (trace w ++ [EvParse]) w in
        match parse_proxy_url key with
        | None => (Ret (key, false, new_metrics false), w1)
        | Some parsed =>
            match protocol parsed with
            | hysteria | hysteria2 =>
                (let* '(ok, latency) :=
                   _check_hysteria_reachable env (inject_Z (timeout_choice cfg)) in
                 let m1 := if ok then with_response_times [latency] (new_metrics false)
                           else new_metrics false in
                 (if cache_given && ENABLE_CACHE cfg
                  then cache_store (get_key_hash key) ok else ret tt) >>
                 ret (key, ok, with_failed_urls (if ok then 0 else 1)
                                 (with_successful_urls (if ok then 1 else 0) m1))) w1
            | _ =>
                match PortPool.take_port (port_pool w1) with
                | (None, _) => (Ret (key, false, new_metrics false), w1)
                | (Some port, rest) =>
                    let w2 := with_trace (trace w1 ++ [EvTakePort port])
                                (with_port_pool rest w1) in
                    if write_config_ok env then
                      guarded_probe key port (debug && debug_first_key cfg) cache_given
                        (with_trace (trace w2 ++ [EvWriteConfig]) w2)
                    else
                      (Ret (key, false, new_metrics false),
                       with_trace (trace w2 ++ [EvReturnPort port])
                         (with_port_pool (rest ++ [port]) w2))
                end
            end
        end
    end.
Proof.
  unfold Checker.check_key_e2e.
  unfold bind at 1. rewrite cache_lookup_run.
  destruct (cached_verdict cache_given key w) as [r |]; [reflexivity |].
  unfold bind at 1. unfold emit at 1, modify at 1.
  destruct (parse_proxy_url key) as [parsed |]; [| reflexivity].
  destruct (protocol parsed) eqn:Ep; try reflexivity;
    (unfold bind at 1; unfold take_port at 1; unfold bind at 1; unfold get at 1;
     cbn [port_pool with_trace];
     destruct (PortPool.take_port (port_pool w)) as [[port |] rest]; [| reflexivity];
     unfold build_xray_config; rewrite Ep;
     unfold write_config, mkstemp, try_except, bind, emit, modify, ret, raise, return_port,
       PortPool.return_port, guarded_probe;
     destruct (write_config_ok env); reflexivity).
Qed.

(** C3: with caching enabled and a fresh entry for the key's hash in the
    cache that was passed in, [check_key_e2e] returns the cached verdict with
    [cached = True] in the metrics and leaves the world as it found it: the
    key is not parsed, no port is leased, no relay is spawned (the trace of
    actions is unchanged), and the cache and the port pool are the same. *)
Theorem cache_hit_has_no_side_effects (key : str) (debug : bool) (w : World)
    (entry : CacheEntry) (verdict : bool) :
  ENABLE_CACHE cfg = true ->
  cache w !! get_key_hash key = Some entry ->
  (now w - default 0%Q (timestamp entry) < inject_Z (CACHE_TTL cfg))%Q ->
  result entry = Some verdict ->
  exists m,
    check_key_e2e key debug true w = (Ret (key, verdict, m), w)
    /\ cached m = true
    /\ total_requests m = 0.
Proof.
  intros Hen Hin Hfresh Hres.
  exists (new_metrics true).
  rewrite check_key_e2e_unfold.
  unfold cached_verdict. rewrite Hen, Hin. simpl.
  apply Qltb_lt in Hfresh. rewrite Hfresh, Hres. auto.
Qed.

(** Probes run one after the other, as one worker would run them. *)
Fixpoint probe_all (keys : list (str * bool)) (cache_given : bool) (w : World) : World :=
  match keys with
  | [] => w
  | (key, debug) :: rest =>
      probe_all rest cache_given (check_key_e2e key debug cache_given w).2
  end.

Lemma check_key_e2e_ports (key : str) (debug cache_given : bool) (w : World) :
  (0 < XRAY_STARTUP_POLL_INTERVAL cfg)%Q ->
  let w' := (check_key_e2e key debug cache_given w).2 in
  port_pool w' = port_pool w
  /\ (port_events (trace w') = port_events (trace w)
      \/ exists p, In p (port_pool w)
                   /\ port_events (trace w')
                      = port_events (trace w) ++ [EvTakePort p; EvReturnPort p]).
Proof.
  intros Hpos. rewrite check_key_e2e_unfold.
  destruct (cached_verdict cache_given key w); [simpl; auto |].
  assert (Hparse : port_events (trace w ++ [EvParse]) = port_events (trace w))
    by (apply port_events_app; reflexivity).
  destruct (parse_proxy_url key) as [parsed |]; [| simpl; auto].
  assert (Hhy :
    let w' := ((let* '(ok, latency) :=
                  _check_hysteria_reachable env (inject_Z (timeout_choice cfg)) in
                let m1 := if ok then with_response_times [latency] (new_metrics false)
                          else new_metrics false in
                (if cache_given && ENABLE_CACHE cfg
                 then cache_store (get_key_hash key) ok else ret tt) >>
                ret (key, ok, with_failed_urls (if ok then 0 else 1)
                                (with_successful_urls (if ok then 1 else 0) m1)))
                 (with_trace (trace w ++ [EvParse]) w)).2 in
    port_pool w' = port_pool w
    /\ (port_events (trace w') = port_events (trace w)
        \/ exists p, In p (port_pool w)
                     /\ port_events (trace w')
                        = port_events (trace w) ++ [EvTakePort p; EvReturnPort p])).
  { unfold _check_hysteria_reachable, tcp_connect, bind, emit, modify, advance, cache_store,
      time_time, gets, ret.
    destruct (tcp_connect_outcome env); destruct (cache_given && ENABLE_CACHE cfg); simpl;
      (split; [reflexivity |]); left;
      unfold port_events; rewrite !List.filter_app; simpl; rewrite !app_nil_r; reflexivity. }
  assert (Hrf : forall w1, w1 = with_trace (trace w ++ [EvParse]) w ->
    let w' := (match PortPool.take_port (port_pool w1) with
               | (None, _) => (Ret (key, false, new_metrics false), w1)
               | (Some port, rest) =>
                   let w2 := with_trace (trace w1 ++ [EvTakePort port])
                               (with_port_pool rest w1) in
                   if write_config_ok env then
                     guarded_probe key port (debug && debug_first_key cfg) cache_given
                       (with_trace (trace w2 ++ [EvWriteConfig]) w2)
                   else
                     (Ret (key, false, new_metrics false),
                      with_trace (trace w2 ++ [EvReturnPort port])
                        (with_port_pool (rest ++ [port]) w2))
               end).2 in
    port_pool w' = port_pool w
    /\ (port_events (trace w') = port_events (trace w)
        \/ exists p, In p (port_pool w)
                     /\ port_events (trace w')
                        = port_events (trace w) ++ [EvTakePort p; EvReturnPort p])).
  { intros w1 ->. cbn [port_pool with_trace].
    destruct (PortPool.take_port (port_pool w)) as [[port |] rest] eqn:Et;
      [| simpl; auto].
    apply PortPoolFacts.take_port_some in Et.
    assert (Hin : In port (port_pool w)) by (rewrite Et; apply in_or_app; right; left; reflexivity).
    destruct (write_config_ok env).
    - match goal with
      | |- context [guarded_probe ?k ?p ?d ?c ?w0] =>
          destruct (guarded_probe_ports k p d c w0 Hpos) as [H1 H2]
      end.
      cbv zeta. rewrite H1, H2. cbn [port_pool trace with_trace with_port_pool].
      split; [symmetry; exact Et |]. right. exists port. split; [exact Hin |].
      unfold port_events. rewrite !List.filter_app. simpl. rewrite !app_nil_r.
      rewrite <- !app_assoc. reflexivity.
    - cbn [snd port_pool trace with_trace with_port_pool].
      split; [symmetry; exact Et |]. right. exists port. split; [exact Hin |].
      unfold port_events. rewrite !List.filter_app. simpl. rewrite !app_nil_r.
      rewrite <- !app_assoc. reflexivity. }
  destruct (protocol parsed); first [exact Hhy | apply Hrf; reflexivity].
Qed.


(** *** No exception leaves the function *)

(** The guarded probe returns a verdict for the key: the one of the body,
    or a dead one when the body raised. *)
Lemma guarded_probe_verdict (key : str) (port : Z) (dbg cache_given : bool) (w : World) :
  (0 < XRAY_STARTUP_POLL_INTERVAL cfg)%Q ->
  (dbg = false \/ top_level_config_importable env = true
   \/ spawn_outcome env <> SpawnFileNotFound) ->
  exists alive m w',
    guarded_probe key port dbg cache_given w = (Ret (key, alive, m), w')
    /\ match probe_body key port dbg cache_given (new_frame w (new_metrics false)) with
       | (Ret v, f1) =>
           v = (key, alive, m)
           /\ requests_made w' = requests_made (world f1)
           /\ polls_made w' = polls_made (world f1)
       | (Raise e, f1) =>
           alive = false
           /\ requests_made w' = requests_made (world f1)
           /\ polls_made w' = polls_made (world f1)
       | (Diverge, _) => False
       end.
Proof.
  intros Hpos Hsafe.
  pose proof (guarded_probe_anatomy key port dbg cache_given w) as Ha.
  pose proof (probe_body_ends key port dbg cache_given
                (new_frame w (new_metrics false)) Hpos) as Hends.
  pose proof (probe_body_for_key key port dbg cache_given
                (new_frame w (new_metrics false))) as Hkey.
  pose proof (CheckerBody.sat_probe_body cfg env get_key_hash J_spawn
                probe_primitives_spawn key port dbg cache_given
                startup_primitives_spawn (new_frame w (new_metrics false))) as Hsp.
  unfold on_frames, J_spawn in Hsp.
  destruct (probe_body key port dbg cache_given (new_frame w (new_metrics false)))
    as [[v | e |] f1]; simpl in *; [| | congruence].
  - destruct Ha as [f2 [Ef Hg]].
    destruct (probe_finally_run port f1) as [f2' [Ef' [_ [_ [H3 [H4 _]]]]]].
    rewrite Ef in Ef'. injection Ef' as <-.
    specialize (Hkey v f1 eq_refl). unfold for_key in Hkey.
    destruct v as [[k alive] m]. simpl in Hkey. subst k.
    exists alive, m, (world f2). auto.
  - destruct Ha as [o [f2 [f3 [Eh [Ef Hg]]]]].
    destruct (probe_finally_run port f2) as [f3' [Ef' [_ [_ [H3 [H4 _]]]]]].
    rewrite Ef in Ef'. injection Ef' as <-.
    destruct (probe_handler_run key port dbg e f1) as [g [E [_ [_ [_ [H5 [H6 _]]]]]]].
    { destruct Hsafe as [H | [H | H]]; [auto | auto |].
      left. intros ->. apply H. apply Hsp. reflexivity. }
    rewrite E in Eh. injection Eh as <- <-.
    exists false, (metrics f1), (world f3).
    split; [apply Hg; discriminate |]. repeat apply conj; congruence.
Qed.

(** A relay that cannot be spawned makes the body raise at once. *)
Lemma probe_body_spawn_failure (key : str) (port : Z) (dbg cache_given : bool) (f : Frame) :
  (forall pid, spawn_outcome env <> Spawned pid) ->
  exists e, probe_body key port dbg cache_given f = (Raise e, f).
Proof.
  intros Hs. unfold Checker.probe_body, bind, on_world, run_xray.
  destruct (spawn_outcome env) as [pid | |]; simpl.
  - exfalso. apply (Hs pid). reflexivity.
  - exists FileNotFoundError. destruct f; reflexivity.
  - exists OtherException. destruct f; reflexivity.
Qed.

(** When the last poll of the relay finds it gone, the body does not
    return a live verdict. *)
Lemma probe_body_relay_exit (key : str) (port : Z) (dbg cache_given : bool) (f : Frame) :
  let '(o, f1) := probe_body key port dbg cache_given f in
  (polls_made (world f) < polls_made (world f1))%nat ->
  poll_exited env (pred (polls_made (world f1))) = true ->
  match o with Ret v => v.1.2 = false | _ => True end.
Proof.
  unfold Checker.probe_body.
  unfold bind at 1. destruct (on_world (run_xray env) f) as [[pid | e |] f0]; try tauto.
  unfold bind at 1. unfold modify at 1.
  unfold bind at 1. unfold on_world at 1. unfold active_append at 1, modify at 1.
  cbn [world with_proc with_world].
  unfold bind at 1. unfold on_world at 1.
  destruct (startup_wait cfg env (startup_iterations cfg) 0 _) as [[[] | e |] w1];
    try tauto.
  unfold bind at 1. unfold on_world at 1. unfold proc_exited at 1.
  unfold bind at 1, get at 1. unfold bind at 1, modify at 1. unfold ret at 1.
  cbn [world with_proc with_world].
  destruct (poll_exited env (polls_made w1)) eqn:Ex.
  - unfold leave, bind.
    destruct (on_world (active_remove (pid, port)) _) as [[[] | e |] f2]; simpl; auto.
  - match goal with
    | |- context [(if ?b then ?x else ?y) ?g] =>
        assert (Hp : polls_made (world ((if b then x else y) g).2) = polls_made (world g));
        [| destruct ((if b then x else y) g) as [o f2] ]
    end.
    { destruct (STRONG_STYLE_TEST cfg).
      - apply (CheckerBody.sat_strong_style_probe cfg env J_polls
                 (probe_primitives_polls env)).
      - apply (CheckerBody.sat_normal_probe cfg env get_key_hash J_polls
                 (probe_primitives_polls env)). }
    simpl in Hp. intros _ Hlast. rewrite Hp in Hlast. simpl in Hlast. congruence.
Qed.

(** A request that breaks with an exception of its own ends the body. *)
Lemma probe_body_request_crash (key : str) (port : Z) (dbg cache_given : bool)
    (f : Frame) (i : nat) :
  let '(o, f1) := probe_body key port dbg cache_given f in
  (requests_made (world f) <= i < requests_made (world f1))%nat ->
  request_outcome env i = RequestCrashed ->
  match o with Ret _ => False | _ => True end.
Proof.
  pose proof (CheckerBody.sat_probe_body cfg env get_key_hash (J_requests env)
                (probe_primitives_requests env) key port dbg cache_given
                (startup_primitives_requests cfg env) f) as H.
  unfold on_frames, J_requests in H.
  destruct (probe_body key port dbg cache_given f) as [[v | e |] f1]; simpl in *; auto.
  intros Hi Hc. destruct H as [_ H]. apply (H eq_refl i Hi Hc).
Qed.

(** The internal errors of a probe that runs from world [w] to world [w']:
    the key does not parse; the pool has no port left; the relay's
    configuration cannot be written; the relay cannot be spawned; the relay
    is gone at the last poll; an HTTP request breaks with an exception. *)
Inductive internal_error (key : str) (w w' : World) : Prop :=
  | parse_failure :
      parse_proxy_url key = None -> internal_error key w w'
  | port_exhaustion parsed :
      parse_proxy_url key = Some parsed -> relay_fronted parsed ->
      port_pool w = [] -> internal_error key w w'
  | config_write_error parsed :
      parse_proxy_url key = Some parsed -> relay_fronted parsed ->
      write_config_ok env = false -> internal_error key w w'
  | relay_not_spawned parsed :
      parse_proxy_url key = Some parsed -> relay_fronted parsed ->
      (forall pid, spawn_outcome env <> Spawned pid) -> internal_error key w w'
  | relay_exit :
      (polls_made w < polls_made w')%nat ->
      poll_exited env (pred (polls_made w')) = true -> internal_error key w w'
  | http_exception i :
      (requests_made w <= i < requests_made w')%nat ->
      request_outcome env i = RequestCrashed -> internal_error key w w'.


End WithConfig.

End CheckerFacts.

(** ** The strict mobile-client probe *)

Module StrictProbe.
Import Py Utils Effects Runtime Cfg Checker EffLogic Judgments CheckerFacts.

Section WithConfig.
Context (cfg : Config) (env : Env).
Context (get_key_hash : str -> str) (parse_proxy_url : str -> option ParsedProxy).

(** The number of GETs the strict probe is ready to issue. *)
Definition attempts : nat := Z.to_nat (Z.max 1 (STRONG_ATTEMPTS cfg)).

(** An attempt passes when the GET brings a response that is valid for the
    [generate_204] URL and that came within the limit, if there is one: the
    limit is [STRONG_MAX_RESPONSE_TIME] when positive, and
    [MAX_RESPONSE_TIME] otherwise. *)
Definition attempt_passes (o : RequestOutcome) : bool :=
  match o with
  | Responded r elapsed =>
      response_truthy r && check_response_valid r 0 _CLIENT_TEST_HTTPS
      && negb (Qltb 0 (strong_max_ok_time cfg) && Qltb (strong_max_ok_time cfg) elapsed)
  | _ => false
  end.

(** The same, with the limit as the specification words it:
    [STRONG_MAX_RESPONSE_TIME], when positive, and no limit otherwise. *)
Definition attempt_passes_stated (o : RequestOutcome) : bool :=
  match o with
  | Responded r elapsed =>
      response_truthy r && check_response_valid r 0 _CLIENT_TEST_HTTPS
      && negb ((0 <? STRONG_MAX_RESPONSE_TIME cfg)
               && Qltb (inject_Z (STRONG_MAX_RESPONSE_TIME cfg)) elapsed)
  | _ => false
  end.

Lemma list_remove_first_in (x : Z * Z) (l : list (Z * Z)) :
  In x l -> exists l', list_remove_first x l = Some l'.
Proof.
  induction l as [| y l IH]; simpl; [tauto |].
  intros [-> | H].
  - rewrite bool_decide_eq_true_2 by reflexivity. eauto.
  - destruct (bool_decide (x = y)); [eauto |].
    destruct (IH H) as [l' ->]. eauto.
Qed.

Lemma leave_run (key : str) (pid port : Z) (alive : bool) (f : Frame) :
  In (pid, port) (active_processes (world f)) ->
  exists f',
    leave key pid port alive f = (Ret (key, alive, metrics f), f')
    /\ requests_made (world f') = requests_made (world f)
    /\ metrics f' = metrics f.
Proof.
  intros Hin. destruct (list_remove_first_in _ _ Hin) as [l Hl].
  unfold leave, on_world, active_remove, get, gets, bind. cbn. rewrite Hl. cbn.
  eexists. split; [reflexivity |]. split; reflexivity.
Qed.

(** The frame an attempt starts from, once the pause between attempts is
    over. *)
Definition after_pause (attempt : Z) (f : Frame) : Frame :=
  if 0 <? attempt then with_world (with_now (now (world f) + (1 # 2))%Q (world f)) f else f.

Lemma pause_run (attempt : Z) (f : Frame) :
  (if 0 <? attempt then on_world (sleep (1 # 2)) else ret tt) f
  = (Ret tt, after_pause attempt f).
Proof. unfold after_pause. destruct (0 <? attempt); reflexivity. Qed.

Lemma after_pause_fields (attempt : Z) (f : Frame) :
  requests_made (world (after_pause attempt f)) = requests_made (world f)
  /\ active_processes (world (after_pause attempt f)) = active_processes (world f)
  /\ metrics (after_pause attempt f) = metrics f.
Proof. unfold after_pause. destruct (0 <? attempt); auto. Qed.

(** One attempt that passes. *)
Lemma strong_attempt_pass (key : str) (pid port attempt : Z) (f : Frame) :
  attempt_passes (request_outcome env (requests_made (world f))) = true ->
  exists f',
    strong_attempt cfg env key pid port attempt f = (Ret Next, f')
    /\ total_requests (metrics f') = total_requests (metrics f) + 1
    /\ requests_made (world f') = S (requests_made (world f))
    /\ active_processes (world f') = active_processes (world f).
Proof.
  intros Hp. unfold strong_attempt. cbv zeta.
  unfold bind at 1. rewrite pause_run.
  destruct (after_pause_fields attempt f) as [Hr [Ha Hm]].
  set (g := after_pause attempt f) in *.
  unfold bind at 1. unfold on_world at 1, make_request at 1.
  unfold bind at 1, get at 1. unfold bind at 1, modify at 1.
  unfold bind at 1, emit at 1, modify at 1. cbn [requests_made with_requests_made with_trace].
  rewrite Hr. unfold attempt_passes in Hp.
  destruct (request_outcome env (requests_made (world f))) as [r el | |];
    [| discriminate | discriminate].
  apply andb_true_iff in Hp as [Hp Hlim]. apply andb_true_iff in Hp as [Htr Hv].
  apply negb_true_iff in Hlim.
  unfold bind at 1, advance at 1, modify at 1, ret at 1.
  unfold bind at 1, update_metrics at 1, modify at 1.
  unfold truthy. rewrite Htr, Hv, Hlim.
  unfold bind, update_metrics, modify, ret. cbn -[_CLIENT_TEST_HTTPS].
  eexists. split; [reflexivity |]. cbn. rewrite ?Hm, ?Ha. auto.
Qed.

(** One attempt that fails with a response or with an error of the
    [requests] library. *)
Lemma strong_attempt_fail (key : str) (pid port attempt : Z) (f : Frame) :
  In (pid, port) (active_processes (world f)) ->
  attempt_passes (request_outcome env (requests_made (world f))) = false ->
  request_outcome env (requests_made (world f)) <> RequestCrashed ->
  exists m f',
    strong_attempt cfg env key pid port attempt f = (Ret (Return (key, false, m)), f')
    /\ total_requests m = total_requests (metrics f) + 1
    /\ requests_made (world f') = S (requests_made (world f)).
Proof.
  intros Hin Hp Hnc. unfold strong_attempt. cbv zeta.
  unfold bind at 1. rewrite pause_run.
  destruct (after_pause_fields attempt f) as [Hr [Ha Hm]].
  set (g := after_pause attempt f) in *.
  unfold bind at 1. unfold on_world at 1, make_request at 1.
  unfold bind at 1, get at 1. unfold bind at 1, modify at 1.
  unfold bind at 1, emit at 1, modify at 1. cbn [requests_made with_requests_made with_trace].
  rewrite Hr. unfold attempt_passes in Hp.
  assert (Hleave : forall g', active_processes (world g') = active_processes (world g) ->
            requests_made (world g') = S (requests_made (world f)) ->
            metrics g' = with_total_requests (total_requests (metrics f) + 1) (metrics f) ->
            exists m f',
              leave_loop key pid port false g' = (Ret (Return (key, false, m)), f')
              /\ total_requests m = total_requests (metrics f) + 1
              /\ requests_made (world f') = S (requests_made (world f))).
  { intros g' Hga Hgr Hgm. unfold leave_loop, bind.
    destruct (leave_run key pid port false g') as [f' [El [Hlr Hlm]]];
      [rewrite Hga, Ha; exact Hin |].
    rewrite El. eexists _, f'. split; [reflexivity |]. rewrite Hgm. cbn.
    split; [reflexivity | congruence]. }
  destruct (request_outcome env (requests_made (world f))) as [r el | e el |];
    [| | congruence].
  - unfold bind at 1, advance at 1, modify at 1, ret at 1.
    unfold bind at 1, update_metrics at 1, modify at 1.
    unfold truthy.
    destruct (response_truthy r); simpl in Hp.
    + destruct (check_response_valid r 0 _CLIENT_TEST_HTTPS); simpl in Hp.
      * apply negb_false_iff in Hp. rewrite Hp.
        apply Hleave; cbn; [reflexivity | reflexivity | rewrite Hm; reflexivity].
      * apply Hleave; cbn; [reflexivity | reflexivity | rewrite Hm; reflexivity].
    + apply Hleave; cbn; [reflexivity | reflexivity | rewrite Hm; reflexivity].
  - unfold bind at 1, advance at 1, modify at 1, ret at 1.
    unfold bind at 1, update_metrics at 1, modify at 1.
    unfold truthy.
    apply Hleave; cbn; [reflexivity | reflexivity | rewrite Hm; reflexivity].
Qed.

(** One attempt whose GET breaks with an exception of its own. *)
Lemma strong_attempt_crash (key : str) (pid port attempt : Z) (f : Frame) :
  request_outcome env (requests_made (world f)) = RequestCrashed ->
  exists f',
    strong_attempt cfg env key pid port attempt f = (Raise OtherException, f')
    /\ total_requests (metrics f') = total_requests (metrics f)
    /\ requests_made (world f') = S (requests_made (world f)).
Proof.
  intros Hc. unfold strong_attempt. cbv zeta.
  unfold bind at 1. rewrite pause_run.
  destruct (after_pause_fields attempt f) as [Hr [Ha Hm]].
  set (g := after_pause attempt f) in *.
  unfold bind at 1. unfold on_world at 1, make_request at 1.
  unfold bind at 1, get at 1. unfold bind at 1, modify at 1.
  unfold bind at 1, emit at 1, modify at 1. cbn [requests_made with_requests_made with_trace].
  rewrite Hr, Hc. cbn.
  eexists. split; [reflexivity |]. cbn. rewrite ?Hm. auto.
Qed.

(** The loop, when every attempt passes. *)
Lemma strong_loop_all_pass (key : str) (pid port : Z) (k a : nat) (f : Frame) :
  (forall i, (i < k)%nat ->
     attempt_passes (request_outcome env (requests_made (world f) + i)) = true) ->
  exists f',
    for_each (map Z.of_nat (seq a k)) (strong_attempt cfg env key pid port) f
    = (Ret None, f')
    /\ total_requests (metrics f') = total_requests (metrics f) + Z.of_nat k
    /\ requests_made (world f') = (requests_made (world f) + k)%nat
    /\ active_processes (world f') = active_processes (world f).
Proof.
  revert a f. induction k as [| k IH]; intros a f Hall.
  - exists f. simpl. repeat apply conj; try reflexivity; lia.
  - simpl. unfold bind at 1.
    destruct (strong_attempt_pass key pid port (Z.of_nat a) f) as [f1 [E [Ht [Hr Ha]]]].
    { specialize (Hall 0%nat). rewrite Nat.add_0_r in Hall. apply Hall. lia. }
    rewrite E.
    destruct (IH (S a) f1) as [f' [E' [Ht' [Hr' Ha']]]].
    { intros i Hi. rewrite Hr. replace (S (requests_made (world f)) + i)%nat
        with (requests_made (world f) + S i)%nat by lia. apply Hall. lia. }
    exists f'. rewrite E'. repeat apply conj; try reflexivity; try congruence; lia.
Qed.

(** The loop, when attempt [j] is the first that does not pass. *)
Lemma strong_loop_first_failure (key : str) (pid port : Z) (k a j : nat) (f : Frame) :
  (j < k)%nat ->
  In (pid, port) (active_processes (world f)) ->
  (forall i, (i < j)%nat ->
     attempt_passes (request_outcome env (requests_made (world f) + i)) = true) ->
  attempt_passes (request_outcome env (requests_made (world f) + j)) = false ->
  exists o f',
    for_each (map Z.of_nat (seq a k)) (strong_attempt cfg env key pid port) f = (o, f')
    /\ (request_outcome env (requests_made (world f) + j) <> RequestCrashed ->
        exists m, o = Ret (Some (key, false, m))
                  /\ total_requests m = total_requests (metrics f) + Z.of_nat j + 1)
    /\ (request_outcome env (requests_made (world f) + j) = RequestCrashed ->
        o = Raise OtherException
        /\ total_requests (metrics f') = total_requests (metrics f) + Z.of_nat j).
Proof.
  revert k a f. induction j as [| j IH]; intros k a f Hjk Hin Hall Hfail.
  - destruct k as [| k]; [lia |]. simpl. unfold bind at 1.
    rewrite Nat.add_0_r in *.
    destruct (request_outcome env (requests_made (world f))) eqn:Eo.
    + destruct (strong_attempt_fail key pid port (Z.of_nat a) f Hin) as [m [f' [E [Ht _]]]];
        [rewrite Eo; exact Hfail | rewrite Eo; discriminate |].
      rewrite E. eexists _, f'. split; [reflexivity |].
      split; [intros _; exists m; split; [reflexivity | lia] | discriminate].
    + destruct (strong_attempt_fail key pid port (Z.of_nat a) f Hin) as [m [f' [E [Ht _]]]];
        [rewrite Eo; exact Hfail | rewrite Eo; discriminate |].
      rewrite E. eexists _, f'. split; [reflexivity |].
      split; [intros _; exists m; split; [reflexivity | lia] | discriminate].
    + destruct (strong_attempt_crash key pid port (Z.of_nat a) f Eo) as [f' [E [Ht _]]].
      rewrite E. eexists _, f'. split; [reflexivity |].
      split; [congruence | intros _; split; [reflexivity | lia]].
  - destruct k as [| k]; [lia |]. simpl. unfold bind at 1.
    destruct (strong_attempt_pass key pid port (Z.of_nat a) f) as [f1 [E [Ht [Hr Ha]]]].
    { specialize (Hall 0%nat). rewrite Nat.add_0_r in Hall. apply Hall. lia. }
    rewrite E.
    replace (requests_made (world f) + S j)%nat
      with (requests_made (world f1) + j)%nat in * by lia.
    destruct (IH k (S a) f1) as [o [f' [E' [H1 H2]]]].
    + lia.
    + rewrite Ha. exact Hin.
    + intros i Hi. rewrite Hr. replace (S (requests_made (world f)) + i)%nat
        with (requests_made (world f) + S i)%nat by lia. apply Hall. lia.
    + exact Hfail.
    + exists o, f'. split; [exact E' |]. split.
      * intros Hn. destruct (H1 Hn) as [m [-> Hm]]. exists m. split; [reflexivity | lia].
      * intros Hc. destruct (H2 Hc) as [-> Hm]. split; [reflexivity | lia].
Qed.

(** The strict probe as a whole. *)
Lemma strong_style_probe_run (key : str) (pid port : Z) (f : Frame) :
  In (pid, port) (active_processes (world f)) ->
  total_requests (metrics f) = 0 ->
  exists o f',
    strong_style_probe cfg env key pid port f = (o, f')
    /\ ((forall i, (i < attempts)%nat ->
           attempt_passes (request_outcome env (requests_made (world f) + i)) = true) ->
        exists m, o = Ret (key, true, m) /\ total_requests m = Z.of_nat attempts)
    /\ (forall j, (j < attempts)%nat ->
          (forall i, (i < j)%nat ->
             attempt_passes (request_outcome env (requests_made (world f) + i)) = true) ->
          attempt_passes (request_outcome env (requests_made (world f) + j)) = false ->
          (request_outcome env (requests_made (world f) + j) <> RequestCrashed ->
           exists m, o = Ret (key, false, m) /\ total_requests m = Z.of_nat j + 1)
          /\ (request_outcome env (requests_made (world f) + j) = RequestCrashed ->
              o = Raise OtherException /\ total_requests (metrics f') = Z.of_nat j)).
Proof.
  intros Hin Hzero.
  destruct (strong_style_probe cfg env key pid port f) as [o f'] eqn:Erun.
  exists o, f'. split; [reflexivity |].
  unfold strong_style_probe in Erun. cbv zeta in Erun. unfold range in Erun.
  fold attempts in Erun. split.
  - intros Hall.
    destruct (strong_loop_all_pass key pid port attempts 0 f Hall) as [f1 [E [Ht [Hr Ha]]]].
    unfold bind at 1 in Erun. rewrite E in Erun.
    unfold bind at 1, update_metrics at 1, modify at 1 in Erun.
    match type of Erun with
    | leave _ _ _ _ ?g = _ =>
        destruct (leave_run key pid port true g) as [f2 [El _]];
        [cbn; rewrite Ha; exact Hin | rewrite El in Erun]
    end.
    injection Erun as <- _. eexists. split; [reflexivity |]. cbn. lia.
  - intros j Hj Hbefore Hfail.
    destruct (strong_loop_first_failure key pid port attempts 0 j f Hj Hin Hbefore Hfail)
      as [o1 [f1 [E [H1 H2]]]].
    unfold bind at 1 in Erun. rewrite E in Erun. split.
    + intros Hn. destruct (H1 Hn) as [m [-> Hm]]. unfold ret in Erun.
      injection Erun as <- _. exists m. split; [reflexivity | lia].
    + intros Hc. destruct (H2 Hc) as [-> Hm]. injection Erun as <- <-.
      split; [reflexivity | lia].
Qed.

(** While the relay stays up, the start-up wait only lets time pass. *)
Lemma startup_wait_relay_up (fuel : nat) (waited : Q) (w : World) :
  (forall i, poll_exited env i = false) ->
  (0 < XRAY_STARTUP_POLL_INTERVAL cfg)%Q ->
  exists o w',
    startup_wait cfg env fuel waited w = (o, w')
    /\ (o = Ret tt \/ o = Diverge)
    /\ requests_made w' = requests_made w
    /\ active_processes w' = active_processes w.
Proof.
  intros Hup Hpos. revert waited w. induction fuel as [| fuel IH]; intros waited w; simpl.
  - destruct (negb _); eexists _, _; (split; [reflexivity |]); auto.
  - destruct (negb _); [eexists _, _; (split; [reflexivity |]); auto |].
    unfold bind at 1, proc_exited at 1, bind at 1, get at 1, bind at 1, modify at 1, ret at 1.
    rewrite Hup. unfold bind at 1, sleep at 1.
    replace (Qltb (XRAY_STARTUP_POLL_INTERVAL cfg) 0) with false
      by (symmetry; apply Qltb_ge; lra).
    unfold advance, modify.
    match goal with
    | |- context [startup_wait cfg env fuel ?q ?w0] =>
        destruct (IH q w0) as [o [w' [E [Ho [Hr Ha]]]]]
    end.
    exists o, w'. split; [exact E |]. auto.
Qed.

(** With the relay spawned and up, the body of the [try] statement comes
    down to the strict probe. *)
Lemma probe_body_reaches_strict_probe (key : str) (port pid : Z) (dbg cache_given : bool)
    (f : Frame) :
  STRONG_STYLE_TEST cfg = true ->
  (0 < XRAY_STARTUP_POLL_INTERVAL cfg)%Q ->
  spawn_outcome env = Spawned pid ->
  (forall i, poll_exited env i = false) ->
  exists f1,
    probe_body cfg env get_key_hash key port dbg cache_given f
    = strong_style_probe cfg env key pid port f1
    /\ In (pid, port) (active_processes (world f1))
    /\ metrics f1 = metrics f
    /\ requests_made (world f1) = requests_made (world f).
Proof.
  intros Hstrong Hpos Hspawn Hup.
  pose proof (startup_primitives_ends cfg env Hpos) as Hends.
  unfold probe_body.
  unfold bind at 1, on_world at 1, run_xray at 1. rewrite Hspawn.
  unfold bind at 1, emit at 1, modify at 1, ret at 1.
  unfold bind at 1, modify at 1.
  unfold bind at 1, on_world at 1, active_append at 1, modify at 1.
  unfold bind at 1, on_world at 1.
  match goal with
  | |- context [startup_wait cfg env (startup_iterations cfg) 0 ?w0] =>
      destruct (startup_wait_relay_up (startup_iterations cfg) 0 w0 Hup Hpos)
        as [o [w1 [E [Ho [Hr Ha]]]]];
      pose proof (CheckerBody.prim_wait _ _ _ Hends w0) as Hnd;
      rewrite E in *
  end.
  destruct Ho as [-> | ->]; [| exfalso; apply Hnd; reflexivity].
  unfold bind at 1, on_world at 1, proc_exited at 1.
  unfold bind at 1, get at 1, bind at 1, modify at 1, ret at 1.
  rewrite Hup, Hstrong.
  eexists. split; [reflexivity |]. cbn in *.
  rewrite Ha, Hr. repeat apply conj; try reflexivity.
  apply in_or_app. right. left. reflexivity.
Qed.

Lemma first_failure_or_all_pass (P : nat -> bool) (n : nat) :
  (forall i, (i < n)%nat -> P i = true)
  \/ exists j, (j < n)%nat /\ (forall i, (i < j)%nat -> P i = true) /\ P j = false.
Proof.
  induction n as [| n IH].
  - left. intros i Hi. lia.
  - destruct IH as [Hall | [j [Hj [Hb Hf]]]].
    + destruct (P n) eqn:E.
      * left. intros i Hi. destruct (decide (i = n)); [subst; exact E | apply Hall; lia].
      * right. exists n. auto.
    + right. exists j. split; [lia | auto].
Qed.

(** C4 (amended): in strict mode the probe issues up to
    [max(1, STRONG_ATTEMPTS)] GETs in a row. The key is live exactly when
    every one of them passes, and then [total_requests] is their number. At
    the first attempt that does not pass (an error, an invalid response, or
    an elapsed time above the limit, which is [STRONG_MAX_RESPONSE_TIME]
    when positive and else [MAX_RESPONSE_TIME] when positive) the key is
    dead at once and [total_requests] counts the attempts issued so far,
    the failing one included when its request returned. *)
Theorem strict_mode_verdict (key : str) (debug cache_given : bool) (w : World)
    (parsed : ParsedProxy) (pid : Z) :
  STRONG_STYLE_TEST cfg = true ->
  (0 < XRAY_STARTUP_POLL_INTERVAL cfg)%Q ->
  cached_verdict cfg get_key_hash cache_given key w = None ->
  parse_proxy_url key = Some parsed ->
  relay_fronted parsed ->
  port_pool w <> [] ->
  write_config_ok env = true ->
  spawn_outcome env = Spawned pid ->
  (forall i, poll_exited env i = false) ->
  exists alive m w',
    check_key_e2e cfg env get_key_hash parse_proxy_url key debug cache_given w
    = (Ret (key, alive, m), w')
    /\ (alive = true <->
        forall i, (i < attempts)%nat ->
          attempt_passes (request_outcome env (requests_made w + i)) = true)
    /\ (alive = true -> total_requests m = Z.of_nat attempts)
    /\ (forall j, (j < attempts)%nat ->
          (forall i, (i < j)%nat ->
             attempt_passes (request_outcome env (requests_made w + i)) = true) ->
          attempt_passes (request_outcome env (requests_made w + j)) = false ->
          alive = false
          /\ total_requests m
             = match request_outcome env (requests_made w + j) with
               | RequestCrashed => Z.of_nat j
               | _ => Z.of_nat j + 1
               end).
Proof.
  intros Hstrong Hpos Hmiss Hparse [Hf1 Hf2] Hpool Hwrite Hspawn Hup.
  rewrite check_key_e2e_unfold, Hmiss, Hparse.
  assert (Hgoal : forall w0 port,
    requests_made w0 = requests_made w ->
    exists alive m w',
      guarded_probe cfg env get_key_hash key port (debug && debug_first_key cfg)
        cache_given w0 = (Ret (key, alive, m), w')
      /\ (alive = true <->
          forall i, (i < attempts)%nat ->
            attempt_passes (request_outcome env (requests_made w + i)) = true)
      /\ (alive = true -> total_requests m = Z.of_nat attempts)
      /\ (forall j, (j < attempts)%nat ->
            (forall i, (i < j)%nat ->
               attempt_passes (request_outcome env (requests_made w + i)) = true) ->
            attempt_passes (request_outcome env (requests_made w + j)) = false ->
            alive = false
            /\ total_requests m
               = match request_outcome env (requests_made w + j) with
                 | RequestCrashed => Z.of_nat j
                 | _ => Z.of_nat j + 1
                 end)).
  { intros w0 port Hw0.
    pose proof (guarded_probe_anatomy cfg env get_key_hash key port
                  (debug && debug_first_key cfg) cache_given w0) as Ha.
    destruct (probe_body_reaches_strict_probe key port pid (debug && debug_first_key cfg)
                cache_given (new_frame w0 (new_metrics false)) Hstrong Hpos Hspawn Hup)
      as [f1 [Eb [Hin [Hm Hr]]]].
    rewrite Eb in Ha.
    destruct (strong_style_probe_run key pid port f1 Hin) as [o [f2 [Es [Hall Hfirst]]]];
      [rewrite Hm; reflexivity |].
    rewrite Es in Ha. rewrite Hr in Hall, Hfirst. cbn [world new_frame] in Hall, Hfirst.
    rewrite Hw0 in Hall, Hfirst.
    destruct (first_failure_or_all_pass
                (fun i => attempt_passes (request_outcome env (requests_made w + i)))
                attempts) as [Hp | [j [Hj [Hb Hfj]]]].
    - destruct (Hall Hp) as [m [-> Ht]]. destruct Ha as [f3 [_ Hg]].
      exists true, m, (world f3). split; [exact Hg |].
      split; [tauto |]. split; [auto |].
      intros j Hj _ Hfj. rewrite Hp in Hfj by exact Hj. discriminate.
    - destruct (Hfirst j Hj Hb Hfj) as [Hn Hc].
      assert (Hdead : forall alive m,
        alive = false ->
        total_requests m = match request_outcome env (requests_made w + j) with
                           | RequestCrashed => Z.of_nat j
                           | _ => Z.of_nat j + 1
                           end ->
        (alive = true <->
         forall i, (i < attempts)%nat ->
           attempt_passes (request_outcome env (requests_made w + i)) = true)
        /\ (alive = true -> total_requests m = Z.of_nat attempts)
        /\ (forall j0, (j0 < attempts)%nat ->
              (forall i, (i < j0)%nat ->
                 attempt_passes (request_outcome env (requests_made w + i)) = true) ->
              attempt_passes (request_outcome env (requests_made w + j0)) = false ->
              alive = false
              /\ total_requests m
                 = match request_outcome env (requests_made w + j0) with
                   | RequestCrashed => Z.of_nat j0
                   | _ => Z.of_nat j0 + 1
                   end)).
      { intros alive m -> Ht. split; [| split].
        - split; [discriminate |]. intros Hp. rewrite Hp in Hfj by exact Hj. discriminate.
        - discriminate.
        - intros j0 Hj0 Hb0 Hf0. split; [reflexivity |].
          assert (j0 = j).
          { destruct (Nat.lt_trichotomy j0 j) as [Hlt | [Heq | Hgt]]; [| exact Heq |].
            - rewrite Hb in Hf0 by exact Hlt. discriminate.
            - rewrite Hb0 in Hfj by exact Hgt. discriminate. }
          subst j0. exact Ht. }
      destruct (request_outcome env (requests_made w + j)) eqn:Eo.
      + destruct Hn as [m [-> Ht]]; [discriminate |]. destruct Ha as [f3 [_ Hg]].
        exists false, m, (world f3). split; [exact Hg |]. apply (Hdead false m); auto.
      + destruct Hn as [m [-> Ht]]; [discriminate |]. destruct Ha as [f3 [_ Hg]].
        exists false, m, (world f3). split; [exact Hg |]. apply (Hdead false m); auto.
      + destruct Hc as [-> Ht]; [reflexivity |].
        destruct Ha as [o [g2 [g3 [Eh [_ Hg]]]]].
        destruct (probe_handler_run env key port (debug && debug_first_key cfg)
                    OtherException f2) as [g [E _]]; [left; discriminate |].
        rewrite E in Eh. injection Eh as <- <-.
        exists false, (metrics f2), (world g3).
        split; [apply Hg; discriminate |]. apply (Hdead false (metrics f2)); auto. }
  assert (Htake : exists port rest, PortPool.take_port (port_pool w) = (Some port, rest)).
  { destruct (PortPool.take_port (port_pool w)) as [[port |] rest] eqn:E; [eauto |].
    apply PortPoolFacts.take_port_none in E. tauto. }
  destruct Htake as [port [rest Et]].
  cbv zeta. cbn [port_pool with_trace]. rewrite Et, Hwrite.
  destruct (protocol parsed); try congruence; apply Hgoal; reflexivity.
Qed.

End WithConfig.

End StrictProbe.

(** ** Concrete runs of [check_key_e2e] *)

Module Scenarios.
Import Py Utils Effects Runtime Cfg Checker EffLogic Judgments CheckerFacts StrictProbe.

(** The settings of [lib/config.py] when the environment sets nothing,
    except for the ones the scenarios vary. *)
Definition settings (enable_cache strong_style : bool) (strong_attempts strong_max : Z)
    (max_response_time : Q) : Config :=
  {| ENABLE_CACHE := enable_cache; CACHE_TTL := 3600;
     CONNECT_TIMEOUT := 8; CONNECT_TIMEOUT_SLOW := 15; USE_ADAPTIVE_TIMEOUT := false;
     XRAY_STARTUP_WAIT := 9 # 5; XRAY_STARTUP_POLL_INTERVAL := 1 # 5;
     STRONG_STYLE_TEST := strong_style; STRONG_STYLE_TIMEOUT := 12;
     STRONG_MAX_RESPONSE_TIME := strong_max; STRONG_ATTEMPTS := strong_attempts;
     MAX_RESPONSE_TIME := max_response_time; MIN_RESPONSE_SIZE := 0;
     MIN_AVG_RESPONSE_TIME := 0;
     TEST_URL := lit "http://www.google.com/generate_204";
     TEST_URLS := [lit "http://www.google.com/generate_204"]; TEST_URLS_HTTPS := [];
     REQUIRE_HTTPS := false; REQUESTS_PER_URL := 1; MIN_SUCCESSFUL_REQUESTS := 1;
     MIN_SUCCESSFUL_URLS := 1; REQUEST_DELAY := 1 # 2; MAX_RETRIES := 1;
     RETRY_DELAY_BASE := 1; RETRY_DELAY_MULTIPLIER := 2; STABILITY_CHECKS := 1;
     STABILITY_CHECK_DELAY := 2; STRICT_MODE := false; STRICT_MODE_REQUIRE_ALL := true;
     TEST_POST_REQUESTS := false; CHECK_GEOLOCATION := false; ALLOWED_COUNTRIES := [];
     MAX_LATENCY_MS := 3000; BASE_PORT := 20000; MAX_WORKERS := 120;
     debug_first_key := false |}.

Definition no_content (status : Z) : Response := {| status_code := status; content := [] |}.

Definition timeout_error : RequestError :=
  {| message_lower := lit "read timed out"; cause_type := None |}.

(** A relay that starts and stays up, and the answers the network gives,
    request after request. *)
Definition network (answers : nat -> RequestOutcome) : Env :=
  {| top_level_config_importable := false; write_config_ok := true;
     spawn_outcome := Spawned 4242; poll_exited := fun _ => false;
     request_outcome := answers; geolocation_outcome := fun _ => None;
     tcp_connect_outcome := None; socks_connect_outcome := fun _ => Connected (1 # 100);
     download_outcome := {| dl_connect_time := 0; dl_status := None; dl_chunks := [];
                            dl_broken := false |};
     upper := fun s => s |}.

(** A process that starts with two ports in its pool. *)
Definition fresh_world (entries : gmap str CacheEntry) : World :=
  {| now := 1000; port_pool := [20000; 20001]; active_processes := [];
     cache := entries; polls_made := 0; requests_made := 0; geo_made := 0;
     connects_made := 0; trace := [] |}.

(** Stand-ins for the SHA-256 prefix and for the six URI parsers: the
    identity, and a parser that accepts what starts with [vless://]. *)
Definition plain_hash (s : str) : str := s.

Definition vless_only (s : str) : option ParsedProxy :=
  if startswith (lit "vless://") s
  then Some {| protocol := vless; address := lit "1.1.1.1"; port := 443 |}
  else None.

Definition key1 : str := lit "vless://u1@1.1.1.1:443?type=tcp&security=none".

(** Strict mode without a limit of its own ([STRONG_MAX_RESPONSE_TIME = 0])
    but with [MAX_RESPONSE_TIME = 2]: one valid answer after three
    seconds. *)
Definition slow_answer (i : nat) : RequestOutcome := Responded (no_content 204) 3.

(** C4, as stated, fails: with [STRONG_MAX_RESPONSE_TIME = 0] no attempt
    exceeds "that limit when positive", the single attempt is a valid 204,
    so every attempt passes in the stated sense; the code still returns a
    dead key, because it falls back on [MAX_RESPONSE_TIME]. *)
Lemma strict_mode_stated_limit_fails :
  let cfg := settings false true 1 0 2 in
  let env := network slow_answer in
  (forall i, (i < Z.to_nat (STRONG_ATTEMPTS cfg))%nat ->
     attempt_passes_stated cfg (request_outcome env (0 + i)) = true)
  /\ exists m w',
       check_key_e2e cfg env plain_hash vless_only key1 false false (fresh_world ∅)
       = (Ret (key1, false, m), w')
       /\ total_requests m = 1.
Proof.
  split.
  - intros i _. vm_compute. reflexivity.
  - eexists _, _. split; vm_compute; reflexivity.
Qed.

(** The scenario of the specification: three attempts, the second one
    fails. *)
Definition second_fails (i : nat) : RequestOutcome :=
  match i with
  | 1%nat => RequestFailed timeout_error 12
  | _ => Responded (no_content 204) (1 # 4)
  end.

Lemma strict_mode_verdict_witness :
  let cfg := settings false true 3 3 0 in
  let env := network second_fails in
  exists alive m w',
    check_key_e2e cfg env plain_hash vless_only key1 false false (fresh_world ∅)
    = (Ret (key1, alive, m), w')
    /\ alive = false
    /\ total_requests m = 2.
Proof.
  intros cfg env.
  destruct (strict_mode_verdict cfg env plain_hash vless_only key1 false false
              (fresh_world ∅) {| protocol := vless; address := lit "1.1.1.1"; port := 443 |}
              4242)
    as [alive [m [w' [Hrun [_ [_ Hfirst]]]]]].
  - reflexivity.
  - reflexivity.
  - reflexivity.
  - reflexivity.
  - split; discriminate.
  - discriminate.
  - reflexivity.
  - reflexivity.
  - intros i. reflexivity.
  - exists alive, m, w'. split; [exact Hrun |].
    apply (Hfirst 1%nat).
    + vm_compute. lia.
    + intros i Hi. assert (i = 0%nat) by lia. subst i. vm_compute. reflexivity.
    + vm_compute. reflexivity.
Defined.

(** A warm cache: the verdict for [key1] was stored a hundred seconds
    ago. *)
Definition warm_entry : CacheEntry := {| result := Some true; timestamp := Some 900%Q |}.

Definition warm_world : World := fresh_world {[ plain_hash key1 := warm_entry ]}.

Lemma cache_hit_has_no_side_effects_witness :
  let cfg := settings true false 3 3 0 in
  let env := network second_fails in
  exists m,
    check_key_e2e cfg env plain_hash vless_only key1 false true warm_world
    = (Ret (key1, true, m), warm_world)
    /\ cached m = true
    /\ total_requests m = 0.
Proof.
  intros cfg env.
  apply (cache_hit_has_no_side_effects cfg env plain_hash vless_only key1 false warm_world
           warm_entry true).
  - reflexivity.
  - vm_compute. reflexivity.
  - reflexivity.
  - reflexivity.
Defined.


(** A request that breaks with an exception of its own, in normal mode. *)
Definition crashing (i : nat) : RequestOutcome := RequestCrashed.


End Scenarios.

(** ** The speed test: throughput samples and the latency phase *)

Module SpeedtestSpec.
Import Py Utils Effects Runtime.

(** The throughput figure as stated: bytes times eight over seconds times
    a million. *)
Definition mbps_stated (downloaded : Z) (elapsed : Q) : Q :=
  (inject_Z (downloaded * 8) / (elapsed * 1000000))%Q.

(** What a chunk adds to the byte count, and the bytes and seconds of a
    run of chunks. *)
Definition chunk_bytes (c : Z * Q) : Z := Z.max 0 c.1.

Definition bytes_of (chunks : list (Z * Q)) : Z :=
  fold_right (fun c acc => chunk_bytes c + acc) 0 chunks.

Definition time_of (chunks : list (Z * Q)) : Q :=
  fold_right (fun c acc => (c.2 + acc)%Q) 0%Q chunks.

(** A request of the latency phase counts when it is answered, the answer
    is truthy and [check_response_valid] accepts it. *)
Definition validated (test_url : str) (o : RequestOutcome) : bool :=
  match o with
  | Responded r _ => response_truthy r && check_response_valid r 0 test_url
  | _ => false
  end.

Definition connect_time (o : ConnectOutcome) : Q :=
  match o with
  | Connected d => d
  | Refused d => d
  end.

(** The ways a computation yields no sample: it returns [None] or it
    raises. *)
Definition no_sample {A} (o : outcome (option A)) : Prop :=
  match o with
  | Ret None => True
  | Raise _ => True
  | _ => False
  end.

End SpeedtestSpec.

Module SpeedtestFacts.
Import Py Utils Effects Runtime Cfg Speedtest SpeedtestSpec EffLogic Judgments.

(** Running a step of [speed_test_body] without unrolling its loops or the
    arithmetic on times. *)
Tactic Notation "run_step" :=
  cbn -[_wait_for_port latency_requests Qmin Qmax Qplus Qminus Qmult Qdiv].
Tactic Notation "run_step" "in" "*" :=
  cbn -[_wait_for_port latency_requests Qmin Qmax Qplus Qminus Qmult Qdiv] in *.
Tactic Notation "run_step" "in" hyp(H) :=
  cbn -[_wait_for_port latency_requests Qmin Qmax Qplus Qminus Qmult Qdiv] in H.

Section WithConfig.
Context (cfg : Config) (env : Env).
Context (parse_proxy_url : str -> option ParsedProxy).

(** *** The download *)

Lemma bytes_of_step (downloaded size : Z) :
  (if 0 <? size then downloaded + size else downloaded) = downloaded + Z.max 0 size.
Proof. destruct (Z.ltb_spec 0 size); lia. Qed.

(** The chunk loop of an intact stream reads a prefix of the chunks and
    only moves the clock. *)
Lemma read_chunks_run (chunks : list (Z * Q)) (start_time : Q) (timeout_sec : Z) :
  forall downloaded w,
  exists n w',
    (n <= length chunks)%nat
    /\ read_chunks chunks false start_time timeout_sec downloaded w
       = (Ret (downloaded + bytes_of (firstn n chunks)), w')
    /\ (now w' == now w + time_of (firstn n chunks))%Q
    /\ requests_made w' = requests_made w.
Proof.
  induction chunks as [| [size dt] rest IH]; intros downloaded w.
  - exists 0%nat, w. cbn. rewrite Z.add_0_r.
    repeat apply conj; [lia | reflexivity | ring | reflexivity].
  - cbn [read_chunks]. unfold bind, advance, modify, perf_counter, gets. cbn.
    rewrite bytes_of_step.
    destruct (Qltb (inject_Z timeout_sec) (now w + dt - start_time)).
    + exists 1%nat, (with_now (now w + dt) w).
      change (firstn 1 ((size, dt) :: rest)) with [(size, dt)].
      cbn -[Qplus Qeq].
      repeat apply conj; [lia | | ring | reflexivity].
      unfold ret, chunk_bytes. cbn. f_equal. f_equal. lia.
    + destruct (IH (downloaded + Z.max 0 size) (with_now (now w + dt) w))
        as [n [w' [Hn [Hrun [Hnow Hreq]]]]].
      exists (S n), w'. cbn [firstn length].
      repeat apply conj; [lia | | |].
      * rewrite Hrun. f_equal. f_equal. unfold bytes_of, chunk_bytes. cbn. lia.
      * rewrite Hnow. unfold time_of. cbn -[Qplus Qeq]. ring.
      * rewrite Hreq. reflexivity.
Qed.

(** Whatever the stream does, the loop returns or breaks with a
    [RequestException]. *)
Lemma read_chunks_ends (chunks : list (Z * Q)) (broken : bool) (start_time : Q)
    (timeout_sec : Z) :
  forall downloaded w,
    (exists d w', read_chunks chunks broken start_time timeout_sec downloaded w = (Ret d, w'))
    \/ (exists w', read_chunks chunks broken start_time timeout_sec downloaded w
                   = (Raise RequestException, w')).
Proof.
  induction chunks as [| [size dt] rest IH]; intros downloaded w.
  - cbn. destruct broken; [right | left]; eauto.
  - cbn [read_chunks]. unfold bind, advance, modify, perf_counter, gets. cbn.
    destruct (Qltb _ _); [left; eauto | apply IH].
Qed.

Lemma download_sample (url : str) (timeout_sec : Z) (w : World) :
  dl_status (download_outcome env) = Some 200 ->
  dl_broken (download_outcome env) = false ->
  exists n w',
    let received := firstn n (dl_chunks (download_outcome env)) in
    let elapsed := (now w' - now w)%Q in
    (n <= length (dl_chunks (download_outcome env)))%nat
    /\ (elapsed == dl_connect_time (download_outcome env) + time_of received)%Q
    /\ _test_download_speed env url timeout_sec w
       = (Ret (if Qltb elapsed (3 # 10) then None
               else Some (round2 (mbps_stated (bytes_of received) elapsed))), w').
Proof.
  intros Hstatus Hbroken.
  unfold _test_download_speed, try_catch, bind, perf_counter, gets, advance, modify.
  cbn. rewrite Hstatus. cbn. rewrite Hbroken.
  destruct (read_chunks_run (dl_chunks (download_outcome env)) (now w) timeout_sec 0
              (with_now (now w + dl_connect_time (download_outcome env)) w))
    as [n [w' [Hn [Hrun [Hnow _]]]]].
  exists n, w'. cbn zeta. rewrite Hrun. cbn.
  repeat apply conj; [exact Hn | rewrite Hnow; cbn -[Qplus Qminus Qeq]; ring |].
  unfold mbps_stated. destruct (Qltb (now w' - now w) (3 # 10)); reflexivity.
Qed.

Lemma download_too_short (url : str) (timeout_sec : Z) (w : World) :
  (now (_test_download_speed env url timeout_sec w).2 - now w < 3 # 10)%Q ->
  (_test_download_speed env url timeout_sec w).1 = Ret None.
Proof.
  unfold _test_download_speed, try_catch, bind, perf_counter, gets, advance, modify.
  cbn. destruct (dl_status (download_outcome env)) as [status |]; cbn; [| reflexivity].
  destruct (negb (status =? 200)); cbn; [reflexivity |].
  destruct (read_chunks_ends (dl_chunks (download_outcome env))
              (dl_broken (download_outcome env)) (now w) timeout_sec 0
              (with_now (now w + dl_connect_time (download_outcome env)) w))
    as [[d [w' Hrun]] | [w' Hrun]]; rewrite Hrun; cbn; [| reflexivity].
  destruct (Qltb (now w' - now w) (3 # 10)) eqn:E; cbn; [reflexivity |].
  intros H. apply Qltb_ge in E. lra.
Qed.

(** *** The latency phase *)

(** The relay's start-up issues no request. *)
Lemma startup_wait_idle (fuel : nat) :
  forall waited w,
    requests_made (Checker.startup_wait cfg env fuel waited w).2 = requests_made w.
Proof.
  induction fuel as [| fuel IH]; intros waited w; simpl.
  - destruct (negb _); reflexivity.
  - destruct (negb _); [reflexivity |].
    unfold bind, proc_exited, get, modify, ret. cbn.
    destruct (poll_exited env (polls_made w)); [reflexivity |].
    unfold sleep. destruct (Qltb _ 0); [reflexivity |].
    unfold advance, modify. cbn. rewrite IH. reflexivity.
Qed.

(** Waiting for the SOCKS port ends, without a request, as soon as the
    fuel covers the time left and no connect takes negative time. *)
Lemma wait_for_port_loop_run (poll_interval : Q) (fuel : nat) :
  (0 < poll_interval)%Q ->
  (forall i, 0 <= connect_time (socks_connect_outcome env i))%Q ->
  forall deadline w,
    (deadline - now w <= inject_Z (Z.of_nat fuel) * poll_interval)%Q ->
    exists b w',
      wait_for_port_loop env fuel deadline poll_interval w = (Ret b, w')
      /\ requests_made w' = requests_made w.
Proof.
  intros Hpos Hdur. induction fuel as [| fuel IH]; intros deadline w Hcover.
  - cbn -[Qplus Qminus Qmult Qle]. unfold bind, perf_counter, gets.
    destruct (Qltb (now w) deadline) eqn:E; cbn -[Qplus Qminus Qmult Qle].
    + apply Qltb_lt in E. exfalso.
      change (inject_Z (Z.of_nat 0)) with 0%Q in Hcover. lra.
    + eauto.
  - cbn [wait_for_port_loop]. unfold bind, perf_counter, gets, get, modify.
    destruct (Qltb (now w) deadline) eqn:E; cbn -[Qplus Qminus Qmult Qle]; [| eauto].
    specialize (Hdur (connects_made w)).
    destruct (socks_connect_outcome env (connects_made w)) as [d | d];
      cbn -[Qplus Qminus Qmult Qle wait_for_port_loop] in *.
    + eexists _, _. split; reflexivity.
    + unfold sleep.
      replace (Qltb poll_interval 0) with false
        by (symmetry; apply Qltb_ge; lra).
      unfold advance, modify. cbn -[Qplus Qminus Qmult Qle wait_for_port_loop].
      match goal with
      | |- context [wait_for_port_loop env fuel deadline poll_interval ?w1] =>
          destruct (IH deadline w1) as [b [w' [Hrun Hreq]]]
      end.
      * cbn -[Qplus Qminus Qmult Qle].
        rewrite Nat2Z.inj_succ in Hcover. unfold Z.succ in Hcover.
        rewrite inject_Z_plus in Hcover. change (inject_Z 1) with 1%Q in Hcover. lra.
      * exists b, w'. split; [exact Hrun | rewrite Hreq; reflexivity].
Qed.

Lemma wait_for_port_run (max_wait : Q) (w : World) :
  (forall i, 0 <= connect_time (socks_connect_outcome env i))%Q ->
  exists b w',
    _wait_for_port env max_wait (1 # 20) w = (Ret b, w')
    /\ requests_made w' = requests_made w.
Proof.
  intros Hdur. unfold _wait_for_port, bind, perf_counter, gets.
  change (Qltb 0 (1 # 20)) with true. cbv iota.
  apply wait_for_port_loop_run; [reflexivity | exact Hdur |].
  set (n := Qceiling (max_wait / (1 # 20))).
  assert (Hc : (max_wait / (1 # 20) <= inject_Z n)%Q) by apply Qle_ceiling.
  assert (Hn : (inject_Z n <= inject_Z (Z.of_nat (S (Z.to_nat n))))%Q).
  { rewrite <- Zle_Qle. lia. }
  assert (Hw : (max_wait == (max_wait / (1 # 20)) * (1 # 20))%Q) by (field; lra).
  assert (He : (now w + max_wait - now w == max_wait)%Q) by ring.
  rewrite He. rewrite Hw at 1.
  apply Qmult_le_compat_r; lra.
Qed.

(** Requests that are not validated add nothing to [response_times]. *)
Lemma latency_requests_none (count : nat) (deadline : Q) (t : Timeout) (test_url : str) :
  forall acc w,
    (forall i, (requests_made w <= i < requests_made w + count)%nat ->
               validated test_url (request_outcome env i) = false) ->
    match (latency_requests env count deadline t test_url acc w).1 with
    | Ret l => l = acc
    | Raise _ => True
    | Diverge => False
    end.
Proof.
  induction count as [| count IH]; intros acc w Hnone; [reflexivity |].
  cbn [latency_requests]. unfold bind, perf_counter, gets.
  destruct (negb (Qltb (now w) deadline)); [reflexivity |].
  unfold make_request, bind, get, modify, emit. cbn.
  assert (H0 := Hnone (requests_made w) ltac:(lia)).
  destruct (request_outcome env (requests_made w)) as [r elapsed | e elapsed |];
    cbn in *; [| | exact I].
  - match goal with
    | |- context [latency_requests env count deadline t test_url ?acc1 ?w1] =>
        assert (Hacc : acc1 = acc); [| rewrite Hacc; apply (IH acc w1)]
    end.
    + unfold truthy. destruct (response_truthy r); [| reflexivity].
      cbn in H0. rewrite H0. reflexivity.
    + intros i Hi. apply Hnone. cbn in Hi. lia.
  - match goal with
    | |- context [latency_requests env count deadline t test_url acc ?w1] =>
        apply (IH acc w1)
    end.
    intros i Hi. apply Hnone. cbn in Hi. lia.
Qed.

(** The body of the [try] statement, when none of the latency requests is
    validated: it returns [None] or raises, and does not spin. *)
Lemma speed_test_body_no_sample (proxy_line : str) (port : Z) (timeout : Q) (metric : str)
    (requests_count : Z) (test_url mode : str) (download_timeout : Z)
    (download_url_small download_url_medium : str) (f : Frame) :
  (0 < XRAY_STARTUP_POLL_INTERVAL cfg)%Q ->
  (forall i, 0 <= connect_time (socks_connect_outcome env i))%Q ->
  (forall i, (requests_made (world f) <= i
              < requests_made (world f) + Z.to_nat requests_count)%nat ->
             validated test_url (request_outcome env i) = false) ->
  no_sample (speed_test_body cfg env proxy_line port timeout metric requests_count
               test_url mode download_timeout download_url_small download_url_medium f).1.
Proof.
  intros Hpos Hdur Hnone.
  unfold speed_test_body, bind, on_world, run_xray.
  destruct (spawn_outcome env) as [pid | |]; run_step; [| exact I | exact I].
  match goal with
  | |- context [Checker.startup_wait cfg env ?n ?q ?w1] =>
      pose proof (startup_wait_ends cfg env Hpos w1) as Hends;
      pose proof (startup_wait_idle n q w1) as Hidle;
      unfold J_ends in Hends;
      destruct (Checker.startup_wait cfg env n q w1) as [[[] | e |] w2]
  end; run_step in *; [| exact I | congruence].
  destruct (poll_exited env (polls_made w2)); run_step; [exact I |].
  match goal with
  | |- context [_wait_for_port env ?m ?p ?w3] =>
      destruct (wait_for_port_run m w3 Hdur) as [ready [w4 [Hrun Hreq]]]; rewrite Hrun
  end.
  run_step. destruct ready; run_step; [| exact I].
  unfold perf_counter, gets. run_step.
  match goal with
  | |- context [latency_requests env ?c ?d ?t ?u ?acc ?w5] =>
      pose proof (latency_requests_none c d t u acc w5) as Hlat;
      destruct (latency_requests env c d t u acc w5) as [[l | e |] w6]
  end; run_step in *.
  - rewrite Hlat; [exact I |].
    intros i Hi. apply Hnone. rewrite Hreq in Hi. run_step in Hi. rewrite Hidle in Hi.
    run_step in Hi. exact Hi.
  - exact I.
  - apply Hlat. intros i Hi. apply Hnone. rewrite Hreq in Hi. run_step in Hi.
    rewrite Hidle in Hi. run_step in Hi. exact Hi.
Qed.

(** The [finally] block returns. *)
Lemma speed_test_finally_run (port : Z) (f : Frame) :
  exists f', speed_test_finally port f = (Ret tt, f').
Proof.
  unfold speed_test_finally, bind, get. cbn.
  destruct (proc f) as [pid |]; cbn; [| eauto].
  unfold on_world, active_discard, try_except, active_remove, bind, get. cbn.
  destruct (list_remove_first (pid, port) (active_processes (world f))); cbn; eauto.
Qed.

(** The [try] statement of [speed_test_key] as a whole. *)
Lemma guarded_speed_test_no_sample (proxy_line : str) (port : Z) (timeout : Q)
    (metric : str) (requests_count : Z) (test_url mode : str) (download_timeout : Z)
    (download_url_small download_url_medium : str) (w : World) :
  (0 < XRAY_STARTUP_POLL_INTERVAL cfg)%Q ->
  (forall i, 0 <= connect_time (socks_connect_outcome env i))%Q ->
  (forall i, (requests_made w <= i < requests_made w + Z.to_nat requests_count)%nat ->
             validated test_url (request_outcome env i) = false) ->
  exists w',
    in_frame
      (try_finally
         (try_except
            (speed_test_body cfg env proxy_line port timeout metric requests_count
               test_url mode download_timeout download_url_small download_url_medium)
            (fun _ => ret None))
         (speed_test_finally port)) w
    = (Ret None, w').
Proof.
  intros Hpos Hdur Hnone.
  unfold in_frame, try_finally, try_except.
  pose proof (speed_test_body_no_sample proxy_line port timeout metric requests_count
                test_url mode download_timeout download_url_small download_url_medium
                {| world := w; proc := None |} Hpos Hdur Hnone) as Hbody.
  destruct (speed_test_body _ _ _ _ _ _ _ _ _ _ _ _ _) as [[[v |] | e |] f1];
    cbn in Hbody; try contradiction.
  - destruct (speed_test_finally_run port f1) as [f2 Hfin]. rewrite Hfin. eauto.
  - unfold ret.
    destruct (speed_test_finally_run port f1) as [f2 Hfin]. rewrite Hfin. eauto.
Qed.

(** A hysteria key never enters the latency phase: its score is the time
    of one TCP connect, and no HTTP request is issued. *)
Lemma hysteria_skips_latency_phase (proxy_line : str) (timeout : Q) (metric : str)
    (requests_count : Z) (test_url mode : str) (download_timeout : Z)
    (download_url_small download_url_medium : str) (parsed : ParsedProxy) (w : World)
    (d : Q) :
  parse_proxy_url proxy_line = Some parsed ->
  protocol parsed = hysteria \/ protocol parsed = hysteria2 ->
  tcp_connect_outcome env = Some d ->
  exists w',
    speed_test_key cfg env parse_proxy_url proxy_line timeout metric requests_count
      test_url mode download_timeout download_url_small download_url_medium w
    = (Ret (Some (proxy_line, (d * 1000)%Q)), w')
    /\ requests_made w' = requests_made w.
Proof.
  intros Hparse Hproto Hconnect. unfold speed_test_key. rewrite Hparse.
  destruct Hproto as [Hp | Hp]; rewrite Hp;
    unfold _hysteria_latency, tcp_connect, bind, emit, modify, advance;
    rewrite Hconnect; cbn -[Qmult]; eauto.
Qed.


End WithConfig.

End SpeedtestFacts.

(** ** Concrete runs of the speed test *)

Module SpeedScenarios.
Import Py Utils Effects Runtime Cfg Speedtest SpeedtestSpec SpeedtestFacts Scenarios.

(** A relay that starts and stays up, latency requests that all time out,
    and a download of [chunks] behind a status line that takes a tenth of
    a second. *)
Definition downloading (chunks : list (Z * Q)) : Env :=
  {| top_level_config_importable := false; write_config_ok := true;
     spawn_outcome := Spawned 4242; poll_exited := fun _ => false;
     request_outcome := fun _ => RequestFailed timeout_error 3;
     geolocation_outcome := fun _ => None;
     tcp_connect_outcome := None; socks_connect_outcome := fun _ => Connected (1 # 100);
     download_outcome := {| dl_connect_time := 1 # 10; dl_status := Some 200;
                            dl_chunks := chunks; dl_broken := false |};
     upper := fun s => s |}.

Definition small_file : str := lit "https://speed.example/250kb.bin".



End SpeedScenarios.

(** ** Facts about Python strings *)

Module PyFacts.
Import Py.

(** A string without whitespace: what [split] calls a token, when it is
    not empty. *)
Definition spaceless (s : str) : bool := forallb (fun c => negb (isspace c)) s.

Lemma lstrip_head (s : str) :
  match lstrip s with
  | [] => True
  | c :: _ => isspace c = false
  end.
Proof.
  induction s as [| c r IH]; simpl; [exact I |].
  destruct (isspace c) eqn:E; [exact IH | exact E].
Qed.

Lemma lstrip_fixed (c : Z) (r : str) : isspace c = false -> lstrip (c :: r) = c :: r.
Proof. intros H. simpl. rewrite H. reflexivity. Qed.

Lemma rstrip_head (c : Z) (r : str) :
  isspace c = false -> exists r', rstrip (c :: r) = c :: r'.
Proof.
  intros H. simpl. destruct (rstrip r); [rewrite H |]; eauto.
Qed.

Lemma rstrip_idem (s : str) : rstrip (rstrip s) = rstrip s.
Proof.
  induction s as [| c r IH]; [reflexivity |].
  simpl. destruct (rstrip r) as [| d r'] eqn:E.
  - destruct (isspace c) eqn:Ec; [reflexivity |]. simpl. rewrite Ec. reflexivity.
  - change (rstrip (c :: d :: r')) with
      (match rstrip (d :: r') with [] => if isspace c then [] else [c] | x => c :: x end).
    rewrite IH. reflexivity.
Qed.

Lemma rstrip_snoc_newline (s : str) : rstrip (s ++ [10]) = rstrip s.
Proof.
  induction s as [| c r IH]; [reflexivity |].
  simpl. rewrite IH. reflexivity.
Qed.

Lemma strip_snoc_newline (s : str) : strip (s ++ [10]) = strip s.
Proof.
  unfold strip. induction s as [| c r IH]; [reflexivity |].
  simpl. destruct (isspace c); [exact IH |].
  apply (rstrip_snoc_newline (c :: r)).
Qed.

(** A stripped string does not start with whitespace. *)
Lemma strip_head (s : str) :
  match strip s with
  | [] => True
  | c :: _ => isspace c = false
  end.
Proof.
  unfold strip. pose proof (lstrip_head s) as H.
  destruct (lstrip s) as [| c r]; [exact I |].
  destruct (rstrip_head c r H) as [r' E]. rewrite E. exact H.
Qed.

Lemma lstrip_strip (s : str) : lstrip (strip s) = strip s.
Proof.
  pose proof (strip_head s) as H. destruct (strip s) as [| c r]; [reflexivity |].
  apply lstrip_fixed. exact H.
Qed.

Lemma strip_idem (s : str) : strip (strip s) = strip s.
Proof.
  unfold strip at 1. rewrite lstrip_strip. unfold strip. apply rstrip_idem.
Qed.

Lemma rstrip_spaceless (s : str) : spaceless s = true -> rstrip s = s.
Proof.
  induction s as [| c r IH]; [reflexivity |].
  simpl. intros H. apply andb_true_iff in H as [Hc Hr].
  rewrite (IH Hr). apply negb_true_iff in Hc. rewrite Hc.
  destruct r; reflexivity.
Qed.

Lemma lstrip_spaceless (s : str) : spaceless s = true -> lstrip s = s.
Proof.
  destruct s as [| c r]; [reflexivity |].
  simpl. intros H. apply andb_true_iff in H as [Hc _].
  apply negb_true_iff in Hc. rewrite Hc. reflexivity.
Qed.

Lemma strip_spaceless (s : str) : spaceless s = true -> strip s = s.
Proof.
  intros H. unfold strip. rewrite (lstrip_spaceless s H). apply rstrip_spaceless. exact H.
Qed.

Lemma take_token_spaceless (s : str) : spaceless (take_token s) = true.
Proof.
  induction s as [| c r IH]; [reflexivity |].
  simpl. destruct (isspace c) eqn:E; [reflexivity |].
  simpl. rewrite E, IH. reflexivity.
Qed.

Lemma take_token_fixed (s : str) : spaceless s = true -> take_token s = s.
Proof.
  induction s as [| c r IH]; [reflexivity |].
  simpl. intros H. apply andb_true_iff in H as [Hc Hr].
  apply negb_true_iff in Hc. rewrite Hc, (IH Hr). reflexivity.
Qed.

(** The first token of a string that holds one: not empty, without
    whitespace. *)
Lemma first_token_some (s : str) (t : str) :
  first_token s = Some t -> nonempty t = true /\ spaceless t = true.
Proof.
  unfold first_token. pose proof (lstrip_head s) as H.
  destruct (lstrip s) as [| c r]; [discriminate |].
  intros E. injection E as <-. split.
  - simpl. rewrite H. reflexivity.
  - apply (take_token_spaceless (c :: r)).
Qed.

Lemma first_token_nonempty (s : str) :
  nonempty (strip s) = true -> exists t, first_token (strip s) = Some t.
Proof.
  unfold first_token. rewrite lstrip_strip.
  destruct (strip s); [discriminate | eauto].
Qed.

Lemma first_token_of_token (t : str) :
  nonempty t = true -> spaceless t = true -> first_token t = Some t.
Proof.
  intros Hn Hs. unfold first_token. rewrite (lstrip_spaceless t Hs).
  destruct t; [discriminate |]. rewrite (take_token_fixed _ Hs). reflexivity.
Qed.

Lemma before_char_spaceless (sep : Z) (s : str) :
  spaceless s = true -> spaceless (before_char sep s) = true.
Proof.
  induction s as [| c r IH]; [reflexivity |].
  simpl. intros H. apply andb_true_iff in H as [Hc Hr].
  destruct (c =? sep); [reflexivity |]. simpl. rewrite Hc, (IH Hr). reflexivity.
Qed.

(** A prefix without whitespace of a string is a prefix of its first
    token. *)
Lemma startswith_take_token (p s : str) :
  spaceless p = true -> startswith p s = true -> startswith p (take_token s) = true.
Proof.
  revert s. induction p as [| a p IH]; intros s Hp H; [reflexivity |].
  destruct s as [| b s]; [discriminate |].
  simpl in *. apply andb_true_iff in Hp as [Ha Hp]. apply andb_true_iff in H as [Hab H].
  apply Z.eqb_eq in Hab. subst b. apply negb_true_iff in Ha. rewrite Ha. simpl.
  rewrite Z.eqb_refl. apply IH; assumption.
Qed.

End PyFacts.

(** ** The notworkers file: what a run leaves in it *)

Module NotworkersSpec.
Import Py Parsing PyFacts.

(** A key as the parsers hand it over: one token that starts with a
    supported scheme. *)
Definition is_key (link : str) : bool :=
  nonempty link && spaceless link && has_protocol link.

(** The normal form as stated: the URI without its [#fragment]. *)
Definition normal_form (link : str) : str :=
  if contains [hash] link then before_char hash link else link.

Definition norms (links : gset str) : gset str := set_map normal_form links.

(** A full line that the loader reads back as the entry of [norm]. *)
Definition reloads_as (norm full_line : str) : Prop :=
  nonempty full_line = true
  /\ notworker_entry (full_line ++ [newline]) = Some (Some (norm, full_line)).

End NotworkersSpec.

Module NotworkersFacts.
Import Py Utils Runtime Cfg Checker Parsing Main PyFacts NotworkersSpec.

Lemma is_key_parts (link : str) :
  is_key link = true ->
  nonempty link = true /\ spaceless link = true /\ has_protocol link = true.
Proof.
  unfold is_key. intros H. apply andb_true_iff in H as [H H3].
  apply andb_true_iff in H as [H1 H2]. auto.
Qed.

Lemma normalize_key (link : str) :
  is_key link = true -> normalize_proxy_link link = Some (normal_form link).
Proof.
  intros H. apply is_key_parts in H as [Hn [Hs _]].
  unfold normalize_proxy_link, normal_form.
  rewrite (strip_spaceless link Hs), (first_token_of_token link Hn Hs).
  destruct (contains [hash] link); [| reflexivity].
  rewrite strip_spaceless; [reflexivity |]. apply before_char_spaceless. exact Hs.
Qed.

(** No supported scheme starts with [#]. *)
Lemma has_protocol_head (c : Z) (r : str) : has_protocol (c :: r) = true -> c <> hash.
Proof.
  intros H Hc. subst c. vm_compute in H. discriminate.
Qed.

Lemma normal_form_nonempty (link : str) :
  is_key link = true -> nonempty (normal_form link) = true.
Proof.
  intros H. apply is_key_parts in H as [Hn [_ Hp]].
  destruct link as [| c r]; [discriminate |].
  pose proof (has_protocol_head c r Hp) as Hc.
  unfold normal_form. destruct (contains [hash] (c :: r)); [| reflexivity].
  simpl. destruct (Z.eqb_spec c hash); [contradiction | reflexivity].
Qed.

Lemma norms_spec (links : gset str) (n : str) :
  n ∈ norms links <-> exists link, link ∈ links /\ n = normal_form link.
Proof.
  unfold norms. rewrite elem_of_map. split; intros [link [H1 H2]]; eauto.
Qed.

(** *** Lines of the file *)

(** The loop body of the loader raises on no line. *)
Lemma notworker_entry_total (line : str) : exists e, notworker_entry line = Some e.
Proof.
  unfold notworker_entry.
  destruct (negb (nonempty (strip line)) || startswith (lit "#") (strip line)) eqn:E;
    [eauto |].
  apply orb_false_iff in E as [E _]. apply negb_false_iff in E.
  destruct (first_token_nonempty line E) as [t Ht]. rewrite Ht.
  destruct (first_token_some _ _ Ht) as [Hn Hs].
  rewrite (strip_spaceless t Hs), Hn. simpl.
  destruct (has_protocol t); [| eauto].
  unfold normalize_proxy_link.
  rewrite (strip_spaceless t Hs), (first_token_of_token t Hn Hs). eauto.
Qed.

(** It reads a line through its stripped form only. *)
Lemma notworker_entry_strip (a b : str) :
  strip a = strip b -> notworker_entry a = notworker_entry b.
Proof. intros H. unfold notworker_entry. rewrite H. reflexivity. Qed.

(** An entry that was loaded is read back from the line that
    [save_notworkers] writes for it. *)
Lemma notworker_entry_stable (line norm full_line : str) :
  notworker_entry line = Some (Some (norm, full_line)) -> reloads_as norm full_line.
Proof.
  intros H.
  assert (Hfull : full_line = strip line).
  { unfold notworker_entry in H.
    destruct (negb _ || _); [discriminate |].
    destruct (first_token (strip line)); [| discriminate].
    destruct (nonempty _ && _); [| discriminate].
    destruct (normalize_proxy_link _); [| discriminate].
    injection H as _ <-. reflexivity. }
  split.
  - unfold notworker_entry in H.
    destruct (negb (nonempty (strip line)) || _) eqn:E; [discriminate |].
    apply orb_false_iff in E as [E _]. apply negb_false_iff in E.
    rewrite Hfull. exact E.
  - rewrite <- H. apply notworker_entry_strip.
    unfold newline. rewrite strip_snoc_newline, Hfull. apply strip_idem.
Qed.

(** The full line of a key, as [parse_proxy_lines] pairs them, is read
    back as the entry of the key's normal form. *)
Lemma key_line_reloads (link full : str) :
  is_key link = true ->
  strip full = full ->
  first_token full = Some link ->
  reloads_as (normal_form link) full.
Proof.
  intros Hkey Hstrip Htoken.
  pose proof (is_key_parts link Hkey) as [Hn [Hs Hp]].
  assert (Hfull : nonempty full = true).
  { unfold first_token in Htoken. destruct full; [discriminate | reflexivity]. }
  split; [exact Hfull |].
  rewrite (notworker_entry_strip (full ++ [newline]) full)
    by (unfold newline; rewrite strip_snoc_newline; reflexivity).
  assert (Hhash : startswith (lit "#") full = false).
  { pose proof (strip_head full) as Hhead. rewrite Hstrip in Hhead.
    unfold first_token in Htoken.
    destruct full as [| c r]; [discriminate |].
    rewrite (lstrip_fixed c r Hhead) in Htoken. injection Htoken as <-.
    simpl in Hp. rewrite Hhead in Hp.
    pose proof (has_protocol_head c _ Hp) as Hc.
    change (startswith (lit "#") (c :: r)) with ((35 =? c) && true).
    destruct (Z.eqb_spec 35 c) as [E | E]; [| reflexivity].
    exfalso. apply Hc. symmetry. exact E. }
  unfold notworker_entry.
  rewrite Hstrip, Hfull, Hhash, Htoken, (strip_spaceless link Hs), Hn, Hp,
    (normalize_key link Hkey).
  reflexivity.
Qed.

(** A key on a line of its own is its own full line. *)
Lemma bare_key_reloads (link : str) :
  is_key link = true -> reloads_as (normal_form link) link.
Proof.
  intros Hkey. pose proof (is_key_parts link Hkey) as [Hn [Hs _]].
  apply key_line_reloads; [exact Hkey | apply strip_spaceless; exact Hs |].
  apply first_token_of_token; assumption.
Qed.

(** *** Loading and saving *)

Lemma load_lines_inv (lines : list str) :
  forall (S : gset str) (M : gmap str str),
    dom M = S ->
    (forall n f, M !! n = Some f -> reloads_as n f) ->
    exists S' M',
      foldl notworkers_step (Some (S, M)) lines = Some (S', M')
      /\ dom M' = S'
      /\ (forall n f, M' !! n = Some f -> reloads_as n f).
Proof.
  induction lines as [| line rest IH]; intros S M Hdom Hst; [simpl; eauto |].
  simpl. destruct (notworker_entry_total line) as [e He]. rewrite He.
  destruct e as [[norm full] |]; [| apply IH; assumption].
  apply IH.
  - rewrite dom_insert_L, Hdom. reflexivity.
  - intros n f Hn. apply lookup_insert_Some in Hn as [[<- <-] | [_ Hn]].
    + apply (notworker_entry_stable line). exact He.
    + apply Hst. exact Hn.
Qed.

(** The loader raises on no file; the map it returns has the set it
    returns as its keys, and lines that are read back as they are. *)
Lemma load_total (file : File) :
  exists S M,
    load_notworkers_with_lines file = Some (S, M)
    /\ dom M = S
    /\ (forall n f, M !! n = Some f -> reloads_as n f).
Proof.
  destruct file as [lines |]; simpl.
  - apply load_lines_inv; [apply dom_empty_L |]. intros n f H.
    rewrite lookup_empty in H. discriminate.
  - exists ∅, ∅. split; [reflexivity |]. split; [apply dom_empty_L |].
    intros n f H. rewrite lookup_empty in H. discriminate.
Qed.

Lemma reload_keys (M : gmap str str) (ks : list str) :
  forall (S0 : gset str) (M0 : gmap str str),
    (forall k, k ∈ ks -> exists f, M !! k = Some f /\ reloads_as k f) ->
    exists S' M',
      foldl notworkers_step (Some (S0, M0)) (omap (notworkers_line M) ks) = Some (S', M')
      /\ S' = list_to_set ks ∪ S0
      /\ (forall k, M' !! k = if decide (k ∈ ks) then M !! k else M0 !! k).
Proof.
  induction ks as [| k r IH]; intros S0 M0 Hks.
  - exists S0, M0. simpl. split; [reflexivity |]. split; [set_solver |].
    intros k. destruct (decide (k ∈ [])) as [H | _]; [| reflexivity].
    apply elem_of_nil in H. contradiction.
  - destruct (Hks k ltac:(left)) as [f [Hf [Hne Hre]]].
    simpl. unfold notworkers_line at 1. rewrite Hf, Hne. simpl. rewrite Hre.
    destruct (IH ({[k]} ∪ S0) (<[k := f]> M0)) as [S' [M' [Hrun [HS HM]]]].
    { intros k' Hk'. apply Hks. right. exact Hk'. }
    exists S', M'. split; [exact Hrun |]. split; [set_solver |].
    intros k'. rewrite HM.
    destruct (decide (k' ∈ r)) as [Hr | Hr].
    + rewrite decide_True by (right; exact Hr). reflexivity.
    + destruct (decide (k' = k)) as [-> | Hk].
      * rewrite decide_True by left. rewrite lookup_insert_eq. symmetry. exact Hf.
      * rewrite decide_False by (intros H; apply elem_of_cons in H as [? | ?]; auto).
        apply lookup_insert_ne. congruence.
Qed.

(** What [save_notworkers] writes is loaded again as the map it was
    given, when every line of the map reads back as its key. *)
Lemma reload_saved (M : gmap str str) :
  (forall n f, M !! n = Some f -> reloads_as n f) ->
  load_notworkers_with_lines (save_notworkers M) = Some (dom M, M).
Proof.
  intros Hst. unfold save_notworkers, load_notworkers_with_lines.
  set (ks := sorted (map_to_list M).*1).
  assert (Hks : forall k, k ∈ ks <-> is_Some (M !! k)).
  { intros k. unfold ks, sorted. rewrite merge_sort_Permutation.
    rewrite list_elem_of_fmap. split.
    - intros [[k' f] [-> H]]. apply elem_of_map_to_list in H. eauto.
    - intros [f H]. exists (k, f). split; [reflexivity |].
      apply elem_of_map_to_list. exact H. }
  destruct (reload_keys M ks ∅ ∅) as [S' [M' [Hrun [HS HM]]]].
  { intros k Hk. apply Hks in Hk as [f Hf]. eauto. }
  rewrite Hrun. f_equal. f_equal.
  - rewrite HS. apply set_eq. intros k.
    rewrite elem_of_union, elem_of_list_to_set, Hks, elem_of_dom. set_solver.
  - apply map_eq. intros k. rewrite HM.
    destruct (decide (k ∈ ks)) as [H | H]; [reflexivity |].
    rewrite lookup_empty. symmetry. apply eq_None_not_Some. rewrite <- Hks. exact H.
Qed.

(** *** The comprehensions of [save_results_and_exit] *)

Lemma normalize_each_keys (links : list str) :
  (forall link, link ∈ links -> is_key link = true) ->
  normalize_each links = Some (normal_form <$> links).
Proof.
  unfold normalize_each. induction links as [| link rest IH]; intros H; [reflexivity |].
  simpl. rewrite (normalize_key link) by (apply H; left). simpl.
  rewrite IH by (intros l Hl; apply H; right; exact Hl). reflexivity.
Qed.

Lemma dict_of_keys_lookup (value : str -> str) (keys : list str) (k : str) :
  dict_of_keys value keys !! k = if decide (k ∈ keys) then Some (value k) else None.
Proof.
  unfold dict_of_keys.
  assert (H : forall (m : gmap str str),
             foldl (fun m n => <[n := value n]> m) m keys !! k
             = if decide (k ∈ keys) then Some (value k) else m !! k).
  { induction keys as [| x r IH]; intros m; simpl.
    - destruct (decide (k ∈ [])) as [H | _]; [| reflexivity].
      apply elem_of_nil in H. contradiction.
    - rewrite IH. destruct (decide (k ∈ r)) as [Hr | Hr].
      + rewrite decide_True by (right; exact Hr). reflexivity.
      + destruct (decide (k = x)) as [-> | Hk].
        * rewrite decide_True by left. apply lookup_insert_eq.
        * rewrite decide_False by (intros H; apply elem_of_cons in H as [? | ?]; auto).
          apply lookup_insert_ne. congruence. }
  rewrite H. destruct (decide (k ∈ keys)); [reflexivity | apply lookup_empty].
Qed.

Lemma full_lines_inv (link_to_full : gmap str str) (links : list str) :
  forall (M0 : gmap str str),
    (forall link, link ∈ links -> is_key link = true) ->
    exists M1,
      foldl (full_line_step link_to_full) (Some M0) links = Some M1
      /\ (forall n, is_Some (M0 !! n) -> is_Some (M1 !! n))
      /\ (forall link, link ∈ links -> is_Some (M1 !! normal_form link))
      /\ (forall n f, M1 !! n = Some f ->
            M0 !! n = Some f
            \/ exists link, link ∈ links /\ normal_form link = n
                            /\ f = default link (link_to_full !! link)).
Proof.
  induction links as [| x r IH]; intros M0 Hkeys.
  - exists M0. simpl. split; [reflexivity |]. split; [auto |]. split; [| auto].
    intros link H. apply elem_of_nil in H. contradiction.
  - simpl. unfold full_line_step at 1. rewrite (normalize_key x) by (apply Hkeys; left).
    destruct (IH (<[normal_form x := default x (link_to_full !! x)]> M0))
      as [M1 [Hrun [Hmono [Hdom Hval]]]].
    { intros l Hl. apply Hkeys. right. exact Hl. }
    exists M1. split; [exact Hrun |]. split; [| split].
    + intros n Hn. apply Hmono.
      destruct (decide (n = normal_form x)) as [-> | Hne].
      * rewrite lookup_insert_eq. eauto.
      * rewrite lookup_insert_ne by congruence. exact Hn.
    + intros link Hl. apply elem_of_cons in Hl as [-> | Hl]; [| apply Hdom; exact Hl].
      apply Hmono. rewrite lookup_insert_eq. eauto.
    + intros n f Hn. apply Hval in Hn as [Hn | [link [Hl [Hnf Hf]]]].
      * apply lookup_insert_Some in Hn as [[<- <-] | [_ Hn]]; [| left; exact Hn].
        right. exists x. split; [left | split; reflexivity].
      * right. exists link. split; [right; exact Hl | split; assumption].
Qed.

Section Update.
Context (set_iter : gset str -> list str).
Hypothesis set_iter_perm : forall s, set_iter s ≡ₚ elements s.

Lemma set_iter_elem (s : gset str) (x : str) : x ∈ set_iter s <-> x ∈ s.
Proof. rewrite set_iter_perm. apply elem_of_elements. Qed.

Lemma normalized_set_keys (links : gset str) :
  (forall link, link ∈ links -> is_key link = true) ->
  normalized_set set_iter links = Some (norms links).
Proof.
  intros Hkeys. unfold normalized_set.
  rewrite normalize_each_keys by (intros l Hl; apply Hkeys, set_iter_elem, Hl).
  f_equal. apply set_eq. intros n.
  rewrite elem_of_list_to_set, norms_spec, list_elem_of_In, filter_In, <- list_elem_of_In,
    list_elem_of_fmap.
  split.
  - intros [[link [-> Hl]] _]. exists link. rewrite <- set_iter_elem. auto.
  - intros [link [Hl ->]]. split.
    + exists link. rewrite set_iter_elem. auto.
    + apply normal_form_nonempty, Hkeys, Hl.
Qed.

Lemma normalized_to_full_keys (link_to_full : gmap str str) (links : gset str) :
  (forall link, link ∈ links -> is_key link = true) ->
  exists M,
    normalized_to_full_of set_iter link_to_full links = Some M
    /\ (forall n, n ∈ norms links -> is_Some (M !! n))
    /\ (forall n f, M !! n = Some f ->
          exists link, link ∈ links /\ normal_form link = n
                       /\ f = default link (link_to_full !! link)).
Proof.
  intros Hkeys. unfold normalized_to_full_of.
  destruct (full_lines_inv link_to_full (set_iter links) ∅)
    as [M [Hrun [_ [Hdom Hval]]]].
  { intros l Hl. apply Hkeys, set_iter_elem, Hl. }
  exists M. split; [exact Hrun |]. split.
  - intros n Hn. apply norms_spec in Hn as [link [Hl ->]].
    apply Hdom, set_iter_elem, Hl.
  - intros n f Hn. apply Hval in Hn as [Hn | [link [Hl H]]].
    + rewrite lookup_empty in Hn. discriminate.
    + exists link. rewrite <- set_iter_elem. auto.
Qed.

(** What the run leaves in the file, for keys as the parsers pair them
    with their full lines. *)
Lemma update_notworkers_run (tested passed : gset str) (link_to_full : gmap str str)
    (file : File) :
  (forall link, link ∈ tested ∪ passed -> is_key link = true) ->
  (forall link full, link ∈ tested -> link_to_full !! link = Some full ->
     strip full = full /\ first_token full = Some link) ->
  exists existing existing_full file' persisted_full,
    load_notworkers_with_lines file = Some (existing, existing_full)
    /\ update_notworkers set_iter tested passed link_to_full file = Some file'
    /\ load_notworkers_with_lines file'
       = Some ((existing ∪ norms (tested ∖ passed)) ∖ norms passed, persisted_full)
    /\ (forall n, n ∈ existing -> n ∉ norms passed ->
          is_Some (existing_full !! n) /\ persisted_full !! n = existing_full !! n)
    /\ (forall n, n ∉ existing -> n ∈ norms (tested ∖ passed) -> n ∉ norms passed ->
          exists link, link ∈ tested ∖ passed /\ normal_form link = n
                       /\ persisted_full !! n = Some (default link (link_to_full !! link))).
Proof.
  intros Hkeys Hfull.
  destruct (load_total file) as [existing [existing_full [Hload [Hdom Hstable]]]].
  exists existing, existing_full.
  assert (Hexisting : forall n, n ∈ existing -> is_Some (existing_full !! n)).
  { intros n Hn. apply elem_of_dom. rewrite Hdom. exact Hn. }
  unfold update_notworkers.
  rewrite (normalized_set_keys passed) by (intros l Hl; apply Hkeys; set_solver).
  destruct (bool_decide (tested ∖ passed ≠ ∅) || bool_decide (norms passed ≠ ∅)) eqn:Hguard.
  - rewrite Hload.
    rewrite (normalized_set_keys (tested ∖ passed)) by (intros l Hl; apply Hkeys; set_solver).
    destruct (normalized_to_full_keys link_to_full (tested ∖ passed))
      as [failed_full [Hrun [Hfdom Hfval]]].
    { intros l Hl. apply Hkeys. set_solver. }
    rewrite Hrun.
    set (merged := (existing ∪ norms (tested ∖ passed)) ∖ norms passed).
    set (M := dict_of_keys (merged_line existing_full failed_full) (set_iter merged)).
    assert (HM : forall n, M !! n = if decide (n ∈ merged)
                                    then Some (merged_line existing_full failed_full n)
                                    else None).
    { intros n. unfold M. rewrite dict_of_keys_lookup.
      destruct (decide (n ∈ set_iter merged)) as [H | H];
        [rewrite decide_True by (apply set_iter_elem; exact H)
        | rewrite decide_False by (rewrite <- set_iter_elem; exact H)]; reflexivity. }
    assert (Hold : forall n, n ∈ existing ->
                     merged_line existing_full failed_full n = default n (existing_full !! n)).
    { intros n Hn. destruct (Hexisting n Hn) as [f Hf]. unfold merged_line. rewrite Hf.
      destruct (Hstable n f Hf) as [Hne _]. rewrite Hne. reflexivity. }
    assert (Hnew : forall n, n ∉ existing -> n ∈ norms (tested ∖ passed) ->
                     exists link, link ∈ tested ∖ passed /\ normal_form link = n
                       /\ merged_line existing_full failed_full n
                          = default link (link_to_full !! link)).
    { intros n Hn Hf. destruct (Hfdom n Hf) as [f Hlook].
      destruct (Hfval n f Hlook) as [link [Hl [Hnf ->]]].
      exists link. split; [exact Hl |]. split; [exact Hnf |].
      unfold merged_line.
      replace (existing_full !! n) with (@None str).
      - rewrite Hlook. reflexivity.
      - symmetry. apply not_elem_of_dom. rewrite Hdom. exact Hn. }
    assert (Hreload : forall n f, M !! n = Some f -> reloads_as n f).
    { intros n f Hn. rewrite HM in Hn.
      destruct (decide (n ∈ merged)) as [Hm | Hm]; [| discriminate].
      injection Hn as <-.
      destruct (decide (n ∈ existing)) as [He | He].
      - rewrite (Hold n He). destruct (Hexisting n He) as [f Hf]. rewrite Hf.
        apply Hstable. exact Hf.
      - destruct (Hnew n He) as [link [Hl [<- ->]]]; [set_solver |].
        assert (Hk : is_key link = true) by (apply Hkeys; set_solver).
        destruct (link_to_full !! link) as [full |] eqn:Hfl; simpl.
        + destruct (Hfull link full) as [H1 H2]; [set_solver | exact Hfl |].
          apply key_line_reloads; assumption.
        + apply bare_key_reloads. exact Hk. }
    exists (save_notworkers M), M.
    split; [reflexivity |]. split; [reflexivity |]. split; [| split].
    + rewrite (reload_saved M Hreload). f_equal. f_equal.
      apply set_eq. intros n. rewrite elem_of_dom, HM.
      fold merged. destruct (decide (n ∈ merged)); split; intros H; eauto.
      * destruct H as [? H]. discriminate.
      * contradiction.
    + intros n He Hp. split; [apply Hexisting; exact He |].
      rewrite HM, decide_True by set_solver. rewrite (Hold n He).
      destruct (Hexisting n He) as [f Hf]. rewrite Hf. reflexivity.
    + intros n He Hf Hp. destruct (Hnew n He Hf) as [link [Hl [Hnf Hline]]].
      exists link. split; [exact Hl |]. split; [exact Hnf |].
      rewrite HM, decide_True by set_solver. rewrite Hline. reflexivity.
  - apply orb_false_iff in Hguard as [Hfailed Hpassed].
    apply bool_decide_eq_false in Hfailed, Hpassed.
    assert (Hf0 : tested ∖ passed = ∅) by (destruct (decide (tested ∖ passed = ∅)); tauto).
    assert (Hp0 : norms passed = ∅) by (destruct (decide (norms passed = ∅)); tauto).
    exists file, existing_full.
    split; [exact Hload |]. split; [reflexivity |]. split; [| split].
    + rewrite Hload, Hf0, Hp0. f_equal. f_equal. unfold norms. set_solver.
    + intros n He _. split; [apply Hexisting; exact He | reflexivity].
    + intros n _ Hn. rewrite Hf0 in Hn. unfold norms in Hn. set_solver.
Qed.

End Update.

(** C2: after the run, the notworkers file holds the normal forms that it
    held before or that failed in this run, without those that passed in
    this run; a normal form that the file held keeps its stored full line,
    and a new one has the full line of a key that failed with that normal
    form. The keys are tokens with a supported scheme, paired with their
    full lines as [parse_proxy_lines] pairs them; [set_iter] is any
    iteration order of sets. *)
Theorem notworkers_file_after_run (set_iter : gset str -> list str)
    (tested passed : gset str) (link_to_full : gmap str str) (file : File) :
  (forall s, set_iter s ≡ₚ elements s) ->
  (forall link, link ∈ tested ∪ passed -> is_key link = true) ->
  (forall link full, link ∈ tested -> link_to_full !! link = Some full ->
     strip full = full /\ first_token full = Some link) ->
  exists existing existing_full file' persisted_full,
    load_notworkers_with_lines file = Some (existing, existing_full)
    /\ update_notworkers set_iter tested passed link_to_full file = Some file'
    /\ load_notworkers_with_lines file'
       = Some ((existing ∪ norms (tested ∖ passed)) ∖ norms passed, persisted_full)
    /\ (forall n, n ∈ existing -> n ∉ norms passed ->
          is_Some (existing_full !! n) /\ persisted_full !! n = existing_full !! n)
    /\ (forall n, n ∉ existing -> n ∈ norms (tested ∖ passed) -> n ∉ norms passed ->
          exists link, link ∈ tested ∖ passed /\ normal_form link = n
                       /\ persisted_full !! n = Some (default link (link_to_full !! link))).
Proof.
  intros Hperm. apply update_notworkers_run. exact Hperm.
Qed.

End NotworkersFacts.

(** ** The keys of a run and the tally of its probes *)

Module MainFacts.
Import Py Utils Runtime Cfg Checker Parsing Main PyFacts NotworkersSpec NotworkersFacts.

(** *** The pairs that the parsers hand over *)

(** A pair (link, full line) as the update of the notworkers file needs
    it. *)
Definition paired (x : str * str) : Prop :=
  is_key x.1 = true /\ strip x.2 = x.2 /\ first_token x.2 = Some x.1.

Lemma protocols_spaceless (p : str) : In p _SUBSCRIPTION_PROTOCOLS -> spaceless p = true.
Proof.
  intros H. repeat (destruct H as [<- | H]; [reflexivity |]). destruct H.
Qed.

Lemma has_protocol_token (s : str) :
  has_protocol s = true -> has_protocol (take_token s) = true.
Proof.
  unfold has_protocol. intros H. apply existsb_exists in H as [p [Hin Hp]].
  apply existsb_exists. exists p. split; [exact Hin |].
  apply startswith_take_token; [apply protocols_spaceless; exact Hin | exact Hp].
Qed.

Lemma stripped_line_pair (line link : str) :
  has_protocol (strip line) = true ->
  first_token (strip line) = Some link ->
  paired (strip link, strip line).
Proof.
  intros Hp Ht. destruct (first_token_some _ _ Ht) as [Hn Hs].
  rewrite (strip_spaceless link Hs).
  unfold paired. simpl. split; [| split; [apply strip_idem | exact Ht]].
  unfold is_key. rewrite Hn, Hs. simpl.
  unfold first_token in Ht. rewrite lstrip_strip in Ht.
  destruct (strip line) as [| c r] eqn:E; [discriminate |]. injection Ht as <-.
  apply (has_protocol_token (c :: r)). exact Hp.
Qed.

Lemma proxy_line_entry_paired (line : str) (x : str * str) :
  proxy_line_entry line = Some (Some x) -> paired x.
Proof.
  unfold proxy_line_entry.
  destruct (negb (nonempty (strip line))); [discriminate |].
  destruct (has_protocol (strip line)) eqn:Hp; [| discriminate].
  destruct (first_token (strip line)) as [token |] eqn:Ht; [| discriminate].
  destruct (nonempty (strip token)); [| discriminate].
  intros H. injection H as <-. apply stripped_line_pair; assumption.
Qed.

Lemma key_file_entry_paired (line : str) (x : str * str) :
  key_file_entry line = Some (Some x) -> paired x.
Proof.
  unfold key_file_entry.
  destruct (negb (nonempty (strip line)) || _); [discriminate |].
  destruct (has_protocol (strip line)) eqn:Hp; [| discriminate].
  destruct (first_token (strip line)) as [token |] eqn:Ht; [| discriminate].
  destruct (nonempty (strip token)); [| discriminate].
  intros H. injection H as <-. apply stripped_line_pair; assumption.
Qed.

Lemma collect_entries_all (entry : str -> option (option (str * str)))
    (P : str * str -> Prop) (lines : list str) :
  (forall line x, entry line = Some (Some x) -> P x) ->
  forall keys, collect_entries entry lines = Some keys -> Forall P keys.
Proof.
  intros Hentry. induction lines as [| line rest IH]; intros keys H; simpl in H.
  - injection H as <-. constructor.
  - destruct (entry line) as [e |] eqn:He; [| discriminate].
    destruct (collect_entries entry rest) as [result |]; [| discriminate].
    injection H as <-. destruct e as [x |]; [| apply IH; reflexivity].
    constructor; [apply (Hentry line); exact He | apply IH; reflexivity].
Qed.

(** Every pair of [parse_proxy_lines] and of [load_keys_from_file] is a
    key with its stripped full line. *)
Lemma parse_proxy_lines_paired (text : str) (keys : list (str * str)) :
  parse_proxy_lines text = Some keys -> Forall paired keys.
Proof. apply collect_entries_all. exact proxy_line_entry_paired. Qed.

Lemma load_keys_from_file_paired (file : File) (keys : list (str * str)) :
  load_keys_from_file file = Some keys -> Forall paired keys.
Proof.
  destruct file as [lines |]; simpl.
  - apply collect_entries_all. exact key_file_entry_paired.
  - intros H. injection H as <-. constructor.
Qed.

(** *** The tally *)

Section Tally.
Context (cfg : Config) (render : str -> Metrics -> str).

#[local] Abbreviation result := (option (str * bool * Metrics)).

(** A probe that counts as passed: alive, and not slower than
    [MAX_LATENCY_MS] on average. *)
Definition passes (r : result) : bool :=
  match r with
  | Some (_, ok, metrics) => ok && Qleb (avg_latency_ms metrics) (inject_Z (MAX_LATENCY_MS cfg))
  | None => false
  end.

Definition link_of (r : result) : option str :=
  match r with
  | Some (link, _, _) => Some link
  | None => None
  end.

Lemma tally_passed (results : list result) :
  forall t link,
    link ∈ available_keys (foldl (record_result cfg render) t results)
    <-> link ∈ available_keys t
        \/ exists r, r ∈ results /\ link_of r = Some link /\ passes r = true.
Proof.
  induction results as [| r rest IH]; intros t link; simpl.
  - split; [auto |]. intros [H | [r [H _]]]; [exact H |].
    apply elem_of_nil in H. contradiction.
  - rewrite IH. split.
    + intros [H | [r' [Hin [Hl Hp]]]].
      * destruct r as [[[l ok] m] |]; simpl in H; [| auto].
        destruct ok; simpl in H; [| auto].
        destruct (Qleb (avg_latency_ms m) (inject_Z (MAX_LATENCY_MS cfg))) eqn:E;
          simpl in H; [| auto].
        apply elem_of_app in H as [H | H]; [auto |].
        apply list_elem_of_singleton in H. subst l.
        right. exists (Some (link, true, m)). split; [left |].
        split; [reflexivity |]. simpl. exact E.
      * right. exists r'. split; [right; exact Hin | auto].
    + intros [H | [r' [Hin [Hl Hp]]]].
      * left. destruct r as [[[l ok] m] |]; simpl; [| exact H].
        destruct ok; simpl; [| exact H].
        destruct (Qleb _ _); simpl; [| exact H].
        apply elem_of_app. left. exact H.
      * apply elem_of_cons in Hin as [-> | Hin]; [| right; eauto].
        left. destruct r as [[[l ok] m] |]; simpl in *; [| discriminate].
        injection Hl as ->. apply andb_true_iff in Hp as [-> Hp]. rewrite Hp. simpl.
        apply elem_of_app. right. left.
Qed.

Lemma tally_tested (results : list result) :
  forall t link,
    link ∈ dom (all_metrics (foldl (record_result cfg render) t results))
    <-> link ∈ dom (all_metrics t)
        \/ exists r, r ∈ results /\ link_of r = Some link.
Proof.
  induction results as [| r rest IH]; intros t link; simpl.
  - split; [auto |]. intros [H | [r [H _]]]; [exact H |].
    apply elem_of_nil in H. contradiction.
  - rewrite IH.
    assert (Hstep : link ∈ dom (all_metrics (record_result cfg render t r))
                    <-> link ∈ dom (all_metrics t) \/ link_of r = Some link).
    { destruct r as [[[l ok] m] |]; simpl.
      - assert (Hd : forall t', all_metrics t' = <[l := m]> (all_metrics t) ->
                       (link ∈ dom (all_metrics t')
                        <-> link ∈ dom (all_metrics t) \/ Some l = Some link)).
        { intros t' ->. rewrite dom_insert_L, elem_of_union, elem_of_singleton.
          split; intros [H | H]; auto; [subst; auto | injection H as ->; auto]. }
        destruct ok; [| apply Hd; reflexivity].
        destruct (Qleb _ _); apply Hd; reflexivity.
      - split; [auto | intros [H | H]; [exact H | discriminate]]. }
    rewrite Hstep. split.
    + intros [[H | H] | [r' [Hin Hl]]]; [auto | right; exists r; split; [left | exact H] |].
      right. exists r'. split; [right; exact Hin | exact Hl].
    + intros [H | [r' [Hin Hl]]]; [auto |].
      apply elem_of_cons in Hin as [-> | Hin]; [auto | right; eauto].
Qed.

(** A live probe above the latency bound is recorded like a dead one. *)
Lemma record_slow (t : Tally) (link : str) (metrics : Metrics) :
  (inject_Z (MAX_LATENCY_MS cfg) < avg_latency_ms metrics)%Q ->
  record_result cfg render t (Some (link, true, metrics))
  = record_result cfg render t (Some (link, false, metrics)).
Proof.
  intros H. simpl.
  replace (Qleb (avg_latency_ms metrics) (inject_Z (MAX_LATENCY_MS cfg))) with false;
    [reflexivity |].
  symmetry. unfold Qleb. destruct (Qle_bool _ _) eqn:E; [| reflexivity].
  apply Qle_bool_iff in E. exfalso. apply (Qlt_not_le _ _ H E).
Qed.

Lemma tally_slow (pre post : list result) (link : str) (metrics : Metrics) :
  (inject_Z (MAX_LATENCY_MS cfg) < avg_latency_ms metrics)%Q ->
  tally_results cfg render (pre ++ Some (link, true, metrics) :: post)
  = tally_results cfg render (pre ++ Some (link, false, metrics) :: post).
Proof.
  intros H. unfold tally_results. rewrite !foldl_app. cbn [foldl].
  rewrite (record_slow _ link metrics H). reflexivity.
Qed.

(** C10: a key whose probe is alive but whose average response time, in
    milliseconds, exceeds [MAX_LATENCY_MS] is left out of the passed keys
    (unless another probe of the same key passed), the notworkers file
    after the run is the one of the run in which that probe returned dead,
    and, unless a passed key has the same normal form, the file holds the
    key's normal form. The keys are tokens with a supported scheme, paired
    with their full lines as [parse_proxy_lines] pairs them; [set_iter] is
    any iteration order of sets. *)
Theorem slow_key_is_persisted_as_failed (set_iter : gset str -> list str)
    (pre post : list result) (link : str) (metrics : Metrics)
    (link_to_full : gmap str str) (file : File) :
  (inject_Z (MAX_LATENCY_MS cfg) < avg_latency_ms metrics)%Q ->
  (forall s, set_iter s ≡ₚ elements s) ->
  let slow := pre ++ Some (link, true, metrics) :: post in
  let dead := pre ++ Some (link, false, metrics) :: post in
  let passed : gset str := list_to_set (available_keys (tally_results cfg render slow)) in
  (forall r l, r ∈ slow -> link_of r = Some l -> is_key l = true) ->
  (forall l full, link_to_full !! l = Some full ->
     strip full = full /\ first_token full = Some l) ->
  notworkers_after cfg render set_iter slow link_to_full file
  = notworkers_after cfg render set_iter dead link_to_full file
  /\ (link ∈ passed
      <-> exists r, r ∈ pre ++ post /\ link_of r = Some link /\ passes r = true)
  /\ ((forall other, other ∈ passed -> normal_form other <> normal_form link) ->
      exists existing existing_full file' persisted persisted_full,
        load_notworkers_with_lines file = Some (existing, existing_full)
        /\ notworkers_after cfg render set_iter slow link_to_full file = Some file'
        /\ load_notworkers_with_lines file' = Some (persisted, persisted_full)
        /\ normal_form link ∈ persisted).
Proof.
  intros Hslow Hperm slow dead passed Hkeys Hfull.
  assert (Hnot : passes (Some (link, true, metrics)) = false).
  { simpl. unfold Qleb. destruct (Qle_bool _ _) eqn:E; [| reflexivity].
    apply Qle_bool_iff in E. exfalso. apply (Qlt_not_le _ _ Hslow E). }
  assert (Hpassed : forall l, l ∈ passed
                      <-> exists r, r ∈ slow /\ link_of r = Some l /\ passes r = true).
  { intros l. unfold passed, tally_results. rewrite elem_of_list_to_set, tally_passed.
    split; [intros [H | H]; [apply elem_of_nil in H; contradiction | exact H] | auto]. }
  assert (Htested : forall l, l ∈ dom (all_metrics (tally_results cfg render slow))
                      <-> exists r, r ∈ slow /\ link_of r = Some l).
  { intros l. unfold tally_results. rewrite tally_tested. simpl. rewrite dom_empty_L.
    split; [intros [H | H]; [apply elem_of_empty in H; contradiction | exact H] | auto]. }
  split; [| split].
  - unfold notworkers_after, slow, dead. rewrite (tally_slow pre post link metrics Hslow).
    reflexivity.
  - rewrite Hpassed. unfold slow. split.
    + intros [r [Hin [Hl Hp]]]. exists r. split; [| auto].
      apply elem_of_app in Hin as [Hin | Hin]; [apply elem_of_app; auto |].
      apply elem_of_cons in Hin as [-> | Hin]; [congruence | apply elem_of_app; auto].
    + intros [r [Hin [Hl Hp]]]. exists r. split; [| auto].
      apply elem_of_app in Hin as [Hin | Hin]; apply elem_of_app; [auto |].
      right. right. exact Hin.
  - intros Hother.
    destruct (update_notworkers_run set_iter Hperm
                (dom (all_metrics (tally_results cfg render slow))) passed link_to_full file)
      as [existing [existing_full [file' [persisted_full [Hload [Hrun [Hreload _]]]]]]].
    + intros l Hl. apply elem_of_union in Hl as [Hl | Hl].
      * apply Htested in Hl as [r [Hin Hr]]. apply (Hkeys r l Hin Hr).
      * apply Hpassed in Hl as [r [Hin [Hr _]]]. apply (Hkeys r l Hin Hr).
    + intros l full _. apply Hfull.
    + eexists existing, existing_full, file', _, persisted_full.
      split; [exact Hload |]. split; [exact Hrun |]. split; [exact Hreload |].
      assert (Hin : link ∈ dom (all_metrics (tally_results cfg render slow))).
      { apply Htested. exists (Some (link, true, metrics)). split; [| reflexivity].
        unfold slow. apply elem_of_app. right. left. }
      assert (Hout : link ∉ passed).
      { intros H. apply (Hother link H). reflexivity. }
      apply elem_of_difference. split.
      * apply elem_of_union. right. apply norms_spec. exists link.
        split; [| reflexivity]. apply elem_of_difference. auto.
      * intros H. apply norms_spec in H as [other [Ho Hn]].
        apply (Hother other Ho). symmetry. exact Hn.
Qed.

End Tally.

End MainFacts.

(** ** Concrete runs of the notworkers update *)

Module RunScenarios.
Import Py Utils Runtime Cfg Checker Parsing Main PyFacts NotworkersSpec NotworkersFacts
  MainFacts Scenarios.

(** Two keys of this run and their full lines, and a file that holds a
    key of an earlier run and one of the keys of this run. *)
Definition dead_key : str := lit "vless://u1@10.0.0.1:443#one".
Definition dead_line : str := lit "vless://u1@10.0.0.1:443#one first server".
Definition live_key : str := lit "trojan://pw@10.0.0.2:443#two".
Definition live_line : str := lit "trojan://pw@10.0.0.2:443#two".
Definition old_line : str := lit "ss://YWJj@10.0.0.3:8388#three kept as it is".

Definition run_lines : gmap str str := {[ dead_key := dead_line; live_key := live_line ]}.

Definition stored : File :=
  Some [old_line ++ [newline]; lit "trojan://pw@10.0.0.2:443#stale" ++ [newline]].

Lemma run_keys (link : str) : link = dead_key \/ link = live_key -> is_key link = true.
Proof. intros [-> | ->]; vm_compute; reflexivity. Qed.

Lemma run_lines_paired (link full : str) :
  run_lines !! link = Some full -> strip full = full /\ first_token full = Some link.
Proof.
  unfold run_lines. intros H.
  apply lookup_insert_Some in H as [[<- <-] | [_ H]]; [split; vm_compute; reflexivity |].
  apply lookup_singleton_Some in H as [<- <-]. split; vm_compute; reflexivity.
Qed.

(** The run in which [dead_key] fails and [live_key] passes: the stale
    line of [live_key] goes, the full line of [dead_key] comes, the old
    line stays, in the order of the normal forms. *)
Lemma stored_after_run :
  update_notworkers elements {[dead_key; live_key]} {[live_key]} run_lines stored
  = Some (Some [old_line ++ [newline]; dead_line ++ [newline]]).
Proof. vm_compute. reflexivity. Qed.

Lemma notworkers_file_after_run_witness :
  exists existing existing_full file' persisted_full,
    load_notworkers_with_lines stored = Some (existing, existing_full)
    /\ update_notworkers elements {[dead_key; live_key]} {[live_key]} run_lines stored
       = Some file'
    /\ load_notworkers_with_lines file'
       = Some ((existing ∪ norms ({[dead_key; live_key]} ∖ {[live_key]}))
               ∖ norms {[live_key]}, persisted_full)
    /\ (forall n, n ∈ existing -> n ∉ norms {[live_key]} ->
          is_Some (existing_full !! n) /\ persisted_full !! n = existing_full !! n)
    /\ (forall n, n ∉ existing -> n ∈ norms ({[dead_key; live_key]} ∖ {[live_key]}) ->
          n ∉ norms {[live_key]} ->
          exists link, link ∈ ({[dead_key; live_key]} ∖ {[live_key]} : gset str)
                       /\ normal_form link = n
                       /\ persisted_full !! n = Some (default link (run_lines !! link))).
Proof.
  apply (notworkers_file_after_run elements {[dead_key; live_key]} {[live_key]} run_lines
           stored).
  - intros s. reflexivity.
  - intros link H. apply run_keys. set_unfold. tauto.
  - intros link full _. apply run_lines_paired.
Defined.

(** The same two keys, both alive: the first answers in four seconds on
    average, the second in a quarter of a second; the bound is 3000 ms. *)
Definition slow_metrics : Metrics := with_response_times [5; 3]%Q (new_metrics false).
Definition fast_metrics : Metrics := with_response_times [1 # 4]%Q (new_metrics false).

Definition plain (link : str) (metrics : Metrics) : str := link.

Lemma slow_key_is_persisted_as_failed_witness :
  let cfg := settings false false 3 3 0 in
  notworkers_after cfg plain elements
    [Some (dead_key, true, slow_metrics); Some (live_key, true, fast_metrics)]
    run_lines stored
  = notworkers_after cfg plain elements
      [Some (dead_key, false, slow_metrics); Some (live_key, true, fast_metrics)]
      run_lines stored
  /\ exists existing existing_full file' persisted persisted_full,
       load_notworkers_with_lines stored = Some (existing, existing_full)
       /\ notworkers_after cfg plain elements
            [Some (dead_key, true, slow_metrics); Some (live_key, true, fast_metrics)]
            run_lines stored
          = Some file'
       /\ load_notworkers_with_lines file' = Some (persisted, persisted_full)
       /\ normal_form dead_key ∈ persisted.
Proof.
  intros cfg.
  destruct (slow_key_is_persisted_as_failed cfg plain elements []
              [Some (live_key, true, fast_metrics)] dead_key slow_metrics run_lines stored)
    as [Hsame [Hpassed Hfile]].
  - reflexivity.
  - intros s. reflexivity.
  - intros r l Hr Hl. apply run_keys. simpl in Hr.
    apply elem_of_cons in Hr as [-> | Hr]; [injection Hl as <-; auto |].
    apply list_elem_of_singleton in Hr. subst r. injection Hl as <-. auto.
  - apply run_lines_paired.
  - split; [exact Hsame |]. apply Hfile.
    intros other Ho Heq.
    assert (Hne : other <> dead_key).
    { intros ->. apply Hpassed in Ho as [r [Hr [Hl Hp]]]. simpl in Hr.
      apply list_elem_of_singleton in Hr. subst r. discriminate Hl. }
    assert (Hin : other = dead_key \/ other = live_key).
    { apply elem_of_list_to_set in Ho.
      apply (tally_passed cfg plain) in Ho as [Ho | [r [Hr [Hl _]]]].
      - apply elem_of_nil in Ho. contradiction.
      - apply elem_of_cons in Hr as [-> | Hr]; [injection Hl as <-; auto |].
        apply list_elem_of_singleton in Hr. subst r. injection Hl as <-. auto. }
    destruct Hin as [-> | ->]; [congruence |]. vm_compute in Heq. discriminate.
Defined.

End RunScenarios.

(** ** Base64 and UTF-8: the encoders of a feed and the decoders of the
    library *)

Module SubscriptionSpec.
Import Py Utils Parsing Subscription.

(** The characters of the standard and of the URL-safe alphabet
    (RFC 4648). *)
Definition std_char (v : Z) : Z :=
  if v <? 26 then 65 + v
  else if v <? 52 then 71 + v
  else if v <? 62 then v - 4
  else if v =? 62 then 43
  else 47.

Definition urlsafe_char (v : Z) : Z :=
  if v <? 26 then 65 + v
  else if v <? 52 then 71 + v
  else if v <? 62 then v - 4
  else if v =? 62 then 45
  else 95.

(** The Base64 encoding of [data] with the alphabet [ch], with or without
    the [=] padding. *)
Fixpoint b64encode (ch : Z -> Z) (pad : bool) (data : bytes) : str :=
  match data with
  | [] => []
  | [a] =>
      [ch (a / 4); ch (a mod 4 * 16)] ++ (if pad then [61; 61] else [])
  | [a; b] =>
      [ch (a / 4); ch (a mod 4 * 16 + b / 16); ch (b mod 16 * 4)]
      ++ (if pad then [61] else [])
  | a :: b :: c :: rest =>
      [ch (a / 4); ch (a mod 4 * 16 + b / 16); ch (b mod 16 * 4 + c / 64); ch (c mod 64)]
      ++ b64encode ch pad rest
  end.

(** UTF-8 (RFC 3629). *)
Definition utf8_encode_char (c : Z) : bytes :=
  if c <? 128 then [c]
  else if c <? 2048 then [192 + c / 64; 128 + c mod 64]
  else if c <? 65536 then [224 + c / 4096; 128 + c / 64 mod 64; 128 + c mod 64]
  else [240 + c / 262144; 128 + c / 4096 mod 64; 128 + c / 64 mod 64; 128 + c mod 64].

Definition utf8_encode (s : str) : bytes := concat (map utf8_encode_char s).

(** The code points a Python [str] can be encoded from: no surrogates. *)
Definition valid_char (c : Z) : bool :=
  ((0 <=? c) && (c <? 55296)) || ((57344 <=? c) && (c <? 1114112)).

Definition valid_text (s : str) : bool := forallb valid_char s.

(** Ingesting a feed body: unwrap, then parse. *)
Definition ingest (text : str) : option (list (str * str)) :=
  parse_proxy_lines (decode_subscription_content text).

End SubscriptionSpec.

Module BitFacts.

Lemma land_shiftl_low (a b k : Z) :
  0 <= k -> 0 <= b < 2 ^ k -> Z.land (Z.shiftl a k) b = 0.
Proof.
  intros Hk Hb. apply Z.bits_inj'. intros n Hn.
  rewrite Z.land_spec, Z.bits_0.
  destruct (Z.lt_ge_cases n k) as [Hlt | Hge].
  - rewrite Z.shiftl_spec_low by exact Hlt. reflexivity.
  - rewrite <- (Z.mod_small b (2 ^ k)) by exact Hb.
    rewrite Z.mod_pow2_bits_high by lia. apply andb_false_r.
Qed.

(** [(a << k) | b] is [a * 2^k + b] when [b] fits in [k] bits. *)
Lemma lor_shiftl_low (a b k : Z) :
  0 <= k -> 0 <= b < 2 ^ k -> Z.lor (Z.shiftl a k) b = a * 2 ^ k + b.
Proof.
  intros Hk Hb. pose proof (Z.add_lor_land (Z.shiftl a k) b) as H.
  rewrite (land_shiftl_low a b k Hk Hb) in H.
  rewrite <- Z.shiftl_mul_pow2 by exact Hk. lia.
Qed.

Lemma land_mask (a k : Z) : 0 <= k -> Z.land a (2 ^ k - 1) = a mod 2 ^ k.
Proof.
  intros Hk. rewrite <- Z.land_ones by exact Hk. f_equal.
  rewrite Z.ones_equiv. lia.
Qed.

(** A property of the numbers below [n], checked on each of them. *)
Lemma below_cases (n : nat) (P : Z -> bool) :
  forallb P (map Z.of_nat (seq 0 n)) = true ->
  forall v, 0 <= v < Z.of_nat n -> P v = true.
Proof.
  intros H v Hv. rewrite forallb_forall in H. apply H.
  apply in_map_iff. exists (Z.to_nat v). split; [lia |].
  apply in_seq. lia.
Qed.

End BitFacts.

Module Base64Facts.
Import Py Utils Parsing Subscription SubscriptionSpec Base64 BitFacts.

Definition is_byte (b : Z) : Prop := 0 <= b < 256.

Lemma list_ind3 {A} (P : list A -> Prop) :
  P [] -> (forall a, P [a]) -> (forall a b, P [a; b]) ->
  (forall a b c rest, P rest -> P (a :: b :: c :: rest)) ->
  forall l, P l.
Proof.
  intros H0 H1 H2 H3.
  assert (H : forall l, P l /\ (forall a, P (a :: l)) /\ (forall a b, P (a :: b :: l))).
  { induction l as [| x l [IH0 [IH1 IH2]]]; [auto |].
    split; [apply IH1 |]. split; [intros a; apply IH2 |].
    intros a b. apply H3. exact IH0. }
  intros l. apply H.
Qed.

Lemma table_std_char (v : Z) :
  0 <= v < 64 ->
  table_a2b_base64 (std_char v) = Some v /\ std_char v =? BASE64_PAD = false.
Proof.
  intros Hv.
  assert (H : (match table_a2b_base64 (std_char v) with
               | Some w => w =? v
               | None => false
               end && negb (std_char v =? BASE64_PAD)) = true).
  { apply (below_cases 64
             (fun v => match table_a2b_base64 (std_char v) with
                       | Some w => w =? v
                       | None => false
                       end && negb (std_char v =? BASE64_PAD))); [| exact Hv].
    vm_compute. reflexivity. }
  apply andb_true_iff in H as [H1 H2]. apply negb_true_iff in H2. split; [| exact H2].
  destruct (table_a2b_base64 (std_char v)) as [w |]; [| discriminate].
  apply Z.eqb_eq in H1. congruence.
Qed.

(** One character of the alphabet, read by the loop. *)
Lemma a2b_step (v : Z) (rest : bytes) (quad_pos leftchar pads : Z) (out : bytes) :
  0 <= v < 64 ->
  a2b_loop (std_char v :: rest) quad_pos leftchar pads out
  = if quad_pos =? 0 then a2b_loop rest 1 v 0 out
    else if quad_pos =? 1 then
      a2b_loop rest 2 (Z.land v 15) 0 (out ++ [Z.lor (Z.shiftl leftchar 2) (Z.shiftr v 4)])
    else if quad_pos =? 2 then
      a2b_loop rest 3 (Z.land v 3) 0 (out ++ [Z.lor (Z.shiftl leftchar 4) (Z.shiftr v 2)])
    else a2b_loop rest 0 0 0 (out ++ [Z.lor (Z.shiftl leftchar 6) v]).
Proof.
  intros Hv. destruct (table_std_char v Hv) as [Ht Hp].
  cbn [a2b_loop]. rewrite Hp, Ht. reflexivity.
Qed.

#[local] Ltac Zify.zify_post_hook ::= Z.to_euclidean_division_equations.

Lemma sextets (a b c : Z) :
  is_byte a -> is_byte b -> is_byte c ->
  0 <= a / 4 < 64 /\ 0 <= a mod 4 * 16 + b / 16 < 64
  /\ 0 <= b mod 16 * 4 + c / 64 < 64 /\ 0 <= c mod 64 < 64
  /\ 0 <= a mod 4 * 16 < 64 /\ 0 <= b mod 16 * 4 < 64.
Proof. unfold is_byte. intros Ha Hb Hc. lia. Qed.

(** The bytes that the loop rebuilds from the sextets of [a], [b], [c]. *)
Lemma first_byte (a s : Z) :
  is_byte a -> 0 <= s < 16 ->
  Z.lor (Z.shiftl (a / 4) 2) (Z.shiftr (a mod 4 * 16 + s) 4) = a.
Proof.
  unfold is_byte. intros Ha Hs. rewrite Z.shiftr_div_pow2 by lia.
  rewrite lor_shiftl_low by (change (2 ^ 4) with 16; change (2 ^ 2) with 4; lia).
  change (2 ^ 4) with 16. change (2 ^ 2) with 4. lia.
Qed.

Lemma second_byte (a b s : Z) :
  is_byte a -> is_byte b -> 0 <= s < 4 ->
  Z.lor (Z.shiftl (Z.land (a mod 4 * 16 + b / 16) 15) 4) (Z.shiftr (b mod 16 * 4 + s) 2) = b.
Proof.
  unfold is_byte. intros Ha Hb Hs. rewrite Z.shiftr_div_pow2 by lia.
  change 15 with (2 ^ 4 - 1). rewrite land_mask by lia.
  rewrite lor_shiftl_low by (change (2 ^ 4) with 16; change (2 ^ 2) with 4; lia).
  change (2 ^ 4) with 16. change (2 ^ 2) with 4. lia.
Qed.

Lemma third_byte (b c : Z) :
  is_byte b -> is_byte c ->
  Z.lor (Z.shiftl (Z.land (b mod 16 * 4 + c / 64) 3) 6) (c mod 64) = c.
Proof.
  unfold is_byte. intros Hb Hc.
  change 3 with (2 ^ 2 - 1). rewrite land_mask by lia.
  rewrite lor_shiftl_low by (change (2 ^ 6) with 64; change (2 ^ 2) with 4; lia).
  change (2 ^ 6) with 64. change (2 ^ 2) with 4. lia.
Qed.

(** A pad sequence that completes the quad ends the input. *)
Lemma a2b_pad2 (leftchar : Z) (out : bytes) :
  a2b_loop [BASE64_PAD; BASE64_PAD] 2 leftchar 0 out = Some out.
Proof. reflexivity. Qed.

Lemma a2b_pad1 (leftchar : Z) (out : bytes) :
  a2b_loop [BASE64_PAD] 3 leftchar 0 out = Some out.
Proof. reflexivity. Qed.

#[local] Ltac read_char H := rewrite (a2b_step _ _ _ _ _ _ H); cbn [Z.eqb Pos.eqb].

(** The loop reads the padded standard encoding of [data] back. *)
Lemma a2b_encoded (data : bytes) :
  Forall is_byte data ->
  forall out, a2b_loop (b64encode std_char true data) 0 0 0 out = Some (out ++ data).
Proof.
  induction data as [| a | a b | a b c rest IH] using list_ind3; intros Hdata out.
  - simpl. rewrite app_nil_r. reflexivity.
  - apply Forall_cons in Hdata as [Ha _].
    destruct (sextets a 0 0 Ha ltac:(unfold is_byte; lia) ltac:(unfold is_byte; lia))
      as [H0 [_ [_ [_ [H1 _]]]]].
    cbn [b64encode app]. read_char H0. read_char H1.
    rewrite (a2b_pad2 _ _).
    replace (a mod 4 * 16) with (a mod 4 * 16 + 0) by lia.
    rewrite first_byte by (unfold is_byte in *; lia). reflexivity.
  - apply Forall_cons in Hdata as [Ha Hdata]. apply Forall_cons in Hdata as [Hb _].
    destruct (sextets a b 0 Ha Hb ltac:(unfold is_byte; lia)) as [H0 [H1 [_ [_ [_ H2]]]]].
    cbn [b64encode app]. read_char H0. read_char H1. read_char H2.
    rewrite (a2b_pad1 _ _).
    rewrite first_byte by (unfold is_byte in *; lia).
    replace (b mod 16 * 4) with (b mod 16 * 4 + 0) by lia.
    rewrite second_byte by (unfold is_byte in *; lia).
    rewrite <- app_assoc. reflexivity.
  - apply Forall_cons in Hdata as [Ha Hdata]. apply Forall_cons in Hdata as [Hb Hdata].
    apply Forall_cons in Hdata as [Hc Hrest].
    destruct (sextets a b c Ha Hb Hc) as [H0 [H1 [H2 [H3 _]]]].
    cbn [b64encode app]. read_char H0. read_char H1. read_char H2. read_char H3.
    rewrite first_byte, second_byte, third_byte by (unfold is_byte in *; lia).
    rewrite (IH Hrest). rewrite <- !app_assoc. reflexivity.
Qed.

(** *** Padding *)

Lemma pad_to_quad_quad (x1 x2 x3 x4 : Z) (s : str) :
  pad_to_quad (x1 :: x2 :: x3 :: x4 :: s) = x1 :: x2 :: x3 :: x4 :: pad_to_quad s.
Proof.
  unfold pad_to_quad, len. cbn [length].
  replace (Z.of_nat (S (S (S (S (length s))))) mod 4) with (Z.of_nat (length s) mod 4) by lia.
  destruct (Z.of_nat (length s) mod 4 =? 0); reflexivity.
Qed.

(** With or without its padding, the encoding is padded to the padded
    encoding. *)
Lemma pad_encoded (ch : Z -> Z) (pad : bool) (data : bytes) :
  pad_to_quad (b64encode ch pad data) = b64encode ch true data.
Proof.
  induction data as [| a | a b | a b c rest IH] using list_ind3.
  - reflexivity.
  - destruct pad; reflexivity.
  - destruct pad; reflexivity.
  - cbn [b64encode app]. rewrite pad_to_quad_quad, IH. reflexivity.
Qed.

(** *** The characters of an encoding *)

(** A character that is ASCII and neither whitespace nor a colon. *)
Definition plain (c : Z) : bool := (c <? 128) && negb (isspace c) && negb (c =? 58).

Definition alphabet (ch : Z -> Z) : Prop :=
  forall v, 0 <= v < 64 -> plain (ch v) = true.

Lemma std_alphabet : alphabet std_char.
Proof.
  intros v. apply (below_cases 64 (fun v => plain (std_char v))). vm_compute. reflexivity.
Qed.

Lemma urlsafe_alphabet : alphabet urlsafe_char.
Proof.
  intros v. apply (below_cases 64 (fun v => plain (urlsafe_char v))). vm_compute. reflexivity.
Qed.

Lemma encoded_plain (ch : Z -> Z) (pad : bool) (data : bytes) :
  alphabet ch -> Forall is_byte data -> forallb plain (b64encode ch pad data) = true.
Proof.
  intros Hch. induction data as [| a | a b | a b c rest IH] using list_ind3; intros Hdata.
  - reflexivity.
  - apply Forall_cons in Hdata as [Ha _].
    destruct (sextets a 0 0 Ha ltac:(unfold is_byte; lia) ltac:(unfold is_byte; lia))
      as [H0 [_ [_ [_ [H1 _]]]]].
    cbn [b64encode app forallb]. rewrite (Hch _ H0), (Hch _ H1). destruct pad; reflexivity.
  - apply Forall_cons in Hdata as [Ha Hdata]. apply Forall_cons in Hdata as [Hb _].
    destruct (sextets a b 0 Ha Hb ltac:(unfold is_byte; lia)) as [H0 [H1 [_ [_ [_ H2]]]]].
    cbn [b64encode app forallb]. rewrite (Hch _ H0), (Hch _ H1), (Hch _ H2).
    destruct pad; reflexivity.
  - apply Forall_cons in Hdata as [Ha Hdata]. apply Forall_cons in Hdata as [Hb Hdata].
    apply Forall_cons in Hdata as [Hc Hrest].
    destruct (sextets a b c Ha Hb Hc) as [H0 [H1 [H2 [H3 _]]]].
    cbn [b64encode app forallb].
    rewrite (Hch _ H0), (Hch _ H1), (Hch _ H2), (Hch _ H3), (IH Hrest). reflexivity.
Qed.

(** Mapping the characters of one alphabet to those of another. *)
Lemma map_encoded (f ch ch' : Z -> Z) (pad : bool) (data : bytes) :
  (forall v, 0 <= v < 64 -> f (ch v) = ch' v) ->
  f BASE64_PAD = BASE64_PAD ->
  Forall is_byte data ->
  map f (b64encode ch pad data) = b64encode ch' pad data.
Proof.
  intros Hf Hpad. induction data as [| a | a b | a b c rest IH] using list_ind3; intros Hdata.
  - reflexivity.
  - apply Forall_cons in Hdata as [Ha _].
    destruct (sextets a 0 0 Ha ltac:(unfold is_byte; lia) ltac:(unfold is_byte; lia))
      as [H0 [_ [_ [_ [H1 _]]]]].
    cbn [b64encode app map]. rewrite (Hf _ H0), (Hf _ H1).
    destruct pad; cbn [map]; [change 61 with BASE64_PAD; rewrite Hpad |]; reflexivity.
  - apply Forall_cons in Hdata as [Ha Hdata]. apply Forall_cons in Hdata as [Hb _].
    destruct (sextets a b 0 Ha Hb ltac:(unfold is_byte; lia)) as [H0 [H1 [_ [_ [_ H2]]]]].
    cbn [b64encode app map]. rewrite (Hf _ H0), (Hf _ H1), (Hf _ H2).
    destruct pad; cbn [map]; [change 61 with BASE64_PAD; rewrite Hpad |]; reflexivity.
  - apply Forall_cons in Hdata as [Ha Hdata]. apply Forall_cons in Hdata as [Hb Hdata].
    apply Forall_cons in Hdata as [Hc Hrest].
    destruct (sextets a b c Ha Hb Hc) as [H0 [H1 [H2 [H3 _]]]].
    cbn [b64encode app map].
    rewrite (Hf _ H0), (Hf _ H1), (Hf _ H2), (Hf _ H3), (IH Hrest). reflexivity.
Qed.

Lemma translate_urlsafe (v : Z) : 0 <= v < 64 -> urlsafe_translate (urlsafe_char v) = std_char v.
Proof.
  intros Hv. apply Z.eqb_eq.
  apply (below_cases 64 (fun v => urlsafe_translate (urlsafe_char v) =? std_char v));
    [vm_compute; reflexivity | exact Hv].
Qed.

Lemma translate_std (v : Z) : 0 <= v < 64 -> urlsafe_translate (std_char v) = std_char v.
Proof.
  intros Hv. apply Z.eqb_eq.
  apply (below_cases 64 (fun v => urlsafe_translate (std_char v) =? std_char v));
    [vm_compute; reflexivity | exact Hv].
Qed.

Lemma plain_ascii (s : str) : forallb plain s = true -> _bytes_from_decode_data s = Some s.
Proof.
  intros H. unfold _bytes_from_decode_data.
  replace (forallb (fun c => c <? 128) s) with true; [reflexivity |].
  symmetry. apply forallb_forall. intros c Hc.
  rewrite forallb_forall in H. specialize (H c Hc). unfold plain in H.
  apply andb_true_iff in H as [H _]. apply andb_true_iff in H as [H _]. exact H.
Qed.

(** *** The two decoders on the two encodings *)

Lemma standard_decodes_standard (pad : bool) (data : bytes) :
  Forall is_byte data ->
  standard_b64decode (pad_to_quad (b64encode std_char pad data)) = Some data.
Proof.
  intros Hdata. rewrite pad_encoded. unfold standard_b64decode.
  rewrite plain_ascii by (apply encoded_plain; [apply std_alphabet | exact Hdata]).
  unfold a2b_base64. rewrite (a2b_encoded data Hdata). reflexivity.
Qed.

Lemma urlsafe_decodes_urlsafe (pad : bool) (data : bytes) :
  Forall is_byte data ->
  urlsafe_b64decode (pad_to_quad (b64encode urlsafe_char pad data)) = Some data.
Proof.
  intros Hdata. rewrite pad_encoded. unfold urlsafe_b64decode.
  rewrite plain_ascii by (apply encoded_plain; [apply urlsafe_alphabet | exact Hdata]).
  rewrite (map_encoded urlsafe_translate urlsafe_char std_char true data
             translate_urlsafe eq_refl Hdata).
  unfold a2b_base64. rewrite (a2b_encoded data Hdata). reflexivity.
Qed.

Lemma urlsafe_decodes_standard (pad : bool) (data : bytes) :
  Forall is_byte data ->
  urlsafe_b64decode (pad_to_quad (b64encode std_char pad data)) = Some data.
Proof.
  intros Hdata. rewrite pad_encoded. unfold urlsafe_b64decode.
  rewrite plain_ascii by (apply encoded_plain; [apply std_alphabet | exact Hdata]).
  rewrite (map_encoded urlsafe_translate std_char std_char true data
             translate_std eq_refl Hdata).
  unfold a2b_base64. rewrite (a2b_encoded data Hdata). reflexivity.
Qed.

End Base64Facts.

(** ** UTF-8: decoding an encoded text *)

Module Utf8Facts.
Import Py SubscriptionSpec Utf8 BitFacts Base64Facts.

#[local] Ltac Zify.zify_post_hook ::= Z.to_euclidean_division_equations.

#[local] Ltac to_arith H :=
  rewrite ?andb_true_iff, ?andb_false_iff, ?orb_true_iff, ?Z.leb_le, ?Z.leb_gt,
    ?Z.ltb_lt, ?Z.ltb_ge, ?Z.eqb_eq, ?Z.eqb_neq in H.

(** Settle the test of a conditional by arithmetic. *)
#[local] Ltac settle_test :=
  match goal with
  | |- context [if ?b then _ else _] =>
      let E := fresh "E" in
      destruct b eqn:E; to_arith E; try (exfalso; lia)
  end.

Lemma valid_char_range (c : Z) :
  valid_char c = true -> 0 <= c < 55296 \/ 57344 <= c < 1114112.
Proof. unfold valid_char. intros H. to_arith H. lia. Qed.

Lemma join2 (a b : Z) : 0 <= b < 64 -> Z.lor (Z.shiftl a 6) b = a * 64 + b.
Proof. intros Hb. rewrite lor_shiftl_low by (change (2 ^ 6) with 64; lia). reflexivity. Qed.

Lemma join3 (a b c : Z) :
  0 <= b < 64 -> 0 <= c < 64 ->
  Z.lor (Z.shiftl a 12) (Z.lor (Z.shiftl b 6) c) = a * 4096 + b * 64 + c.
Proof.
  intros Hb Hc. rewrite (join2 b c Hc).
  rewrite lor_shiftl_low by (change (2 ^ 12) with 4096; lia).
  change (2 ^ 12) with 4096. lia.
Qed.

Lemma join4 (a b c d : Z) :
  0 <= b < 64 -> 0 <= c < 64 -> 0 <= d < 64 ->
  Z.lor (Z.shiftl a 18) (Z.lor (Z.shiftl b 12) (Z.lor (Z.shiftl c 6) d))
  = a * 262144 + b * 4096 + c * 64 + d.
Proof.
  intros Hb Hc Hd. rewrite (join3 b c d Hc Hd).
  rewrite lor_shiftl_low by (change (2 ^ 18) with 262144; lia).
  change (2 ^ 18) with 262144. lia.
Qed.

Lemma payload_continuation (v : Z) : 0 <= v < 64 -> payload (128 + v) = v.
Proof.
  intros Hv. unfold payload. change 63 with (2 ^ 6 - 1).
  rewrite land_mask by lia. change (2 ^ 6) with 64. lia.
Qed.

Lemma lead2 (v : Z) : 0 <= v < 32 -> Z.land (192 + v) 31 = v.
Proof.
  intros Hv. change 31 with (2 ^ 5 - 1).
  rewrite land_mask by lia. change (2 ^ 5) with 32. lia.
Qed.

Lemma lead3 (v : Z) : 0 <= v < 16 -> Z.land (224 + v) 15 = v.
Proof.
  intros Hv. change 15 with (2 ^ 4 - 1).
  rewrite land_mask by lia. change (2 ^ 4) with 16. lia.
Qed.

Lemma lead4 (v : Z) : 0 <= v < 8 -> Z.land (240 + v) 7 = v.
Proof.
  intros Hv. change 7 with (2 ^ 3 - 1).
  rewrite land_mask by lia. change (2 ^ 3) with 8. lia.
Qed.

Lemma continuation (v : Z) : 0 <= v < 64 -> is_continuation (128 + v) = true.
Proof. intros Hv. unfold is_continuation. apply andb_true_iff. lia. Qed.

(** The second byte of the encoding of [c] is in the range its lead byte
    asks for. *)
Lemma second_ok_three (c : Z) :
  valid_char c = true -> 2048 <= c < 65536 ->
  second_ok (224 + c / 4096) (128 + c / 64 mod 64) = true.
Proof.
  intros Hv Hc. apply valid_char_range in Hv. unfold second_ok, is_continuation.
  repeat settle_test; apply andb_true_iff; lia.
Qed.

Lemma second_ok_four (c : Z) :
  65536 <= c < 1114112 ->
  second_ok (240 + c / 262144) (128 + c / 4096 mod 64) = true.
Proof.
  intros Hc. unfold second_ok, is_continuation.
  repeat settle_test; apply andb_true_iff; lia.
Qed.

(** One step of the decoder on the encoding of one character. *)
Lemma decode_encoded_char (c : Z) (rest : bytes) :
  valid_char c = true ->
  decode_one (utf8_encode_char c ++ rest) = (c, length (utf8_encode_char c)).
Proof.
  intros Hv. pose proof (valid_char_range c Hv) as Hr. unfold utf8_encode_char.
  destruct (Z.ltb_spec c 128) as [H1 | H1];
    [| destruct (Z.ltb_spec c 2048) as [H2 | H2];
       [| destruct (Z.ltb_spec c 65536) as [H3 | H3]]].
  - cbn [app decode_one length]. settle_test. reflexivity.
  - cbn [app decode_one length].
    rewrite (continuation (c mod 64)) by lia.
    rewrite (payload_continuation (c mod 64)) by lia.
    rewrite (lead2 (c / 64)) by lia.
    rewrite (join2 (c / 64) (c mod 64)) by lia.
    do 2 settle_test. f_equal. lia.
  - cbn [app decode_one length].
    rewrite (second_ok_three c Hv) by lia.
    rewrite (continuation (c mod 64)) by lia.
    rewrite (payload_continuation (c mod 64)), (payload_continuation (c / 64 mod 64)) by lia.
    rewrite (lead3 (c / 4096)) by lia.
    rewrite (join3 (c / 4096) (c / 64 mod 64) (c mod 64)) by lia.
    do 3 settle_test. f_equal. lia.
  - cbn [app decode_one length].
    rewrite (second_ok_four c) by lia.
    rewrite (continuation (c mod 64)), (continuation (c / 64 mod 64)) by lia.
    rewrite (payload_continuation (c mod 64)), (payload_continuation (c / 64 mod 64)),
      (payload_continuation (c / 4096 mod 64)) by lia.
    rewrite (lead4 (c / 262144)) by lia.
    rewrite (join4 (c / 262144) (c / 4096 mod 64) (c / 64 mod 64) (c mod 64)) by lia.
    do 4 settle_test. f_equal. lia.
Qed.

Lemma encoded_char_bytes (c : Z) :
  valid_char c = true -> Forall is_byte (utf8_encode_char c).
Proof.
  intros Hv. apply valid_char_range in Hv. unfold utf8_encode_char, is_byte.
  repeat settle_test; repeat constructor; lia.
Qed.

Lemma encoded_char_nonempty (c : Z) : utf8_encode_char c <> [].
Proof. unfold utf8_encode_char. repeat settle_test; discriminate. Qed.

Lemma encoded_bytes (s : str) : valid_text s = true -> Forall is_byte (utf8_encode s).
Proof.
  induction s as [| c r IH]; intros H; [constructor |].
  simpl in H. apply andb_true_iff in H as [Hc Hr].
  change (utf8_encode (c :: r)) with (utf8_encode_char c ++ utf8_encode r).
  apply Forall_app. split; [apply encoded_char_bytes; exact Hc | apply IH; exact Hr].
Qed.

Lemma decode_from_encoded (s : str) :
  valid_text s = true ->
  forall fuel, (length (utf8_encode s) <= fuel)%nat -> decode_from fuel (utf8_encode s) = s.
Proof.
  induction s as [| c r IH]; intros H fuel Hfuel.
  - destruct fuel; reflexivity.
  - simpl in H. apply andb_true_iff in H as [Hc Hr].
    change (utf8_encode (c :: r)) with (utf8_encode_char c ++ utf8_encode r) in *.
    rewrite length_app in Hfuel.
    pose proof (encoded_char_nonempty c) as Hne.
    pose proof (decode_encoded_char c (utf8_encode r) Hc) as Hone.
    pose proof (drop_app_length (utf8_encode_char c) (utf8_encode r)) as Hdrop.
    destruct (utf8_encode_char c) as [| b bs] eqn:E; [contradiction |].
    destruct fuel as [| fuel']; [simpl in Hfuel; lia |].
    cbn [decode_from app]. cbn [app] in Hone, Hdrop. rewrite Hone, Hdrop.
    f_equal. apply (IH Hr). simpl in Hfuel. lia.
Qed.

(** Decoding the encoding of a text gives the text. *)
Lemma decode_encoded (s : str) :
  valid_text s = true -> decode_replace (utf8_encode s) = s.
Proof. intros H. apply decode_from_encoded; [exact H | reflexivity]. Qed.

Lemma encoded_nonempty (s : str) : s <> [] -> utf8_encode s <> [].
Proof.
  destruct s as [| c r]; [contradiction |]. intros _.
  change (utf8_encode (c :: r)) with (utf8_encode_char c ++ utf8_encode r).
  pose proof (encoded_char_nonempty c). destruct (utf8_encode_char c); [contradiction | discriminate].
Qed.

End Utf8Facts.

(** ** Unwrapping a Base64 feed *)

Module SubscriptionFacts.
Import Py Utils Parsing Subscription SubscriptionSpec Base64 Utf8 PyFacts Base64Facts Utf8Facts.

(** *** Texts without whitespace and without a colon *)

Lemma plain_spaceless (s : str) : forallb plain s = true -> spaceless s = true.
Proof.
  unfold spaceless. rewrite !forallb_forall. intros H c Hc. specialize (H c Hc).
  unfold plain in H. apply andb_true_iff in H as [H _]. apply andb_true_iff in H as [_ H].
  exact H.
Qed.

Lemma plain_colon (s : str) : forallb plain s = true -> ~ In 58 s.
Proof.
  rewrite forallb_forall. intros H Hin. specialize (H 58 Hin). discriminate.
Qed.

Lemma split_ws_from_spaceless (s : str) :
  spaceless s = true -> forall cur, concat (split_ws_from cur s) = rev cur ++ s.
Proof.
  induction s as [| c r IH]; intros H cur.
  - destruct cur; simpl; rewrite ?app_nil_r; reflexivity.
  - simpl in H. apply andb_true_iff in H as [Hc Hr]. apply negb_true_iff in Hc.
    cbn [split_ws_from]. rewrite Hc, (IH Hr). simpl. rewrite <- app_assoc. reflexivity.
Qed.

Lemma split_ws_spaceless (s : str) : spaceless s = true -> concat (split_ws s) = s.
Proof. intros H. apply (split_ws_from_spaceless s H []). Qed.

(** One step of [splitlines]. *)
Lemma splitlines_from_cons (cur : str) (c : Z) (r : str) :
  splitlines_from cur (c :: r)
  = if (c =? 13) && match r with d :: _ => d =? 10 | [] => false end
    then rev cur :: splitlines_from [] (tl r)
    else if is_linebreak c then rev cur :: splitlines_from [] r
    else splitlines_from (c :: cur) r.
Proof.
  cbn [splitlines_from].
  repeat match goal with
         | |- context [match ?x with _ => _ end] => is_var x; destruct x
         end;
    reflexivity.
Qed.

Lemma linebreak_isspace (c : Z) : is_linebreak c = true -> isspace c = true.
Proof.
  unfold is_linebreak, isspace. intros H.
  rewrite ?orb_true_iff, ?andb_true_iff, ?Z.leb_le, ?Z.eqb_eq in *. lia.
Qed.

(** A text without whitespace is its own single line. *)
Lemma splitlines_from_spaceless (s : str) :
  spaceless s = true ->
  forall cur, splitlines_from cur s = if nonempty (rev cur ++ s) then [rev cur ++ s] else [].
Proof.
  induction s as [| c r IH]; intros H cur.
  - rewrite app_nil_r. destruct cur as [| x cur]; [reflexivity |].
    cbn [splitlines_from]. destruct (rev (x :: cur)) eqn:E; [| reflexivity].
    apply (f_equal (@length Z)) in E. rewrite length_rev in E. discriminate.
  - simpl in H. apply andb_true_iff in H as [Hc Hr]. apply negb_true_iff in Hc.
    rewrite splitlines_from_cons.
    assert (Hb : is_linebreak c = false).
    { destruct (is_linebreak c) eqn:E; [| reflexivity].
      apply linebreak_isspace in E. congruence. }
    assert (H13 : c =? 13 = false).
    { destruct (Z.eqb_spec c 13) as [-> |]; [discriminate | reflexivity]. }
    rewrite H13, Hb. cbn [andb]. rewrite (IH Hr). simpl. rewrite <- app_assoc. reflexivity.
Qed.

Lemma startswith_incl (p s : str) (x : Z) : startswith p s = true -> In x p -> In x s.
Proof.
  revert s. induction p as [| a p IH]; intros s H Hin; [destruct Hin |].
  destruct s as [| b s]; [discriminate |].
  simpl in H. apply andb_true_iff in H as [Hab H]. apply Z.eqb_eq in Hab. subst b.
  destruct Hin as [-> | Hin]; [left; reflexivity | right; apply IH; assumption].
Qed.

(** Every scheme holds a colon. *)
Lemma has_protocol_colon (s : str) : has_protocol s = true -> In 58 s.
Proof.
  unfold has_protocol. intros H. apply existsb_exists in H as [p [Hin Hp]].
  apply (startswith_incl p s 58 Hp).
  assert (Hall : forallb (fun p => existsb (Z.eqb 58) p) _SUBSCRIPTION_PROTOCOLS = true)
    by reflexivity.
  rewrite forallb_forall in Hall. specialize (Hall p Hin).
  apply existsb_exists in Hall as [x [Hx Heq]]. apply Z.eqb_eq in Heq. subst x. exact Hx.
Qed.

Lemma plain_no_protocol_lines (s : str) :
  forallb plain s = true -> _content_has_protocol_lines s = false.
Proof.
  intros H. pose proof (plain_spaceless s H) as Hs.
  unfold _content_has_protocol_lines, splitlines.
  rewrite (splitlines_from_spaceless s Hs []). simpl.
  destruct (nonempty s); [| reflexivity]. simpl.
  rewrite (strip_spaceless s Hs), orb_false_r.
  destruct (has_protocol s) eqn:E; [| reflexivity].
  apply has_protocol_colon in E. apply plain_colon in H. contradiction.
Qed.

(** *** The encoded text, as the function sees it *)

Lemma b64encode_nonempty (ch : Z -> Z) (pad : bool) (data : bytes) :
  data <> [] -> nonempty (b64encode ch pad data) = true.
Proof.
  destruct data as [| a [| b [| c rest]]]; [contradiction | | |]; intros _; reflexivity.
Qed.

Lemma has_lines_nonempty (s : str) : _content_has_protocol_lines s = true -> nonempty s = true.
Proof. destruct s; [discriminate | reflexivity]. Qed.

Lemma strip_nonempty (s : str) : nonempty (strip s) = true -> nonempty s = true.
Proof. destruct s; [discriminate | reflexivity]. Qed.

(** A text whose stripped form has scheme lines is returned stripped. *)
Lemma unwrap_plain (text : str) :
  _content_has_protocol_lines (strip text) = true ->
  decode_subscription_content text = strip text.
Proof.
  intros H. pose proof (has_lines_nonempty _ H) as Hn.
  pose proof (strip_nonempty _ Hn) as Hn'.
  unfold decode_subscription_content. rewrite Hn, Hn', H. reflexivity.
Qed.

(** A text for which no decoder yields scheme lines is returned stripped,
    or as it is when it is blank. *)
Lemma unwrap_undecodable (text : str) :
  let raw := concat (split_ws (strip text)) in
  try_decoder standard_b64decode raw = None ->
  try_decoder urlsafe_b64decode raw = None ->
  decode_subscription_content text = if nonempty (strip text) then strip text else text.
Proof.
  intros raw Hstd Hurl. unfold decode_subscription_content. fold raw.
  rewrite Hstd, Hurl. destruct text as [| c r]; [reflexivity |].
  change (nonempty (c :: r)) with true.
  destruct (nonempty (strip (c :: r))); [| reflexivity].
  destruct (_content_has_protocol_lines (strip (c :: r))); reflexivity.
Qed.

(** The function on the encoding of [data], with either alphabet: the
    decoders are run on the padded encoding itself. *)
Lemma unwrap_encoded (ch : Z -> Z) (pad : bool) (data : bytes) :
  alphabet ch -> Forall is_byte data -> data <> [] ->
  let text := b64encode ch pad data in
  decode_subscription_content text
  = match try_decoder standard_b64decode text with
    | Some decoded => decoded
    | None =>
        match try_decoder urlsafe_b64decode text with
        | Some decoded => decoded
        | None => text
        end
    end.
Proof.
  intros Hch Hdata Hne text.
  pose proof (encoded_plain ch pad data Hch Hdata) as Hplain. fold text in Hplain.
  pose proof (plain_spaceless text Hplain) as Hs.
  pose proof (b64encode_nonempty ch pad data Hne) as Hn. fold text in Hn.
  unfold decode_subscription_content.
  rewrite (strip_spaceless text Hs), Hn.
  rewrite (plain_no_protocol_lines text Hplain), (split_ws_spaceless text Hs). reflexivity.
Qed.

(** A decoder that gives the bytes of [body] back yields the stripped
    body. *)
Lemma try_decoder_body (encoding : str -> option bytes) (raw body : str) :
  valid_text body = true ->
  _content_has_protocol_lines (strip body) = true ->
  encoding (pad_to_quad raw) = Some (utf8_encode body) ->
  try_decoder encoding raw = Some (strip body).
Proof.
  intros Hv Hlines Hdec. unfold try_decoder.
  rewrite Hdec, (decode_encoded body Hv), Hlines, (has_lines_nonempty _ Hlines). reflexivity.
Qed.

Lemma body_nonempty (body : str) :
  _content_has_protocol_lines (strip body) = true -> body <> [].
Proof. intros H ->. discriminate. Qed.


End SubscriptionFacts.

(** ** Concrete feeds *)

Module FeedScenarios.
Import Py Utils Parsing Subscription SubscriptionSpec Base64 SubscriptionFacts.

Definition one_key : str := lit "vless://abc@h:443?a=b".

(** Two keys, one per line, each line ended by a newline. *)
Definition two_keys : str :=
  lit "vless://abc@h:443?a=b" ++ [newline] ++ lit "vless://u2@h:443?a=b" ++ [newline].

Definition two_keys_urlsafe : str :=
  lit "dmxlc3M6Ly9hYmNAaDo0NDM_YT1iCnZsZXNzOi8vdTJAaDo0NDM_YT1iCg==".



End FeedScenarios.

(** ** More on lib/parsing.py: normal forms, key lines, the notworkers file *)

Module ParsingFacts.
Import Py Utils Parsing Subscription PyFacts NotworkersSpec NotworkersFacts MainFacts
  SubscriptionFacts.

(** *** [normalize_proxy_link] *)

Lemma contains_char (c : Z) (s : str) : contains [c] s = true <-> In c s.
Proof.
  induction s as [| d r IH]; simpl.
  - split; [discriminate | tauto].
  - rewrite orb_true_iff, andb_true_r, Z.eqb_eq, IH.
    split; (intros [H | H]; [left; congruence | right; exact H]).
Qed.

Lemma before_char_excludes (sep : Z) (s : str) : ~ In sep (before_char sep s).
Proof.
  induction s as [| c r IH]; simpl; [tauto |].
  destruct (Z.eqb_spec c sep) as [-> | Hne]; simpl; [tauto |].
  intros [H | H]; [contradiction | exact (IH H)].
Qed.

Lemma first_token_stripped (s : str) :
  first_token (strip s) = match strip s with [] => None | t => Some (take_token t) end.
Proof. unfold first_token. rewrite lstrip_strip. reflexivity. Qed.

(** The function raises (the [IndexError] of [split(maxsplit=1)[0]])
    exactly on a blank link. *)
Theorem normalize_proxy_link_raises_on_blank (link : str) :
  normalize_proxy_link link = None <-> strip link = [].
Proof.
  unfold normalize_proxy_link. rewrite first_token_stripped.
  destruct (strip link); split; intros H; first [reflexivity | discriminate].
Qed.

(** A normal form holds no [#] and no whitespace, and is its own normal
    form unless it is empty. *)
Theorem normalize_proxy_link_is_normal (link n : str) :
  normalize_proxy_link link = Some n ->
  ~ In hash n
  /\ spaceless n = true
  /\ (nonempty n = true -> normalize_proxy_link n = Some n).
Proof.
  unfold normalize_proxy_link at 1.
  destruct (first_token (strip link)) as [token |] eqn:Ht; [| discriminate].
  destruct (first_token_some _ _ Ht) as [_ Hs]. intros H. injection H as <-.
  assert (Hn : ~ In hash (if contains [hash] token
                          then strip (before_char hash token) else token)
               /\ spaceless (if contains [hash] token
                             then strip (before_char hash token) else token) = true).
  { destruct (contains [hash] token) eqn:Hc.
    - rewrite (strip_spaceless _ (before_char_spaceless hash token Hs)).
      split; [apply before_char_excludes | apply before_char_spaceless; exact Hs].
    - split; [| exact Hs]. intros Hin. apply contains_char in Hin. congruence. }
  destruct Hn as [Hhash Hspace].
  set (n := if contains [hash] token then strip (before_char hash token) else token) in *.
  split; [exact Hhash |]. split; [exact Hspace |].
  intros Hne. unfold normalize_proxy_link.
  rewrite (strip_spaceless n Hspace), (first_token_of_token n Hne Hspace).
  destruct (contains [hash] n) eqn:Hc; [| reflexivity].
  apply contains_char in Hc. contradiction.
Qed.

(** *** The lines that hold a key *)

(** What a line yields: the first token and the stripped line, when the
    stripped line starts with a supported scheme. *)
Definition line_pair (line : str) : option (str * str) :=
  if has_protocol (strip line)
  then match first_token (strip line) with
       | Some token => Some (token, strip line)
       | None => None
       end
  else None.

Lemma has_protocol_nonempty (s : str) : has_protocol s = true -> nonempty s = true.
Proof. destruct s; [discriminate | reflexivity]. Qed.

Lemma key_line_token (line : str) :
  has_protocol (strip line) = true ->
  exists token, first_token (strip line) = Some token
                /\ strip token = token /\ nonempty token = true.
Proof.
  intros Hp. destruct (first_token_nonempty line (has_protocol_nonempty _ Hp)) as [t Ht].
  exists t. destruct (first_token_some _ _ Ht) as [Hn Hs].
  split; [exact Ht |]. split; [apply strip_spaceless; exact Hs | exact Hn].
Qed.

Lemma proxy_line_entry_pair (line : str) : proxy_line_entry line = Some (line_pair line).
Proof.
  unfold proxy_line_entry, line_pair.
  destruct (has_protocol (strip line)) eqn:Hp.
  - rewrite (has_protocol_nonempty _ Hp). simpl.
    destruct (key_line_token line Hp) as [t [Ht [Hst Hn]]].
    rewrite Ht, Hst, Hn. reflexivity.
  - destruct (negb (nonempty (strip line))); reflexivity.
Qed.

Lemma has_protocol_not_comment (s : str) :
  has_protocol s = true -> startswith (lit "#") s = false.
Proof.
  destruct s as [| c r]; [discriminate |]. intros H.
  pose proof (has_protocol_head c r H) as Hne.
  change (startswith (lit "#") (c :: r)) with ((35 =? c) && true).
  rewrite andb_true_r. apply Z.eqb_neq. unfold hash in Hne. congruence.
Qed.

Lemma key_file_entry_pair (line : str) : key_file_entry line = Some (line_pair line).
Proof.
  unfold key_file_entry, line_pair.
  destruct (has_protocol (strip line)) eqn:Hp.
  - rewrite (has_protocol_nonempty _ Hp), (has_protocol_not_comment _ Hp). simpl.
    destruct (key_line_token line Hp) as [t [Ht [Hst Hn]]].
    rewrite Ht, Hst, Hn. reflexivity.
  - destruct (negb (nonempty (strip line)) || startswith (lit "#") (strip line));
      reflexivity.
Qed.

Lemma collect_entries_pairs (entry : str -> option (option (str * str))) (lines : list str) :
  (forall line, entry line = Some (line_pair line)) ->
  collect_entries entry lines = Some (omap line_pair lines).
Proof.
  intros Hentry. induction lines as [| line rest IH]; [reflexivity |].
  cbn [collect_entries]. rewrite Hentry, IH. cbn [omap list_omap].
  destruct (line_pair line); reflexivity.
Qed.

Lemma line_pairs_lines (lines : list str) :
  (omap line_pair lines).*2 = List.filter has_protocol (map strip lines).
Proof.
  induction lines as [| line rest IH]; [reflexivity |].
  cbn [omap list_omap map List.filter]. unfold line_pair at 1.
  destruct (has_protocol (strip line)) eqn:Hp.
  - destruct (key_line_token line Hp) as [t [Ht _]]. rewrite Ht. cbn. rewrite <- IH.
    reflexivity.
  - exact IH.
Qed.

Lemma line_pairs_paired (lines : list str) : Forall paired (omap line_pair lines).
Proof.
  apply List.Forall_forall. intros x Hx. rewrite <- list_elem_of_In in Hx.
  apply list_elem_of_omap in Hx as [line [_ Hline]].
  apply (proxy_line_entry_paired line). rewrite proxy_line_entry_pair, Hline. reflexivity.
Qed.

(** [parse_proxy_lines] never raises. The full lines it returns are the
    stripped lines of the text that start with a supported scheme, in
    order, and every link is the first token of its line. *)
Theorem parse_proxy_lines_never_raises (text : str) :
  exists keys,
    parse_proxy_lines text = Some keys
    /\ keys.*2 = List.filter has_protocol (map strip (splitlines text))
    /\ Forall (fun x => first_token x.2 = Some x.1 /\ is_key x.1 = true) keys.
Proof.
  exists (omap line_pair (splitlines text)).
  split; [apply collect_entries_pairs, proxy_line_entry_pair |].
  split; [apply line_pairs_lines |].
  eapply Forall_impl; [apply line_pairs_paired |].
  intros x [Hk [_ Ht]]. auto.
Qed.


(** *** The notworkers file *)


Lemma str_leb_total (a b : str) : str_leb a b = true \/ str_leb b a = true.
Proof.
  revert b. induction a as [| x a IH]; intros b; [left; reflexivity |].
  destruct b as [| y b]; [right; reflexivity |]. simpl.
  destruct (Z.ltb_spec x y) as [Hxy | Hxy]; [left; reflexivity |].
  destruct (Z.ltb_spec y x) as [Hyx | Hyx]; [right; reflexivity |].
  assert (x = y) by lia. subst y. rewrite Z.eqb_refl. simpl. apply IH.
Qed.

#[local] Instance str_le_total : Total str_le.
Proof. intros a b. apply str_leb_total. Qed.

#[local] Instance str_le_trans : Transitive str_le.
Proof.
  unfold str_le. intros a. induction a as [| x a IH]; intros b c Hab Hbc; [reflexivity |].
  destruct b as [| y b]; [discriminate |]. destruct c as [| z c]; [discriminate |].
  simpl in *. rewrite orb_true_iff, andb_true_iff, Z.ltb_lt, Z.eqb_eq in *.
  destruct Hab as [Hab | [-> Hab]]; destruct Hbc as [Hbc | [<- Hbc]];
    try (left; lia).
  right. split; [reflexivity |]. exact (IH b c Hab Hbc).
Qed.

Lemma sublist_strongly_sorted {A} (R : relation A) (l1 l2 : list A) :
  sublist l1 l2 -> StronglySorted R l2 -> StronglySorted R l1.
Proof.
  intros Hsub. induction Hsub as [| x l1 l2 Hs IH | x l1 l2 Hs IH]; intros Hsorted.
  - constructor.
  - apply StronglySorted_inv in Hsorted as [H2 Hall]. constructor; [apply IH; exact H2 |].
    rewrite List.Forall_forall in *. intros y Hy. apply Hall.
    rewrite <- list_elem_of_In in *. eapply elem_of_sublist; eassumption.
  - apply IH. apply StronglySorted_inv in Hsorted as [H2 _]. exact H2.
Qed.

Lemma omap_lines_sublist (M : gmap str str) (ks : list str) :
  exists kept,
    sublist kept ks
    /\ omap (notworkers_line M) ks = map (fun k => default ([] : str) (M !! k) ++ [newline]) kept
    /\ forall k, k ∈ kept <-> k ∈ ks /\ exists full, M !! k = Some full /\ nonempty full = true.
Proof.
  induction ks as [| k ks [kept [Hsub [Heq Hin]]]].
  - exists []. split; [constructor |]. split; [reflexivity |].
    intros k. rewrite elem_of_nil. tauto.
  - cbn [omap list_omap]. unfold notworkers_line at 1.
    destruct (M !! k) as [full |] eqn:Hk.
    + destruct (nonempty full) eqn:Hn.
      * exists (k :: kept). split; [constructor; exact Hsub |]. split.
        -- rewrite Heq. cbn [map]. rewrite Hk. reflexivity.
        -- intros k'. rewrite !elem_of_cons, Hin. split.
           ++ intros [-> | [H1 H2]]; [split; [left; reflexivity | eauto] | tauto].
           ++ intros [[-> | H1] H2]; [left; reflexivity | right; tauto].
      * exists kept. split; [constructor; exact Hsub |]. split; [exact Heq |].
        intros k'. rewrite elem_of_cons, Hin. split; [tauto |].
        intros [[-> | H1] [f [Hf Hnf]]]; [| eauto]. congruence.
    + exists kept. split; [constructor; exact Hsub |]. split; [exact Heq |].
      intros k'. rewrite elem_of_cons, Hin. split; [tauto |].
      intros [[-> | H1] [f [Hf Hnf]]]; [| eauto]. congruence.
Qed.

(** [save_notworkers] writes one line per normalized key that has a
    non-empty full line: the full line and a newline, the keys in
    ascending order, none twice. *)
Theorem save_notworkers_is_sorted (normalized_to_full : gmap str str) :
  exists norms,
    save_notworkers normalized_to_full
    = Some (map (fun n => default ([] : str) (normalized_to_full !! n) ++ [newline]) norms)
    /\ StronglySorted str_le norms
    /\ NoDup norms
    /\ forall n, n ∈ norms
                 <-> exists full, normalized_to_full !! n = Some full
                                  /\ nonempty full = true.
Proof.
  unfold save_notworkers.
  set (ks := sorted (map_to_list normalized_to_full).*1).
  assert (Hperm : ks ≡ₚ (map_to_list normalized_to_full).*1)
    by apply merge_sort_Permutation.
  assert (Hsorted : StronglySorted str_le ks)
    by (apply StronglySorted_merge_sort; exact _).
  assert (Hnodup : NoDup ks).
  { rewrite Hperm. apply NoDup_fst_map_to_list. }
  destruct (omap_lines_sublist normalized_to_full ks) as [kept [Hsub [Heq Hin]]].
  exists kept. split; [rewrite Heq; reflexivity |].
  split; [| split].
  - eapply sublist_strongly_sorted; eassumption.
  - eapply sublist_NoDup; eassumption.
  - intros n. rewrite Hin. split; [tauto |]. intros [full [Hf Hn]].
    split; [| eauto]. rewrite Hperm. apply list_elem_of_fmap.
    exists (n, full). split; [reflexivity |]. apply elem_of_map_to_list. exact Hf.
Qed.

End ParsingFacts.

(** ** Unwrapping twice *)

Module UnwrapFacts.
Import Py Utils Parsing Subscription Base64 Utf8 PyFacts SubscriptionFacts.

Lemma try_decoder_some (encoding : str -> option bytes) (raw decoded : str) :
  try_decoder encoding raw = Some decoded ->
  strip decoded = decoded /\ _content_has_protocol_lines decoded = true.
Proof.
  unfold try_decoder. destruct (encoding (pad_to_quad raw)) as [data |]; [| discriminate].
  destruct (nonempty _ && _content_has_protocol_lines _) eqn:E; [| discriminate].
  intros H. injection H as <-. apply andb_true_iff in E as [_ E].
  split; [apply strip_idem | exact E].
Qed.

Lemma unwrap_decoded (decoded : str) :
  strip decoded = decoded -> _content_has_protocol_lines decoded = true ->
  decode_subscription_content decoded = decoded.
Proof.
  intros Hs Hl. rewrite unwrap_plain by (rewrite Hs; exact Hl). exact Hs.
Qed.

(** [fetch_list] unwraps the body it downloads and the callers unwrap the
    text again: the second pass changes nothing. *)
Theorem decode_subscription_content_idempotent (text : str) :
  decode_subscription_content (decode_subscription_content text)
  = decode_subscription_content text.
Proof.
  remember (decode_subscription_content text) as d eqn:Hd.
  unfold decode_subscription_content in Hd.
  destruct (negb (nonempty text) || negb (nonempty (strip text))) eqn:Hblank.
  - subst d. unfold decode_subscription_content. rewrite Hblank. reflexivity.
  - destruct (_content_has_protocol_lines (strip text)) eqn:Hlines.
    + subst d. apply unwrap_decoded; [apply strip_idem | exact Hlines].
    + destruct (try_decoder standard_b64decode _) as [decoded |] eqn:Hstd.
      * subst d. destruct (try_decoder_some _ _ _ Hstd). apply unwrap_decoded; assumption.
      * destruct (try_decoder urlsafe_b64decode _) as [decoded |] eqn:Hurl.
        -- subst d. destruct (try_decoder_some _ _ _ Hurl).
           apply unwrap_decoded; assumption.
        -- subst d. rewrite <- (strip_idem text) in Hstd, Hurl.
           rewrite (unwrap_undecodable (strip text) Hstd Hurl), strip_idem.
           destruct (nonempty (strip text)); reflexivity.
Qed.

End UnwrapFacts.

(** ** The port pool as a stack *)

Module PoolFacts.
Import PortPool.

(** [n] calls of [take_port], the first result first. *)
Fixpoint take_ports (n : nat) (pool : list Z) : list (option Z) * list Z :=
  match n with
  | O => ([], pool)
  | S n' =>
      let '(p, rest) := take_port pool in
      let '(ps, rest') := take_ports n' rest in
      (p :: ps, rest')
  end.

Lemma take_ports_all (pool : list Z) :
  take_ports (length pool) pool = (map Some (rev pool), []).
Proof.
  induction pool as [| p pool IH] using rev_ind; [reflexivity |].
  rewrite length_app, Nat.add_comm. cbn [length Nat.add take_ports].
  rewrite PortPoolFacts.take_port_snoc, IH, rev_app_distr. reflexivity.
Qed.

(** The pool is a stack.  A port that is returned is the next one taken,
    and the pool is then what it was before the return; returning the
    port just taken restores the pool; and [take_port] answers [None] on
    the empty pool only, which it leaves empty. *)
Theorem returned_port_is_taken_next (port : Z) (pool : list Z) :
  take_port (return_port port pool) = (Some port, pool)
  /\ (forall p rest, take_port pool = (Some p, rest) -> return_port p rest = pool)
  /\ (forall rest, take_port pool = (None, rest) <-> pool = [] /\ rest = []).
Proof.
  split; [unfold return_port; apply PortPoolFacts.take_port_snoc |]. split.
  - intros p rest H. unfold take_port in H.
    destruct (rev pool) as [| q r] eqn:E; [discriminate |].
    injection H as -> <-. unfold return_port.
    rewrite <- (rev_involutive pool), E. reflexivity.
  - intros rest. split; [apply PortPoolFacts.take_port_none |].
    intros [-> ->]. reflexivity.
Qed.

(** The pool of the process serves [MAX_WORKERS] leases, the ports
    [BASE_PORT + MAX_WORKERS - 1] down to [BASE_PORT], and answers [None]
    to every further call until a port is returned. *)
Theorem pool_serves_max_workers (base_port max_workers : Z) :
  take_ports (Z.to_nat max_workers) (initial_pool base_port max_workers)
  = (map (fun i => Some (base_port + max_workers - 1 - Z.of_nat i))
         (seq 0 (Z.to_nat max_workers)), [])
  /\ take_port [] = (None, []).
Proof.
  split; [| reflexivity].
  rewrite <- (PortPoolFacts.initial_pool_length base_port max_workers) at 1.
  rewrite take_ports_all. unfold initial_pool. rewrite <- map_rev, map_map.
  set (n := Z.to_nat max_workers).
  assert (Hrev : rev (seq 0 n) = map (fun i => (n - 1 - i)%nat) (seq 0 n)).
  { clearbody n. induction n as [| n IH]; [reflexivity |].
    rewrite seq_S at 1. rewrite rev_app_distr. cbn [rev app Nat.add seq map].
    rewrite IH. f_equal; [lia |].
    rewrite <- seq_shift, map_map. apply map_ext_in. intros i Hi.
    apply in_seq in Hi. lia. }
  rewrite Hrev, map_map. f_equal. apply map_ext_in. intros i Hi. apply in_seq in Hi.
  f_equal. subst n. lia.
Qed.

End PoolFacts.

(** ** lib/cache.py: an entry within and beyond its lifetime *)

Module CacheFacts.
Import Py Utils Effects Runtime Cfg Checker.

(** A verdict stored at one moment is the answer of [check_cache] at every
    later moment less than [CACHE_TTL] seconds away, and no answer from
    then on; a disabled cache never answers. *)
Theorem stored_verdict_expires (cfg : Config) (key_hash : str) (r : bool) (w later : World) :
  cache later = cache (cache_store key_hash r w).2 ->
  (check_cache cfg key_hash later).2 = later
  /\ (check_cache cfg key_hash later).1
     = Ret (if ENABLE_CACHE cfg && Qltb (now later - now w) (inject_Z (CACHE_TTL cfg))
            then Some r else None).
Proof.
  intros Hcache. unfold check_cache, bind, get. simpl.
  destruct (ENABLE_CACHE cfg); simpl; [| split; reflexivity].
  rewrite Hcache. unfold cache_store, bind, time_time, gets, modify. simpl.
  rewrite lookup_insert_eq. simpl.
  destruct (Qltb (now later - now w) (inject_Z (CACHE_TTL cfg))); split; reflexivity.
Qed.

End CacheFacts.

(** ** The traversal of cascading sources *)

Module CascadeFacts.
Import Py Utils Effects Parsing Subscription Cascade PyFacts NotworkersSpec NotworkersFacts
  MainFacts ParsingFacts.

Section WithSources.
Context (env : Sources).

#[local] Abbreviation collect_sources := (collect_sources env).
#[local] Abbreviation gather_loop := (gather_loop env).
#[local] Abbreviation _gather_keys := (_gather_keys env).

(** *** One source *)

(** What reading a source gives, whatever the depth and the sources
    visited before. *)
Definition reading (source base_dir : str) : exn + (list str * list (str * str)) :=
  match read_source env source base_dir with
  | inl e => inl e
  | inr (text, current_base_dir) =>
      match parse_proxy_lines text with
      | Some keys => inr (child_sources_of env source current_base_dir text, keys)
      | None => inl OtherException
      end
  end.

Lemma collect_sources_cases (source base_dir : str) (depth : Z) (visited : gset str) :
  collect_sources source base_dir depth visited
  = if bool_decide (_normalize_source_identifier env source base_dir ∈ visited)
       || _depth_exceeded depth
    then (inr ([], []), visited)
    else (reading source base_dir,
          {[_normalize_source_identifier env source base_dir]} ∪ visited).
Proof.
  unfold Cascade.collect_sources, reading.
  destruct (bool_decide _); [reflexivity |].
  destruct (_depth_exceeded depth); [reflexivity |]. simpl.
  destruct (read_source env source base_dir) as [e | [text dir]]; [reflexivity |].
  destruct (parse_proxy_lines text); reflexivity.
Qed.

Lemma reading_paired (source base_dir : str) (children : list str) (keys : list (str * str)) :
  reading source base_dir = inr (children, keys) -> Forall paired keys.
Proof.
  unfold reading. destruct (read_source env source base_dir) as [e | [text dir]];
    [discriminate |].
  destruct (parse_proxy_lines text) as [ks |] eqn:Hp; [| discriminate].
  intros H. injection H as _ <-. exact (parse_proxy_lines_paired text ks Hp).
Qed.

(** *** The keys of one source *)

Definition norm_of (key : str * str) : str := default [] (normalize_proxy_link key.1).

Lemma add_key_paired (seen : gset str) (result : list (str * str)) (key : str * str) :
  paired key ->
  add_key (Some (seen, result)) key
  = Some (if bool_decide (norm_of key ∈ seen) then (seen, result)
          else ({[norm_of key]} ∪ seen, result ++ [key]))
  /\ normalize_proxy_link key.1 = Some (norm_of key)
  /\ nonempty (norm_of key) = true.
Proof.
  intros [Hkey _]. destruct key as [link full]. simpl in Hkey.
  unfold norm_of. simpl. rewrite (normalize_key link Hkey). simpl.
  rewrite (normal_form_nonempty link Hkey). simpl.
  destruct (bool_decide (normal_form link ∈ seen)); auto.
Qed.

Lemma add_keys_total (keys : list (str * str)) :
  Forall paired keys ->
  forall seen result,
  exists seen' result', foldl add_key (Some (seen, result)) keys = Some (seen', result').
Proof.
  induction 1 as [| key keys Hkey _ IH]; intros seen result; [simpl; eauto |].
  cbn [foldl]. destruct (add_key_paired seen result key Hkey) as [-> _].
  destruct (bool_decide _); apply IH.
Qed.

(** *** The children of one source *)

Lemma schedule_children (visited : gset str) (current_base : str) (depth : Z)
    (children : list str) :
  forall scheduled queue,
  exists scheduled' added,
    foldl (schedule_child env visited current_base depth) (scheduled, queue) children
    = (scheduled', queue ++ added)
    /\ sublist added
         (map (fun child => (child, next_base_of env current_base child, depth + 1)) children)
    /\ (_depth_exceeded (depth + 1) = true -> added = []).
Proof.
  induction children as [| child children IH]; intros scheduled queue.
  - exists scheduled, []. rewrite app_nil_r. repeat split; constructor.
  - cbn [foldl map]. unfold schedule_child at 2.
    destruct (bool_decide _);
      [destruct (IH scheduled queue) as [s' [added [H1 [H2 H3]]]];
       exists s', added; split; [exact H1 | split; [constructor; exact H2 | exact H3]] |].
    destruct (bool_decide _);
      [destruct (IH scheduled queue) as [s' [added [H1 [H2 H3]]]];
       exists s', added; split; [exact H1 | split; [constructor; exact H2 | exact H3]] |].
    destruct (_depth_exceeded (depth + 1)) eqn:Hd;
      [destruct (IH scheduled queue) as [s' [added [H1 [H2 H3]]]];
       exists s', added; split; [exact H1 | split; [constructor; exact H2 | exact H3]] |].
    match goal with
    | |- context [foldl _ (?s, ?q) children] =>
        destruct (IH s q) as [s' [added [H1 [H2 H3]]]]
    end.
    exists s', ((child, next_base_of env current_base child, depth + 1) :: added).
    split; [rewrite H1, <- app_assoc; reflexivity |].
    split; [constructor; exact H2 | discriminate].
Qed.

(** *** Termination *)

(** The sources that a source can put in the queue, with their
    directories. *)
Definition kids (item : str * str) : list (str * str) :=
  match reading item.1 item.2 with
  | inr (children, _) => map (fun child => (child, next_base_of env item.2 child)) children
  | inl _ => []
  end.

(** The number of turns that a source of the queue can cause, itself
    included, when [n] more levels may be read below it. *)
Fixpoint weight (n : nat) (item : str * str) : nat :=
  S (match n with
     | O => O
     | S n' => list_sum (map (weight n') (kids item))
     end).

Definition levels (depth : Z) : nat := Z.to_nat (_MAX_CASCADE_DEPTH - depth).

Definition queue_weight (queue : list (str * str * Z)) : nat :=
  list_sum (map (fun x => weight (levels x.2) x.1) queue).

Lemma list_sum_sublist {A} (f : A -> nat) (l1 l2 : list A) :
  sublist l1 l2 -> (list_sum (map f l1) <= list_sum (map f l2))%nat.
Proof.
  induction 1 as [| x l1 l2 _ IH | x l1 l2 _ IH]; simpl; lia.
Qed.

Lemma queue_weight_app (q1 q2 : list (str * str * Z)) :
  queue_weight (q1 ++ q2) = (queue_weight q1 + queue_weight q2)%nat.
Proof. unfold queue_weight. rewrite map_app. apply list_sum_app. Qed.

Lemma added_weight (source base : str) (depth : Z) (children : list str)
    (keys : list (str * str)) (added : list (str * str * Z)) :
  reading source base = inr (children, keys) ->
  _depth_exceeded depth = false ->
  sublist added (map (fun child => (child, next_base_of env base child, depth + 1)) children) ->
  (_depth_exceeded (depth + 1) = true -> added = []) ->
  (S (queue_weight added) <= weight (levels depth) (source, base))%nat.
Proof.
  intros Hr Hd Hsub Hnone. unfold _depth_exceeded, _MAX_CASCADE_DEPTH in *.
  destruct (Z.ltb_spec 3 (depth + 1)) as [Hdeep | Hshallow].
  - rewrite (Hnone eq_refl). unfold queue_weight. destruct (levels depth); simpl; lia.
  - assert (Hl : levels depth = S (levels (depth + 1))).
    { unfold levels, _MAX_CASCADE_DEPTH. lia. }
    rewrite Hl. cbn [weight]. apply le_n_S.
    unfold kids. cbn [fst snd]. rewrite Hr.
    etransitivity; [apply (list_sum_sublist _ _ _ Hsub) |].
    rewrite !map_map. cbn [fst snd]. reflexivity.
Qed.

Definition ends_well {A} (stop_on_error : bool) (o : outcome A) : Prop :=
  match o with
  | Ret _ => True
  | Raise _ => stop_on_error = true
  | Diverge => False
  end.

Lemma gather_loop_ends (stop_on_error : bool) (fuel : nat) :
  forall st,
    (queue_weight (queue st) <= fuel)%nat ->
    ends_well stop_on_error (gather_loop fuel stop_on_error st).
Proof.
  induction fuel as [| fuel IH]; intros st Hfuel.
  - destruct st as [q v s l r]. destruct q as [| [[source base] depth] rest];
      [exact I |]. cbn [queue] in Hfuel. unfold queue_weight in Hfuel.
    unfold list_sum in Hfuel. cbn [map fold_right fst snd] in Hfuel.
    destruct (levels depth); simpl in Hfuel; lia.
  - destruct st as [q v s l r]. destruct q as [| [[source base] depth] rest];
      [exact I |].
    cbn [Cascade.gather_loop queue visited scheduled seen_links result].
    rewrite collect_sources_cases. cbn [queue] in Hfuel.
    change (queue_weight ((source, base, depth) :: rest))
      with (weight (levels depth) (source, base) + queue_weight rest)%nat in Hfuel.
    assert (Hpos : (1 <= weight (levels depth) (source, base))%nat)
      by (destruct (levels depth); simpl; lia).
    destruct (bool_decide _ || _depth_exceeded depth) eqn:Hskip.
    + cbn [foldl]. apply IH. cbn [queue]. lia.
    + apply orb_false_iff in Hskip as [_ Hdepth].
      destruct (reading source base) as [e | [children keys]] eqn:Hr.
      * destruct stop_on_error; [reflexivity |]. apply IH. cbn [queue]. lia.
      * destruct (add_keys_total keys (reading_paired _ _ _ _ Hr) l r)
          as [l' [r' ->]].
        match goal with
        | |- context [foldl _ (?s0, rest) children] =>
            destruct (schedule_children
                        ({[_normalize_source_identifier env source base]} ∪ v)
                        base depth children s0 rest)
              as [s' [added [-> [Hsub Hnone]]]]
        end.
        apply IH. cbn [queue]. rewrite queue_weight_app.
        pose proof (added_weight source base depth children keys added Hr Hdepth
                      Hsub Hnone). lia.
Qed.



(** *** One entry per normal form *)

(** The keys of [result] have distinct normal forms, none of them empty. *)
Definition distinct (result : list (str * str)) : Prop :=
  NoDup (map norm_of result)
  /\ Forall (fun key => normalize_proxy_link key.1 = Some (norm_of key)
                        /\ nonempty (norm_of key) = true) result.

(** [seen_links] holds the normal forms of [result]. *)
Definition tidy (seen : gset str) (result : list (str * str)) : Prop :=
  distinct result /\ forall n, n ∈ seen <-> n ∈ map norm_of result.

Lemma add_key_tidy (seen seen' : gset str) (result result' : list (str * str))
    (key : str * str) :
  tidy seen result ->
  add_key (Some (seen, result)) key = Some (seen', result') ->
  tidy seen' result'.
Proof.
  intros [[Hnodup Hall] Hseen]. unfold add_key. destruct key as [link full].
  destruct (normalize_proxy_link link) as [norm |] eqn:Hnorm; [| discriminate].
  destruct (nonempty norm && negb (bool_decide (norm ∈ seen))) eqn:Hnew;
    intros H; injection H as <- <-; [| split; [split |]; assumption].
  apply andb_true_iff in Hnew as [Hne Hfresh]. apply negb_true_iff in Hfresh.
  apply bool_decide_eq_false in Hfresh.
  assert (Hn : norm_of (link, full) = norm) by (unfold norm_of; simpl; rewrite Hnorm; reflexivity).
  split; [split |].
  - rewrite map_app. cbn [map]. rewrite Hn. apply NoDup_app. split; [exact Hnodup |].
    split; [| apply NoDup_singleton].
    intros n Hin Hin'. apply list_elem_of_singleton in Hin'. subst n.
    apply Hfresh, Hseen, Hin.
  - apply Forall_app. split; [exact Hall |]. constructor; [| constructor].
    rewrite Hn. simpl. auto.
  - intros n. rewrite map_app, elem_of_app, elem_of_union, elem_of_singleton, Hseen.
    cbn [map]. rewrite Hn, list_elem_of_singleton. tauto.
Qed.

Lemma add_keys_none (keys : list (str * str)) : foldl add_key None keys = None.
Proof. induction keys as [| key keys IH]; [reflexivity | exact IH]. Qed.

Lemma add_keys_tidy (keys : list (str * str)) :
  forall seen result seen' result',
    tidy seen result ->
    foldl add_key (Some (seen, result)) keys = Some (seen', result') ->
    tidy seen' result'.
Proof.
  induction keys as [| key keys IH]; intros seen result seen' result' Htidy H.
  - injection H as <- <-. exact Htidy.
  - cbn [foldl] in H.
    destruct (add_key (Some (seen, result)) key) as [[seen1 result1] |] eqn:Hkey;
      [| rewrite add_keys_none in H; discriminate].
    exact (IH _ _ _ _ (add_key_tidy _ _ _ _ _ Htidy Hkey) H).
Qed.

Lemma gather_loop_tidy (stop_on_error : bool) (fuel : nat) :
  forall st keys,
    tidy (seen_links st) (result st) ->
    gather_loop fuel stop_on_error st = Ret keys ->
    distinct keys.
Proof.
  induction fuel as [| fuel IH]; intros st keys Htidy Hrun;
    destruct st as [q v s l r]; destruct q as [| [[source base] depth] rest];
    cbn [Cascade.gather_loop queue visited scheduled seen_links result] in *;
    try discriminate;
    try (injection Hrun as <-; exact (proj1 Htidy)).
  destruct (collect_sources source base depth v) as [[e | [children ks]] v'].
  - destruct stop_on_error; [discriminate |]. refine (IH _ _ _ Hrun). exact Htidy.
  - destruct (foldl add_key (Some (l, r)) ks) as [[l' r'] |] eqn:Hkeys; [| discriminate].
    destruct (foldl (schedule_child env v' base depth) _ children) as [s' q'].
    refine (IH _ _ _ Hrun). exact (add_keys_tidy _ _ _ _ _ Htidy Hkeys).
Qed.

(** What the traversal returns holds one entry per normal form: the
    normal forms of its keys are pairwise distinct, and none is empty. *)
Theorem gather_keys_distinct (fuel : nat) (initial_source base_dir : str)
    (stop_on_error : bool) (keys : list (str * str)) :
  _gather_keys fuel initial_source base_dir stop_on_error = Ret keys ->
  NoDup (map norm_of keys)
  /\ Forall (fun key => normalize_proxy_link key.1 = Some (norm_of key)
                        /\ nonempty (norm_of key) = true) keys.
Proof.
  intros Hrun. refine (gather_loop_tidy stop_on_error fuel _ keys _ Hrun).
  split; [split; constructor |]. intros n. cbn. rewrite elem_of_nil. set_solver.
Qed.

(** *** The first occurrence wins *)

(** The keys that the sources hand over, in the order in which the loop
    reads them: the loop of [_gather_keys] without [seen_links] and
    [result], for a traversal that skips the sources that fail. *)
Fixpoint scan_loop (fuel : nat) (queue : list (str * str * Z)) (visited scheduled : gset str)
  : list (str * str) :=
  match queue with
  | [] => []
  | (source, current_base, depth) :: rest =>
      match fuel with
      | O => []
      | S fuel' =>
          let scheduled :=
            scheduled ∖ {[_normalize_source_identifier env source current_base]} in
          match collect_sources source current_base depth visited with
          | (inl _, visited) => scan_loop fuel' rest visited scheduled
          | (inr (child_sources, keys), visited) =>
              let '(scheduled, queue) :=
                foldl (schedule_child env visited current_base depth) (scheduled, rest)
                  child_sources in
              keys ++ scan_loop fuel' queue visited scheduled
          end
      end
  end.

Definition keys_in_reading_order (fuel : nat) (initial_source base_dir : str)
  : list (str * str) :=
  scan_loop fuel [(initial_source, base_dir, 0)] ∅
    {[_normalize_source_identifier env initial_source base_dir]}.

(** The keys of [stream] whose normal form is new, given the normal forms
    seen before. *)
Fixpoint fresh (seen : gset str) (stream : list (str * str)) : list (str * str) :=
  match stream with
  | [] => []
  | key :: rest =>
      if bool_decide (norm_of key ∈ seen) then fresh seen rest
      else key :: fresh ({[norm_of key]} ∪ seen) rest
  end.

Definition norms_of (stream : list (str * str)) : gset str :=
  list_to_set (map norm_of stream).

Lemma add_keys_fresh (keys : list (str * str)) :
  Forall paired keys ->
  forall seen result,
    foldl add_key (Some (seen, result)) keys
    = Some (norms_of keys ∪ seen, result ++ fresh seen keys).
Proof.
  induction 1 as [| key keys Hkey _ IH]; intros seen result.
  - cbn. rewrite app_nil_r. f_equal. f_equal. unfold norms_of. cbn. set_solver.
  - cbn [foldl fresh]. destruct (add_key_paired seen result key Hkey) as [-> _].
    unfold norms_of. cbn [map list_to_set]. fold (norms_of keys).
    destruct (bool_decide (norm_of key ∈ seen)) eqn:Hseen.
    + rewrite IH. f_equal. f_equal. apply bool_decide_eq_true in Hseen. set_solver.
    + rewrite IH, <- app_assoc. f_equal. f_equal. set_solver.
Qed.

Lemma fresh_app (a b : list (str * str)) :
  forall seen, fresh seen (a ++ b) = fresh seen a ++ fresh (norms_of a ∪ seen) b.
Proof.
  induction a as [| key a IH]; intros seen.
  - cbn. f_equal. unfold norms_of. cbn. set_solver.
  - cbn [app fresh]. unfold norms_of. cbn [map list_to_set]. fold (norms_of a).
    destruct (bool_decide (norm_of key ∈ seen)) eqn:Hseen.
    + rewrite IH. f_equal. f_equal. apply bool_decide_eq_true in Hseen. set_solver.
    + rewrite IH. cbn [app]. f_equal. f_equal. f_equal. set_solver.
Qed.

Lemma gather_loop_fresh (fuel : nat) :
  forall st keys,
    gather_loop fuel false st = Ret keys ->
    keys = result st
           ++ fresh (seen_links st) (scan_loop fuel (queue st) (visited st) (scheduled st)).
Proof.
  induction fuel as [| fuel IH]; intros st keys Hrun;
    destruct st as [q v s l r]; destruct q as [| [[source base] depth] rest];
    cbn [Cascade.gather_loop scan_loop queue visited scheduled seen_links result] in *;
    try discriminate;
    try (injection Hrun as <-; cbn; rewrite app_nil_r; reflexivity).
  rewrite collect_sources_cases in *.
  destruct (bool_decide _ || _depth_exceeded depth).
  - cbn [foldl] in *. rewrite (IH _ _ Hrun). reflexivity.
  - destruct (reading source base) as [e | [children ks]] eqn:Hr.
    + rewrite (IH _ _ Hrun). reflexivity.
    + rewrite (add_keys_fresh ks (reading_paired _ _ _ _ Hr)) in Hrun.
      destruct (foldl (schedule_child env _ base depth) _ children) as [s' q'].
      rewrite (IH _ _ Hrun). cbn [queue visited scheduled seen_links result].
      rewrite fresh_app, app_assoc. reflexivity.
Qed.

(** [first] is the first key of [stream] with the normal form of [key]. *)
Definition first_with_norm (stream : list (str * str)) (key first : str * str) : Prop :=
  List.find (fun x => bool_decide (norm_of x = norm_of key)) stream = Some first.

Lemma fresh_sublist (stream : list (str * str)) :
  forall seen, sublist (fresh seen stream) stream.
Proof.
  induction stream as [| key stream IH]; intros seen; cbn [fresh]; [constructor |].
  destruct (bool_decide _); constructor; apply IH.
Qed.

Lemma fresh_unseen (stream : list (str * str)) :
  forall seen key, key ∈ fresh seen stream -> norm_of key ∉ seen.
Proof.
  induction stream as [| k stream IH]; intros seen key; cbn [fresh].
  - rewrite elem_of_nil. tauto.
  - destruct (bool_decide (norm_of k ∈ seen)) eqn:Hseen; [apply IH |].
    apply bool_decide_eq_false in Hseen.
    rewrite elem_of_cons. intros [-> | Hin]; [exact Hseen |].
    specialize (IH _ _ Hin). set_solver.
Qed.

Lemma fresh_nodup (stream : list (str * str)) :
  forall seen, NoDup (map norm_of (fresh seen stream)).
Proof.
  induction stream as [| k stream IH]; intros seen; cbn [fresh]; [constructor |].
  destruct (bool_decide (norm_of k ∈ seen)); [apply IH |].
  cbn [map]. constructor; [| apply IH].
  intros Hin. apply list_elem_of_fmap in Hin as [key [Heq Hin]].
  apply fresh_unseen in Hin. rewrite <- Heq in Hin. set_solver.
Qed.

Lemma fresh_first (stream : list (str * str)) :
  forall seen key,
    key ∈ stream -> norm_of key ∉ seen ->
    exists first, first ∈ fresh seen stream /\ first_with_norm stream key first.
Proof.
  unfold first_with_norm.
  induction stream as [| k stream IH]; intros seen key Hin Hunseen.
  - apply elem_of_nil in Hin. destruct Hin.
  - cbn [fresh find]. destruct (decide (norm_of k = norm_of key)) as [Heq | Hne].
    + rewrite (bool_decide_eq_true_2 _ Heq).
      rewrite bool_decide_eq_false_2 by (rewrite Heq; exact Hunseen).
      exists k. split; [left | reflexivity].
    + rewrite (bool_decide_eq_false_2 _ Hne).
      apply elem_of_cons in Hin as [-> | Hin]; [contradiction |].
      destruct (bool_decide (norm_of k ∈ seen)).
      * apply IH; assumption.
      * destruct (IH ({[norm_of k]} ∪ seen) key Hin) as [first [H1 H2]]; [set_solver |].
        exists first. split; [right; exact H1 | exact H2].
Qed.

(** In merge mode the traversal returns the keys in the order in which
    the sources hand them over, each normal form once, and the entry of a
    normal form is the first key read with that normal form. *)
Theorem gather_keys_keeps_first (fuel : nat) (initial_source base_dir : str)
    (keys : list (str * str)) :
  _gather_keys fuel initial_source base_dir false = Ret keys ->
  let stream := keys_in_reading_order fuel initial_source base_dir in
  sublist keys stream
  /\ NoDup (map norm_of keys)
  /\ forall key, key ∈ stream ->
       exists first, first ∈ keys /\ first_with_norm stream key first.
Proof.
  intros Hrun stream. apply gather_loop_fresh in Hrun.
  cbn [queue visited scheduled seen_links result app] in Hrun.
  fold (keys_in_reading_order fuel initial_source base_dir) in Hrun. fold stream in Hrun.
  subst keys. split; [apply fresh_sublist |]. split; [apply fresh_nodup |].
  intros key Hin. apply fresh_first; [exact Hin | set_solver].
Qed.

(** *** The children of a source *)

Lemma child_step_inv (source dir : str) (seen : gset str) (children : list str) (part : str) :
  NoDup children -> (forall c, c ∈ seen <-> c ∈ children) ->
  let acc := child_step env source dir (seen, children) part in
  NoDup acc.2 /\ (forall c, c ∈ acc.1 <-> c ∈ acc.2).
Proof.
  intros Hnodup Hseen. unfold child_step.
  destruct (negb (nonempty _)); [split; assumption |].
  destruct (has_protocol _); [split; assumption |].
  destruct (_is_url _ || _looks_like_path _); [| split; assumption].
  destruct (bool_decide _) eqn:Hin; [split; assumption |].
  apply bool_decide_eq_false in Hin. cbn [fst snd]. split.
  - apply NoDup_app. split; [exact Hnodup |]. split; [| apply NoDup_singleton].
    intros c Hc Hc'. apply list_elem_of_singleton in Hc'. subst c. apply Hin, Hseen, Hc.
  - intros c. rewrite elem_of_union, elem_of_singleton, elem_of_app, list_elem_of_singleton,
      Hseen. tauto.
Qed.

Lemma child_steps_inv (source dir : str) (parts : list str) :
  forall acc,
    NoDup acc.2 -> (forall c, c ∈ acc.1 <-> c ∈ acc.2) ->
    let acc' := foldl (child_step env source dir) acc parts in
    NoDup acc'.2 /\ (forall c, c ∈ acc'.1 <-> c ∈ acc'.2).
Proof.
  induction parts as [| part parts IH]; intros [seen children] Hnodup Hseen;
    [split; assumption |].
  cbn [foldl]. destruct (child_step_inv source dir seen children part Hnodup Hseen).
  apply IH; assumption.
Qed.

Lemma child_lines_inv (source dir : str) (lines : list str) :
  forall acc,
    NoDup acc.2 -> (forall c, c ∈ acc.1 <-> c ∈ acc.2) ->
    NoDup (foldl (child_line_step env source dir) acc lines).2.
Proof.
  induction lines as [| line lines IH]; intros acc Hnodup Hseen; [exact Hnodup |].
  cbn [foldl]. unfold child_line_step at 2.
  destruct (negb (nonempty (strip line)) || startswith (lit "#") (strip line));
    [apply IH; assumption |].
  destruct (child_steps_inv source dir (split_ws (strip line)) acc Hnodup Hseen).
  apply IH; assumption.
Qed.

(** A source that was visited, or that lies deeper than
    [_MAX_CASCADE_DEPTH], is not read: it gives no child and no key, and
    [visited] stays as it is. Any other source is marked as visited, also
    when reading it raises, and each of its children is listed once. *)
Theorem collect_sources_reads_once (source base_dir : str) (depth : Z) (visited : gset str) :
  let normalized := _normalize_source_identifier env source base_dir in
  (normalized ∈ visited \/ _MAX_CASCADE_DEPTH < depth ->
   collect_sources source base_dir depth visited = (inr ([], []), visited))
  /\ (normalized ∉ visited -> depth <= _MAX_CASCADE_DEPTH ->
      (collect_sources source base_dir depth visited).2 = {[normalized]} ∪ visited
      /\ match (collect_sources source base_dir depth visited).1 with
         | inr (children, keys) => NoDup children
         | inl _ => True
         end).
Proof.
  intros normalized. rewrite collect_sources_cases. fold normalized.
  unfold _depth_exceeded. split.
  - intros [Hin | Hdeep].
    + rewrite (bool_decide_eq_true_2 _ Hin). reflexivity.
    + apply Z.ltb_lt in Hdeep. rewrite Hdeep, orb_true_r. reflexivity.
  - intros Hnew Hdepth. rewrite (bool_decide_eq_false_2 _ Hnew).
    apply Z.ltb_ge in Hdepth. rewrite Hdepth. cbn [orb fst snd].
    split; [reflexivity |]. unfold reading.
    destruct (read_source env source base_dir) as [e | [text dir]]; [exact I |].
    destruct (parse_proxy_lines text); [| exact I].
    apply child_lines_inv; [constructor |]. intros c. cbn. set_solver.
Qed.

End WithSources.

End CascadeFacts.

(** ** Two files that list each other *)

Module CascadeScenarios.
Import Py Utils Effects Parsing Subscription Cascade CascadeFacts.

Definition slash : Z := 47.

Definition file_a : str := lit "/w/a.txt".
Definition file_b : str := lit "/w/b.txt".

Definition key_one : str := lit "vless://k1@h:1#one".
Definition key_one_again : str := lit "vless://k1@h:1#again".
Definition key_two : str := lit "vless://k2@h:2".

(** [a.txt] holds a key and names [b.txt]; [b.txt] holds the same key
    with another comment, a second key, and names [a.txt]. *)
Definition text_a : str := key_one ++ [newline] ++ lit "b.txt" ++ [newline].
Definition text_b : str :=
  key_one_again ++ [newline] ++ key_two ++ [newline] ++ lit "a.txt" ++ [newline].

Definition two_files : Sources :=
  {| cwd := lit "/w";
     resolve := fun base path =>
       if startswith [slash] path then path else base ++ [slash] ++ path;
     parent := fun _ => lit "/w";
     urljoin := fun _ url => url;
     path_exists := fun path => bool_decide (path = file_a) || bool_decide (path = file_b);
     read_text := fun path =>
       if bool_decide (path = file_a) then Some text_a
       else if bool_decide (path = file_b) then Some text_b
       else None;
     http_text := fun _ => None |}.

Lemma two_files_run :
  _gather_keys two_files 5 (lit "a.txt") (lit "/w") true
  = Ret [(key_one, key_one); (key_two, key_two)].
Proof. vm_compute. reflexivity. Qed.

Lemma two_files_merge_run :
  _gather_keys two_files 5 (lit "a.txt") (lit "/w") false
  = Ret [(key_one, key_one); (key_two, key_two)].
Proof. vm_compute. reflexivity. Qed.

Lemma gather_keys_distinct_witness :
  NoDup (map norm_of [(key_one, key_one); (key_two, key_two)])
  /\ Forall (fun key => normalize_proxy_link key.1 = Some (norm_of key)
                        /\ nonempty (norm_of key) = true)
       [(key_one, key_one); (key_two, key_two)].
Proof.
  apply (gather_keys_distinct two_files 5 (lit "a.txt") (lit "/w") true).
  vm_compute. reflexivity.
Defined.

Lemma gather_keys_keeps_first_witness :
  let stream := keys_in_reading_order two_files 5 (lit "a.txt") (lit "/w") in
  stream = [(key_one, key_one); (key_one_again, key_one_again); (key_two, key_two)]
  /\ sublist [(key_one, key_one); (key_two, key_two)] stream
  /\ NoDup (map norm_of [(key_one, key_one); (key_two, key_two)])
  /\ forall key, key ∈ stream ->
       exists first, first ∈ [(key_one, key_one); (key_two, key_two)]
                     /\ first_with_norm stream key first.
Proof.
  split; [vm_compute; reflexivity |].
  apply (gather_keys_keeps_first two_files 5 (lit "a.txt") (lit "/w")).
  vm_compute. reflexivity.
Defined.

End CascadeScenarios.

(** ** The port lease of [speed_test_key] *)

Module SpeedtestLease.
Import Py Utils Effects Runtime Cfg Speedtest EffLogic Judgments SpeedtestSpec SpeedtestFacts.

(** The run leaves the port pool alone, and it ends. *)
Definition J_lease : Judgment World := fun w k w' => J_ports w k w' /\ J_ends w k w'.

#[global] Instance J_lease_compositional : Compositional J_lease.
Proof.
  split.
  - intros s. split; apply comp_refl.
  - intros s s1 s2 k [H1 H2] [H3 H4]. split; eapply comp_trans; eassumption.
Qed.

Lemma sat_lease {A} (m : Eff World A) : sat J_ports m -> sat J_ends m -> sat J_lease m.
Proof. intros H1 H2 w. split; [apply H1 | apply H2]. Qed.

(** A judgment on worlds, read on the frames of [speed_test_key]. *)
Definition on_speed_frames (J : Judgment World) : Judgment Frame :=
  fun f k f' => J (world f) k (world f').

#[global] Instance on_speed_frames_compositional (J : Judgment World) :
  Compositional J -> Compositional (on_speed_frames J).
Proof.
  intros HJ. split; unfold on_speed_frames.
  - intros s. apply comp_refl.
  - intros s s1 s2 k. apply comp_trans.
Qed.

Lemma sat_speed_world (J : Judgment World) {A} (m : Eff World A) :
  sat J m -> sat (on_speed_frames J) (on_world m).
Proof.
  intros Hm f. unfold on_world, on_speed_frames.
  specialize (Hm (world f)). destruct (m (world f)) as [r w]. exact Hm.
Qed.

Lemma sat_set_proc (J : Judgment World) `{!Compositional J} (pid : Z) :
  sat (on_speed_frames J) (set_proc pid).
Proof. intros f. unfold on_speed_frames, set_proc, modify. simpl. apply comp_refl. Qed.

Section WithConfig.
Context (cfg : Config) (env : Env).
Context (parse_proxy_url : str -> option ParsedProxy).
Hypothesis poll_positive : (0 < XRAY_STARTUP_POLL_INTERVAL cfg)%Q.
Hypothesis connects_take_time : forall i, (0 <= connect_time (socks_connect_outcome env i))%Q.

Lemma clock_lease : sat J_lease perf_counter.
Proof. apply sat_gets. exact _. Qed.

Lemma advance_ports (d : Q) : sat J_ports (advance d).
Proof. intros w. split; reflexivity. Qed.

Lemma diverge_ports {A} : sat J_ports (@diverge World A).
Proof. intros w. split; reflexivity. Qed.

Lemma wait_for_port_loop_ports (fuel : nat) (deadline poll_interval : Q) :
  sat J_ports (wait_for_port_loop env fuel deadline poll_interval).
Proof.
  induction fuel as [| fuel IH]; cbn [wait_for_port_loop];
    (apply sat_bind; [exact _ | apply sat_gets; exact _ | intros t]);
    (destruct (negb (Qltb t deadline)); [apply sat_ret; exact _ |]);
    [apply diverge_ports |].
  apply sat_bind; [exact _ | apply sat_get; exact _ | intros w].
  apply sat_bind; [exact _ | intros w0; split; reflexivity | intros _].
  destruct (socks_connect_outcome env (connects_made w)) as [d | d].
  - apply sat_bind; [exact _ | apply advance_ports | intros _]. apply sat_ret. exact _.
  - apply sat_bind; [exact _ | apply advance_ports | intros _].
    apply sat_bind; [exact _ | apply sleep_ports | intros _]. exact IH.
Qed.

Lemma wait_for_port_lease (max_wait : Q) : sat J_lease (_wait_for_port env max_wait (1 # 20)).
Proof.
  apply sat_lease.
  - unfold _wait_for_port.
    apply sat_bind; [exact _ | apply sat_gets; exact _ | intros t].
    apply wait_for_port_loop_ports.
  - intros w. destruct (wait_for_port_run env max_wait w connects_take_time)
      as [b [w' [Hrun _]]].
    rewrite Hrun. discriminate.
Qed.

Lemma make_request_lease (url : str) (t : Timeout) (m : Method) :
  sat J_lease (make_request env url t m).
Proof. apply sat_lease; [apply make_request_ports | apply make_request_ends]. Qed.

Lemma latency_requests_lease (count : nat) (deadline : Q) (t : Timeout) (test_url : str) :
  forall acc, sat J_lease (latency_requests env count deadline t test_url acc).
Proof.
  induction count as [| count IH]; intros acc; cbn [latency_requests];
    [apply sat_ret; exact _ |].
  apply sat_bind; [exact _ | apply clock_lease | intros now0].
  destruct (negb (Qltb now0 deadline)); [apply sat_ret; exact _ |].
  apply sat_bind; [exact _ | apply make_request_lease | intros [[resp elapsed] err]].
  apply IH.
Qed.

Lemma read_chunks_ports (chunks : list (Z * Q)) (broken : bool) (start_time : Q)
    (timeout_sec : Z) :
  forall downloaded, sat J_ports (read_chunks chunks broken start_time timeout_sec downloaded).
Proof.
  induction chunks as [| [size dt] rest IH]; intros downloaded; cbn [read_chunks].
  - destruct broken; [intros w; split; reflexivity | apply sat_ret; exact _].
  - apply sat_bind; [exact _ | apply advance_ports | intros _].
    apply sat_bind; [exact _ | apply sat_gets; exact _ | intros t].
    destruct (Qltb _ _); [apply sat_ret; exact _ | apply IH].
Qed.

Lemma download_lease (url : str) (timeout_sec : Z) :
  sat J_lease (_test_download_speed env url timeout_sec).
Proof.
  intros w. unfold _test_download_speed, try_catch.
  match goal with
  | |- context [match ?body w with _ => _ end] =>
      assert (Hports : sat J_ports body);
      [| assert (Hends : (body w).1 <> Diverge);
         [| specialize (Hports w); destruct (body w) as [[v | e |] w1]]]
  end.
  - apply sat_bind; [exact _ | apply sat_gets; exact _ | intros start_time].
    apply sat_bind; [exact _ | apply advance_ports | intros _].
    destruct (dl_status (download_outcome env)) as [status |];
      [| intros w0; split; reflexivity].
    destruct (negb (status =? 200)); [apply sat_ret; exact _ |].
    apply sat_bind; [exact _ | apply read_chunks_ports | intros downloaded].
    apply sat_bind; [exact _ | apply sat_gets; exact _ | intros t].
    destruct (Qltb _ _); apply sat_ret; exact _.
  - unfold bind, perf_counter, gets, advance, modify. cbn -[Qplus Qminus Qmult Qdiv].
    destruct (dl_status (download_outcome env)) as [status |]; [| discriminate].
    destruct (negb (status =? 200)); [discriminate |].
    match goal with
    | |- context [read_chunks ?c ?b ?s ?t ?d ?w0] =>
        destruct (read_chunks_ends c b s t d w0) as [[d1 [w1 ->]] | [w1 ->]]
    end; [| discriminate].
    cbn -[Qplus Qminus Qmult Qdiv]. destruct (Qltb _ _); discriminate.
  - split; [exact Hports | discriminate].
  - destruct e; cbn; split; first [exact Hports | discriminate].
  - exfalso. apply Hends. reflexivity.
Qed.

Lemma speed_test_body_lease (proxy_line : str) (port : Z) (timeout : Q) (metric : str)
    (requests_count : Z) (test_url mode : str) (download_timeout : Z)
    (download_url_small download_url_medium : str) :
  sat (on_speed_frames J_lease)
    (speed_test_body cfg env proxy_line port timeout metric requests_count test_url mode
       download_timeout download_url_small download_url_medium).
Proof.
  unfold speed_test_body.
  apply sat_bind; [exact _ | apply sat_speed_world, sat_lease;
                             [apply run_xray_ports | apply run_xray_ends] | intros pid].
  apply sat_bind; [exact _ | apply sat_set_proc; exact _ | intros _].
  apply sat_bind; [exact _ | apply sat_speed_world, sat_lease;
                             [apply active_append_ports | apply active_append_ends]
                  | intros _].
  apply sat_bind; [exact _ | apply sat_speed_world, sat_lease;
                             [apply startup_wait_ports
                             | apply startup_wait_ends; exact poll_positive]
                  | intros _].
  apply sat_bind; [exact _ | apply sat_speed_world, sat_lease;
                             [apply proc_exited_ports | apply proc_exited_ends]
                  | intros exited].
  destruct exited; [apply sat_ret; exact _ |].
  apply sat_bind; [exact _ | apply sat_speed_world, wait_for_port_lease | intros ready].
  destruct ready; cbn [negb]; [| apply sat_ret; exact _].
  apply sat_bind; [exact _ | apply sat_speed_world, clock_lease | intros now0].
  apply sat_bind; [exact _ | apply sat_speed_world, latency_requests_lease
                  | intros response_times].
  destruct response_times as [| t0 times]; [apply sat_ret; exact _ |].
  destruct (bool_decide (mode = lit "quick") && nonempty download_url_small).
  { apply sat_bind; [exact _ | apply sat_speed_world, download_lease | intros [v |]];
      apply sat_ret; exact _. }
  destruct (bool_decide (mode = lit "full") && nonempty download_url_medium).
  { apply sat_bind; [exact _ | apply sat_speed_world, download_lease | intros [v |]];
      apply sat_ret; exact _. }
  destruct (bool_decide (mode = lit "latency") || _); [| apply sat_ret; exact _].
  destruct (bool_decide (metric = lit "throughput")); apply sat_ret; exact _.
Qed.

Lemma speed_test_finally_lease (port : Z) (f : Frame) :
  exists f',
    speed_test_finally port f = (Ret tt, f')
    /\ port_pool (world f') = port_pool (world f) ++ [port].
Proof.
  unfold speed_test_finally, bind, get. cbn.
  destruct (proc f) as [pid |]; cbn; [| eauto].
  unfold on_world, active_discard, try_except, active_remove, bind, get. cbn.
  destruct (list_remove_first (pid, port) (active_processes (world f))); cbn; eauto.
Qed.

Lemma guarded_speed_test_lease (proxy_line : str) (port : Z) (timeout : Q) (metric : str)
    (requests_count : Z) (test_url mode : str) (download_timeout : Z)
    (download_url_small download_url_medium : str) (w : World) :
  exists r w',
    in_frame
      (try_finally
         (try_except
            (speed_test_body cfg env proxy_line port timeout metric requests_count
               test_url mode download_timeout download_url_small download_url_medium)
            (fun _ => ret None))
         (speed_test_finally port)) w
    = (Ret r, w')
    /\ port_pool w' = port_pool w ++ [port].
Proof.
  unfold in_frame, try_finally, try_except.
  pose proof (speed_test_body_lease proxy_line port timeout metric requests_count test_url
                mode download_timeout download_url_small download_url_medium
                {| world := w; proc := None |}) as Hbody.
  unfold on_speed_frames, J_lease, J_ports, J_ends in Hbody. cbn [world] in Hbody.
  destruct (speed_test_body _ _ _ _ _ _ _ _ _ _ _ _ _) as [[v | e |] f1];
    cbn [fst snd ending_of] in Hbody; destruct Hbody as [[Hpool _] Hends];
    [| | congruence].
  - destruct (speed_test_finally_lease port f1) as [f2 [-> Hfin]].
    exists v, (world f2). split; [reflexivity | congruence].
  - unfold ret. destruct (speed_test_finally_lease port f1) as [f2 [-> Hfin]].
    exists None, (world f2). split; [reflexivity | congruence].
Qed.

(** From the lease on, for a key that the relay fronts. *)
Lemma leased_speed_test (proxy_line : str) (timeout : Q) (metric : str)
    (requests_count : Z) (test_url mode : str) (download_timeout : Z)
    (download_url_small download_url_medium : str) (config : Z -> Eff World XrayConfig)
    (w : World) :
  (forall port w0, exists c, config port w0 = (Ret c, w0)) ->
  exists r w',
    (let* leased := take_port in
     match leased with
     | None => ret None
     | Some port =>
         let* config := config port in
         mkstemp >>
         let* written := try_except (write_config env config >> ret true)
                                    (fun _ => ret false) in
         if (written : bool) then
           in_frame
             (try_finally
                (try_except
                   (speed_test_body cfg env proxy_line port timeout metric requests_count
                      test_url mode download_timeout download_url_small
                      download_url_medium)
                   (fun _ => ret None))
                (speed_test_finally port))
         else return_port port >> ret None
     end) w
    = (Ret r, w')
    /\ port_pool w' = port_pool w.
Proof.
  intros Hconfig. unfold bind at 1. unfold take_port at 1. unfold bind at 1, get.
  destruct (PortPool.take_port (port_pool w)) as [[port |] rest] eqn:Htake;
    [| exists None, w; split; reflexivity].
  apply PortPoolFacts.take_port_some in Htake.
  cbn [bind modify emit ret].
  set (w1 := with_trace _ _).
  assert (Hw1 : port_pool w1 = rest) by reflexivity. clearbody w1.
  unfold bind at 1. destruct (Hconfig port w1) as [c ->].
  unfold bind at 1, mkstemp, ret at 1. unfold bind at 1, try_except, write_config.
  destruct (write_config_ok env).
  - unfold bind at 1, emit, modify, ret at 1.
    match goal with
    | |- context [in_frame _ ?w0] =>
        destruct (guarded_speed_test_lease proxy_line port timeout metric requests_count
                    test_url mode download_timeout download_url_small download_url_medium
                    w0) as [r [w' [Hrun Hpool]]]
    end.
    exists r, w'. split; [exact Hrun |]. rewrite Hpool. cbn. congruence.
  - unfold bind at 1, raise, ret at 1, return_port, bind, modify, emit, modify, ret.
    eexists _, _. split; [reflexivity |]. cbn. unfold PortPool.return_port. congruence.
Qed.


End WithConfig.

End SpeedtestLease.

(** ** From one run to the next *)

Module RunFacts.
Import Py Utils Runtime Cfg Checker Parsing Main Startup PyFacts NotworkersSpec
  NotworkersFacts MainFacts.

(** *** The tally of a run *)

Section Tally.
Context (cfg : Config) (render : str -> Metrics -> str).

Definition within_bound (x : str * Q) : Prop := (x.2 <= inject_Z (MAX_LATENCY_MS cfg))%Q.

Lemma record_result_lists (t : Tally) (r : option (str * bool * Metrics)) :
  length (available t) = length (available_keys t) ->
  Forall within_bound (available t) ->
  let t' := record_result cfg render t r in
  length (available t') = length (available_keys t') /\ Forall within_bound (available t').
Proof.
  intros Hlen Hall. destruct r as [[[link ok] metrics] |]; simpl; [| auto].
  destruct ok; simpl; [| auto].
  destruct (Qleb (avg_latency_ms metrics) (inject_Z (MAX_LATENCY_MS cfg))) eqn:E;
    simpl; [| auto].
  split; [rewrite !length_app; simpl; lia |].
  apply Forall_app. split; [exact Hall |]. constructor; [| constructor].
  unfold within_bound. simpl. apply Qle_bool_iff. exact E.
Qed.

Lemma tally_lists (results : list (option (str * bool * Metrics))) :
  forall t,
    length (available t) = length (available_keys t) ->
    Forall within_bound (available t) ->
    let t' := foldl (record_result cfg render) t results in
    length (available t') = length (available_keys t') /\ Forall within_bound (available t').
Proof.
  induction results as [| r rest IH]; intros t Hlen Hall; [simpl; auto |].
  cbn [foldl]. destruct (record_result_lists t r Hlen Hall). apply IH; assumption.
Qed.

(** What [main] has collected when the probes are done: the passed keys
    are the keys of the probes that returned alive with an average latency
    within [MAX_LATENCY_MS]; the metrics cover the keys of all probes that
    returned; every output line has its key, and no output line is above
    the bound. A probe that raised counts nowhere. *)
Theorem tally_of_a_run (results : list (option (str * bool * Metrics))) :
  let t := tally_results cfg render results in
  (forall link, link ∈ available_keys t
                <-> exists r, r ∈ results /\ link_of r = Some link /\ passes cfg r = true)
  /\ (forall link, link ∈ dom (all_metrics t)
                   <-> exists r, r ∈ results /\ link_of r = Some link)
  /\ length (available t) = length (available_keys t)
  /\ Forall within_bound (available t).
Proof.
  unfold tally_results. split; [| split].
  - intros link. rewrite tally_passed. simpl. rewrite elem_of_nil. tauto.
  - intros link. rewrite tally_tested. simpl. rewrite dom_empty_L, elem_of_empty. tauto.
  - apply tally_lists; [reflexivity | constructor].
Qed.

End Tally.

(** *** The keys that the next run skips *)

Lemma keep_unlisted_keys (listed : gset str) (keys : list (str * str)) :
  Forall (fun key => is_key key.1 = true) keys ->
  keep_unlisted listed keys
  = Some (List.filter (fun key => negb (bool_decide (normal_form key.1 ∈ listed))) keys).
Proof.
  induction 1 as [| [link full] keys Hkey _ IH]; [reflexivity |].
  cbn [keep_unlisted List.filter fst]. simpl in Hkey.
  rewrite (normalize_key link Hkey), IH.
  destruct (bool_decide (normal_form link ∈ listed)); reflexivity.
Qed.

Lemma filter_nothing_listed (keys : list (str * str)) :
  List.filter (fun key => negb (bool_decide (normal_form key.1 ∈ (∅ : gset str)))) keys = keys.
Proof.
  induction keys as [| key keys IH]; [reflexivity |].
  cbn [List.filter]. rewrite bool_decide_eq_false_2 by set_solver. cbn [negb].
  f_equal. exact IH.
Qed.

Section Update.
Context (set_iter : gset str -> list str).
Hypothesis set_iter_perm : forall s, set_iter s ≡ₚ elements s.

(** The keys of the next run that are probed again are those whose normal
    form the file did not hold and that did not fail in this run, and
    those with the normal form of a key that passed in this run: a key
    written to the notworkers file is not probed until it is probed in
    notworkers mode and passes. *)
Theorem failed_keys_are_skipped_next_run (tested passed : gset str)
    (link_to_full : gmap str str) (file : File) (next_keys : list (str * str)) :
  (forall link, link ∈ tested ∪ passed -> is_key link = true) ->
  (forall link full, link ∈ tested -> link_to_full !! link = Some full ->
     strip full = full /\ first_token full = Some link) ->
  Forall (fun key => is_key key.1 = true) next_keys ->
  exists existing file',
    load_notworkers file = Some existing
    /\ update_notworkers set_iter tested passed link_to_full file = Some file'
    /\ skip_notworkers false file' next_keys
       = Some (List.filter
                 (fun key => negb (bool_decide
                    (normal_form key.1
                     ∈ (existing ∪ norms (tested ∖ passed)) ∖ norms passed)))
                 next_keys)
    /\ skip_notworkers true file' next_keys = Some next_keys.
Proof.
  intros Hkeys Hfull Hnext.
  destruct (update_notworkers_run set_iter set_iter_perm tested passed link_to_full file
              Hkeys Hfull)
    as [existing [existing_full [file' [persisted [Hload [Hrun [Hload' _]]]]]]].
  exists existing, file'.
  split; [unfold load_notworkers; rewrite Hload; reflexivity |].
  split; [exact Hrun |]. split; [| reflexivity].
  unfold skip_notworkers, load_notworkers. rewrite Hload'.
  set (listed := (existing ∪ norms (tested ∖ passed)) ∖ norms passed).
  destruct (bool_decide (listed ≠ ∅)) eqn:Hne.
  - apply keep_unlisted_keys. exact Hnext.
  - apply bool_decide_eq_false in Hne.
    assert (H0 : listed = ∅) by (destruct (decide (listed = ∅)); tauto).
    rewrite H0, filter_nothing_listed. reflexivity.
Qed.

(** Updating the file again with the results of the same run changes
    nothing: the file then loads to the same set and the same full
    lines. *)
Theorem notworkers_update_is_idempotent (tested passed : gset str)
    (link_to_full : gmap str str) (file : File) :
  (forall link, link ∈ tested ∪ passed -> is_key link = true) ->
  (forall link full, link ∈ tested -> link_to_full !! link = Some full ->
     strip full = full /\ first_token full = Some link) ->
  exists file' file'',
    update_notworkers set_iter tested passed link_to_full file = Some file'
    /\ update_notworkers set_iter tested passed link_to_full file' = Some file''
    /\ load_notworkers_with_lines file'' = load_notworkers_with_lines file'.
Proof.
  intros Hkeys Hfull.
  destruct (update_notworkers_run set_iter set_iter_perm tested passed link_to_full file
              Hkeys Hfull)
    as [existing [existing_full [file' [persisted [Hload [Hrun [Hload' _]]]]]]].
  destruct (update_notworkers_run set_iter set_iter_perm tested passed link_to_full file'
              Hkeys Hfull)
    as [existing' [existing_full' [file'' [persisted' [Hload1 [Hrun' [Hload'' [Hold _]]]]]]]].
  exists file', file''. split; [exact Hrun |]. split; [exact Hrun' |].
  rewrite Hload1 in Hload'. injection Hload' as -> ->.
  rewrite Hload'', Hload1.
  set (listed := (existing ∪ norms (tested ∖ passed)) ∖ norms passed) in *.
  assert (Hset : (listed ∪ norms (tested ∖ passed)) ∖ norms passed = listed)
    by (unfold listed; set_solver).
  rewrite Hset in *.
  destruct (load_total file') as [S1 [M1 [H1 [Hdom1 _]]]].
  rewrite Hload1 in H1. injection H1 as <- <-.
  destruct (load_total file'') as [S2 [M2 [H2 [Hdom2 _]]]].
  rewrite Hload'' in H2. injection H2 as <- <-.
  f_equal. f_equal. apply map_eq. intros n.
  destruct (decide (n ∈ listed)) as [Hin | Hout].
  - apply Hold; [exact Hin | unfold listed in Hin; set_solver].
  - rewrite (proj1 (not_elem_of_dom persisted' n)) by (rewrite Hdom2; exact Hout).
    rewrite (proj1 (not_elem_of_dom persisted n)) by (rewrite Hdom1; exact Hout).
    reflexivity.
Qed.

End Update.

(** *** lib/config.py: a list of URLs *)

Lemma blank_is_whitespace (s : str) : strip s = [] -> forallb isspace s = true.
Proof.
  unfold strip. induction s as [| c r IH]; [reflexivity |].
  simpl. destruct (isspace c) eqn:E; [exact IH |].
  intros H. destruct (rstrip_head c r E) as [r' Hr]. rewrite Hr in H. discriminate.
Qed.

Lemma blank_has_no (c : Z) (s : str) :
  isspace c = false -> strip s = [] -> contains [c] s = false.
Proof.
  intros Hc Hs. apply blank_is_whitespace in Hs.
  destruct (contains [c] s) eqn:E; [| reflexivity].
  apply ParsingFacts.contains_char in E. rewrite forallb_forall in Hs.
  specialize (Hs c E). congruence.
Qed.

Lemma stripped_parts_entries (sep : Z) (s : str) :
  Forall (fun u => strip u = u /\ nonempty u = true) (stripped_parts sep s).
Proof.
  unfold stripped_parts. apply List.Forall_forall. intros u Hu.
  apply in_map_iff in Hu as [part [<- Hpart]]. apply filter_In in Hpart as [_ Hne].
  split; [apply strip_idem | exact Hne].
Qed.

(** Every entry of the list is stripped and not empty, and the list is
    empty exactly for a blank string: a string of separators alone is one
    entry. *)
Theorem parse_url_list_entries (url_str : str) :
  Forall (fun u => strip u = u /\ nonempty u = true) (_parse_url_list url_str)
  /\ (_parse_url_list url_str = [] <-> strip url_str = []).
Proof.
  unfold _parse_url_list. destruct url_str as [| c r]; [split; [constructor | tauto] |].
  cbn [nonempty negb]. set (s := c :: r).
  assert (Hfallback :
            Forall (fun u => strip u = u /\ nonempty u = true)
              (if nonempty (strip s) then [strip s] else [])
            /\ ((if nonempty (strip s) then [strip s] else []) = [] <-> strip s = [])).
  { destruct (strip s) eqn:E; simpl; [split; [constructor | tauto] |].
    split; [| split; discriminate]. constructor; [| constructor].
    rewrite <- E. split; [apply strip_idem | rewrite E; reflexivity]. }
  assert (Hparts : forall sep, isspace sep = false -> contains [sep] s = true ->
            let urls := stripped_parts sep s in
            Forall (fun u => strip u = u /\ nonempty u = true)
              (match urls with
               | [] => if nonempty (strip s) then [strip s] else []
               | _ => urls
               end)
            /\ (match urls with
                | [] => if nonempty (strip s) then [strip s] else []
                | _ => urls
                end = [] <-> strip s = [])).
  { intros sep Hsep Hin urls. pose proof (stripped_parts_entries sep s) as Hall.
    fold urls in Hall. destruct urls as [| u urls']; [exact Hfallback |].
    split; [exact Hall |]. split; [discriminate |].
    intros Hblank. rewrite (blank_has_no sep s Hsep Hblank) in Hin. discriminate. }
  destruct (contains [comma] s) eqn:Hc; [apply Hparts; [reflexivity | exact Hc] |].
  destruct (contains [semicolon] s) eqn:Hs; [apply Hparts; [reflexivity | exact Hs] |].
  exact Hfallback.
Qed.

End RunFacts.

(** ** Concrete inputs for the facts above *)

Module MoreScenarios.
Import Py Utils Effects Runtime Cfg Checker Parsing Main Startup PyFacts NotworkersSpec
  NotworkersFacts MainFacts Scenarios RunScenarios SpeedScenarios.

(** A link with blanks around it, a comment and a second token. *)
Lemma normalize_proxy_link_is_normal_witness :
  let n := lit "vless://u1@10.0.0.1:443" in
  ~ In hash n
  /\ PyFacts.spaceless n = true
  /\ (nonempty n = true -> normalize_proxy_link n = Some n).
Proof.
  apply (ParsingFacts.normalize_proxy_link_is_normal
           (lit "  vless://u1@10.0.0.1:443#one first ")).
  vm_compute. reflexivity.
Defined.

(** A verdict stored at 1000 s is answered at 1100 s and no longer at
    5000 s, with [CACHE_TTL = 3600]. *)
Lemma stored_verdict_expires_witness :
  let cfg := settings true false 3 3 0 in
  let stored_at := (cache_store key1 true (fresh_world ∅)).2 in
  (check_cache cfg key1 (with_now 1100 stored_at)).1 = Ret (Some true)
  /\ (check_cache cfg key1 (with_now 5000 stored_at)).1 = Ret None.
Proof.
  intros cfg stored_at. split.
  - exact (proj2 (CacheFacts.stored_verdict_expires cfg key1 true (fresh_world ∅)
                    (with_now 1100 stored_at) eq_refl)).
  - exact (proj2 (CacheFacts.stored_verdict_expires cfg key1 true (fresh_world ∅)
                    (with_now 5000 stored_at) eq_refl)).
Defined.


Definition new_key : str := lit "vless://u9@10.0.0.9:443".

Definition next_run : list (str * str) :=
  [(dead_key, dead_line); (live_key, live_line); (new_key, new_key)].

(** After the run in which [dead_key] fails and [live_key] passes, the
    next run probes [live_key] and [new_key]. *)
Lemma failed_keys_are_skipped_next_run_witness :
  exists existing file',
    load_notworkers stored = Some existing
    /\ update_notworkers elements {[dead_key; live_key]} {[live_key]} run_lines stored
       = Some file'
    /\ skip_notworkers false file' next_run
       = Some (List.filter
                 (fun key => negb (bool_decide
                    (normal_form key.1
                     ∈ (existing ∪ norms ({[dead_key; live_key]} ∖ {[live_key]}))
                       ∖ norms {[live_key]})))
                 next_run)
    /\ skip_notworkers true file' next_run = Some next_run.
Proof.
  apply (RunFacts.failed_keys_are_skipped_next_run elements (fun s => reflexivity _)
           {[dead_key; live_key]} {[live_key]} run_lines stored next_run).
  - intros link H. apply run_keys. set_unfold. tauto.
  - intros link full _. apply run_lines_paired.
  - repeat constructor.
Defined.

Lemma next_run_probes :
  skip_notworkers false (Some [old_line ++ [newline]; dead_line ++ [newline]]) next_run
  = Some [(live_key, live_line); (new_key, new_key)].
Proof. vm_compute. reflexivity. Qed.

Lemma notworkers_update_is_idempotent_witness :
  exists file' file'',
    update_notworkers elements {[dead_key; live_key]} {[live_key]} run_lines stored
    = Some file'
    /\ update_notworkers elements {[dead_key; live_key]} {[live_key]} run_lines file'
       = Some file''
    /\ load_notworkers_with_lines file'' = load_notworkers_with_lines file'.
Proof.
  apply (RunFacts.notworkers_update_is_idempotent elements (fun s => reflexivity _)
           {[dead_key; live_key]} {[live_key]} run_lines stored).
  - intros link H. apply run_keys. set_unfold. tauto.
  - intros link full _. apply run_lines_paired.
Defined.

End MoreScenarios.

(** ** More on lib/checker.py and lib/speedtest.py *)

Module ProbeFacts.
Import Py Utils Effects Runtime Cfg Checker EffLogic Judgments CheckerFacts SpeedtestSpec.

Section WithConfig.
Context (cfg : Config) (env : Env).
Context (get_key_hash : str -> str) (parse_proxy_url : str -> option ParsedProxy).

#[local] Abbreviation check_key_e2e := (check_key_e2e cfg env get_key_hash parse_proxy_url).

Lemma fresh_entry_read (key : str) (ok : bool) (w : World) :
  ENABLE_CACHE cfg = true ->
  0 < CACHE_TTL cfg ->
  cached_verdict cfg get_key_hash true key
    (with_cache (<[get_key_hash key := {| result := Some ok; timestamp := Some (now w) |}]>
                   (cache w)) w)
  = Some ok.
Proof.
  intros Hen Httl. unfold cached_verdict. rewrite Hen. cbn [andb cache with_cache now].
  rewrite lookup_insert_eq. cbn [timestamp result default from_option]. unfold id.
  replace (Qltb (now w - now w) (inject_Z (CACHE_TTL cfg))) with true; [reflexivity |].
  symmetry. apply Qltb_lt.
  assert (H0 : (now w - now w == 0)%Q) by ring. rewrite H0.
  change 0%Q with (inject_Z 0). rewrite <- Zlt_Qlt. exact Httl.
Qed.

(** With the cache on, the verdict of a hysteria key is stored when it is
    computed: probing the key again right away gives the same verdict from
    the cache, with no further connect, and no port is leased for either
    probe. *)
Theorem hysteria_verdict_is_cached (key : str) (debug : bool) (w : World)
    (parsed : ParsedProxy) :
  parse_proxy_url key = Some parsed ->
  protocol parsed = hysteria \/ protocol parsed = hysteria2 ->
  ENABLE_CACHE cfg = true ->
  0 < CACHE_TTL cfg ->
  exists ok m w1,
    check_key_e2e key debug true w = (Ret (key, ok, m), w1)
    /\ port_pool w1 = port_pool w
    /\ check_key_e2e key debug true w1 = (Ret (key, ok, new_metrics true), w1).
Proof.
  intros Hparse Hproto Hen Httl. rewrite check_key_e2e_unfold.
  destruct (cached_verdict cfg get_key_hash true key w) as [r |] eqn:Hc.
  - exists r, (new_metrics true), w. split; [reflexivity |]. split; [reflexivity |].
    rewrite check_key_e2e_unfold, Hc. reflexivity.
  - rewrite Hparse. rewrite Hen. cbn [andb].
    assert (Hrun : forall w0,
              exists ok m w1,
                (let* '(ok, latency) :=
                   _check_hysteria_reachable env (inject_Z (timeout_choice cfg)) in
                 let m1 := if ok then with_response_times [latency] (new_metrics false)
                           else new_metrics false in
                 cache_store (get_key_hash key) ok >>
                 ret (key, ok, with_failed_urls (if ok then 0 else 1)
                                 (with_successful_urls (if ok then 1 else 0) m1))) w0
                = (Ret (key, ok, m), w1)
                /\ port_pool w1 = port_pool w0
                /\ cached_verdict cfg get_key_hash true key w1 = Some ok).
    { intros w0. unfold _check_hysteria_reachable, tcp_connect, cache_store, bind, emit,
        modify, advance, time_time, gets, ret.
      destruct (tcp_connect_outcome env) as [d |]; cbn -[Qplus];
        eexists _, _, _; (split; [reflexivity |]); (split; [reflexivity |]);
        match goal with
        | |- cached_verdict _ _ _ _ ?w1 = _ =>
            exact (fresh_entry_read key _
                     (with_cache (cache w0) w1) Hen Httl)
        end. }
    destruct Hproto as [-> | ->];
      (destruct (Hrun (with_trace (trace w ++ [EvParse]) w)) as [ok [m [w1 [H1 [H2 H3]]]]];
       exists ok, m, w1; split; [exact H1 |]; split; [exact H2 |];
       rewrite check_key_e2e_unfold, H3; reflexivity).
Qed.

(** A key that does not parse, and a key that finds the pool empty, is
    reported dead at once: the world differs by the note of the parse
    only, so no port is leased, no relay is started and nothing is
    stored in the cache. *)
Theorem dead_without_a_probe (key : str) (debug cache_given : bool) (w : World) :
  cached_verdict cfg get_key_hash cache_given key w = None ->
  parse_proxy_url key = None
  \/ (exists parsed, parse_proxy_url key = Some parsed /\ relay_fronted parsed
                     /\ port_pool w = []) ->
  check_key_e2e key debug cache_given w
  = (Ret (key, false, new_metrics false), with_trace (trace w ++ [EvParse]) w).
Proof.
  intros Hmiss Hcase. rewrite check_key_e2e_unfold, Hmiss.
  destruct Hcase as [-> | [parsed [-> [[Hh Hh2] Hpool]]]]; [reflexivity |].
  cbn [port_pool with_trace]. rewrite Hpool.
  destruct (protocol parsed); first [contradiction | reflexivity].
Qed.

(** *** The retry budget *)

Lemma for_each_count {St A R} (count : St -> nat) (body : A -> Eff St (ctl R)) (l : list A) :
  (forall x s, (count s <= count (body x s).2 <= count s + 1)%nat) ->
  forall s, (count s <= count (for_each l body s).2 <= count s + length l)%nat.
Proof.
  intros Hbody. induction l as [| x l IH]; intros s; cbn [for_each length]; [cbn; lia |].
  unfold bind. specialize (Hbody x s).
  destruct (body x s) as [[[| | v] | e |] s1]; cbn [snd] in *;
    try (unfold ret; cbn; lia).
  specialize (IH s1). lia.
Qed.

(** One request with its retries issues at most [MAX_RETRIES + 1]
    requests (none when [MAX_RETRIES] is negative), however it ends. *)
Theorem retry_budget (should_debug_flag : bool) (url : str) (timeout : Timeout) (f : Frame) :
  let f' := (request_with_retries cfg env should_debug_flag url timeout f).2 in
  (requests_made (world f) <= requests_made (world f')
   <= requests_made (world f) + Z.to_nat (MAX_RETRIES cfg + 1))%nat.
Proof.
  cbv zeta.
  remember (request_with_retries cfg env should_debug_flag url timeout f).2 as f' eqn:Hf'.
  unfold request_with_retries in Hf'. unfold bind at 1 in Hf'.
  match type of Hf' with
  | context [for_each ?l ?body f] =>
      pose proof (for_each_count (fun f0 => requests_made (world f0)) body l) as Hcount
  end.
  cbv beta in Hcount.
  match type of Hcount with
  | ?P -> _ => assert (Hbody : P); [| specialize (Hcount Hbody f)]
  end.
  - clear Hcount. intros x s.
    unfold bind, on_world, sleep, make_request, update_metrics, modify, advance, emit,
      modify, get, ret, raise.
    destruct (0 <? x); [destruct (Qltb _ 0) |];
      cbn -[Qpower Qmult Qplus];
      try lia;
      (destruct (request_outcome env (requests_made (world s))) as [r el | e el |] eqn:Hout;
       cbn -[Qpower Qmult Qplus]; try lia;
       repeat match goal with
              | |- context [match truthy ?r with _ => _ end] =>
                  destruct (truthy r); cbn -[Qpower Qmult Qplus]
              | |- context [if ?b then _ else _] =>
                  destruct b; cbn -[Qpower Qmult Qplus]
              end; lia).
  - unfold range in Hcount. rewrite length_map, length_seq in Hcount.
    clear Hbody. destruct (for_each _ _ f) as [[o | e |] f1]; cbn [snd] in Hcount;
      unfold ret in Hf'; cbn [snd] in Hf'; subst f'; exact Hcount.
Qed.

End WithConfig.

End ProbeFacts.

Module DownloadFacts.
Import Py Utils Effects Runtime Cfg Speedtest SpeedtestSpec SpeedtestFacts.

Section WithEnv.
Context (env : Env).

Lemma read_chunks_nonnegative (chunks : list (Z * Q)) (broken : bool) (start_time : Q)
    (timeout_sec : Z) :
  forall downloaded w d w',
    0 <= downloaded ->
    read_chunks chunks broken start_time timeout_sec downloaded w = (Ret d, w') ->
    0 <= d.
Proof.
  induction chunks as [| [size dt] rest IH]; intros downloaded w d w' Hd Hrun;
    cbn [read_chunks] in Hrun.
  - destruct broken; [discriminate |]. injection Hrun as <- _. exact Hd.
  - unfold bind, advance, modify, perf_counter, gets in Hrun.
    cbn -[Qplus Qminus Qmult Qdiv read_chunks] in Hrun.
    assert (Hd' : 0 <= (if 0 <? size then downloaded + size else downloaded))
      by (destruct (Z.ltb_spec 0 size); lia).
    destruct (Qltb _ _).
    + injection Hrun as <- _. exact Hd'.
    + exact (IH _ _ _ _ Hd' Hrun).
Qed.

Lemma round2_nonnegative (x : Q) : (0 <= x)%Q -> (0 <= round2 x)%Q.
Proof.
  intros Hx. unfold round2, round_half_even.
  assert (Hf : 0 <= Qfloor (x * 100)).
  { change 0 with (Qfloor 0). apply Qfloor_resp_le.
    apply Qmult_le_0_compat; [exact Hx | discriminate]. }
  set (f := Qfloor (x * 100)) in *.
  assert (Hr : 0 <= (if Qltb (x * 100 - inject_Z f) (1 # 2) then f
                     else if Qltb (1 # 2) (x * 100 - inject_Z f) then f + 1
                     else if Z.even f then f else f + 1)).
  { destruct (Qltb _ _); [exact Hf |]. destruct (Qltb _ _); [lia |].
    destruct (Z.even f); lia. }
  apply Qle_shift_div_l; [reflexivity |]. rewrite Qmult_0_l.
  change 0%Q with (inject_Z 0). rewrite <- Zle_Qle. exact Hr.
Qed.


(** [_wait_for_port] returns for every relay, when it polls at a positive
    interval and a connect takes no negative time: [True] right after a
    connect that was accepted, [False] no earlier than [max_wait] after
    its start. *)
Lemma wait_loop_outcome (poll_interval : Q) (fuel : nat) :
  (0 < poll_interval)%Q ->
  (forall i, 0 <= connect_time (socks_connect_outcome env i))%Q ->
  forall deadline w,
    (deadline - now w <= inject_Z (Z.of_nat fuel) * poll_interval)%Q ->
    exists b w',
      wait_for_port_loop env fuel deadline poll_interval w = (Ret b, w')
      /\ (b = false -> (deadline <= now w')%Q)
      /\ (b = true ->
          exists d, socks_connect_outcome env (pred (connects_made w')) = Connected d
                    /\ (connects_made w < connects_made w')%nat)
      /\ (connects_made w <= connects_made w' <= connects_made w + fuel)%nat.
Proof.
  intros Hpos Hdur. induction fuel as [| fuel IH]; intros deadline w Hcover.
  - cbn -[Qplus Qminus Qmult Qle]. unfold bind, perf_counter, gets.
    destruct (Qltb (now w) deadline) eqn:E; cbn -[Qplus Qminus Qmult Qle].
    + apply Qltb_lt in E. exfalso.
      change (inject_Z (Z.of_nat 0)) with 0%Q in Hcover. lra.
    + apply Qltb_ge in E. exists false, w. split; [reflexivity |].
      split; [intros _; exact E |]. split; [discriminate | lia].
  - cbn [wait_for_port_loop]. unfold bind, perf_counter, gets, get, modify.
    destruct (Qltb (now w) deadline) eqn:E; cbn -[Qplus Qminus Qmult Qle].
    2: { apply Qltb_ge in E. exists false, w. split; [reflexivity |].
         split; [intros _; exact E |]. split; [discriminate | lia]. }
    pose proof (Hdur (connects_made w)) as Hd.
    destruct (socks_connect_outcome env (connects_made w)) as [d | d] eqn:Hout;
      cbn -[Qplus Qminus Qmult Qle wait_for_port_loop] in *.
    + eexists true, _. split; [reflexivity |]. split; [discriminate |].
      cbn. split; [intros _; exists d; split; [exact Hout | lia] | lia].
    + unfold sleep.
      replace (Qltb poll_interval 0) with false
        by (symmetry; apply Qltb_ge; lra).
      unfold advance, modify. cbn -[Qplus Qminus Qmult Qle wait_for_port_loop].
      match goal with
      | |- context [wait_for_port_loop env fuel deadline poll_interval ?w1] =>
          destruct (IH deadline w1) as [b [w' [Hrun [Hfalse [Htrue Hcount]]]]]
      end.
      * cbn -[Qplus Qminus Qmult Qle].
        rewrite Nat2Z.inj_succ in Hcover. unfold Z.succ in Hcover.
        rewrite inject_Z_plus in Hcover. change (inject_Z 1) with 1%Q in Hcover. lra.
      * cbn in Hcount, Htrue. exists b, w'. split; [exact Hrun |].
        split; [exact Hfalse |]. split; [| lia].
        intros Hb. destruct (Htrue Hb) as [d' [H1 H2]]. exists d'. split; [exact H1 | lia].
Qed.

Theorem wait_for_port_outcome (max_wait poll_interval : Q) (w : World) :
  (0 < poll_interval)%Q ->
  (forall i, 0 <= connect_time (socks_connect_outcome env i))%Q ->
  exists b w',
    _wait_for_port env max_wait poll_interval w = (Ret b, w')
    /\ (b = false -> (now w + max_wait <= now w')%Q)
    /\ (b = true ->
        exists d, socks_connect_outcome env (pred (connects_made w')) = Connected d
                  /\ (connects_made w < connects_made w')%nat)
    /\ (connects_made w' <= connects_made w
                            + S (Z.to_nat (Qceiling (max_wait / poll_interval))))%nat.
Proof.
  intros Hpos Hdur. unfold _wait_for_port, bind, perf_counter, gets.
  replace (Qltb 0 poll_interval) with true by (symmetry; apply Qltb_lt; exact Hpos).
  cbv iota.
  destruct (wait_loop_outcome poll_interval
              (S (Z.to_nat (Qceiling (max_wait / poll_interval)))) Hpos Hdur
              (now w + max_wait)%Q w) as [b [w' [Hrun [Hfalse [Htrue Hcount]]]]].
  - set (n := Qceiling (max_wait / poll_interval)).
    assert (Hc : (max_wait / poll_interval <= inject_Z n)%Q) by apply Qle_ceiling.
    assert (Hn : (inject_Z n <= inject_Z (Z.of_nat (S (Z.to_nat n))))%Q).
    { rewrite <- Zle_Qle. lia. }
    assert (Hw : (max_wait == (max_wait / poll_interval) * poll_interval)%Q)
      by (field; lra).
    assert (He : (now w + max_wait - now w == max_wait)%Q) by ring.
    rewrite He. rewrite Hw at 1.
    apply Qmult_le_compat_r; lra.
  - exists b, w'. split; [exact Hrun |]. split; [exact Hfalse |].
    split; [exact Htrue | lia].
Qed.

End WithEnv.

End DownloadFacts.

(** ** Concrete inputs for the facts on probes and on the wait for a port *)

Module ProbeScenarios.
Import Py Utils Effects Runtime Cfg Checker Speedtest Scenarios SpeedScenarios.

(** A parser that accepts what starts with [hysteria2://]. *)
Definition hysteria_only (s : str) : option ParsedProxy :=
  if startswith (lit "hysteria2://") s
  then Some {| protocol := hysteria2; address := lit "2.2.2.2"; port := 8443 |}
  else None.

Definition hy_key : str := lit "hysteria2://pw@2.2.2.2:8443".

(** A hysteria key whose server refuses the connect, probed twice with
    the cache on. *)
Lemma hysteria_verdict_is_cached_witness :
  exists ok m w1,
    check_key_e2e (settings true false 3 3 0) (network slow_answer) plain_hash hysteria_only
      hy_key false true (fresh_world ∅)
    = (Ret (hy_key, ok, m), w1)
    /\ port_pool w1 = port_pool (fresh_world ∅)
    /\ check_key_e2e (settings true false 3 3 0) (network slow_answer) plain_hash
         hysteria_only hy_key false true w1
       = (Ret (hy_key, ok, new_metrics true), w1).
Proof.
  apply (ProbeFacts.hysteria_verdict_is_cached (settings true false 3 3 0)
           (network slow_answer) plain_hash hysteria_only hy_key false (fresh_world ∅)
           {| protocol := hysteria2; address := lit "2.2.2.2"; port := 8443 |}).
  - vm_compute. reflexivity.
  - right. reflexivity.
  - reflexivity.
  - reflexivity.
Defined.

(** A hysteria key is not a key for a parser of [vless://] links. *)
Lemma dead_without_a_probe_witness :
  check_key_e2e (settings false false 3 3 0) (network slow_answer) plain_hash vless_only
    hy_key false false (fresh_world ∅)
  = (Ret (hy_key, false, new_metrics false),
     with_trace (trace (fresh_world ∅) ++ [EvParse]) (fresh_world ∅)).
Proof.
  apply (ProbeFacts.dead_without_a_probe (settings false false 3 3 0)
           (network slow_answer) plain_hash vless_only hy_key false false (fresh_world ∅)).
  - vm_compute. reflexivity.
  - left. vm_compute. reflexivity.
Defined.

(** The wait of [XRAY_STARTUP_WAIT = 1.8] seconds at a poll every 0.2
    seconds, for a relay that accepts every connect. *)
Lemma wait_for_port_outcome_witness :
  exists b w',
    _wait_for_port (network slow_answer) (9 # 5) (1 # 5) (fresh_world ∅) = (Ret b, w')
    /\ (b = false -> (now (fresh_world ∅) + (9 # 5) <= now w')%Q)
    /\ (b = true ->
        exists d, socks_connect_outcome (network slow_answer) (pred (connects_made w'))
                  = Connected d
                  /\ (connects_made (fresh_world ∅) < connects_made w')%nat)
    /\ (connects_made w' <= connects_made (fresh_world ∅)
                            + S (Z.to_nat (Qceiling ((9 # 5) / (1 # 5)))))%nat.
Proof.
  apply (DownloadFacts.wait_for_port_outcome (network slow_answer) (9 # 5) (1 # 5)
           (fresh_world ∅)).
  - reflexivity.
  - intros i. vm_compute. discriminate.
Defined.

End ProbeScenarios.

(** ** lib/metrics.py: what the statistics table shows *)

Module PerformanceFacts.
Import Py Utils Runtime Checker Performance.

(** The elements the loop counts as available, the ones it counts as
    failed, and the response times it collects from an element. *)
Definition counted_available (r : Result) : bool :=
  match r with
  | ResultDict true _ _ | ResultStr _ => true
  | _ => false
  end.

Definition counted_failed (r : Result) : bool :=
  match r with
  | ResultDict false _ _ => true
  | _ => false
  end.

Definition times_of (r : Result) : list Q :=
  match r with
  | ResultDict _ times _ => times
  | _ => []
  end.

Definition no_error (r : Result) : bool :=
  match r with
  | ResultDict _ _ (Some _) => false
  | _ => true
  end.

Lemma loop_counts (results : list Result) :
  forall c,
    let c' := foldl count_result c results in
    n_available c' = n_available c + len (List.filter counted_available results)
    /\ n_failed c' = n_failed c + len (List.filter counted_failed results)
    /\ all_times c' = all_times c ++ concat (map times_of results)
    /\ (forallb no_error results = true -> errors c' = errors c).
Proof.
  induction results as [| r results IH]; intros c.
  - cbn. unfold len. cbn. rewrite app_nil_r. repeat split; lia.
  - cbn [foldl]. destruct (IH (count_result c r)) as [Ha [Hf [Ht He]]].
    cbn zeta. rewrite Ha, Hf, Ht. clear Ha Hf Ht IH.
    destruct r as [[|] [| t ts] [e |] | s |];
      cbn [count_result n_available n_failed all_times errors List.filter counted_available
             counted_failed map times_of concat forallb no_error andb app];
      unfold len; cbn [length]; rewrite ?app_nil_r, <- ?app_assoc;
      (split; [lia |]); (split; [lia |]); (split; [reflexivity |]);
      first [discriminate | exact He].
Qed.

Lemma len_filter_bounds {A} (f : A -> bool) (l : list A) :
  0 <= len (List.filter f l) <= len l.
Proof.
  unfold len. pose proof (List.filter_length_le f l). lia.
Qed.

Lemma len_filter_split (results : list Result) :
  len (List.filter counted_available results) + len (List.filter counted_failed results)
  <= len results
  /\ (Forall (fun r => r <> ResultOther) results ->
      len (List.filter counted_available results) + len (List.filter counted_failed results)
      = len results).
Proof.
  unfold len. induction results as [| r results [IH1 IH2]]; [cbn; split; [lia | reflexivity] |].
  split.
  - destruct r as [[|] ? ? | ? |]; cbn [List.filter counted_available counted_failed length];
      lia.
  - intros H. inversion H as [| ? ? Hr Hrest]; subst. specialize (IH2 Hrest).
    destruct r as [[|] ? ? | ? |]; cbn [List.filter counted_available counted_failed length];
      first [congruence | lia].
Qed.

Lemma filter_none_failed (results : list Result) :
  existsb counted_failed results = false -> List.filter counted_failed results = [].
Proof.
  induction results as [| r results IH]; [reflexivity |]. cbn [existsb List.filter].
  destruct (counted_failed r); [discriminate |]. exact IH.
Qed.

Lemma filter_some_failed (results : list Result) :
  existsb counted_failed results = true -> 0 < len (List.filter counted_failed results).
Proof.
  unfold len. induction results as [| r results IH]; [discriminate |].
  cbn [existsb List.filter]. destruct (counted_failed r); cbn [orb length]; [lia |].
  exact IH.
Qed.

(** The counts of the table.  Every dict with a truthy ['available'] and
    every string is a working key; the failed keys are the dicts without
    it, unless there is none: then every element that is not a working
    key is a failed one, also an element that is neither a dict nor a
    string.  The two counts never exceed the total, and they add up to
    it when every element is a dict or a string. *)
Theorem table_counts (results : list Result) (elapsed_time : Q) :
  let m := calculate_performance_metrics results elapsed_time in
  total_keys m = len results
  /\ checked_keys m = len results
  /\ available_keys m = len (List.filter counted_available results)
  /\ failed_keys m
     = (if existsb counted_failed results
        then len (List.filter counted_failed results)
        else len results - len (List.filter counted_available results))
  /\ 0 <= available_keys m
  /\ 0 <= failed_keys m
  /\ available_keys m + failed_keys m <= total_keys m
  /\ (Forall (fun r => r <> ResultOther) results ->
      available_keys m + failed_keys m = total_keys m).
Proof.
  cbn zeta. unfold calculate_performance_metrics.
  cbn [total_keys checked_keys available_keys failed_keys].
  destruct (loop_counts results
              {| n_available := 0; n_failed := 0; all_times := []; errors := ∅ |})
    as [Ha [Hf _]].
  cbn zeta in Ha, Hf. cbn [n_available n_failed] in Ha, Hf. rewrite Ha, Hf.
  pose proof (len_filter_bounds counted_available results) as Hba.
  pose proof (len_filter_bounds counted_failed results) as Hbf.
  destruct (len_filter_split results) as [Hsum Hall].
  destruct (existsb counted_failed results) eqn:E.
  - pose proof (filter_some_failed results E) as Hpos.
    replace (0 + len (List.filter counted_failed results) =? 0) with false
      by (symmetry; apply Z.eqb_neq; lia).
    repeat split; try lia. intros H. specialize (Hall H). lia.
  - rewrite (filter_none_failed results E) in *.
    change (0 + len (@nil Result) =? 0) with true. cbv iota.
    repeat split; try lia.
Qed.

(** *** The response times *)

Lemma fold_min (rest : list Q) :
  forall x,
    let m := foldl (fun m y => if Qltb y m then y else m) x rest in
    In m (x :: rest) /\ (forall t, In t (x :: rest) -> (m <= t)%Q).
Proof.
  induction rest as [| y rest IH]; intros x.
  - cbn. split; [left; reflexivity |]. intros t [<- | []]. apply Qle_refl.
  - cbn [foldl]. cbn zeta.
    destruct (Qltb y x) eqn:E.
    + apply Qltb_lt in E. destruct (IH y) as [Hin Hle]. cbn zeta in Hin, Hle. split.
      * right. exact Hin.
      * intros t [<- | Ht]; [| exact (Hle t Ht)].
        apply Qle_trans with y; [apply Hle; left; reflexivity | apply Qlt_le_weak, E].
    + apply Qltb_ge in E. destruct (IH x) as [Hin Hle]. cbn zeta in Hin, Hle. split.
      * destruct Hin as [Hin | Hin]; [left; exact Hin | right; right; exact Hin].
      * intros t [<- | [<- | Ht]].
        -- apply Hle. left. reflexivity.
        -- apply Qle_trans with x; [apply Hle; left; reflexivity | exact E].
        -- apply Hle. right. exact Ht.
Qed.

Lemma fold_max (rest : list Q) :
  forall x,
    let m := foldl (fun m y => if Qltb m y then y else m) x rest in
    In m (x :: rest) /\ (forall t, In t (x :: rest) -> (t <= m)%Q).
Proof.
  induction rest as [| y rest IH]; intros x.
  - cbn. split; [left; reflexivity |]. intros t [<- | []]. apply Qle_refl.
  - cbn [foldl]. cbn zeta.
    destruct (Qltb x y) eqn:E.
    + apply Qltb_lt in E. destruct (IH y) as [Hin Hle]. cbn zeta in Hin, Hle. split.
      * right. exact Hin.
      * intros t [<- | Ht]; [| exact (Hle t Ht)].
        apply Qle_trans with y; [apply Qlt_le_weak, E | apply Hle; left; reflexivity].
    + apply Qltb_ge in E. destruct (IH x) as [Hin Hle]. cbn zeta in Hin, Hle. split.
      * destruct Hin as [Hin | Hin]; [left; exact Hin | right; right; exact Hin].
      * intros t [<- | [<- | Ht]].
        -- apply Hle. left. reflexivity.
        -- apply Qle_trans with x; [exact E | apply Hle; left; reflexivity].
        -- apply Hle. right. exact Ht.
Qed.

Lemma sum_between (lo hi : Q) (ts : list Q) :
  (forall t, In t ts -> (lo <= t <= hi)%Q) ->
  (inject_Z (len ts) * lo <= Qsum ts <= inject_Z (len ts) * hi)%Q.
Proof.
  unfold len. induction ts as [| t ts IH]; intros H.
  - change (inject_Z (Z.of_nat (length (@nil Q)))) with 0%Q. unfold Qsum. cbn [fold_right].
    lra.
  - cbn [length Qsum fold_right]. fold (Qsum ts).
    rewrite Nat2Z.inj_succ. unfold Z.succ. rewrite inject_Z_plus.
    change (inject_Z 1) with 1%Q.
    assert (Ht : (lo <= t <= hi)%Q) by (apply H; left; reflexivity).
    assert (Hts : (inject_Z (Z.of_nat (length ts)) * lo <= Qsum ts
                   <= inject_Z (Z.of_nat (length ts)) * hi)%Q)
      by (apply IH; intros u Hu; apply H; right; exact Hu).
    lra.
Qed.

Lemma mean_between (lo hi : Q) (ts : list Q) :
  ts <> [] ->
  (forall t, In t ts -> (lo <= t <= hi)%Q) ->
  (lo <= mean ts <= hi)%Q /\ (mean ts * inject_Z (len ts) == Qsum ts)%Q.
Proof.
  intros Hne H. pose proof (sum_between lo hi ts H) as [Hlo Hhi].
  assert (Hn : (0 < inject_Z (len ts))%Q).
  { change 0%Q with (inject_Z 0). rewrite <- Zlt_Qlt. unfold len.
    destruct ts; [congruence | cbn [length]; lia]. }
  unfold mean. split; [split |].
  - apply Qle_shift_div_l; [exact Hn |]. lra.
  - apply Qle_shift_div_r; [exact Hn |]. lra.
  - field. lra.
Qed.

Lemma median_between (lo hi : Q) (ts : list Q) :
  ts <> [] ->
  (forall t, In t ts -> (lo <= t <= hi)%Q) ->
  exists mid, median ts = Some mid /\ (lo <= mid <= hi)%Q.
Proof.
  intros Hne H. unfold median.
  pose proof (merge_sort_Permutation Qle ts) as Hperm.
  set (data := merge_sort Qle ts) in *.
  assert (Hlen : length data = length ts) by (apply Permutation_length; exact Hperm).
  assert (Hpos : (0 < length data)%nat).
  { rewrite Hlen. destruct ts; [congruence | cbn [length]; lia]. }
  assert (Hnth : forall i, (i < length data)%nat -> (lo <= nth i data 0 <= hi)%Q).
  { intros i Hi. apply H. apply (Permutation_in _ Hperm). apply nth_In. exact Hi. }
  replace (length data =? 0)%nat with false by (symmetry; apply Nat.eqb_neq; lia).
  pose proof (Nat.div_mod_eq (length data) 2) as Hdiv.
  pose proof (Nat.mod_upper_bound (length data) 2 ltac:(lia)) as Hmod.
  change (length data `div` 2)%nat with (Nat.div (length data) 2) in *.
  change (length data `mod` 2)%nat with (Nat.modulo (length data) 2) in *.
  destruct (Nat.modulo (length data) 2 =? 1)%nat eqn:E.
  - apply Nat.eqb_eq in E. eexists. split; [reflexivity |]. apply Hnth. lia.
  - apply Nat.eqb_neq in E. eexists. split; [reflexivity |].
    assert (H1 : (lo <= nth (Nat.div (length data) 2 - 1) data 0 <= hi)%Q)
      by (apply Hnth; lia).
    assert (H2 : (lo <= nth (Nat.div (length data) 2) data 0 <= hi)%Q)
      by (apply Hnth; lia).
    split.
    + apply Qle_shift_div_l; lra.
    + apply Qle_shift_div_r; lra.
Qed.


(** *** The table of a run *)

Lemma run_results_counts (items : list (str * Metrics)) (available_links : gset str) :
  let results := results_for_metrics items available_links in
  Forall (fun r => r <> ResultOther) results
  /\ forallb no_error results = true
  /\ len results = len items
  /\ List.filter counted_available results
     = results_for_metrics
         (List.filter (fun item => bool_decide (item.1 ∈ available_links)) items)
         available_links.
Proof.
  cbn zeta. unfold len, results_for_metrics. induction items as [| [link m] items IH].
  - cbn. repeat split. constructor.
  - destruct IH as [H1 [H2 [H3 H4]]]. cbn [map List.filter fst forallb no_error andb length].
    split; [constructor; [discriminate | exact H1] |]. split; [exact H2 |].
    split; [lia |].
    destruct (bool_decide (link ∈ available_links)) eqn:E;
      cbn [counted_available map]; rewrite ?E, H4; reflexivity.
Qed.


End PerformanceFacts.
